(** * Strip packing: data model, bounds, placement heuristics, verifier

    A shallow embedding of the solver core of the strip-packing package
    ([spp/core.py], [spp/solvers/heuristics.py], [spp/solvers/metaheuristics.py],
    [spp/solvers/level_milp.py], [spp/solvers/milp.py]) and of the form that
    reads an instance ([gui_spp.py]), together with the properties its
    specification states about it and further properties of the code.

    Python integers are unbounded, so every [int] is a [Z].  A [float] the
    code computes with is a double, held as a binary fraction; a [float] it
    only compares with the clock is a rational.  Exceptions are the [Raise]
    branch of [result].  Lists are Python lists; [list.append] is [++ [_]],
    so placements keep the order in which the code emits them. *)

From Stdlib Require Import QArith.
From Stdlib Require Import ZArith List Bool Lia String Permutation Sorted.
Import ListNotations.
Open Scope Z_scope.

(** ** Exceptions and the error monad *)

Inductive exn : Type :=
| GeometryError (rect_id width strip_width : Z)
    (* ValueError(f"Rectangle {r.id} width {w_eff} exceeds strip width {W}") *)
| EmptySequence          (* ValueError: max() of an empty sequence *)
| ZeroDivisionError      (* A / W with W = 0 *)
| OverflowError          (* an integer, or a quotient of integers, beyond the floats *)
| IndexError             (* list index out of range *)
| KeyError (key : Z)     (* missing dictionary key *)
| StopIteration          (* next() on an exhausted generator *)
| ValueError             (* random.sample / random.randrange on too small a range *)
| UnknownPolicy.         (* ValueError("Unknown heuristic policy") *)

Inductive result (A : Type) : Type :=
| Ok (a : A)
| Raise (e : exn).
Arguments Ok {A} a.
Arguments Raise {A} e.

Definition bind {A B : Type} (c : result A) (k : A -> result B) : result B :=
  match c with
  | Ok a => k a
  | Raise e => Raise e
  end.

Notation "x <- c ;; k" := (bind c (fun x => k))
  (at level 61, c at next level, right associativity).

(** A [for] loop whose body may raise: the first exception leaves the loop. *)
Fixpoint for_each {S A : Type} (body : S -> A -> result S) (l : list A) (st : S)
  : result S :=
  match l with
  | [] => Ok st
  | a :: l' => st' <- body st a ;; for_each body l' st'
  end.

(** ** Python built-ins used by the code *)

Section Builtins.
Context {A : Type}.
Variable key : A -> Z.

(** [list.sort(key=key)] is stable: equal keys keep their original order.
    Insertion from the right realises exactly that order. *)
Fixpoint insert_by (a : A) (l : list A) : list A :=
  match l with
  | [] => [a]
  | b :: l' => if key a <=? key b then a :: l else b :: insert_by a l'
  end.

Definition sort_by (l : list A) : list A := fold_right insert_by [] l.

(** [list.sort(key=key, reverse=True)]: descending, still stable. *)
Fixpoint insert_by_rev (a : A) (l : list A) : list A :=
  match l with
  | [] => [a]
  | b :: l' => if key b <=? key a then a :: l else b :: insert_by_rev a l'
  end.

Definition sort_by_reverse (l : list A) : list A := fold_right insert_by_rev [] l.
End Builtins.

(** [max(iterable)]: raises on an empty iterable. *)
Definition py_max (l : list Z) : result Z :=
  match l with
  | [] => Raise EmptySequence
  | a :: l' => Ok (fold_left Z.max l' a)
  end.

(** [sum(iterable)]. *)
Definition py_sum (l : list Z) : Z := fold_left Z.add l 0.

(** [itertools.combinations(l, 2)]. *)
Fixpoint combinations2 {A : Type} (l : list A) : list (A * A) :=
  match l with
  | [] => []
  | a :: l' => map (pair a) l' ++ combinations2 l'
  end.

(** Equality of two Python sets of integers, each given by the list of
    elements it was built from. *)
Definition mem (a : Z) (l : list Z) : bool := existsb (Z.eqb a) l.
Definition set_eqb (l1 l2 : list Z) : bool :=
  forallb (fun a => mem a l2) l1 && forallb (fun b => mem b l1) l2.

(** [l[i]] with Python's negative indices. *)
Definition py_index {A : Type} (l : list A) (i : Z) : result A :=
  let n := Z.of_nat (List.length l) in
  let j := if i <? 0 then i + n else i in
  if (j <? 0) || (n <=? j) then Raise IndexError
  else match nth_error l (Z.to_nat j) with
       | Some a => Ok a
       | None => Raise IndexError
       end.

(** ** Floating point

    A finite double is [m * 2^e], held as the pair [(m, e)]. *)

(** [math.ceil(f)]. *)
Definition math_ceil (f : Z * Z) : Z :=
  let '(m, e) := f in
  if 0 <=? e then m * 2 ^ e else - ((- m) / 2 ^ (- e)).

(** The quotient [a / (b * 2^e)] of positive integers: its integer part,
    and twice the remainder compared with the divisor. *)
Definition scaled_div (a b e : Z) : Z * comparison :=
  let n := if 0 <=? e then a else a * 2 ^ (- e) in
  let d := if 0 <=? e then b * 2 ^ e else b in
  (n / d, (2 * (n mod d) ?= d)).

(** Rounding to the nearest integer, a tie to the even one. *)
Definition round_half_even (qc : Z * comparison) : Z :=
  match snd qc with
  | Lt => fst qc
  | Gt => fst qc + 1
  | Eq => if Z.even (fst qc) then fst qc else fst qc + 1
  end.

(** The exponent at which the quotient of [a] by [b] has the 53 bits of a
    double, and never less than the least exponent -1074 of a double. *)
Definition quotient_exponent (a b : Z) : Z :=
  let e1 := Z.log2 a - Z.log2 b - 52 in
  let e := if fst (scaled_div a b e1) <? 2 ^ 52 then e1 - 1 else e1 in
  Z.max e (-1074).

(** [a / b] on two integers: the double nearest to the quotient, a tie to
    the even one; a quotient too small for a double becomes zero, one that
    rounds to 2^1024 or more raises. *)
Definition py_truediv (a b : Z) : result (Z * Z) :=
  if b =? 0 then Raise ZeroDivisionError
  else if a =? 0 then Ok (0, 0)
  else
    let e := quotient_exponent (Z.abs a) (Z.abs b) in
    let m := round_half_even (scaled_div (Z.abs a) (Z.abs b) e) in
    if (0 <=? e) && (2 ^ 1024 <=? m * 2 ^ e) then Raise OverflowError
    else Ok (Z.sgn a * Z.sgn b * m, e).

(** The conversion of an integer that meets a [float] in an arithmetic
    operation: the nearest double, or [OverflowError]. *)
Definition py_float (a : Z) : result (Z * Z) := py_truediv a 1.

(** ** Data model ([spp/core.py]) *)

Module Rectangle.
Record t : Type := mk { id : Z; w : Z; h : Z; rotatable : bool }.
Definition area (r : t) : Z := w r * h r.
End Rectangle.

Module Placement.
Record t : Type :=
  mk { rect_id : Z; x : Z; y : Z; w_eff : Z; h_eff : Z; rotated : bool }.
End Placement.

(** A forbidden zone [(x, y, w, h)]. *)
Definition ForbiddenZone : Type := (Z * Z * Z * Z)%type.

Module Instance.
Record t : Type :=
  mk { W : Z;
       rectangles : list Rectangle.t;
       kerf_delta : Z;
       forbidden_zones : list ForbiddenZone }.

(** [math.ceil(A / self.W)]: the division is the one of floats. *)
Definition area_lb (i : t) : result Z :=
  let A := py_sum (map Rectangle.area (rectangles i)) in
  f <- py_truediv A (W i) ;;
  Ok (math_ceil f).

Definition maxh_lb (i : t) (allow_rotation : bool) : result Z :=
  if allow_rotation
  then py_max (map (fun r => Z.min (Rectangle.h r) (Rectangle.w r)) (rectangles i))
  else py_max (map Rectangle.h (rectangles i)).
End Instance.

Module Solution.
Record t : Type :=
  mk { H : Z;
       placements : list Placement.t;
       method : string;
       optimality : option string }.

(** [sol.method = m]: the one field the metaheuristics relabel. *)
Definition set_method (s : t) (m : string) : t :=
  mk (H s) (placements s) m (optimality s).

Definition separated (a b : Placement.t) : bool :=
  (Placement.x a + Placement.w_eff a <=? Placement.x b)
  || (Placement.x b + Placement.w_eff b <=? Placement.x a)
  || (Placement.y a + Placement.h_eff a <=? Placement.y b)
  || (Placement.y b + Placement.h_eff b <=? Placement.y a).

Definition inter (p : Placement.t) (z : ForbiddenZone) : bool :=
  let '(zx, zy, zw, zh) := z in
  let px1 := Placement.x p in
  let py1 := Placement.y p in
  let px2 := Placement.x p + Placement.w_eff p in
  let py2 := Placement.y p + Placement.h_eff p in
  let zx2 := zx + zw in
  let zy2 := zy + zh in
  negb ((px2 <=? zx) || (zx2 <=? px1) || (py2 <=? zy) || (zy2 <=? py1)).

Definition out_of_bounds (s : t) (instance : Instance.t) (p : Placement.t) : bool :=
  (Placement.x p <? 0) || (Placement.y p <? 0)
  || (Instance.W instance <? Placement.x p + Placement.w_eff p)
  || (H s <? Placement.y p + Placement.h_eff p).

Definition check_feasibility (s : t) (instance : Instance.t) : bool :=
  if existsb (out_of_bounds s instance) (placements s) then false
  else
    let ids := map Rectangle.id (Instance.rectangles instance) in
    if negb (set_eqb ids (map Placement.rect_id (placements s))) then false
    else if existsb (fun ab => negb (separated (fst ab) (snd ab)))
                    (combinations2 (placements s)) then false
    else if existsb (fun p => existsb (inter p) (Instance.forbidden_zones instance))
                    (placements s) then false
    else true.
End Solution.

(** ** Heuristic placement engine ([spp/solvers/heuristics.py]) *)

Inductive policy : Type := NFDH | Skyline | OtherPolicy.

(** A skyline segment [(x_start, width, height)]. *)
Definition segment : Type := (Z * Z * Z)%type.
Definition seg_x (s : segment) : Z := fst (fst s).
Definition seg_w (s : segment) : Z := snd (fst s).
Definition seg_h (s : segment) : Z := snd s.

Module HeuristicSolver.

Record t : Type :=
  mk { instance : Instance.t;
       allow_rotation : bool;
       policy_ : policy;
       guillotine : bool }.

Definition _orient (rect : Rectangle.t) (allow_rotation prefer_low : bool)
  : Z * Z * bool :=
  if negb allow_rotation || negb (Rectangle.rotatable rect)
  then (Rectangle.w rect, Rectangle.h rect, false)
  else if prefer_low
       then if Rectangle.h rect <=? Rectangle.w rect
            then (Rectangle.w rect, Rectangle.h rect, false)
            else (Rectangle.h rect, Rectangle.w rect, true)
       else (Rectangle.w rect, Rectangle.h rect, false).

(** *** Shelf policy *)

Record shelf : Type :=
  mk_shelf { x : Z; shelf_y : Z; shelf_h : Z; first_in_shelf : bool;
             placed : list Placement.t }.

Definition shelf0 : shelf := mk_shelf 0 0 0 true [].

Definition nfdh_step (W d : Z) (allow_rotation : bool)
           (st : shelf) (r : Rectangle.t) : result shelf :=
  let '(w_eff, h_eff, rotated) := _orient r allow_rotation true in
  if W <? w_eff then Raise (GeometryError (Rectangle.id r) w_eff W)
  else
    let extra := if first_in_shelf st then 0 else d in
    if x st + extra + w_eff <=? W then
      let x1 := x st + (if first_in_shelf st then 0 else d) in
      Ok (mk_shelf (x1 + w_eff) (shelf_y st) (Z.max (shelf_h st) h_eff) false
                   (placed st ++ [Placement.mk (Rectangle.id r) x1 (shelf_y st)
                                               w_eff h_eff rotated]))
    else
      let y1 := shelf_y st + (shelf_h st + (if 0 <? shelf_h st then d else 0)) in
      Ok (mk_shelf (0 + w_eff) y1 h_eff false
                   (placed st ++ [Placement.mk (Rectangle.id r) 0 y1
                                               w_eff h_eff rotated])).

Definition nfdh_items (rects : list Rectangle.t) (allow_rotation : bool)
  : list (Rectangle.t * Z) :=
  sort_by_reverse snd
    (map (fun r => (r, snd (fst (_orient r allow_rotation true)))) rects).

Definition _nfdh (self : t) : result Solution.t :=
  let W := Instance.W (instance self) in
  let d := Instance.kerf_delta (instance self) in
  let items := nfdh_items (Instance.rectangles (instance self)) (allow_rotation self) in
  st <- for_each (nfdh_step W d (allow_rotation self)) (map fst items) shelf0 ;;
  Ok (Solution.mk (shelf_y st + shelf_h st) (placed st)
                  "Heuristic-NFDH" (Some "feasible"%string)).

(** *** Skyline policy *)

(** The test that replaces [best] by [cand] in [find_position]: lower [y]
    first, then smaller [x]. *)
Definition better (cand best : Z * Z * nat) : bool :=
  (snd (fst cand) <? snd (fst best))
  || ((snd (fst cand) =? snd (fst best)) && (fst (fst cand) <? fst (fst best))).

(** The scan of [find_position] from index [i] on, [best] so far. *)
Fixpoint find_position_from (skyline : list segment) (i : nat) (w_eff : Z)
         (best : option (Z * Z * nat)) : option (Z * Z * nat) :=
  match skyline with
  | [] => best
  | (xs, width, y) :: rest =>
      if width <? w_eff then find_position_from rest (S i) w_eff best
      else
        let cand := (xs, y, i) in
        match best with
        | None => find_position_from rest (S i) w_eff (Some cand)
        | Some b =>
            if better cand b
            then find_position_from rest (S i) w_eff (Some cand)
            else find_position_from rest (S i) w_eff best
        end
  end.

Definition find_position (skyline : list segment) (w_eff h_eff : Z)
  : option (Z * Z * nat) :=
  find_position_from skyline 0%nat w_eff None.

(** The [while] loop of [update_skyline]: what remains of one segment. *)
Definition cut (x x_end : Z) (s : segment) : list segment :=
  let '(xs, width, sy) := s in
  let xe := xs + width in
  if (xe <=? x) || (x_end <=? xs) then [s]
  else (if xs <? x then [(xs, x - xs, sy)] else [])
         ++ (if x_end <? xe then [(x_end, xe - x_end, sy)] else []).

(** The merging loop: [cur] is [merged[-1]], the segment still open. *)
Fixpoint merge_from (cur : segment) (rest : list segment) : list segment :=
  match rest with
  | [] => [cur]
  | seg :: rest' =>
      let '(px, pw, py) := cur in
      let '(sx, sw, sy) := seg in
      if (py =? sy) && (px + pw =? sx)
      then merge_from (px, pw + sw, py) rest'
      else cur :: merge_from seg rest'
  end.

Definition merge (updated : list segment) : list segment :=
  match updated with
  | [] => []
  | seg :: rest => merge_from seg rest
  end.

Definition update_skyline (skyline : list segment) (x w_eff y h_eff : Z)
  : list segment :=
  let x_end := x + w_eff in
  let new_seg := (x, w_eff, y + h_eff) in
  let updated := flat_map (cut x x_end) skyline ++ [new_seg] in
  merge (sort_by seg_x updated).

Record profile : Type :=
  mk_profile { skyline : list segment; placements : list Placement.t }.

Definition skyline_step (W : Z) (allow_rotation : bool)
           (st : profile) (r : Rectangle.t) : result profile :=
  let '(w_eff, h_eff, rotated) := _orient r allow_rotation true in
  if W <? w_eff then Raise (GeometryError (Rectangle.id r) w_eff W)
  else
    xy <- match find_position (skyline st) w_eff h_eff with
          | None => y <- py_max (map seg_h (skyline st)) ;; Ok (0, y)
          | Some (x, y, _) => Ok (x, y)
          end ;;
    let '(x, y) := xy in
    Ok (mk_profile (update_skyline (skyline st) x w_eff y h_eff)
                   (placements st ++ [Placement.mk (Rectangle.id r) x y
                                                   w_eff h_eff rotated])).

Definition skyline_key (allow_rotation : bool) (r : Rectangle.t) : Z :=
  if allow_rotation then Z.max (Rectangle.h r) (Rectangle.w r) else Rectangle.h r.

Definition top (p : Placement.t) : Z := Placement.y p + Placement.h_eff p.

Definition skyline_height (placements : list Placement.t) : result Z :=
  match placements with
  | [] => Ok 0
  | _ => py_max (map top placements)
  end.

Definition _skyline (self : t) : result Solution.t :=
  if guillotine self then _nfdh self
  else
    let W := Instance.W (instance self) in
    let rects := sort_by_reverse (skyline_key (allow_rotation self))
                                 (Instance.rectangles (instance self)) in
    st <- for_each (skyline_step W (allow_rotation self)) rects
                   (mk_profile [(0, W, 0)] []) ;;
    H <- skyline_height (placements st) ;;
    Ok (Solution.mk H (placements st) "Heuristic-Skyline" (Some "feasible"%string)).

Definition solve (self : t) : result Solution.t :=
  match policy_ self with
  | NFDH => _nfdh self
  | Skyline => _skyline self
  | OtherPolicy => Raise UnknownPolicy
  end.

End HeuristicSolver.

(** ** Metaheuristic search ([spp/solvers/metaheuristics.py]) *)

Inductive strategy : Type := GA | SA | Tabu.

Definition strategy_name (s : strategy) : string :=
  match s with
  | GA => "GA"
  | SA => "SA"
  | Tabu => "Tabu"
  end.

(** [next(r for r in rectangles if r.id == rid)]. *)
Definition first_with_id (rectangles : list Rectangle.t) (rid : Z)
  : result Rectangle.t :=
  match find (fun r => Rectangle.id r =? rid) rectangles with
  | Some r => Ok r
  | None => Raise StopIteration
  end.

(** The random source and the wall clock, given by the values their calls
    return.  The first index is the loop round (or the number of the random
    solution), the following ones the call within the round.  [rounds]
    counts the rounds of a loop that the test of the clock against the time
    limit lets in; a loop without such a test does not read it. *)
Module Random.
Record t : Type :=
  mk { shuffle : nat -> list Z;
       (* the list [random.shuffle] leaves in the k-th random solution *)
       randint : nat -> nat -> Z;
       (* [random.randint(0, 1)] for a position of the k-th random solution *)
       rounds : nat;
       (* loop rounds entered before the deadline *)
       sample : nat -> nat -> nat * nat;
       (* [random.sample(range(n), 2)] of a swap move *)
       randrange : nat -> nat -> nat;
       (* [random.randrange(n)] of a bit flip *)
       coin : nat -> nat -> bool;
       (* outcome of a test [random.random() < p] on a move *)
       choice : nat -> nat -> nat;
       (* index taken by [random.choice(pool[:m])] *)
       cut : nat -> nat -> nat * nat;
       (* [random.sample(range(n), 2)] of a crossover *)
       pick : nat -> nat -> nat -> bool;
       (* [random.choice([u, v])] takes [u] *)
       flips : nat -> nat -> nat -> bool;
       (* outcome of the per-bit mutation test *)
       pop : nat -> nat
       (* position of the element [set.pop()] removes *) }.
End Random.

(** [l[i]] and [l[i] = v] for an index from [range(len(l))]. *)
Definition py_get (l : list Z) (i : nat) : result Z :=
  match nth_error l i with
  | Some a => Ok a
  | None => Raise IndexError
  end.

Fixpoint py_set (l : list Z) (i : nat) (v : Z) : result (list Z) :=
  match l, i with
  | [], _ => Raise IndexError
  | _ :: l', O => Ok (v :: l')
  | a :: l', S i' => l'' <- py_set l' i' v ;; Ok (a :: l'')
  end.

(** [l[i], l[j] = l[j], l[i]]. *)
Definition swap (l : list Z) (i j : nat) : result (list Z) :=
  a <- py_get l i ;;
  b <- py_get l j ;;
  l1 <- py_set l i b ;;
  py_set l1 j a.

(** [l[k] ^= 1]. *)
Definition flip (l : list Z) (k : nat) : result (list Z) :=
  b <- py_get l k ;;
  py_set l k (Z.lxor b 1).

(** [random.sample(range(n), 2)] raises when [n < 2]. *)
Definition sample2 (n : nat) (drawn : nat * nat) : result (nat * nat) :=
  if (n <? 2)%nat then Raise ValueError else Ok drawn.

(** [random.randrange(n)] raises when [n = 0]. *)
Definition randrange (n : nat) (drawn : nat) : result nat :=
  if (n =? 0)%nat then Raise ValueError else Ok drawn.

Module MetaheuristicSolver.

Record t : Type :=
  mk { instance : Instance.t;
       allow_rotation : bool;
       strategy_ : strategy;
       time_limit : option Q;
       population : nat;
       elite : nat }.

(** The truth value of [self.time_limit]: [None] and [0.0] are false. *)
Definition timed (self : t) : bool :=
  match time_limit self with
  | Some q => negb (Qeq_bool q 0)
  | None => false
  end.

(** [{r.id: r for r in rectangles}[rid]]: a later rectangle with the
    same id replaces an earlier one. *)
Definition id_to_rect (rectangles : list Rectangle.t) (rid : Z)
  : result Rectangle.t :=
  match find (fun r => Rectangle.id r =? rid) (rev rectangles) with
  | Some r => Ok r
  | None => Raise (KeyError rid)
  end.

(** Body of the loop over [zip(perm, orient_bits)]; the bit is bound and
    not read. *)
Definition reorder_step (self : t) (rects : list Rectangle.t) (rb : Z * Z)
  : result (list Rectangle.t) :=
  let '(rid, bit) := rb in
  r <- id_to_rect (Instance.rectangles (instance self)) rid ;;
  let rr := Rectangle.mk (Rectangle.id r) (Rectangle.w r) (Rectangle.h r)
                         (Rectangle.rotatable r && allow_rotation self) in
  Ok (rects ++ [rr]).

Definition _decode (self : t) (perm orient_bits : list Z) : result Solution.t :=
  rects <- for_each (reorder_step self) (combine perm orient_bits) [] ;;
  let tmp_inst := Instance.mk (Instance.W (instance self)) rects
                              (Instance.kerf_delta (instance self))
                              (Instance.forbidden_zones (instance self)) in
  let hs := HeuristicSolver.mk tmp_inst (allow_rotation self) Skyline false in
  sol <- HeuristicSolver.solve hs ;;
  Ok (Solution.set_method sol
        ("Meta-" ++ strategy_name (strategy_ self) ++ "-SkylineDecode")%string).

(** One bit of [_random_solution]: the draw where the code draws, else 0. *)
Definition forced_bit (self : t) (rid draw : Z) : result Z :=
  if allow_rotation self
  then r <- first_with_id (Instance.rectangles (instance self)) rid ;;
       Ok (if Rectangle.rotatable r then draw else 0)
  else Ok 0.

(** [_random_solution], given what [random.shuffle] leaves and the draws
    of [random.randint(0, 1)] by position. *)
Definition _random_solution (self : t) (shuffled : list Z) (draw : nat -> Z)
  : result (list Z * list Z) :=
  bits <- for_each (fun bits kr => b <- forced_bit self (snd kr) (draw (fst kr)) ;;
                                   Ok (bits ++ [b]))
                   (combine (seq 0 (List.length shuffled)) shuffled) [] ;;
  Ok (shuffled, bits).

(** A pool entry [(sol.H, perm, bits, sol)]. *)
Definition individual : Type := (Z * list Z * list Z * Solution.t)%type.
Definition ind_H (t : individual) : Z := fst (fst (fst t)).
Definition ind_perm (t : individual) : list Z := snd (fst (fst t)).
Definition ind_bits (t : individual) : list Z := snd (fst t).
Definition ind_sol (t : individual) : Solution.t := snd t.

Definition better_of (cand best : Solution.t) : Solution.t :=
  if Solution.H cand <? Solution.H best then cand else best.

(** *** Genetic algorithm *)

(** The loop that fills the [None] slots of the child from [fill]. *)
Definition fill_step (fill : list Z) (st : list Z * nat) (c : option Z)
  : result (list Z * nat) :=
  match c with
  | Some v => Ok (fst st ++ [v], snd st)
  | None => v <- py_get fill (snd st) ;; Ok (fst st ++ [v], S (snd st))
  end.

Definition in_child (child : list (option Z)) (x : Z) : bool :=
  existsb (fun c => match c with Some v => v =? x | None => false end) child.

Definition _ox_crossover (p1 p2 : list Z) (drawn : nat * nat) : result (list Z) :=
  let n := List.length p1 in
  ab <- sample2 n drawn ;;
  let a := Nat.min (fst ab) (snd ab) in
  let b := Nat.max (fst ab) (snd ab) in
  let child := repeat None a
               ++ map Some (firstn (b + 1 - a) (skipn a p1))
               ++ repeat None (n - (b + 1)) in
  let fill := filter (fun x => negb (in_child child x)) p2 in
  st <- for_each (fill_step fill) child ([], 0%nat) ;;
  Ok (fst st).

Definition _bit_crossover (b1 b2 : list Z) (pick : nat -> bool) : list Z :=
  map (fun kuv => if pick (fst kuv) then fst (snd kuv) else snd (snd kuv))
      (combine (seq 0 (List.length b1)) (combine b1 b2)).

Definition _mutate (perm bits : list Z) (hit : bool) (drawn : nat * nat)
           (flips : nat -> bool) : result (list Z * list Z) :=
  let n := List.length perm in
  perm' <- (if hit && (2 <=? n)%nat
            then ij <- sample2 n drawn ;; swap perm (fst ij) (snd ij)
            else Ok perm) ;;
  bits' <- for_each (fun bits k => if flips k then flip bits k else Ok bits)
                    (seq 0 n) bits ;;
  Ok (perm', bits').

Definition py_choice (l : list individual) (i : nat) : result individual :=
  match nth_error l i with
  | Some a => Ok a
  | None => Raise IndexError
  end.

Definition init_step (self : t) (rnd : Random.t) (pool : list individual) (k : nat)
  : result (list individual) :=
  pb <- _random_solution self (Random.shuffle rnd k) (Random.randint rnd k) ;;
  sol <- _decode self (fst pb) (snd pb) ;;
  Ok (pool ++ [(Solution.H sol, fst pb, snd pb, sol)]).

Definition ga_child (self : t) (rnd : Random.t) (g : nat) (pool : list individual)
           (new_pool : list individual) (c : nat) : result (list individual) :=
  let parents := firstn (Nat.max 2 (population self / 2)) pool in
  p1 <- py_choice parents (Random.choice rnd g (2 * c)) ;;
  p2 <- py_choice parents (Random.choice rnd g (2 * c + 1)) ;;
  child_perm <- _ox_crossover (ind_perm p1) (ind_perm p2) (Random.cut rnd g c) ;;
  let child_bits := _bit_crossover (ind_bits p1) (ind_bits p2) (Random.pick rnd g c) in
  m <- _mutate child_perm child_bits (Random.coin rnd g c) (Random.sample rnd g c)
               (Random.flips rnd g c) ;;
  sol <- _decode self (fst m) (snd m) ;;
  Ok (new_pool ++ [(Solution.H sol, fst m, snd m, sol)]).

Definition ga_generation (self : t) (rnd : Random.t)
           (st : list individual * Solution.t) (g : nat)
  : result (list individual * Solution.t) :=
  let '(pool, best) := st in
  let elites := firstn (elite self) pool in
  new_pool <- for_each (ga_child self rnd g pool)
                       (seq 0 (population self - List.length elites)) elites ;;
  match sort_by ind_H new_pool with
  | [] => Raise IndexError
  | top :: rest =>
      Ok (top :: rest, if ind_H top <? Solution.H best then ind_sol top else best)
  end.

(** The [while] loop always tests the clock, against [self.time_limit or
    5.0]. *)
Definition _run_ga (self : t) (rnd : Random.t) : result Solution.t :=
  pool <- for_each (init_step self rnd) (seq 0 (population self)) [] ;;
  match sort_by ind_H pool with
  | [] => Raise IndexError
  | top :: rest =>
      st <- for_each (ga_generation self rnd) (seq 0 (Random.rounds rnd))
                     (top :: rest, ind_sol top) ;;
      Ok (snd st)
  end.

(** *** Simulated annealing *)

Definition sa_step (self : t) (rnd : Random.t)
           (st : list Z * list Z * Solution.t * Solution.t) (it : nat)
  : result (list Z * list Z * Solution.t * Solution.t) :=
  let '(start_perm, start_bits, cur_sol, best) := st in
  ij <- sample2 (List.length start_perm) (Random.sample rnd it 0) ;;
  cand_p <- swap start_perm (fst ij) (snd ij) ;;
  k <- randrange (List.length start_bits) (Random.randrange rnd it 0) ;;
  cand_b <- flip start_bits k ;;
  cand_sol <- _decode self cand_p cand_b ;;
  let dH := Solution.H cand_sol - Solution.H cur_sol in
  let accepted := (cand_p, cand_b, cand_sol, better_of cand_sol best) in
  if dH <? 0 then Ok accepted
  else
    (* [random.random() < math.exp(-dH / max(T, 1e-6))]: the division by
       a float turns [-dH] into a float first *)
    _ <- py_float (- dH) ;;
    if Random.coin rnd it 0 then Ok accepted else Ok st.

(** The [for] loop has [max_iter = 10000] rounds; the clock leaves it
    earlier only when a time limit is set. *)
Definition sa_rounds (self : t) (rnd : Random.t) : nat :=
  if timed self then Nat.min (Random.rounds rnd) (100 * 100) else (100 * 100)%nat.

Definition _run_sa (self : t) (rnd : Random.t) : result Solution.t :=
  pb <- _random_solution self (Random.shuffle rnd 0) (Random.randint rnd 0) ;;
  cur_sol <- _decode self (fst pb) (snd pb) ;;
  st <- for_each (sa_step self rnd) (seq 0 (sa_rounds self rnd))
                 (fst pb, snd pb, cur_sol, cur_sol) ;;
  Ok (snd st).

(** *** Tabu search *)

Definition tabu_key : Type := (Z * Z)%type.

Definition key_eqb (k1 k2 : tabu_key) : bool :=
  (fst k1 =? fst k2) && (snd k1 =? snd k2).

Definition in_tabu (k : tabu_key) (tabu : list tabu_key) : bool :=
  existsb (key_eqb k) tabu.

(** [tabu.add(k)] and [tabu.pop()] on the set held as a duplicate-free list. *)
Definition tabu_add (k : tabu_key) (tabu : list tabu_key) : list tabu_key :=
  if in_tabu k tabu then tabu else tabu ++ [k].

Definition tabu_pop (i : nat) (tabu : list tabu_key) : list tabu_key :=
  firstn i tabu ++ skipn (S i) tabu.

Definition tabu_move (self : t) (rnd : Random.t) (g : nat) (perm bits : list Z)
           (tabu : list tabu_key) (neighborhood : list individual) (m : nat)
  : result (list individual) :=
  ij <- sample2 (List.length perm) (Random.sample rnd g m) ;;
  pi <- py_get perm (fst ij) ;;
  pj <- py_get perm (snd ij) ;;
  if in_tabu (Z.min pi pj, Z.max pi pj) tabu then Ok neighborhood
  else
    cand_p <- swap perm (fst ij) (snd ij) ;;
    cand_b <- (if Random.coin rnd g m
               then k <- randrange (List.length bits) (Random.randrange rnd g m) ;;
                    flip bits k
               else Ok bits) ;;
    cand <- _decode self cand_p cand_b ;;
    Ok (neighborhood ++ [(Solution.H cand, cand_p, cand_b, cand)]).

(** The [while] loop, one round per element of [gs].  An empty
    neighbourhood leaves the loop with [best].  When the rounds are used up,
    a loop with a time limit has met it and returns [best]; a loop without
    one ([while not self.time_limit or ...]) has no other way out and is
    still running: [None]. *)
Fixpoint tabu_loop (self : t) (rnd : Random.t) (tenure : nat) (gs : list nat)
         (perm bits : list Z) (best : Solution.t) (tabu : list tabu_key)
  : result (option Solution.t) :=
  match gs with
  | [] => Ok (if timed self then Some best else None)
  | g :: gs' =>
      neighborhood <- for_each (tabu_move self rnd g perm bits tabu) (seq 0 30) [] ;;
      match sort_by ind_H neighborhood with
      | [] => Ok (Some best)
      | best_nei :: _ =>
          let perm' := ind_perm best_nei in
          p0 <- py_index perm' 0 ;;
          pl <- py_index perm' (-1) ;;
          let tabu1 := tabu_add (Z.min p0 pl, Z.max p0 pl) tabu in
          let tabu2 := if (tenure <? List.length tabu1)%nat
                       then tabu_pop (Random.pop rnd g) tabu1 else tabu1 in
          tabu_loop self rnd tenure gs' perm' (ind_bits best_nei)
                    (better_of (ind_sol best_nei) best) tabu2
      end
  end.

(** Rounds of the [while] loop that are looked at: those the clock lets in
    when there is a time limit, the first [fuel] ones when there is none. *)
Definition tabu_rounds (self : t) (rnd : Random.t) (fuel : nat) : nat :=
  if timed self then Random.rounds rnd else fuel.

Definition _run_tabu (self : t) (rnd : Random.t) (fuel : nat)
  : result (option Solution.t) :=
  pb <- _random_solution self (Random.shuffle rnd 0) (Random.randint rnd 0) ;;
  cur <- _decode self (fst pb) (snd pb) ;;
  let tenure := Nat.max 5 (List.length (fst pb) / 10) in
  tabu_loop self rnd tenure (seq 0 (tabu_rounds self rnd fuel)) (fst pb) (snd pb) cur [].

(** [solve]: [Ok (Some sol)] when it returns [sol], [Raise e] when it
    raises, [Ok None] when the tabu loop without a time limit is still
    running after [fuel] rounds. *)
Definition solve (self : t) (rnd : Random.t) (fuel : nat)
  : result (option Solution.t) :=
  match strategy_ self with
  | GA => sol <- _run_ga self rnd ;; Ok (Some sol)
  | SA => sol <- _run_sa self rnd ;; Ok (Some sol)
  | Tabu => _run_tabu self rnd fuel
  end.

(** Rounds of its main loop that a strategy may enter. *)
Definition rounds_allowed (self : t) (rnd : Random.t) (fuel : nat) : nat :=
  match strategy_ self with
  | GA => Random.rounds rnd
  | SA => sa_rounds self rnd
  | Tabu => tabu_rounds self rnd fuel
  end.

End MetaheuristicSolver.

(** ** Level model ([spp/solvers/level_milp.py]) *)

(** What the MILP backend reports for the variables of the level model:
    [pulp.value(v) or 0] for each variable. *)
Module LevelValues.
Record t : Type :=
  mk { u : nat -> Z;
       s : nat -> Z;
       zH : Z -> nat -> Z;
       zV : Z -> nat -> Z;
       H : Z }.
End LevelValues.

Module LevelMilpSolver.

Record t : Type :=
  mk { instance : Instance.t;
       allow_rotation : bool;
       max_levels : option Z;
       time_limit : option Z }.

(** [L = self.max_levels or n]. *)
Definition levels (self : t) : Z :=
  let n := Z.of_nat (List.length (Instance.rectangles (instance self))) in
  match max_levels self with
  | Some m => if m =? 0 then n else m
  | None => n
  end.

Definition range (L : Z) : list nat := seq 0 (Z.to_nat L).

(** [zV[rid][ell] if self.allow_rotation else 0]. *)
Definition zV_term (self : t) (v : LevelValues.t) (rid : Z) (ell : nat) : Z :=
  if allow_rotation self then LevelValues.zV v rid ell else 0.

Definition sumZ {A : Type} (f : A -> Z) (l : list A) : Z :=
  py_sum (map f l).

Definition rect_w (self : t) (rid : Z) : Z :=
  match first_with_id (Instance.rectangles (instance self)) rid with
  | Ok r => Rectangle.w r
  | Raise _ => 0
  end.

Definition rect_h (self : t) (rid : Z) : Z :=
  match first_with_id (Instance.rectangles (instance self)) rid with
  | Ok r => Rectangle.h r
  | Raise _ => 0
  end.

Definition binary (v : Z) : Prop := v = 0 \/ v = 1.

(** The constraints added to the model, in the order of the source, read
    on the reported values. *)
Record model (self : t) (v : LevelValues.t) : Prop :=
  { bounds_u : forall ell, In ell (range (levels self)) -> binary (LevelValues.u v ell);
    bounds_s : forall ell, In ell (range (levels self)) -> 0 <= LevelValues.s v ell;
    bounds_H : 0 <= LevelValues.H v;
    bounds_zH : forall rid ell,
        In rid (map Rectangle.id (Instance.rectangles (instance self))) ->
        In ell (range (levels self)) -> binary (LevelValues.zH v rid ell);
    bounds_zV : forall rid ell,
        allow_rotation self = true ->
        In rid (map Rectangle.id (Instance.rectangles (instance self))) ->
        In ell (range (levels self)) -> binary (LevelValues.zV v rid ell);
    assignment : forall rid,
        In rid (map Rectangle.id (Instance.rectangles (instance self))) ->
        sumZ (fun ell => LevelValues.zH v rid ell + zV_term self v rid ell)
             (range (levels self)) = 1;
    width_per_level : forall ell,
        In ell (range (levels self)) ->
        let ids := map Rectangle.id (Instance.rectangles (instance self)) in
        let count_ell :=
          sumZ (fun rid => LevelValues.zH v rid ell + zV_term self v rid ell) ids in
        let width_ell :=
          sumZ (fun rid => rect_w self rid * LevelValues.zH v rid ell
                           + rect_h self rid * zV_term self v rid ell) ids in
        width_ell + Instance.kerf_delta (instance self) * (count_ell - 1)
        <= Instance.W (instance self) * LevelValues.u v ell;
    height_per_level : forall ell rid,
        In ell (range (levels self)) ->
        In rid (map Rectangle.id (Instance.rectangles (instance self))) ->
        rect_h self rid * LevelValues.zH v rid ell <= LevelValues.s v ell
        /\ (allow_rotation self = true ->
            rect_w self rid * LevelValues.zV v rid ell <= LevelValues.s v ell);
    non_increasing : forall ell,
        In ell (range (levels self - 1)) ->
        LevelValues.s v (S ell) <= LevelValues.s v ell;
    total_height :
      LevelValues.H v = sumZ (LevelValues.s v) (range (levels self));
    lower_bounds : forall a m,
        Instance.area_lb (instance self) = Ok a ->
        Instance.maxh_lb (instance self) (allow_rotation self) = Ok m ->
        a <= LevelValues.H v /\ m <= LevelValues.H v }.

(** Rebuilding the placements from the reported values. *)

Definition on_level (self : t) (v : LevelValues.t) (ell : nat) (rid : Z) : bool :=
  (0 <? LevelValues.zH v rid ell)
  || (allow_rotation self && (0 <? LevelValues.zV v rid ell)).

Definition is_rotated (self : t) (v : LevelValues.t) (ell : nat) (rid : Z) : bool :=
  allow_rotation self && (0 <? LevelValues.zV v rid ell).

Definition eff_h (self : t) (v : LevelValues.t) (ell : nat) (rid : Z) : Z :=
  if is_rotated self v ell rid then rect_w self rid else rect_h self rid.

Record row : Type := mk_row { x : Z; first : bool; placed : list Placement.t }.

Definition place_step (self : t) (v : LevelValues.t) (ell : nat) (y : Z)
           (st : row) (rid : Z) : result row :=
  rect <- first_with_id (Instance.rectangles (instance self)) rid ;;
  let rotated := is_rotated self v ell rid in
  let wv := if rotated then Rectangle.h rect else Rectangle.w rect in
  let hv := if rotated then Rectangle.w rect else Rectangle.h rect in
  let x1 := if first st then x st else x st + Instance.kerf_delta (instance self) in
  Ok (mk_row (x1 + wv) false
             (placed st ++ [Placement.mk rid x1 y wv hv rotated])).

Definition level_step (self : t) (v : LevelValues.t)
           (st : Z * list Placement.t) (ell : nat) : result (Z * list Placement.t) :=
  let '(y, placements) := st in
  let s_val := LevelValues.s v ell in
  if s_val <=? 0 then Ok st
  else
    let ids := map Rectangle.id (Instance.rectangles (instance self)) in
    let ids_on := sort_by_reverse (eff_h self v ell)
                                  (filter (on_level self v ell) ids) in
    r <- for_each (place_step self v ell y) ids_on (mk_row 0 true placements) ;;
    Ok (y + (s_val + (if 0 <? s_val then Instance.kerf_delta (instance self) else 0)),
        placed r).

(** [solve], given the values [v] and the status [status_str] the backend
    returns.  Both bounds are evaluated while the model is built. *)
Definition solve (self : t) (v : LevelValues.t) (status_str : string)
  : result Solution.t :=
  _ <- Instance.area_lb (instance self) ;;
  _ <- Instance.maxh_lb (instance self) (allow_rotation self) ;;
  st <- for_each (level_step self v) (range (levels self)) (0, []) ;;
  let placements := snd st in
  let H_val := match placements with
               | [] => 0
               | p :: ps => fold_left Z.max (map HeuristicSolver.top ps)
                                      (HeuristicSolver.top p)
               end in
  Ok (Solution.mk H_val placements "MILP-ShelfLevel" (Some status_str)).

End LevelMilpSolver.

(** ** Coordinate model ([spp/solvers/milp.py]) *)

(** Reported values of the coordinate model; [None] is Python's [None]. *)
Module CoordValues.
Record t : Type :=
  mk { x : Z -> option Z;
       y : Z -> option Z;
       r : Z -> option Z;
       H : option Z }.
End CoordValues.

(** [v or d] on an optional integer: [None] and [0] are falsy. *)
Definition py_or (v : option Z) (d : Z) : Z :=
  match v with
  | Some a => if a =? 0 then d else a
  | None => d
  end.

Module MilpSolver.

Record t : Type :=
  mk { instance : Instance.t;
       allow_rotation : bool;
       warm_start : bool;
       guide_radius : Z }.

(** [{p.rect_id: p for p in placements}.get(rid)]. *)
Definition by_id_get (placements : list Placement.t) (rid : Z) : option Placement.t :=
  find (fun p => Placement.rect_id p =? rid) (rev placements).

(** One seeded variable triple: id, x, y and the rotation value when one
    is set. *)
Definition seed : Type := (Z * Z * Z * option Z)%type.

Definition warm_step (self : t) (hsol : Solution.t) (seeds : list seed) (rid : Z)
  : result (list seed) :=
  match by_id_get (Solution.placements hsol) rid with
  | None => Ok seeds
  | Some p =>
      rot <- (if allow_rotation self
              then rc <- py_index (Instance.rectangles (instance self)) (rid - 1) ;;
                   Ok (Rectangle.rotatable rc)
              else Ok false) ;;
      Ok (seeds ++ [(rid, Placement.x p, Placement.y p,
                     if rot then Some (if Placement.rotated p then 1 else 0)
                     else None)])
  end.

(** [solve] up to the call of the backend, with the backend present:
    heuristic seed, bounds, and the warm start.  Building the constraints
    raises nothing. *)
Definition prepare (self : t) : result (Z * Z * list seed) :=
  hsol <- HeuristicSolver.solve
            (HeuristicSolver.mk (instance self) (allow_rotation self) Skyline false) ;;
  m <- Instance.maxh_lb (instance self) (allow_rotation self) ;;
  let H_ub := Z.max (Solution.H hsol) m in
  a <- Instance.area_lb (instance self) ;;
  let LB := Z.max a m in
  let ids := map Rectangle.id (Instance.rectangles (instance self)) in
  seeds <- (if warm_start self then for_each (warm_step self hsol) ids []
            else Ok []) ;;
  Ok (LB, H_ub, seeds).

(** Reading the placements back from the reported values. *)
Definition read_placement (self : t) (v : CoordValues.t) (rect : Rectangle.t)
  : Placement.t :=
  let xi := py_or (CoordValues.x v (Rectangle.id rect)) 0 in
  let yi := py_or (CoordValues.y v (Rectangle.id rect)) 0 in
  if allow_rotation self && Rectangle.rotatable rect then
    let ri := py_or (CoordValues.r v (Rectangle.id rect)) 0 in
    Placement.mk (Rectangle.id rect) xi yi
                 (if ri =? 1 then Rectangle.h rect else Rectangle.w rect)
                 (if ri =? 1 then Rectangle.w rect else Rectangle.h rect)
                 (negb (ri =? 0))
  else Placement.mk (Rectangle.id rect) xi yi (Rectangle.w rect) (Rectangle.h rect) false.

Definition build (self : t) (v : CoordValues.t) (status_str : string)
  : result Solution.t :=
  let placements := map (read_placement self v) (Instance.rectangles (instance self)) in
  H_val <- match CoordValues.H v with
           | Some a => if a =? 0 then py_max (map HeuristicSolver.top placements)
                       else Ok a
           | None => py_max (map HeuristicSolver.top placements)
           end ;;
  Ok (Solution.mk H_val placements "MILP-Coordinate-Extended" (Some status_str)).

Definition solve (self : t) (v : CoordValues.t) (status_str : string)
  : result Solution.t :=
  _ <- prepare self ;;
  build self v status_str.

End MilpSolver.

(** ** Instances used as concrete inputs *)

(** Scenario E: two 4x3 rectangles, strip width 10, kerf 2. *)
Definition kerf_instance : Instance.t :=
  Instance.mk 10 [Rectangle.mk 1 4 3 true; Rectangle.mk 2 4 3 true] 2 [].

(** One 4x3 rectangle and a forbidden zone covering the bottom row. *)
Definition zone_instance : Instance.t :=
  Instance.mk 10 [Rectangle.mk 1 4 3 true] 0 [(0, 0, 10, 1)].

(** One rotatable 3x12 rectangle: it fits the strip as given. *)
Definition tall_instance : Instance.t :=
  Instance.mk 10 [Rectangle.mk 1 3 12 true] 0 [].

(** One 3x6 rectangle that must not be rotated. *)
Definition lock_instance : Instance.t :=
  Instance.mk 10 [Rectangle.mk 1 3 6 false] 0 [].

Definition lock_solver : LevelMilpSolver.t :=
  LevelMilpSolver.mk lock_instance true None None.

Definition lock_values : LevelValues.t :=
  LevelValues.mk (fun _ => 1) (fun _ => 3) (fun _ _ => 0) (fun _ _ => 1) 3.

(** One rotatable 6x2 rectangle, already in its lowest orientation. *)
Definition flat_instance : Instance.t :=
  Instance.mk 10 [Rectangle.mk 1 6 2 true] 0 [].

(** Four unit squares. *)
Definition four_instance : Instance.t :=
  Instance.mk 10 [Rectangle.mk 1 1 1 true; Rectangle.mk 2 1 1 true;
                  Rectangle.mk 3 1 1 true; Rectangle.mk 4 1 1 true] 0 [].

(** A single rectangle whose id is not its position. *)
Definition sparse_instance : Instance.t :=
  Instance.mk 10 [Rectangle.mk 5 2 2 true] 0 [].

(** One rectangle of width 1 whose area, 2^53 + 3, is no double. *)
Definition rounding_instance : Instance.t :=
  Instance.mk 1 [Rectangle.mk 1 1 (2 ^ 53 + 3) false] 0 [].

(** Two 6x3 rectangles that cannot share a level of width 10. *)
Definition crowded_instance : Instance.t :=
  Instance.mk 10 [Rectangle.mk 1 6 3 false; Rectangle.mk 2 6 3 false] 0 [].

(** Ids -1 and 0: positions -2 and -1 counted from the end of the list. *)
Definition wrap_instance : Instance.t :=
  Instance.mk 10 [Rectangle.mk (-1) 4 3 true; Rectangle.mk 0 4 3 false] 0 [].

(** An id above the list length on a rectangle wider than the strip. *)
Definition wide_sparse_instance : Instance.t :=
  Instance.mk 1 [Rectangle.mk 5 3 3 false] 0 [].

(** What the warm start gives a rectangle: the position of the placement
    the seed has for its id, and a rotation value when rotation is allowed
    and the rectangle at list position [rid - 1] is rotatable. *)
Definition seeded_from (self : MilpSolver.t) (hsol : Solution.t)
           (r : Rectangle.t) (s : MilpSolver.seed) : Prop :=
  exists p rc,
    MilpSolver.by_id_get (Solution.placements hsol) (Rectangle.id r) = Some p
    /\ py_index (Instance.rectangles (MilpSolver.instance self)) (Rectangle.id r - 1)
       = Ok rc
    /\ s = (Rectangle.id r, Placement.x p, Placement.y p,
            if MilpSolver.allow_rotation self && Rectangle.rotatable rc
            then Some (if Placement.rotated p then 1 else 0)
            else None).

(** ** Well-formed instances and loop invariants *)

(** The data model's constraints on an instance: positive strip width and
    rectangle sides, non-negative kerf, unique ids. *)
Definition positive_sides (r : Rectangle.t) : Prop :=
  0 < Rectangle.w r /\ 0 < Rectangle.h r.

Record well_formed (inst : Instance.t) : Prop :=
  { wf_W : 0 < Instance.W inst;
    wf_kerf : 0 <= Instance.kerf_delta inst;
    wf_dims : Forall positive_sides (Instance.rectangles inst);
    wf_ids : NoDup (map Rectangle.id (Instance.rectangles inst)) }.

(** Sizes at which the float division of [area_lb] loses nothing: a total
    area below 2^53, and a width that the least double does not round
    away. *)
Definition double_exact (inst : Instance.t) : Prop :=
  py_sum (map Rectangle.area (Instance.rectangles inst)) < 2 ^ 53
  /\ Instance.W inst < 2 ^ 1075.

Definition area_of (p : Placement.t) : Z := Placement.w_eff p * Placement.h_eff p.

Definition apart (a b : Placement.t) : Prop := Solution.separated a b = true.

(** A placement inside the strip, with positive sides. *)
Definition in_strip (W : Z) (p : Placement.t) : Prop :=
  0 <= Placement.x p /\ 0 <= Placement.y p
  /\ 0 < Placement.w_eff p /\ 0 < Placement.h_eff p
  /\ Placement.x p + Placement.w_eff p <= W.

(** A placement lies on a closed shelf below the running one, or on the
    running shelf to the left of the cursor. *)
Definition shelved (st : HeuristicSolver.shelf) (p : Placement.t) : Prop :=
  Placement.y p + Placement.h_eff p <= HeuristicSolver.shelf_y st
  \/ (Placement.y p = HeuristicSolver.shelf_y st
      /\ Placement.x p + Placement.w_eff p <= HeuristicSolver.x st
      /\ Placement.h_eff p <= HeuristicSolver.shelf_h st).

Record shelf_inv (W d : Z) (st : HeuristicSolver.shelf) : Prop :=
  { si_x : 0 <= HeuristicSolver.x st <= W;
    si_y : 0 <= HeuristicSolver.shelf_y st;
    si_h : 0 <= HeuristicSolver.shelf_h st;
    si_first : HeuristicSolver.first_in_shelf st = true ->
               HeuristicSolver.placed st = [] /\ HeuristicSolver.x st = 0
               /\ HeuristicSolver.shelf_h st = 0;
    si_open : HeuristicSolver.first_in_shelf st = false ->
              exists p, In p (HeuristicSolver.placed st)
                        /\ Placement.y p = HeuristicSolver.shelf_y st
                        /\ Placement.h_eff p = HeuristicSolver.shelf_h st;
    si_strip : Forall (in_strip W) (HeuristicSolver.placed st);
    si_shelved : Forall (shelved st) (HeuristicSolver.placed st);
    si_apart : ForallOrdPairs apart (HeuristicSolver.placed st);
    si_area : py_sum (map area_of (HeuristicSolver.placed st))
              <= W * HeuristicSolver.shelf_y st
                 + HeuristicSolver.x st * HeuristicSolver.shelf_h st;
    si_last : forall pre p, HeuristicSolver.placed st = pre ++ [p] ->
                            Placement.y p = HeuristicSolver.shelf_y st
                            /\ HeuristicSolver.x st = Placement.x p + Placement.w_eff p;
    si_adjacent : forall pre p q post,
        HeuristicSolver.placed st = pre ++ p :: q :: post ->
        Placement.y q = Placement.y p ->
        Placement.x q = Placement.x p + Placement.w_eff p + d }.

(** The placement a heuristic emits for a rectangle: its id and its
    preferred-low orientation. *)
Definition placement_of (allow_rotation : bool) (r : Rectangle.t) (q : Placement.t)
  : Prop :=
  Placement.rect_id q = Rectangle.id r
  /\ HeuristicSolver._orient r allow_rotation true
     = (Placement.w_eff q, Placement.h_eff q, Placement.rotated q).

(** *** The skyline profile *)

(** [chain a b l]: the segments of [l] have positive width, start at [a],
    each starts where the previous one ends, and the last ends at [b]. *)
Inductive chain : Z -> Z -> list segment -> Prop :=
| chain_nil (a : Z) : chain a a []
| chain_cons (a b w h : Z) (l : list segment) :
    0 < w -> chain (a + w) b l -> chain a b ((a, w, h) :: l).

(** No two neighbours share a height. *)
Fixpoint merged (l : list segment) : Prop :=
  match l with
  | s1 :: (s2 :: _) as l' => seg_h s1 <> seg_h s2 /\ merged l'
  | _ => True
  end.

(** The integer abscissa [t] lies under the segment. *)
Definition covers (s : segment) (t : Z) : Prop :=
  seg_x s <= t < seg_x s + seg_w s.

Definition seg_area (s : segment) : Z := seg_w s * seg_h s.

(** Length of the part of a segment inside [[x, x_end)]. *)
Definition overlap (x x_end : Z) (s : segment) : Z :=
  Z.max 0 (Z.min (seg_x s + seg_w s) x_end - Z.max (seg_x s) x).

(** The profile as the claim describes it. *)
Record skyline_ok (W : Z) (l : list segment) : Prop :=
  { sk_chain : chain 0 W l;
    sk_merged : merged l;
    sk_sorted : StronglySorted (fun s1 s2 => seg_x s1 + seg_w s1 <= seg_x s2) l;
    sk_width : py_sum (map seg_w l) = W }.

(** A position [(x, y)] fit for an item of width [w]: inside the strip
    and not below the profile anywhere under the item. *)
Definition spot_ok (W : Z) (l : list segment) (x w y : Z) : Prop :=
  0 <= x /\ x + w <= W /\ 0 <= y
  /\ forall s t, In s l -> covers s t -> x <= t < x + w -> seg_h s <= y.

Record profile_inv (W : Z) (st : HeuristicSolver.profile) : Prop :=
  { pi_chain : chain 0 W (HeuristicSolver.skyline st);
    pi_merged : merged (HeuristicSolver.skyline st);
    pi_floor : Forall (fun s => 0 <= seg_h s) (HeuristicSolver.skyline st);
    pi_strip : Forall (in_strip W) (HeuristicSolver.placements st);
    pi_under : forall p s t,
        In p (HeuristicSolver.placements st) -> In s (HeuristicSolver.skyline st) ->
        Placement.x p <= t < Placement.x p + Placement.w_eff p -> covers s t ->
        HeuristicSolver.top p <= seg_h s;
    pi_apart : ForallOrdPairs apart (HeuristicSolver.placements st);
    pi_area : py_sum (map area_of (HeuristicSolver.placements st))
              <= py_sum (map seg_area (HeuristicSolver.skyline st));
    pi_tops : Forall (fun s => seg_h s = 0
                               \/ exists p, In p (HeuristicSolver.placements st)
                                            /\ HeuristicSolver.top p = seg_h s)
                     (HeuristicSolver.skyline st) }.

(** *** Packings built on a skyline profile *)

(** [sol] places a reordering of the rectangles, each in its preferred-low
    orientation, along a run of the skyline loop, and its height is the
    highest top. *)
Definition skyline_packing (inst : Instance.t) (allow_rotation : bool)
           (sol : Solution.t) : Prop :=
  exists rs st,
    Permutation rs (Instance.rectangles inst)
    /\ Forall2 (placement_of allow_rotation) rs (Solution.placements sol)
    /\ profile_inv (Instance.W inst) st
    /\ Solution.placements sol = HeuristicSolver.placements st
    /\ HeuristicSolver.skyline_height (HeuristicSolver.placements st)
       = Ok (Solution.H sol).

(** A search state of the metaheuristics: a permutation of the ids and
    one bit per position. *)
Definition candidate (inst : Instance.t) (perm bits : list Z) : Prop :=
  Permutation perm (map Rectangle.id (Instance.rectangles inst))
  /\ List.length bits = List.length perm.

(** The random source shuffles: every shuffled list is a permutation of
    the ids. *)
Definition shuffles (rnd : Random.t) (inst : Instance.t) : Prop :=
  forall k, Permutation (Random.shuffle rnd k)
                        (map Rectangle.id (Instance.rectangles inst)).

(** The rectangle the decoder hands to the skyline policy. *)
Definition relabel (allow_rotation : bool) (r : Rectangle.t) : Rectangle.t :=
  Rectangle.mk (Rectangle.id r) (Rectangle.w r) (Rectangle.h r)
               (Rectangle.rotatable r && allow_rotation).

(** *** Reading the level model back *)

(** Width an item takes on a level, and what its placement there is. *)
Definition level_eff_w (self : LevelMilpSolver.t) (v : LevelValues.t)
           (ell : nat) (rid : Z) : Z :=
  if LevelMilpSolver.is_rotated self v ell rid
  then LevelMilpSolver.rect_h self rid else LevelMilpSolver.rect_w self rid.

Definition level_slot (self : LevelMilpSolver.t) (v : LevelValues.t)
           (ell : nat) (y : Z) (rid : Z) (q : Placement.t) : Prop :=
  Placement.rect_id q = rid /\ Placement.y q = y
  /\ Placement.w_eff q = level_eff_w self v ell rid
  /\ Placement.h_eff q = LevelMilpSolver.eff_h self v ell rid.

(** State of the loop over levels: every placement ends at or below the
    running [y], and the placed area fits under some placement top. *)
Record levels_inv (W : Z) (st : Z * list Placement.t) : Prop :=
  { li_y : 0 <= fst st;
    li_tops : Forall (fun q => 0 <= Placement.y q /\ 0 <= area_of q
                               /\ HeuristicSolver.top q <= fst st) (snd st);
    li_area : exists M, 0 <= M <= fst st
                        /\ py_sum (map area_of (snd st)) <= W * M
                        /\ (snd st <> [] ->
                            exists q, In q (snd st) /\ M <= HeuristicSolver.top q) }.

(** Width a rectangle takes in the orientation the heuristics give it. *)
Definition oriented_width (allow_rotation : bool) (r : Rectangle.t) : Z :=
  fst (fst (HeuristicSolver._orient r allow_rotation true)).

(** No placement of [sol] turns a rectangle of [inst] that is locked. *)
Definition lock_respected (inst : Instance.t) (sol : Solution.t) : Prop :=
  forall q r, In q (Solution.placements sol) -> In r (Instance.rectangles inst) ->
              Rectangle.id r = Placement.rect_id q ->
              Rectangle.rotatable r = false -> Placement.rotated q = false.

(** Height a rectangle takes in the orientation the heuristics give it. *)
Definition oriented_height (allow_rotation : bool) (r : Rectangle.t) : Z :=
  snd (fst (HeuristicSolver._orient r allow_rotation true)).

(** Every placement of the list stands on the floor of the strip or on
    the top edge of a placement emitted before it. *)
Definition supported (pl : list Placement.t) : Prop :=
  forall pre q post, pl = pre ++ q :: post ->
    Placement.y q = 0
    \/ exists p, In p pre /\ HeuristicSolver.top p = Placement.y q.

(** A random source whose every call returns the same value: the shuffle
    leaves [ids], swaps and cuts draw the first two positions, no coin
    falls on the accepting side. *)
Definition steady_source (ids : list Z) (rounds : nat) : Random.t :=
  Random.mk (fun _ => ids) (fun _ _ => 0) rounds
            (fun _ _ => (0%nat, 1%nat)) (fun _ _ => 0%nat) (fun _ _ => false)
            (fun _ _ => 0%nat) (fun _ _ => (0%nat, 1%nat)) (fun _ _ _ => true)
            (fun _ _ _ => false) (fun _ => 0%nat).

(** The random source answers inside the ranges its calls are given:
    positions of [random.sample(range(n), 2)] and [random.randrange(n)] lie
    below [n], and [random.choice] takes an element of the slice
    [pool[:max(2, population // 2)]] of a pool of [population] entries. *)
Record in_range (rnd : Random.t) (n population : nat) : Prop :=
  { ir_sample : forall g m, (fst (Random.sample rnd g m) < n)%nat
                            /\ (snd (Random.sample rnd g m) < n)%nat;
    ir_randrange : forall g m, (Random.randrange rnd g m < n)%nat;
    ir_choice : forall g c, (Random.choice rnd g c
                             < Nat.min (Nat.max 2 (population / 2)) population)%nat;
    ir_cut : forall g c, (fst (Random.cut rnd g c) < n)%nat
                         /\ (snd (Random.cut rnd g c) < n)%nat }.

(** Any two placements of the list keep the kerf [d] between them along one
    axis. *)
Definition kerf_apart (d : Z) (pl : list Placement.t) : Prop :=
  ForallOrdPairs
    (fun a b => Placement.x a + Placement.w_eff a + d <= Placement.x b
                \/ Placement.x b + Placement.w_eff b + d <= Placement.x a
                \/ Placement.y a + Placement.h_eff a + d <= Placement.y b
                \/ Placement.y b + Placement.h_eff b + d <= Placement.y a) pl.

(** A placement lies at least one kerf below the running shelf, or on it
    to the left of the cursor. *)
Definition kerf_shelved (d : Z) (st : HeuristicSolver.shelf) (p : Placement.t) : Prop :=
  HeuristicSolver.top p + d <= HeuristicSolver.shelf_y st
  \/ (Placement.y p = HeuristicSolver.shelf_y st
      /\ Placement.x p + Placement.w_eff p <= HeuristicSolver.x st
      /\ Placement.h_eff p <= HeuristicSolver.shelf_h st).

(** State of the loop over levels, for feasibility: the placements made so
    far lie in the strip, end at least one kerf below the running [y], carry
    ids of the instance, and keep the kerf between each other. *)
Record stacked (W d : Z) (ids : list Z) (st : Z * list Placement.t) : Prop :=
  { sk_y : 0 <= fst st;
    sk_in : Forall (fun q => 0 <= Placement.x q /\ 0 <= Placement.y q
                             /\ Placement.x q + Placement.w_eff q <= W
                             /\ HeuristicSolver.top q + d <= fst st
                             /\ In (Placement.rect_id q) ids) (snd st);
    sk_apart : kerf_apart d (snd st) }.

(** ** Constraints of the coordinate model, read on the reported values

    The binaries that select, for a pair of items or for an item and a
    zone, the side on which the two are kept apart are reported beside the
    values of [CoordValues].  [holds] lists the bounds of the variables, the
    strip bounds, the non-overlap disjunctions and the forbidden-zone
    disjunctions as the source adds them; the lower bounds on [H], the anchor
    of the tallest item and the guide box only narrow the values further. *)
Module CoordModel.

Record sides : Type :=
  mk_sides { bL : Z -> Z -> Z; bR : Z -> Z -> Z; bU : Z -> Z -> Z; bD : Z -> Z -> Z;
             zL : Z -> nat -> Z; zR : Z -> nat -> Z; zU : Z -> nat -> Z;
             zD : Z -> nat -> Z }.

(** [w_eff(rect)] and [h_eff(rect)]: linear in [r[rect.id]]. *)
Definition w_eff (self : MilpSolver.t) (v : CoordValues.t) (rect : Rectangle.t) : Z :=
  if negb (MilpSolver.allow_rotation self) || negb (Rectangle.rotatable rect)
  then Rectangle.w rect
  else (1 - py_or (CoordValues.r v (Rectangle.id rect)) 0) * Rectangle.w rect
       + py_or (CoordValues.r v (Rectangle.id rect)) 0 * Rectangle.h rect.

Definition h_eff (self : MilpSolver.t) (v : CoordValues.t) (rect : Rectangle.t) : Z :=
  if negb (MilpSolver.allow_rotation self) || negb (Rectangle.rotatable rect)
  then Rectangle.h rect
  else (1 - py_or (CoordValues.r v (Rectangle.id rect)) 0) * Rectangle.h rect
       + py_or (CoordValues.r v (Rectangle.id rect)) 0 * Rectangle.w rect.

Record holds (self : MilpSolver.t) (v : CoordValues.t) (b : sides) (Mx My : Z) : Prop :=
  { lower_x : forall rid,
      In rid (map Rectangle.id (Instance.rectangles (MilpSolver.instance self))) ->
      0 <= py_or (CoordValues.x v rid) 0;
    lower_y : forall rid,
      In rid (map Rectangle.id (Instance.rectangles (MilpSolver.instance self))) ->
      0 <= py_or (CoordValues.y v rid) 0;
    binary_r : forall rid,
      MilpSolver.allow_rotation self = true ->
      In rid (map Rectangle.id (Instance.rectangles (MilpSolver.instance self))) ->
      LevelMilpSolver.binary (py_or (CoordValues.r v rid) 0);
    strip_bounds : forall rect,
      In rect (Instance.rectangles (MilpSolver.instance self)) ->
      py_or (CoordValues.x v (Rectangle.id rect)) 0 + w_eff self v rect
      <= Instance.W (MilpSolver.instance self)
      /\ py_or (CoordValues.y v (Rectangle.id rect)) 0 + h_eff self v rect
         <= py_or (CoordValues.H v) 0;
    non_overlap : forall i j Ri Rj,
      In (i, j) (combinations2
                   (map Rectangle.id (Instance.rectangles (MilpSolver.instance self)))) ->
      first_with_id (Instance.rectangles (MilpSolver.instance self)) i = Ok Ri ->
      first_with_id (Instance.rectangles (MilpSolver.instance self)) j = Ok Rj ->
      let d := Instance.kerf_delta (MilpSolver.instance self) in
      let xi := py_or (CoordValues.x v i) 0 in
      let yi := py_or (CoordValues.y v i) 0 in
      let xj := py_or (CoordValues.x v j) 0 in
      let yj := py_or (CoordValues.y v j) 0 in
      LevelMilpSolver.binary (bL b i j) /\ LevelMilpSolver.binary (bR b i j)
      /\ LevelMilpSolver.binary (bU b i j) /\ LevelMilpSolver.binary (bD b i j)
      /\ bL b i j + bR b i j + bU b i j + bD b i j = 1
      /\ xi + w_eff self v Ri + d <= xj + Mx * (1 - bL b i j)
      /\ xj + w_eff self v Rj + d <= xi + Mx * (1 - bR b i j)
      /\ yi + h_eff self v Ri + d <= yj + My * (1 - bD b i j)
      /\ yj + h_eff self v Rj + d <= yi + My * (1 - bU b i j);
    zones : forall rid k zx zy zw zh Rct,
      In rid (map Rectangle.id (Instance.rectangles (MilpSolver.instance self))) ->
      nth_error (Instance.forbidden_zones (MilpSolver.instance self)) k
      = Some (zx, zy, zw, zh) ->
      first_with_id (Instance.rectangles (MilpSolver.instance self)) rid = Ok Rct ->
      let d := Instance.kerf_delta (MilpSolver.instance self) in
      let x := py_or (CoordValues.x v rid) 0 in
      let y := py_or (CoordValues.y v rid) 0 in
      LevelMilpSolver.binary (zL b rid k) /\ LevelMilpSolver.binary (zR b rid k)
      /\ LevelMilpSolver.binary (zU b rid k) /\ LevelMilpSolver.binary (zD b rid k)
      /\ zL b rid k + zR b rid k + zU b rid k + zD b rid k = 1
      /\ x + w_eff self v Rct <= zx + Mx * (1 - zL b rid k)
      /\ zx + zw <= x + Mx * (1 - zR b rid k)
      /\ y + h_eff self v Rct + d <= zy + My * (1 - zD b rid k)
      /\ zy + zh + d <= y + My * (1 - zU b rid k) }.

End CoordModel.

(** Two 4x3 rectangles on a strip of width 10 with kerf 2 whose bottom row
    is forbidden, and values of the coordinate model for it: both items side
    by side above the zone. *)
Definition fenced_instance : Instance.t :=
  Instance.mk 10 [Rectangle.mk 1 4 3 true; Rectangle.mk 2 4 3 true] 2 [(0, 0, 10, 1)].

Definition fenced_values : CoordValues.t :=
  CoordValues.mk (fun rid => Some (if rid =? 1 then 0 else 6)) (fun _ => Some 3)
                 (fun _ => Some 0) (Some 6).

Definition fenced_sides : CoordModel.sides :=
  CoordModel.mk_sides (fun _ _ => 1) (fun _ _ => 0) (fun _ _ => 0) (fun _ _ => 0)
                      (fun _ _ => 0) (fun _ _ => 0) (fun _ _ => 1) (fun _ _ => 0).

(** ** Reading an instance from the form ([gui_spp.py])

    [_collect_instance], given what each [int(entry.get())] and each
    [row.get_values()] returns; [None] stands for the [ValueError] that
    [int] raises on text that is no number.  The calls are made in the order
    of the arguments, rows from first to last. *)
Module SPPApp.

Inductive form_error : Type :=
| BadNumber                 (* int() on text that is no number *)
| DuplicateId (rid : Z)     (* ValueError(f"Διπλό id ορθογωνίου: {rid}") *)
| NonPositiveSide           (* ValueError("Τα w,h πρέπει να είναι θετικά.") *)
| NonPositiveZone.          (* ValueError("Οι διαστάσεις forbidden zone ...") *)

Inductive checked (A : Type) : Type :=
| Accepted (a : A)
| Rejected (e : form_error).
Arguments Accepted {A} a.
Arguments Rejected {A} e.

Definition parsed {A : Type} (v : option A) : checked A :=
  match v with
  | Some a => Accepted a
  | None => Rejected BadNumber
  end.

(** The loop over [self.rect_rows]; [seen] is the set of ids met so far. *)
Fixpoint collect_rects (rows : list (option (Z * Z * Z * bool)))
         (rects : list Rectangle.t) (seen : list Z) : checked (list Rectangle.t) :=
  match rows with
  | [] => Accepted rects
  | row :: rows' =>
      match parsed row with
      | Rejected e => Rejected e
      | Accepted (rid, w, h, rot) =>
          if mem rid seen then Rejected (DuplicateId rid)
          else if (w <=? 0) || (h <=? 0) then Rejected NonPositiveSide
          else collect_rects rows' (rects ++ [Rectangle.mk rid w h rot]) (seen ++ [rid])
      end
  end.

(** The loop over [self.fz_rows]. *)
Fixpoint collect_zones (rows : list (option (Z * Z * Z * Z)))
         (fz : list ForbiddenZone) : checked (list ForbiddenZone) :=
  match rows with
  | [] => Accepted fz
  | row :: rows' =>
      match parsed row with
      | Rejected e => Rejected e
      | Accepted (x, y, w, h) =>
          if (w <=? 0) || (h <=? 0) then Rejected NonPositiveZone
          else collect_zones rows' (fz ++ [(x, y, w, h)])
      end
  end.

Definition _collect_instance (W kerf : option Z)
           (rect_rows : list (option (Z * Z * Z * bool)))
           (fz_rows : list (option (Z * Z * Z * Z))) : checked Instance.t :=
  match parsed W with
  | Rejected e => Rejected e
  | Accepted W' =>
      match parsed kerf with
      | Rejected e => Rejected e
      | Accepted kerf' =>
          match collect_rects rect_rows [] [] with
          | Rejected e => Rejected e
          | Accepted rects =>
              match collect_zones fz_rows [] with
              | Rejected e => Rejected e
              | Accepted fz => Accepted (Instance.mk W' rects kerf' fz)
              end
          end
      end
  end.

End SPPApp.

(** * Properties *)

(** ** The error monad *)

Lemma bind_ok {A B : Type} (c : result A) (k : A -> result B) (b : B) :
  bind c k = Ok b -> exists a, c = Ok a /\ k a = Ok b.
Proof.
  destruct c as [a|e]; simpl; intros E; [exists a; auto | discriminate].
Qed.

Lemma for_each_app {S A : Type} (body : S -> A -> result S) (l1 l2 : list A) (st : S) :
  for_each body (l1 ++ l2) st = (st' <- for_each body l1 st ;; for_each body l2 st').
Proof.
  revert st; induction l1 as [|a l1 IH]; intros st; simpl; [reflexivity|].
  destruct (body st a); simpl; auto.
Qed.

(** A loop invariant: a property kept by every successful round holds of
    the state the loop ends with. *)
Lemma for_each_invariant {S A : Type} (body : S -> A -> result S)
      (P : S -> Prop) (Q : A -> Prop) :
  (forall st a st', Q a -> P st -> body st a = Ok st' -> P st') ->
  forall l st st', Forall Q l -> P st -> for_each body l st = Ok st' -> P st'.
Proof.
  intros Hstep l; induction l as [|a l IH]; intros st st' HQ HP E; simpl in E.
  - inversion E; subst; assumption.
  - inversion HQ as [|a' l' Ha Hl]; subst.
    apply bind_ok in E as (st1 & E1 & E2).
    apply (IH st1 st' Hl); [|exact E2].
    exact (Hstep st a st1 Ha HP E1).
Qed.

(** ** Empty instances *)

(** C8: on an instance without rectangles both policies return height 0
    and no placement, whatever the width, kerf, zones and flags. *)
Theorem empty_instance_zero_height :
  forall (W d : Z) (zones : list ForbiddenZone) (allow_rotation guillotine : bool),
    let inst := Instance.mk W [] d zones in
    HeuristicSolver.solve (HeuristicSolver.mk inst allow_rotation NFDH guillotine)
    = Ok (Solution.mk 0 [] "Heuristic-NFDH" (Some "feasible"%string))
    /\ exists m,
      HeuristicSolver.solve (HeuristicSolver.mk inst allow_rotation Skyline guillotine)
      = Ok (Solution.mk 0 [] m (Some "feasible"%string)).
Proof.
  intros W d zones ar g inst; split.
  - reflexivity.
  - destruct g; eexists; reflexivity.
Qed.

(** ** Number of levels *)

(** C6, as stated: the default number of levels is half the item count
    rounded up, plus one.  Four rectangles give four levels, not three. *)
Lemma default_levels_not_half :
  ~ (forall self : LevelMilpSolver.t,
        LevelMilpSolver.max_levels self = None ->
        LevelMilpSolver.levels self
        = - ((- Z.of_nat (List.length (Instance.rectangles
                                         (LevelMilpSolver.instance self)))) / 2) + 1).
Proof.
  intros Hall.
  specialize (Hall (LevelMilpSolver.mk four_instance true None None) eq_refl).
  vm_compute in Hall. discriminate.
Qed.

(** C6, amended: without a caller-supplied maximum the number of levels
    is the number of rectangles. *)
Theorem default_levels_item_count :
  forall (inst : Instance.t) (allow_rotation : bool) (time_limit : option Z),
    LevelMilpSolver.levels (LevelMilpSolver.mk inst allow_rotation None time_limit)
    = Z.of_nat (List.length (Instance.rectangles inst)).
Proof. reflexivity. Qed.

(** ** Orientation *)

Lemma orient_locked (r : Rectangle.t) (allow_rotation prefer_low : bool) :
  Rectangle.rotatable r = false ->
  HeuristicSolver._orient r allow_rotation prefer_low
  = (Rectangle.w r, Rectangle.h r, false).
Proof.
  intros Hr; unfold HeuristicSolver._orient; rewrite Hr.
  now rewrite orb_true_r.
Qed.

Lemma orient_cases (r : Rectangle.t) (allow_rotation : bool) :
  HeuristicSolver._orient r allow_rotation true = (Rectangle.w r, Rectangle.h r, false)
  \/ (allow_rotation = true /\ Rectangle.rotatable r = true
      /\ Rectangle.w r < Rectangle.h r
      /\ HeuristicSolver._orient r allow_rotation true
         = (Rectangle.h r, Rectangle.w r, true)).
Proof.
  unfold HeuristicSolver._orient.
  destruct allow_rotation, (Rectangle.rotatable r); simpl; auto.
  destruct (Rectangle.h r <=? Rectangle.w r) eqn:E; auto.
  right; repeat split; auto. apply Z.leb_gt in E; lia.
Qed.

(** C4: a rotatable 3x12 rectangle fits a strip of width 10 unrotated, so
    its least achievable width does not exceed the strip; with rotation
    allowed both policies still raise, naming id 1, width 12 and strip
    width 10, and with rotation disallowed both return a solution. *)
Theorem geometry_error_on_fitting_rectangle :
  Z.min 3 12 <= Instance.W tall_instance
  /\ HeuristicSolver.solve (HeuristicSolver.mk tall_instance true NFDH false)
     = Raise (GeometryError 1 12 10)
  /\ HeuristicSolver.solve (HeuristicSolver.mk tall_instance true Skyline false)
     = Raise (GeometryError 1 12 10)
  /\ (exists sol, HeuristicSolver.solve (HeuristicSolver.mk tall_instance false NFDH false)
                  = Ok sol)
  /\ (exists sol, HeuristicSolver.solve (HeuristicSolver.mk tall_instance false Skyline false)
                  = Ok sol).
Proof.
  repeat split; try (vm_compute; congruence); eexists; vm_compute; reflexivity.
Qed.

(** ** The decoder and the orientation bits *)

Lemma reorder_ignores_bits (self : MetaheuristicSolver.t) :
  forall (perm bits1 bits2 : list Z) (acc : list Rectangle.t),
    List.length bits1 = List.length bits2 ->
    for_each (MetaheuristicSolver.reorder_step self) (combine perm bits1) acc
    = for_each (MetaheuristicSolver.reorder_step self) (combine perm bits2) acc.
Proof.
  induction perm as [|rid perm IH]; intros bits1 bits2 acc Hlen; [reflexivity|].
  destruct bits1 as [|b1 bits1], bits2 as [|b2 bits2]; simpl in Hlen |- *;
    try discriminate; [reflexivity|].
  destruct (MetaheuristicSolver.id_to_rect _ rid); simpl; [|reflexivity].
  apply IH; lia.
Qed.

Lemma decode_ignores_bits (self : MetaheuristicSolver.t) (perm bits1 bits2 : list Z) :
  List.length bits1 = List.length bits2 ->
  MetaheuristicSolver._decode self perm bits1 = MetaheuristicSolver._decode self perm bits2.
Proof.
  intros Hlen; unfold MetaheuristicSolver._decode.
  now rewrite (reorder_ignores_bits self perm bits1 bits2 [] Hlen).
Qed.

(** C5: for the rotatable 6x2 rectangle the decoder returns the same
    unrotated placement under bit 1 and under bit 0: the bit does not
    select the orientation. *)
Theorem decode_bit_has_no_effect :
  let self := MetaheuristicSolver.mk flat_instance true GA (Some 5%Q) 40 4 in
  let sol := Solution.mk 2 [Placement.mk 1 0 0 6 2 false]
                         "Meta-GA-SkylineDecode" (Some "feasible"%string) in
  MetaheuristicSolver._random_solution self [1] (fun _ => 1) = Ok ([1], [1])
  /\ MetaheuristicSolver._decode self [1] [1] = Ok sol
  /\ MetaheuristicSolver._decode self [1] [0] = Ok sol.
Proof. repeat split. Qed.

(** ** Orientation lock in the level model *)

Lemma lock_values_model : LevelMilpSolver.model lock_solver lock_values.
Proof.
  constructor; simpl.
  - intros ell _; right; reflexivity.
  - intros ell _; lia.
  - lia.
  - intros rid ell _ _; left; reflexivity.
  - intros rid ell _ _ _; right; reflexivity.
  - intros rid _; reflexivity.
  - intros ell _. vm_compute. discriminate.
  - intros ell rid _ [<-|[]]; split; [|intros _]; vm_compute; discriminate.
  - intros ell [].
  - reflexivity.
  - intros a m Ha Hm. vm_compute in Ha, Hm.
    inversion Ha; inversion Hm; subst; lia.
Qed.

(** C2: for the non-rotatable 3x6 rectangle in a strip of width 10, with
    rotation allowed globally, the level model admits height 3, admits
    nothing lower, and every assignment of height 3 that satisfies the
    model is read back as a placement with [rotated = true]. *)
Theorem level_model_rotates_locked_rectangle :
  (exists v, LevelMilpSolver.model lock_solver v /\ LevelValues.H v = 3)
  /\ (forall v, LevelMilpSolver.model lock_solver v -> 3 <= LevelValues.H v)
  /\ (forall v status,
         LevelMilpSolver.model lock_solver v -> LevelValues.H v = 3 ->
         LevelMilpSolver.solve lock_solver v status
         = Ok (Solution.mk 3 [Placement.mk 1 0 0 6 3 true]
                           "MILP-ShelfLevel" (Some status))).
Proof.
  split; [|split].
  - exists lock_values; split; [apply lock_values_model | reflexivity].
  - intros v Hv.
    destruct (LevelMilpSolver.lower_bounds _ _ Hv 2 3) as [_ Hm]; auto.
  - intros v status Hv HH.
    assert (Hs : LevelValues.s v 0%nat = 3).
    { pose proof (LevelMilpSolver.total_height _ _ Hv) as Ht.
      change (LevelValues.H v = 0 + LevelValues.s v 0%nat) in Ht. lia. }
    assert (Hin : In 0%nat (LevelMilpSolver.range (LevelMilpSolver.levels lock_solver)))
      by (left; reflexivity).
    assert (Hid : In 1 (map Rectangle.id (Instance.rectangles
                                            (LevelMilpSolver.instance lock_solver))))
      by (left; reflexivity).
    pose proof (LevelMilpSolver.bounds_zH _ _ Hv 1 0%nat Hid Hin) as BH.
    pose proof (LevelMilpSolver.bounds_zV _ _ Hv 1 0%nat eq_refl Hid Hin) as BV.
    pose proof (LevelMilpSolver.assignment _ _ Hv 1 Hid) as Ha.
    destruct (LevelMilpSolver.height_per_level _ _ Hv 0%nat 1 Hin Hid) as [Hh _].
    change (LevelMilpSolver.rect_h lock_solver 1) with 6 in Hh.
    change (LevelValues.zH v 1 0%nat + LevelValues.zV v 1 0%nat = 1) in Ha.
    assert (HzH : LevelValues.zH v 1 0%nat = 0) by (destruct BH; lia).
    assert (HzV : LevelValues.zV v 1 0%nat = 1) by lia.
    unfold LevelMilpSolver.solve.
    change (Instance.area_lb (LevelMilpSolver.instance lock_solver)) with (@Ok Z 2).
    change (Instance.maxh_lb (LevelMilpSolver.instance lock_solver)
                             (LevelMilpSolver.allow_rotation lock_solver)) with (@Ok Z 3).
    cbn [bind].
    change (LevelMilpSolver.range (LevelMilpSolver.levels lock_solver)) with [0%nat].
    unfold for_each at 1, LevelMilpSolver.level_step.
    rewrite Hs.
    change (map Rectangle.id (Instance.rectangles (LevelMilpSolver.instance lock_solver)))
      with [1].
    unfold filter, LevelMilpSolver.on_level.
    rewrite HzH, HzV. cbn [Z.ltb Z.compare orb andb LevelMilpSolver.allow_rotation lock_solver].
    unfold sort_by_reverse, fold_right, insert_by_rev, for_each at 1,
      LevelMilpSolver.place_step, LevelMilpSolver.is_rotated.
    rewrite HzV. reflexivity.
Qed.

(** ** Lists, sums, maxima, sorting *)

Lemma py_sum_shift (l : list Z) (a : Z) : fold_left Z.add l a = a + py_sum l.
Proof.
  unfold py_sum; revert a; induction l as [|b l IH]; intros a; simpl; [lia|].
  rewrite (IH (a + b)), (IH b); lia.
Qed.

Lemma py_sum_cons (a : Z) (l : list Z) : py_sum (a :: l) = a + py_sum l.
Proof. unfold py_sum at 1; simpl. apply py_sum_shift. Qed.

Lemma py_sum_app (l1 l2 : list Z) : py_sum (l1 ++ l2) = py_sum l1 + py_sum l2.
Proof.
  induction l1 as [|a l1 IH]; simpl; [reflexivity|].
  rewrite !py_sum_cons, IH; lia.
Qed.

Lemma py_sum_perm (l1 l2 : list Z) : Permutation l1 l2 -> py_sum l1 = py_sum l2.
Proof.
  induction 1; rewrite ?py_sum_cons; try lia; congruence.
Qed.

Lemma fold_max_le (l : list Z) (a : Z) :
  a <= fold_left Z.max l a /\ Forall (fun b => b <= fold_left Z.max l a) l.
Proof.
  revert a; induction l as [|b l IH]; intros a; simpl; [split; [lia|constructor]|].
  destruct (IH (Z.max a b)) as [H1 H2]; split; [lia|].
  constructor; [lia|exact H2].
Qed.

Lemma fold_max_in (l : list Z) (a : Z) :
  fold_left Z.max l a = a \/ In (fold_left Z.max l a) l.
Proof.
  revert a; induction l as [|b l IH]; intros a; simpl; [auto|].
  destruct (IH (Z.max a b)) as [E|E]; [|auto].
  rewrite E. destruct (Z.max_spec a b) as [[_ ->]|[_ ->]]; auto.
Qed.

Lemma py_max_ok (l : list Z) (m : Z) :
  py_max l = Ok m -> In m l /\ Forall (fun b => b <= m) l.
Proof.
  destruct l as [|a l]; simpl; [discriminate|].
  intros E; inversion E; subst; clear E.
  destruct (fold_max_le l a) as [H1 H2], (fold_max_in l a) as [E|E]; split; auto.
Qed.

Lemma py_max_nonempty (l : list Z) : l <> [] -> exists m, py_max l = Ok m.
Proof. destruct l; [congruence|]; eexists; reflexivity. Qed.

Section SortFacts.
Context {A : Type}.
Variable key : A -> Z.

Lemma insert_by_rev_perm (a : A) (l : list A) :
  Permutation (insert_by_rev key a l) (a :: l).
Proof.
  induction l as [|b l IH]; simpl; [reflexivity|].
  destruct (key b <=? key a); [reflexivity|].
  rewrite IH; apply perm_swap.
Qed.

Lemma sort_by_reverse_perm (l : list A) : Permutation (sort_by_reverse key l) l.
Proof.
  induction l as [|a l IH]; simpl; [reflexivity|].
  rewrite insert_by_rev_perm; now constructor.
Qed.

Lemma insert_by_perm (a : A) (l : list A) : Permutation (insert_by key a l) (a :: l).
Proof.
  induction l as [|b l IH]; simpl; [reflexivity|].
  destruct (key a <=? key b); [reflexivity|].
  rewrite IH; apply perm_swap.
Qed.

Lemma sort_by_perm (l : list A) : Permutation (sort_by key l) l.
Proof.
  induction l as [|a l IH]; simpl; [reflexivity|].
  rewrite insert_by_perm; now constructor.
Qed.
End SortFacts.

Lemma mem_in (a : Z) (l : list Z) : mem a l = true <-> In a l.
Proof.
  unfold mem; rewrite existsb_exists; split.
  - intros (b & Hb & E); apply Z.eqb_eq in E; now subst.
  - intros Ha; exists a; split; [exact Ha|apply Z.eqb_refl].
Qed.

Lemma set_eqb_true (l1 l2 : list Z) :
  set_eqb l1 l2 = true <-> (forall a, In a l1 <-> In a l2).
Proof.
  unfold set_eqb; rewrite andb_true_iff, !forallb_forall; split.
  - intros [H1 H2] a; split; intros Ha; apply mem_in; auto.
  - intros Hs; split; intros a Ha; apply mem_in, Hs, Ha.
Qed.

Lemma combinations2_ordered {A : Type} (R : A -> A -> Prop) (l : list A) :
  ForallOrdPairs R l -> forall ab, In ab (combinations2 l) -> R (fst ab) (snd ab).
Proof.
  induction 1 as [|a l Ha Hl IH]; simpl; intros ab Hab; [contradiction|].
  apply in_app_or in Hab as [Hab|Hab]; [|auto].
  apply in_map_iff in Hab as (b & <- & Hb); simpl.
  rewrite Forall_forall in Ha; auto.
Qed.

Lemma ordered_snoc {A : Type} (R : A -> A -> Prop) (l : list A) (q : A) :
  ForallOrdPairs R l -> Forall (fun p => R p q) l -> ForallOrdPairs R (l ++ [q]).
Proof.
  induction 1 as [|a l Ha Hl IH]; simpl; intros Hq.
  - repeat constructor.
  - inversion Hq; subst. constructor; [|auto].
    apply Forall_app; split; [exact Ha|repeat constructor; assumption].
Qed.

Lemma snoc_split_pair {A : Type} (l pre post : list A) (p q1 q : A) :
  l ++ [q] = pre ++ p :: q1 :: post ->
  (post = [] /\ q1 = q /\ l = pre ++ [p])
  \/ (exists post', post = post' ++ [q] /\ l = pre ++ p :: q1 :: post').
Proof.
  intros E. destruct (exists_last (l := p :: q1 :: post)) as (m & z & Em); [discriminate|].
  rewrite Em in E. rewrite app_assoc in E.
  apply app_inj_tail in E as [El Ez]; subst z.
  destruct post as [|y post].
  - left. destruct m as [|m1 [|m2 m]]; simpl in Em; inversion Em; subst.
    + auto.
    + destruct m; discriminate.
  - right. destruct (exists_last (l := y :: post)) as (post' & z & Ep); [discriminate|].
    exists post'. rewrite Ep in Em |- *.
    change (p :: q1 :: post' ++ [z]) with ((p :: q1 :: post') ++ [z]) in Em.
    apply app_inj_tail in Em as [Em Ez]; subst. auto.
Qed.

(** ** Division of integers in floating point *)

Lemma round_half_even_range (q : Z) (c : comparison) :
  q <= round_half_even (q, c) <= q + 1.
Proof.
  unfold round_half_even; simpl. destruct c; [destruct (Z.even q)| |]; lia.
Qed.

Lemma round_ceil (a b k : Z) :
  0 < a -> 0 < b -> 0 <= k -> b < 2 ^ (k + 1) ->
  let n := a * 2 ^ k in
  let m := round_half_even (n / b, (2 * (n mod b) ?= b)) in
  (a mod b = 0 -> m = a / b * 2 ^ k)
  /\ (a mod b <> 0 -> a / b * 2 ^ k < m <= (a / b + 1) * 2 ^ k).
Proof.
  intros Ha Hb Hk Hlt n m.
  assert (Hp : 0 < 2 ^ k) by (apply Z.pow_pos_nonneg; lia).
  assert (Hp1 : 2 ^ (k + 1) = 2 * 2 ^ k) by (rewrite Z.pow_add_r by lia; lia).
  pose proof (Z.div_mod a b ltac:(lia)) as Hab.
  pose proof (Z.mod_pos_bound a b Hb) as Hs.
  set (c := a / b) in *. set (s := a mod b) in *.
  assert (En : n = c * 2 ^ k * b + s * 2 ^ k) by (unfold n; rewrite Hab at 1; ring).
  assert (Eq : n / b = c * 2 ^ k + s * 2 ^ k / b).
  { rewrite En. rewrite Z.add_comm, Z.div_add by lia. lia. }
  assert (Er : n mod b = (s * 2 ^ k) mod b).
  { rewrite En. rewrite Z.add_comm, Z.mod_add by lia. reflexivity. }
  pose proof (Z.div_mod (s * 2 ^ k) b ltac:(lia)) as Ht.
  pose proof (Z.mod_pos_bound (s * 2 ^ k) b Hb) as Hr.
  set (t := s * 2 ^ k / b) in *. set (r := (s * 2 ^ k) mod b) in *.
  pose proof (round_half_even_range (n / b) (2 * (n mod b) ?= b)) as Hm.
  fold m in Hm. split.
  - intros Es. rewrite Es in *.
    assert (t = 0) by nia. assert (r = 0) by nia.
    unfold m, round_half_even. cbn [fst snd]. rewrite Er. fold r.
    replace (2 * r ?= b) with Lt by (symmetry; apply Z.compare_lt_iff; lia).
    rewrite Eq. lia.
  - intros Es.
    assert (Ht2 : 0 <= t < 2 ^ k).
    { split; [apply Z.div_pos; nia|]. apply Z.div_lt_upper_bound; nia. }
    split; [|nia].
    destruct (Z.eq_dec t 0) as [Et|Et]; [|nia].
    unfold m, round_half_even. cbn [fst snd]. rewrite Er. fold r.
    replace (2 * r ?= b) with Gt by (symmetry; apply Z.compare_gt_iff; nia).
    rewrite Eq. lia.
Qed.

Lemma scaled_div_nonpos (a b e : Z) :
  e <= 0 ->
  scaled_div a b e = (a * 2 ^ (- e) / b, (2 * ((a * 2 ^ (- e)) mod b) ?= b)).
Proof.
  intros He. unfold scaled_div.
  destruct (0 <=? e) eqn:E; [|reflexivity].
  apply Z.leb_le in E. assert (e = 0) by lia. subst e. simpl.
  now rewrite !Z.mul_1_r.
Qed.

Lemma quotient_exponent_exact (a b : Z) :
  0 < a < 2 ^ 53 -> 0 < b < 2 ^ 1075 ->
  let e := quotient_exponent a b in
  -1074 <= e <= 0 /\ b < 2 ^ (- e + 1).
Proof.
  intros Ha Hb e.
  destruct (Z.log2_spec a ltac:(lia)) as [Hla1 Hla2].
  destruct (Z.log2_spec b ltac:(lia)) as [Hlb1 Hlb2].
  pose proof (Z.log2_nonneg a) as Hla0. pose proof (Z.log2_nonneg b) as Hlb0.
  set (la := Z.log2 a) in *. set (lb := Z.log2 b) in *.
  assert (Hla : la <= 52).
  { destruct (Z_le_gt_dec la 52); [assumption|].
    assert (2 ^ 53 <= 2 ^ la) by (apply Z.pow_le_mono_r; lia). lia. }
  set (e1 := la - lb - 52).
  assert (He1 : e1 <= 0) by (unfold e1; lia).
  unfold e, quotient_exponent. fold la lb e1.
  set (en := if fst (scaled_div a b e1) <? 2 ^ 52 then e1 - 1 else e1).
  assert (Hen : en <= 0) by (unfold en; destruct (_ <? _); lia).
  split; [lia|].
  destruct (Z.max_spec en (-1074)) as [[Hlt ->]|[Hge ->]].
  - exact (proj2 Hb).
  - assert (Hq : 2 ^ 52 <= fst (scaled_div a b en)).
    { unfold en. destruct (fst (scaled_div a b e1) <? 2 ^ 52) eqn:Et.
      - rewrite scaled_div_nonpos by lia. simpl.
        apply Z.div_le_lower_bound; [lia|].
        replace (- (e1 - 1)) with (lb + 53 - la) by (unfold e1; lia).
        assert (2 ^ (lb + 53 - la) * 2 ^ la = 2 ^ 52 * 2 ^ (lb + 1)).
        { rewrite <- !Z.pow_add_r by lia. f_equal; lia. }
        assert (0 < 2 ^ (lb + 53 - la)) by (apply Z.pow_pos_nonneg; lia).
        nia.
      - apply Z.ltb_ge in Et. exact Et. }
    rewrite scaled_div_nonpos in Hq by lia. simpl in Hq.
    assert (Hp : 0 < 2 ^ (- en)) by (apply Z.pow_pos_nonneg; lia).
    assert (2 ^ 52 * b <= a * 2 ^ (- en)).
    { pose proof (Z.mul_div_le (a * 2 ^ (- en)) b ltac:(lia)). nia. }
    rewrite Z.pow_add_r by lia. change (2 ^ 1) with 2.
    change (2 ^ 53) with (2 * 2 ^ 52) in Ha. nia.
Qed.

Lemma py_truediv_ceil (a b : Z) :
  0 <= a < 2 ^ 53 -> 0 < b < 2 ^ 1075 ->
  exists f, py_truediv a b = Ok f /\ math_ceil f = - (- a / b).
Proof.
  intros Ha Hb. unfold py_truediv.
  replace (b =? 0) with false by (symmetry; apply Z.eqb_neq; lia).
  destruct (a =? 0) eqn:Ea0.
  - apply Z.eqb_eq in Ea0; subst a. eexists; split; [reflexivity|]. reflexivity.
  - apply Z.eqb_neq in Ea0.
    rewrite (Z.abs_eq a), (Z.abs_eq b) by lia.
    rewrite (Z.sgn_pos a), (Z.sgn_pos b) by lia.
    destruct (quotient_exponent_exact a b ltac:(lia) Hb) as (He & Hlt).
    set (e := quotient_exponent a b) in *.
    rewrite scaled_div_nonpos by lia.
    destruct (round_ceil a b (- e) ltac:(lia) ltac:(lia) ltac:(lia) Hlt) as [Hex Hin].
    cbv zeta in Hex, Hin.
    set (m := round_half_even _) in *.
    assert (Hp : 0 < 2 ^ (- e)) by (apply Z.pow_pos_nonneg; lia).
    pose proof (Z.div_mod a b ltac:(lia)) as Hab.
    pose proof (Z.mod_pos_bound a b ltac:(lia)) as Hs.
    assert (Hm : e = 0 -> m * 2 ^ e < 2 ^ 1024).
    { assert (a / b < 2 ^ 53).
      { apply Z.div_lt_upper_bound; [lia|]. nia. }
      assert (m <= (a / b + 1) * 2 ^ (- e)).
      { destruct (Z.eq_dec (a mod b) 0) as [E|E]; [rewrite (Hex E); nia|apply Hin; exact E]. }
      intros E0. rewrite E0 in *. change (- 0) with 0 in *. change (2 ^ 0) with 1 in *.
      assert (2 ^ 53 + 1 < 2 ^ 1024) by (vm_compute; reflexivity). lia. }
    assert (Eov : (0 <=? e) && (2 ^ 1024 <=? m * 2 ^ e) = false).
    { destruct (0 <=? e) eqn:Ee; [|reflexivity].
      apply Z.leb_le in Ee. cbn [andb]. apply Z.leb_gt. apply Hm. lia. }
    rewrite Eov. eexists. split; [reflexivity|].
    unfold math_ceil. rewrite !Z.mul_1_l.
    assert (Hc : - (- a / b) = if a mod b =? 0 then a / b else a / b + 1).
    { destruct (a mod b =? 0) eqn:E.
      - apply Z.eqb_eq in E.
        assert (Hneg : - a = - (a / b) * b) by lia.
        rewrite Hneg, Z.div_mul by lia. lia.
      - apply Z.eqb_neq in E.
        assert (- a / b = - (a / b) - 1); [|lia].
        symmetry. apply (Z.div_unique _ _ _ (b - a mod b)); [lia|lia]. }
    rewrite Hc.
    destruct (0 <=? e) eqn:Ee.
    + apply Z.leb_le in Ee. assert (E0 : e = 0) by lia. rewrite E0 in *.
      change (- 0) with 0 in *. change (2 ^ 0) with 1 in *.
      destruct (a mod b =? 0) eqn:E.
      * apply Z.eqb_eq in E. rewrite (Hex E). lia.
      * apply Z.eqb_neq in E. specialize (Hin E). lia.
    + destruct (a mod b =? 0) eqn:E.
      * apply Z.eqb_eq in E. rewrite (Hex E).
        replace (- (a / b * 2 ^ (- e))) with (- (a / b) * 2 ^ (- e)) by ring.
        rewrite Z.div_mul by lia. lia.
      * apply Z.eqb_neq in E. specialize (Hin E).
        assert (- m / 2 ^ (- e) = - (a / b + 1)); [|lia].
        symmetry. apply (Z.div_unique _ _ _ ((a / b + 1) * 2 ^ (- e) - m)); [lia|lia].
Qed.

Lemma py_truediv_returns (a b : Z) :
  b <> 0 -> Z.abs a < 2 ^ 1023 -> exists f, py_truediv a b = Ok f.
Proof.
  intros Hb Ha. unfold py_truediv.
  replace (b =? 0) with false by (symmetry; apply Z.eqb_neq; lia).
  destruct (a =? 0) eqn:Ea0; [eauto|]. apply Z.eqb_neq in Ea0.
  set (x := Z.abs a) in *. set (y := Z.abs b).
  assert (Hx : 0 < x) by (unfold x; lia). assert (Hy : 0 < y) by (unfold y; lia).
  set (e := quotient_exponent x y).
  set (m := round_half_even (scaled_div x y e)).
  assert (Eov : (0 <=? e) && (2 ^ 1024 <=? m * 2 ^ e) = false); [|rewrite Eov; eauto].
  destruct (0 <=? e) eqn:Ee; [|reflexivity]. apply Z.leb_le in Ee. cbn [andb].
  apply Z.leb_gt.
  assert (He : e <= 970).
  { destruct (Z.log2_spec x Hx) as [Hl1 _]. pose proof (Z.log2_nonneg y).
    assert (Z.log2 x <= 1022).
    { destruct (Z_le_gt_dec (Z.log2 x) 1022); [assumption|].
      assert (2 ^ 1023 <= 2 ^ Z.log2 x) by (apply Z.pow_le_mono_r; lia). lia. }
    unfold e, quotient_exponent.
    destruct (fst (scaled_div x y (Z.log2 x - Z.log2 y - 52)) <? 2 ^ 52); lia. }
  assert (Hp : 0 < 2 ^ e) by (apply Z.pow_pos_nonneg; lia).
  assert (Hpe : 2 ^ e <= 2 ^ 970) by (apply Z.pow_le_mono_r; lia).
  assert (Hm : m <= x / (y * 2 ^ e) + 1).
  { unfold m, scaled_div. replace (0 <=? e) with true by (symmetry; apply Z.leb_le; lia).
    apply round_half_even_range. }
  pose proof (Z.mul_div_le x (y * 2 ^ e) ltac:(nia)) as Hq.
  assert (0 <= x / (y * 2 ^ e)) by (apply Z.div_pos; nia).
  assert (x / (y * 2 ^ e) * 2 ^ e <= x) by nia.
  assert (2 ^ 1023 + 2 ^ 970 < 2 ^ 1024) by (vm_compute; reflexivity).
  nia.
Qed.

Lemma area_lb_exact (inst : Instance.t) :
  0 < Instance.W inst -> double_exact inst ->
  0 <= py_sum (map Rectangle.area (Instance.rectangles inst)) ->
  Instance.area_lb inst
  = Ok (- (- py_sum (map Rectangle.area (Instance.rectangles inst)) / Instance.W inst)).
Proof.
  intros HW [HA HWs] H0. unfold Instance.area_lb.
  destruct (py_truediv_ceil _ (Instance.W inst) (conj H0 HA) (conj HW HWs)) as (f & -> & <-).
  reflexivity.
Qed.

Lemma area_nonneg (rects : list Rectangle.t) :
  Forall positive_sides rects -> 0 <= py_sum (map Rectangle.area rects).
Proof.
  induction 1 as [|r rects [Hw Hh] _ IH]; [unfold py_sum; simpl; lia|].
  simpl. rewrite py_sum_cons. unfold Rectangle.area at 1. nia.
Qed.

(** The area bound is below every height whose strip area holds the
    rectangles, as long as the division is exact. *)
Lemma area_lb_le (inst : Instance.t) (a H : Z) :
  0 < Instance.W inst -> double_exact inst ->
  Forall positive_sides (Instance.rectangles inst) ->
  Instance.area_lb inst = Ok a ->
  py_sum (map Rectangle.area (Instance.rectangles inst)) <= Instance.W inst * H ->
  a <= H.
Proof.
  intros HW Hex Hpos Ea Hle.
  rewrite (area_lb_exact inst HW Hex (area_nonneg _ Hpos)) in Ea.
  inversion Ea; subst a; clear Ea.
  set (A := py_sum (map Rectangle.area (Instance.rectangles inst))) in *.
  assert (- H <= - A / Instance.W inst); [|lia].
  apply Z.div_le_lower_bound; lia.
Qed.

(** ** The shelf policy *)

Lemma orient_dims (r : Rectangle.t) (allow_rotation : bool) (we he : Z) (rot : bool) :
  positive_sides r ->
  HeuristicSolver._orient r allow_rotation true = (we, he, rot) ->
  0 < we /\ 0 < he /\ we * he = Rectangle.area r
  /\ Z.min (Rectangle.h r) (Rectangle.w r) <= he
  /\ (allow_rotation = false -> he = Rectangle.h r)
  /\ (Rectangle.rotatable r = false -> rot = false).
Proof.
  intros [Hw Hh] E. unfold Rectangle.area.
  destruct (orient_cases r allow_rotation) as [E'|(Ha & Hr & Hlt & E')];
    rewrite E' in E; inversion E; subst; repeat split; try lia; congruence.
Qed.

Lemma shelf0_inv (W d : Z) : 0 < W -> shelf_inv W d HeuristicSolver.shelf0.
Proof.
  intros HW; constructor; simpl; try lia; auto.
  - constructor.
  - change (py_sum []) with 0; lia.
  - intros [|? ?] ? E; discriminate E.
  - intros [|? ?] ? ? ? E; discriminate E.
Qed.

(** What one round of the shelf loop appends. *)
Lemma nfdh_step_shape (W d : Z) (ar : bool) (st st' : HeuristicSolver.shelf)
      (r : Rectangle.t) :
  HeuristicSolver.nfdh_step W d ar st r = Ok st' ->
  exists q, HeuristicSolver.placed st' = HeuristicSolver.placed st ++ [q]
            /\ Placement.rect_id q = Rectangle.id r
            /\ HeuristicSolver._orient r ar true
               = (Placement.w_eff q, Placement.h_eff q, Placement.rotated q).
Proof.
  unfold HeuristicSolver.nfdh_step.
  destruct (HeuristicSolver._orient r ar true) as [[we he] rot].
  destruct (W <? we); [discriminate|].
  destruct (_ <=? W); intros E; inversion E; subst; simpl;
    eexists; repeat split.
Qed.

Lemma nfdh_step_inv (W d : Z) (ar : bool) (st st' : HeuristicSolver.shelf)
      (r : Rectangle.t) :
  0 < W -> 0 <= d -> positive_sides r -> shelf_inv W d st ->
  HeuristicSolver.nfdh_step W d ar st r = Ok st' ->
  shelf_inv W d st'.
Proof.
  intros HW Hd Hr I. unfold HeuristicSolver.nfdh_step.
  destruct (HeuristicSolver._orient r ar true) as [[we he] rot] eqn:Eo.
  destruct (orient_dims r ar we he rot Hr Eo) as (Hwe & Hhe & _).
  destruct (W <? we) eqn:EW; [discriminate|]. apply Z.ltb_ge in EW.
  destruct I as [Ix Iy Ih Ifirst Iopen Istrip Ishelved Iapart Iarea Ilast Iadj].
  destruct (HeuristicSolver.x st + _ + we <=? W) eqn:Efit; intros E; inversion E; subst; clear E.
  - (* the item joins the running shelf *)
    apply Z.leb_le in Efit.
    remember (if HeuristicSolver.first_in_shelf st then 0 else d) as extra eqn:Eextra.
    assert (Hextra : 0 <= extra) by (subst extra; destruct (HeuristicSolver.first_in_shelf st); lia).
    constructor; simpl; try lia.
    + intros _. destruct (Z.max_spec (HeuristicSolver.shelf_h st) he) as [[Hlt Hm]|[Hge Hm]].
      * eexists; split; [apply in_or_app; right; left; reflexivity|simpl; lia].
      * destruct (HeuristicSolver.first_in_shelf st) eqn:Ef.
        -- destruct (Ifirst eq_refl) as (_ & _ & Hz). lia.
        -- destruct (Iopen eq_refl) as (p & Hp & Hy & Hh).
           exists p; split; [apply in_or_app; auto|lia].
    + apply Forall_app; split; [exact Istrip|].
      constructor; [|constructor]. unfold in_strip; simpl; lia.
    + apply Forall_app; split.
      * eapply Forall_impl; [|exact Ishelved].
        intros p Hp; unfold shelved in *; simpl; lia.
      * constructor; [|constructor]. unfold shelved; simpl; lia.
    + apply ordered_snoc; [exact Iapart|].
      eapply Forall_impl; [|exact Ishelved].
      intros p Hp; unfold apart, Solution.separated; simpl.
      rewrite !orb_true_iff, !Z.leb_le. unfold shelved in Hp; lia.
    + rewrite map_app, py_sum_app; simpl. rewrite py_sum_cons.
      change (py_sum []) with 0. unfold area_of at 2; simpl. nia.
    + intros pre p Ep. apply app_inj_tail in Ep as [_ <-]; simpl; lia.
    + intros pre p q1 post Ep Hy.
      apply snoc_split_pair in Ep as [(-> & -> & Ep)|(post' & -> & Ep)].
      * destruct (Ilast _ _ Ep) as [Hy' Hx]. simpl.
        destruct (HeuristicSolver.first_in_shelf st) eqn:Ef.
        -- destruct (Ifirst eq_refl) as (En & _). rewrite En in Ep.
           destruct pre; discriminate Ep.
        -- lia.
      * eauto.
  - (* the item opens a new shelf *)
    apply Z.leb_gt in Efit.
    destruct (HeuristicSolver.first_in_shelf st) eqn:Ef.
    { destruct (Ifirst eq_refl) as (_ & Hx & _). lia. }
    destruct (Iopen eq_refl) as (p0 & Hp0 & Hy0 & Hh0).
    assert (Hpos : 0 < HeuristicSolver.shelf_h st).
    { rewrite Forall_forall in Istrip. destruct (Istrip _ Hp0) as (_ & _ & _ & ? & _). lia. }
    assert (El : (0 <? HeuristicSolver.shelf_h st) = true) by (apply Z.ltb_lt; lia).
    rewrite El.
    constructor; simpl; try lia.
    + intros _. eexists; split; [apply in_or_app; right; left; reflexivity|simpl; lia].
    + apply Forall_app; split; [exact Istrip|].
      constructor; [|constructor]. unfold in_strip; simpl; lia.
    + apply Forall_app; split.
      * eapply Forall_impl; [|exact Ishelved].
        intros p Hp; unfold shelved in *; simpl; lia.
      * constructor; [|constructor]. unfold shelved; simpl; lia.
    + apply ordered_snoc; [exact Iapart|].
      eapply Forall_impl; [|exact Ishelved].
      intros p Hp; unfold apart, Solution.separated; simpl.
      rewrite !orb_true_iff, !Z.leb_le. unfold shelved in Hp; lia.
    + rewrite map_app, py_sum_app; simpl. rewrite py_sum_cons.
      change (py_sum []) with 0. unfold area_of at 2; simpl. nia.
    + intros pre p Ep. apply app_inj_tail in Ep as [_ <-]; simpl; lia.
    + intros pre p q1 post Ep Hy.
      apply snoc_split_pair in Ep as [(-> & -> & Ep)|(post' & -> & Ep)].
      * destruct (Ilast _ _ Ep) as [Hy' Hx]. simpl in Hy. lia.
      * eauto.
Qed.

(** ** What the verifier and the bounds need from a packing *)

Lemma check_feasibility_true (sol : Solution.t) (inst : Instance.t) :
  (forall p, In p (Solution.placements sol) ->
             0 <= Placement.x p /\ 0 <= Placement.y p
             /\ Placement.x p + Placement.w_eff p <= Instance.W inst
             /\ Placement.y p + Placement.h_eff p <= Solution.H sol) ->
  (forall a, In a (map Rectangle.id (Instance.rectangles inst))
             <-> In a (map Placement.rect_id (Solution.placements sol))) ->
  ForallOrdPairs apart (Solution.placements sol) ->
  Instance.forbidden_zones inst = [] ->
  Solution.check_feasibility sol inst = true.
Proof.
  intros Hb Hids Hsep Hz. unfold Solution.check_feasibility.
  assert (E1 : existsb (Solution.out_of_bounds sol inst) (Solution.placements sol) = false).
  { apply not_true_is_false; intros E.
    apply existsb_exists in E as (p & Hp & E).
    destruct (Hb p Hp) as (? & ? & ? & ?).
    unfold Solution.out_of_bounds in E.
    rewrite !orb_true_iff, !Z.ltb_lt in E. lia. }
  rewrite E1.
  rewrite (proj2 (set_eqb_true _ _) Hids). simpl.
  assert (E2 : existsb (fun ab => negb (Solution.separated (fst ab) (snd ab)))
                       (combinations2 (Solution.placements sol)) = false).
  { apply not_true_is_false; intros E.
    apply existsb_exists in E as (ab & Hab & E).
    pose proof (combinations2_ordered apart _ Hsep ab Hab) as Ha.
    unfold apart in Ha. rewrite Ha in E. discriminate. }
  rewrite E2, Hz.
  assert (E3 : existsb (fun p : Placement.t => existsb (Solution.inter p) [])
                       (Solution.placements sol) = false).
  { apply not_true_is_false; intros E.
    apply existsb_exists in E as (p & _ & E). discriminate. }
  now rewrite E3.
Qed.

Lemma placement_of_area (ar : bool) (rs : list Rectangle.t) (qs : list Placement.t) :
  Forall positive_sides rs -> Forall2 (placement_of ar) rs qs ->
  py_sum (map Rectangle.area rs) = py_sum (map area_of qs).
Proof.
  intros Hpos H; revert Hpos; induction H as [|r q rs qs Hrq _ IH]; intros Hpos;
    [reflexivity|].
  destruct Hrq as [_ Ho].
  inversion Hpos as [|r' rs' Hr Hrs]; subst. simpl; rewrite !py_sum_cons, IH by assumption.
  destruct (orient_dims r ar _ _ _ Hr Ho) as (_ & _ & Ea & _).
  unfold area_of; lia.
Qed.

Lemma placement_of_ids (ar : bool) (rs : list Rectangle.t) (qs : list Placement.t) :
  Forall2 (placement_of ar) rs qs -> map Placement.rect_id qs = map Rectangle.id rs.
Proof.
  induction 1 as [|r q rs qs Hrq _ IH]; simpl; [reflexivity|].
  destruct Hrq as [Hi _]; congruence.
Qed.

Lemma placement_of_locked (ar : bool) (rs : list Rectangle.t) (qs : list Placement.t) :
  Forall2 (placement_of ar) rs qs ->
  forall q, In q qs -> Placement.rotated q = true ->
            exists r, In r rs /\ Rectangle.id r = Placement.rect_id q
                      /\ Rectangle.rotatable r = true /\ ar = true.
Proof.
  induction 1 as [|r q rs qs Hrq _ IH]; simpl; [contradiction|].
  destruct Hrq as [Hi Ho]. intros q' [<-|Hq] Hrot.
  - exists r; split; [auto|split; [auto|]].
    destruct (orient_cases r ar) as [E|(Ha & Hr & _ & E)]; rewrite E in Ho;
      inversion Ho; [congruence|auto].
  - destruct (IH q' Hq Hrot) as (r' & Hr' & H'); exists r'; auto.
Qed.

(** The two lower bounds hold of a height that dominates every placement
    top and whose strip area dominates the placed area. *)
Lemma bounds_below (inst : Instance.t) (ar : bool) (rs : list Rectangle.t)
      (qs : list Placement.t) (H : Z) :
  0 < Instance.W inst ->
  double_exact inst ->
  Forall positive_sides (Instance.rectangles inst) ->
  Permutation rs (Instance.rectangles inst) ->
  Forall2 (placement_of ar) rs qs ->
  (forall q, In q qs -> 0 <= Placement.y q /\ HeuristicSolver.top q <= H) ->
  py_sum (map area_of qs) <= Instance.W inst * H ->
  forall a m, Instance.area_lb inst = Ok a -> Instance.maxh_lb inst ar = Ok m ->
              Z.max a m <= H.
Proof.
  intros HW Hde Hpos Hperm Hof Htop Harea a m Ea Em.
  assert (Hpos' : Forall positive_sides rs).
  { rewrite Forall_forall in *; intros r Hr; apply Hpos.
    eapply Permutation_in; eauto. }
  apply Z.max_lub.
  - rewrite (area_lb_exact inst HW Hde (area_nonneg _ Hpos)) in Ea.
    inversion Ea; subst a; clear Ea.
    rewrite <- (py_sum_perm _ _ (Permutation_map Rectangle.area Hperm)).
    rewrite (placement_of_area ar rs qs Hpos' Hof).
    set (A := py_sum (map area_of qs)) in *.
    assert (- H <= - A / Instance.W inst); [|lia].
    apply Z.div_le_lower_bound; lia.
  - assert (Hm : exists r, In r rs /\ forall q, placement_of ar r q -> m <= Placement.h_eff q).
    { unfold Instance.maxh_lb in Em. destruct ar.
      - apply py_max_ok in Em as [Hin _].
        apply in_map_iff in Hin as (r & <- & Hr).
        exists r; split; [eapply Permutation_in; [symmetry|]; eauto|].
        intros q [_ Ho].
        assert (Hp : positive_sides r) by (rewrite Forall_forall in Hpos; auto).
        destruct (orient_dims r true _ _ _ Hp Ho) as (_ & _ & _ & Hmin & _). lia.
      - apply py_max_ok in Em as [Hin _].
        apply in_map_iff in Hin as (r & <- & Hr).
        exists r; split; [eapply Permutation_in; [symmetry|]; eauto|].
        intros q [_ Ho].
        assert (Hp : positive_sides r) by (rewrite Forall_forall in Hpos; auto).
        destruct (orient_dims r false _ _ _ Hp Ho) as (_ & _ & _ & _ & Hh & _).
        rewrite Hh; auto; lia. }
    destruct Hm as (r & Hr & Hq).
    assert (Hex : exists q, In q qs /\ placement_of ar r q).
    { clear -Hof Hr. induction Hof as [|r' q' rs qs Hrq _ IH]; [contradiction|].
      destruct Hr as [->|Hr]; [exists q'; simpl; auto|].
      destruct (IH Hr) as (q & ? & ?); exists q; simpl; auto. }
    destruct Hex as (q & Hin & Hpq).
    specialize (Hq q Hpq). destruct (Htop q Hin) as [Hy Ht].
    unfold HeuristicSolver.top in Ht. lia.
Qed.

(** ** Results of the shelf policy *)

Lemma nfdh_loop_placements (W d : Z) (ar : bool) (rs : list Rectangle.t) :
  forall st st',
    for_each (HeuristicSolver.nfdh_step W d ar) rs st = Ok st' ->
    exists qs, HeuristicSolver.placed st' = HeuristicSolver.placed st ++ qs
               /\ Forall2 (placement_of ar) rs qs.
Proof.
  induction rs as [|r rs IH]; intros st st' E; simpl in E.
  - inversion E; subst. exists []; split; [now rewrite app_nil_r|constructor].
  - apply bind_ok in E as (st1 & E1 & E2).
    apply nfdh_step_shape in E1 as (q & Eq & Hid & Ho).
    destruct (IH _ _ E2) as (qs & Eqs & Hqs).
    exists (q :: qs); split.
    + rewrite Eqs, Eq, <- app_assoc; reflexivity.
    + constructor; [split; assumption|assumption].
Qed.

Lemma nfdh_loop_inv (W d : Z) (ar : bool) (rs : list Rectangle.t)
      (st st' : HeuristicSolver.shelf) :
  0 < W -> 0 <= d -> Forall positive_sides rs -> shelf_inv W d st ->
  for_each (HeuristicSolver.nfdh_step W d ar) rs st = Ok st' ->
  shelf_inv W d st'.
Proof.
  intros HW Hd Hpos I E.
  eapply (for_each_invariant _ (shelf_inv W d) positive_sides); eauto.
  intros s a s' Ha Hs Es. eapply nfdh_step_inv; eauto.
Qed.

Lemma nfdh_items_perm (rects : list Rectangle.t) (ar : bool) :
  Permutation (map fst (HeuristicSolver.nfdh_items rects ar)) rects.
Proof.
  unfold HeuristicSolver.nfdh_items.
  rewrite (Permutation_map fst (sort_by_reverse_perm snd _)).
  rewrite map_map; simpl. now rewrite map_id.
Qed.

Lemma nfdh_sound (self : HeuristicSolver.t) (sol : Solution.t) :
  well_formed (HeuristicSolver.instance self) ->
  HeuristicSolver._nfdh self = Ok sol ->
  exists rs st,
    Permutation rs (Instance.rectangles (HeuristicSolver.instance self))
    /\ Forall2 (placement_of (HeuristicSolver.allow_rotation self)) rs
               (Solution.placements sol)
    /\ shelf_inv (Instance.W (HeuristicSolver.instance self))
                 (Instance.kerf_delta (HeuristicSolver.instance self)) st
    /\ Solution.placements sol = HeuristicSolver.placed st
    /\ Solution.H sol = HeuristicSolver.shelf_y st + HeuristicSolver.shelf_h st.
Proof.
  intros [HW Hd Hpos _] E. unfold HeuristicSolver._nfdh in E.
  apply bind_ok in E as (st & E & Es). inversion Es; subst sol; clear Es; simpl.
  pose proof (nfdh_items_perm (Instance.rectangles (HeuristicSolver.instance self))
                              (HeuristicSolver.allow_rotation self)) as Hperm.
  exists (map fst (HeuristicSolver.nfdh_items
                     (Instance.rectangles (HeuristicSolver.instance self))
                     (HeuristicSolver.allow_rotation self))), st.
  destruct (nfdh_loop_placements _ _ _ _ _ _ E) as (qs & Eqs & Hqs).
  simpl in Eqs; subst qs.
  split; [exact Hperm|]. split; [exact Hqs|]. split; [|split; reflexivity].
  refine (nfdh_loop_inv _ _ _ _ _ _ HW Hd _ (shelf0_inv _ _ HW) E).
  rewrite Forall_forall in *; intros r Hr; apply Hpos.
  eapply Permutation_in; eauto.
Qed.

Lemma shelf_inv_bounds (W d : Z) (st : HeuristicSolver.shelf) (p : Placement.t) :
  shelf_inv W d st -> In p (HeuristicSolver.placed st) ->
  0 <= Placement.x p /\ 0 <= Placement.y p
  /\ Placement.x p + Placement.w_eff p <= W
  /\ Placement.y p + Placement.h_eff p
     <= HeuristicSolver.shelf_y st + HeuristicSolver.shelf_h st.
Proof.
  intros I Hp.
  pose proof (si_strip _ _ _ I) as Hs; pose proof (si_shelved _ _ _ I) as Hv.
  pose proof (si_h _ _ _ I) as Hh.
  rewrite Forall_forall in Hs, Hv.
  specialize (Hs p Hp); specialize (Hv p Hp).
  unfold in_strip in Hs; unfold shelved in Hv. lia.
Qed.

Lemma perm_ids_iff (rs rects : list Rectangle.t) (qs : list Placement.t) :
  Permutation rs rects -> map Placement.rect_id qs = map Rectangle.id rs ->
  forall a, In a (map Rectangle.id rects) <-> In a (map Placement.rect_id qs).
Proof.
  intros Hperm E a; rewrite E.
  split; apply Permutation_in; [symmetry|]; now apply Permutation_map.
Qed.

Lemma nfdh_feasible (self : HeuristicSolver.t) (sol : Solution.t) :
  well_formed (HeuristicSolver.instance self) ->
  Instance.forbidden_zones (HeuristicSolver.instance self) = [] ->
  HeuristicSolver._nfdh self = Ok sol ->
  Solution.check_feasibility sol (HeuristicSolver.instance self) = true.
Proof.
  intros Hwf Hz E.
  destruct (nfdh_sound self sol Hwf E) as (rs & st & Hperm & Hof & I & Epl & EH).
  apply check_feasibility_true; auto.
  - intros p Hp. rewrite Epl in Hp. rewrite EH. eapply shelf_inv_bounds; eauto.
  - eapply perm_ids_iff; eauto. now apply placement_of_ids with (ar := HeuristicSolver.allow_rotation self).
  - rewrite Epl; apply (si_apart _ _ _ I).
Qed.

Lemma nfdh_bounds (self : HeuristicSolver.t) (sol : Solution.t) (a m : Z) :
  well_formed (HeuristicSolver.instance self) ->
  double_exact (HeuristicSolver.instance self) ->
  HeuristicSolver._nfdh self = Ok sol ->
  Instance.area_lb (HeuristicSolver.instance self) = Ok a ->
  Instance.maxh_lb (HeuristicSolver.instance self) (HeuristicSolver.allow_rotation self)
  = Ok m ->
  Z.max a m <= Solution.H sol.
Proof.
  intros Hwf Hde E Ea Em.
  destruct (nfdh_sound self sol Hwf E) as (rs & st & Hperm & Hof & I & Epl & EH).
  destruct Hwf as [HW Hd Hpos _].
  eapply bounds_below; eauto.
  - intros q Hq. rewrite Epl in Hq.
    destruct (shelf_inv_bounds _ _ _ _ I Hq) as (_ & Hy & _ & Ht).
    unfold HeuristicSolver.top; lia.
  - rewrite Epl, EH. pose proof (si_area _ _ _ I) as Ha.
    pose proof (si_x _ _ _ I); pose proof (si_h _ _ _ I). nia.
Qed.

Lemma nfdh_locked (self : HeuristicSolver.t) (sol : Solution.t) :
  HeuristicSolver._nfdh self = Ok sol ->
  forall q, In q (Solution.placements sol) -> Placement.rotated q = true ->
            exists r, In r (Instance.rectangles (HeuristicSolver.instance self))
                      /\ Rectangle.id r = Placement.rect_id q
                      /\ Rectangle.rotatable r = true
                      /\ HeuristicSolver.allow_rotation self = true.
Proof.
  intros E q Hq Hrot. unfold HeuristicSolver._nfdh in E.
  apply bind_ok in E as (st & E & Es). inversion Es; subst sol; clear Es; simpl in *.
  destruct (nfdh_loop_placements _ _ _ _ _ _ E) as (qs & Eqs & Hqs).
  simpl in Eqs; subst qs.
  destruct (placement_of_locked _ _ _ Hqs q Hq Hrot) as (r & Hr & H').
  exists r; split; [|exact H'].
  eapply Permutation_in; [apply nfdh_items_perm|exact Hr].
Qed.

(** C7: in a well-formed instance, two consecutive placements of the shelf
    policy that share a shelf (same [y]) are exactly [kerf_delta] apart,
    no placement rises above the returned height, and the returned height
    is the top of an item of the last shelf; in scenario E both items lie
    on the first shelf, the second at [x = 6], and [6 + 4 = 10 <= W]. *)
Theorem nfdh_kerf_gap_and_height :
  (forall (self : HeuristicSolver.t) (sol : Solution.t),
      well_formed (HeuristicSolver.instance self) ->
      HeuristicSolver._nfdh self = Ok sol ->
      (forall pre p q post,
          Solution.placements sol = pre ++ p :: q :: post ->
          Placement.y q = Placement.y p ->
          Placement.x q = Placement.x p + Placement.w_eff p
                          + Instance.kerf_delta (HeuristicSolver.instance self))
      /\ (forall p, In p (Solution.placements sol) ->
                    HeuristicSolver.top p <= Solution.H sol)
      /\ (forall pre last,
             Solution.placements sol = pre ++ [last] ->
             exists p, In p (Solution.placements sol)
                       /\ Placement.y p = Placement.y last
                       /\ HeuristicSolver.top p = Solution.H sol))
  /\ HeuristicSolver.solve (HeuristicSolver.mk kerf_instance true NFDH false)
     = Ok (Solution.mk 3 [Placement.mk 1 0 0 4 3 false; Placement.mk 2 6 0 4 3 false]
                       "Heuristic-NFDH" (Some "feasible"%string))
  /\ 6 + 4 <= Instance.W kerf_instance.
Proof.
  split; [|split; [reflexivity|simpl; lia]].
  intros self sol Hwf E.
  destruct (nfdh_sound self sol Hwf E) as (rs & st & Hperm & Hof & I & Epl & EH).
  rewrite Epl, EH. split; [|split].
  - apply (si_adjacent _ _ _ I).
  - intros p Hp. destruct (shelf_inv_bounds _ _ _ _ I Hp) as (_ & _ & _ & Ht).
    exact Ht.
  - intros pre last El.
    destruct (si_last _ _ _ I _ _ El) as [Hy _].
    destruct (HeuristicSolver.first_in_shelf st) eqn:Ef.
    + destruct (si_first _ _ _ I Ef) as (En & _). rewrite En in El.
      destruct pre; discriminate El.
    + destruct (si_open _ _ _ I Ef) as (p & Hp & Hpy & Hph).
      exists p; split; [exact Hp|]. unfold HeuristicSolver.top. lia.
Qed.

Lemma nfdh_kerf_gap_witness :
  well_formed kerf_instance
  /\ Placement.x (Placement.mk 2 6 0 4 3 false)
     = Placement.x (Placement.mk 1 0 0 4 3 false)
       + Placement.w_eff (Placement.mk 1 0 0 4 3 false)
       + Instance.kerf_delta kerf_instance.
Proof.
  assert (Hwf : well_formed kerf_instance).
  { constructor; simpl; try lia.
    - repeat constructor; simpl; lia.
    - repeat constructor; simpl; intuition lia. }
  split; [exact Hwf|].
  destruct nfdh_kerf_gap_and_height as [Hgen _].
  destruct (Hgen (HeuristicSolver.mk kerf_instance true NFDH false)
                 (Solution.mk 3 [Placement.mk 1 0 0 4 3 false; Placement.mk 2 6 0 4 3 false]
                              "Heuristic-NFDH" (Some "feasible"%string))
                 Hwf eq_refl) as [Hadj _].
  apply (Hadj [] _ _ []); reflexivity.
Defined.

(** ** Chains of segments *)

Lemma chain_le (a b : Z) (l : list segment) : chain a b l -> a <= b.
Proof. induction 1; lia. Qed.

Lemma chain_bounds (a b : Z) (l : list segment) :
  chain a b l ->
  forall s, In s l -> a <= seg_x s /\ seg_x s + seg_w s <= b /\ 0 < seg_w s.
Proof.
  induction 1 as [a|a b w h l Hw Hl IH]; intros s Hs; [contradiction|].
  pose proof (chain_le _ _ _ Hl) as Hle.
  destruct Hs as [<-|Hs]; [unfold seg_x, seg_w; simpl; lia|].
  destruct (IH s Hs) as (? & ? & ?); lia.
Qed.

Lemma chain_app (a m b : Z) (l1 l2 : list segment) :
  chain a m l1 -> chain m b l2 -> chain a b (l1 ++ l2).
Proof.
  induction 1 as [a|a m w h l Hw Hl IH]; intros H2; simpl; [exact H2|].
  constructor; auto.
Qed.

Lemma chain_cover (a b : Z) (l : list segment) (t : Z) :
  chain a b l -> a <= t < b -> exists s, In s l /\ covers s t.
Proof.
  induction 1 as [a|a b w h l Hw Hl IH]; intros Ht; [lia|].
  destruct (Z_lt_ge_dec t (a + w)) as [Hlt|Hge].
  - exists (a, w, h); split; [left; reflexivity|].
    unfold covers, seg_x, seg_w; simpl; lia.
  - destruct IH as (s & Hs & Hc); [lia|].
    exists s; split; [right; exact Hs|exact Hc].
Qed.

Lemma chain_unique (a b : Z) (l : list segment) (s1 s2 : segment) (t : Z) :
  chain a b l -> In s1 l -> In s2 l -> covers s1 t -> covers s2 t -> s1 = s2.
Proof.
  induction 1 as [a|a b w h l Hw Hl IH]; intros H1 H2 C1 C2; [contradiction|].
  pose proof (chain_bounds _ _ _ Hl) as Hb.
  unfold covers in *.
  destruct H1 as [<-|H1], H2 as [<-|H2]; auto.
  - destruct (Hb _ H2) as (? & ? & ?). unfold seg_x, seg_w in C1; simpl in C1. lia.
  - destruct (Hb _ H1) as (? & ? & ?). unfold seg_x, seg_w in C2; simpl in C2. lia.
Qed.

Lemma chain_width (a b : Z) (l : list segment) :
  chain a b l -> py_sum (map seg_w l) = b - a.
Proof.
  induction 1 as [a|a b w h l Hw Hl IH]; simpl.
  - change (py_sum []) with 0; lia.
  - rewrite py_sum_cons, IH. unfold seg_w; simpl; lia.
Qed.

Lemma chain_sorted (a b : Z) (l : list segment) :
  chain a b l ->
  StronglySorted (fun s1 s2 => seg_x s1 + seg_w s1 <= seg_x s2) l.
Proof.
  induction 1 as [a|a b w h l Hw Hl IH]; constructor; [exact IH|].
  apply Forall_forall; intros s Hs.
  destruct (chain_bounds _ _ _ Hl s Hs) as (? & _).
  unfold seg_x, seg_w in *; simpl; lia.
Qed.

Lemma chain_overlap (a b : Z) (l : list segment) (x x_end : Z) :
  chain a b l ->
  py_sum (map (overlap x x_end) l) = Z.max 0 (Z.min b x_end - Z.max a x).
Proof.
  induction 1 as [a|a b w h l Hw Hl IH]; simpl.
  - change (py_sum []) with 0; lia.
  - pose proof (chain_le _ _ _ Hl).
    rewrite py_sum_cons, IH. unfold overlap, seg_x, seg_w; simpl; lia.
Qed.

(** ** Cutting the profile under a new item *)

Lemma cut_right (x x_end a b : Z) (l : list segment) :
  chain a b l -> x_end <= a -> flat_map (HeuristicSolver.cut x x_end) l = l.
Proof.
  induction 1 as [a|a b w h l Hw Hl IH]; intros Ha; simpl; [reflexivity|].
  rewrite IH by lia.
  replace (x_end <=? a) with true by (symmetry; apply Z.leb_le; lia).
  now rewrite orb_true_r.
Qed.

Lemma cut_tail (x x_end a b : Z) (l : list segment) :
  chain a b l -> x <= a -> a <= x_end -> x_end <= b ->
  chain x_end b (flat_map (HeuristicSolver.cut x x_end) l).
Proof.
  induction 1 as [a|a b w h l Hw Hl IH]; intros Hx Ha Hb; simpl.
  - replace x_end with a by lia. constructor.
  - pose proof (chain_le _ _ _ Hl) as Hle.
    destruct (Z_le_gt_dec x_end a) as [Hea|Hea].
    + (* the item ends where this segment starts *)
      replace (x_end <=? a) with true by (symmetry; apply Z.leb_le; lia).
      rewrite orb_true_r. simpl.
      rewrite (cut_right x x_end _ _ _ Hl) by lia.
      replace x_end with a by lia. constructor; auto.
    + replace (x_end <=? a) with false by (symmetry; apply Z.leb_gt; lia).
      replace (a + w <=? x) with false by (symmetry; apply Z.leb_gt; lia).
      replace (a <? x) with false by (symmetry; apply Z.ltb_ge; lia).
      simpl.
      destruct (x_end <? a + w) eqn:E.
      * apply Z.ltb_lt in E. simpl.
        rewrite (cut_right x x_end _ _ _ Hl) by lia.
        constructor; [lia|]. replace (x_end + (a + w - x_end)) with (a + w) by lia.
        exact Hl.
      * apply Z.ltb_ge in E. simpl. apply IH; lia.
Qed.

Lemma cut_chain (x x_end a b : Z) (l : list segment) :
  chain a b l -> a <= x -> x < x_end -> x_end <= b ->
  exists l1 l2, flat_map (HeuristicSolver.cut x x_end) l = l1 ++ l2
                /\ chain a x l1 /\ chain x_end b l2.
Proof.
  induction 1 as [a|a b w h l Hw Hl IH]; intros Ha Hx Hb; [lia|].
  pose proof (chain_le _ _ _ Hl) as Hle.
  destruct (Z_le_gt_dec (a + w) x) as [Hleft|Hin].
  - (* the segment lies left of the item *)
    destruct (IH Hleft Hx Hb) as (l1 & l2 & E & H1 & H2).
    exists ((a, w, h) :: l1), l2; simpl.
    replace (a + w <=? x) with true by (symmetry; apply Z.leb_le; lia).
    simpl. rewrite E. repeat split; auto. constructor; auto.
  - destruct (Z.eq_dec a x) as [->|Hne].
    + exists [], (flat_map (HeuristicSolver.cut x x_end) ((x, w, h) :: l)).
      repeat split; [constructor|].
      apply (cut_tail x x_end x b); [constructor; auto|lia|lia|lia].
    + simpl.
      replace (a + w <=? x) with false by (symmetry; apply Z.leb_gt; lia).
      replace (x_end <=? a) with false by (symmetry; apply Z.leb_gt; lia).
      replace (a <? x) with true by (symmetry; apply Z.ltb_lt; lia).
      simpl.
      exists [(a, x - a, h)].
      destruct (x_end <? a + w) eqn:E.
      * apply Z.ltb_lt in E.
        exists ((x_end, a + w - x_end, h) :: l); simpl.
        rewrite (cut_right x x_end _ _ _ Hl) by lia.
        repeat split.
        -- constructor; [lia|]. replace (a + (x - a)) with x by lia. constructor.
        -- constructor; [lia|]. replace (x_end + (a + w - x_end)) with (a + w) by lia.
           exact Hl.
      * apply Z.ltb_ge in E.
        exists (flat_map (HeuristicSolver.cut x x_end) l); simpl.
        repeat split.
        -- constructor; [lia|]. replace (a + (x - a)) with x by lia. constructor.
        -- apply (cut_tail x x_end (a + w) b); auto; lia.
Qed.

(** What is left of a segment keeps its height and avoids the item. *)
Lemma cut_covers (x x_end : Z) (l : list segment) (s' : segment) (t : Z) :
  In s' (flat_map (HeuristicSolver.cut x x_end) l) -> covers s' t ->
  ~ (x <= t < x_end)
  /\ exists s, In s l /\ covers s t /\ seg_h s = seg_h s'.
Proof.
  intros Hin Hc. apply in_flat_map in Hin as (s & Hs & Hin).
  destruct s as [[xs width] sy]. unfold HeuristicSolver.cut in Hin.
  assert (Hgoal : ~ (x <= t < x_end) /\ covers (xs, width, sy) t /\ sy = seg_h s').
  { unfold covers, seg_x, seg_w, seg_h in *.
    destruct ((xs + width <=? x) || (x_end <=? xs)) eqn:E.
    - destruct Hin as [<-|[]]; simpl in *.
      apply orb_true_iff in E; rewrite !Z.leb_le in E. lia.
    - apply orb_false_iff in E as [E1 E2]. apply Z.leb_gt in E1, E2.
      apply in_app_or in Hin as [Hin|Hin].
      + destruct (xs <? x) eqn:E3; [|contradiction].
        apply Z.ltb_lt in E3. destruct Hin as [<-|[]]; simpl in *. lia.
      + destruct (x_end <? xs + width) eqn:E3; [|contradiction].
        apply Z.ltb_lt in E3. destruct Hin as [<-|[]]; simpl in *. lia. }
  destruct Hgoal as (H1 & H2 & H3); split; [exact H1|].
  exists (xs, width, sy); auto.
Qed.

Lemma cut_heights (x x_end : Z) (l : list segment) (s' : segment) :
  In s' (flat_map (HeuristicSolver.cut x x_end) l) ->
  exists s, In s l /\ seg_h s = seg_h s'.
Proof.
  intros Hin. apply in_flat_map in Hin as (s & Hs & Hin).
  exists s; split; [exact Hs|].
  destruct s as [[xs width] sy]. unfold HeuristicSolver.cut in Hin.
  destruct ((xs + width <=? x) || (x_end <=? xs)).
  - destruct Hin as [<-|[]]; reflexivity.
  - apply in_app_or in Hin as [Hin|Hin].
    + destruct (xs <? x); [|contradiction]. destruct Hin as [<-|[]]; reflexivity.
    + destruct (x_end <? xs + width); [|contradiction].
      destruct Hin as [<-|[]]; reflexivity.
Qed.

(** Area under what is left, segment by segment. *)
Lemma cut_area_one (x x_end : Z) (s : segment) :
  0 < seg_w s -> x <= x_end ->
  seg_area s = py_sum (map seg_area (HeuristicSolver.cut x x_end s))
               + seg_h s * overlap x x_end s.
Proof.
  destruct s as [[xs width] sy]. unfold seg_area, overlap, seg_x, seg_w, seg_h,
    HeuristicSolver.cut; simpl. intros Hw Hx.
  destruct ((xs + width <=? x) || (x_end <=? xs)) eqn:E.
  - apply orb_true_iff in E; rewrite !Z.leb_le in E. simpl.
    rewrite py_sum_cons. change (py_sum []) with 0. simpl.
    replace (Z.max 0 (Z.min (xs + width) x_end - Z.max xs x)) with 0 by lia. lia.
  - apply orb_false_iff in E as [E1 E2]. apply Z.leb_gt in E1, E2.
    destruct (xs <? x) eqn:E3, (x_end <? xs + width) eqn:E4; simpl;
      rewrite ?py_sum_cons; change (py_sum []) with 0; simpl;
      rewrite ?Z.ltb_lt, ?Z.ltb_ge in *.
    + replace (Z.max 0 (Z.min (xs + width) x_end - Z.max xs x)) with (x_end - x) by lia. lia.
    + replace (Z.max 0 (Z.min (xs + width) x_end - Z.max xs x)) with (xs + width - x) by lia. lia.
    + replace (Z.max 0 (Z.min (xs + width) x_end - Z.max xs x)) with (x_end - xs) by lia. lia.
    + replace (Z.max 0 (Z.min (xs + width) x_end - Z.max xs x)) with width by lia. lia.
Qed.

Lemma cut_area (x x_end y : Z) (l : list segment) :
  Forall (fun s => 0 < seg_w s) l -> x <= x_end ->
  (forall s t, In s l -> covers s t -> x <= t < x_end -> seg_h s <= y) ->
  py_sum (map seg_area l)
  <= py_sum (map seg_area (flat_map (HeuristicSolver.cut x x_end) l))
     + y * py_sum (map (overlap x x_end) l).
Proof.
  intros Hw Hx; induction Hw as [|s l Hs Hl IH]; intros Hy; simpl.
  - change (py_sum []) with 0; lia.
  - rewrite map_app, py_sum_app, !py_sum_cons.
    rewrite (cut_area_one x x_end s Hs Hx).
    assert (IH' := IH (fun s t Hin => Hy s t (or_intror Hin))).
    assert (Hov : seg_h s * overlap x x_end s <= y * overlap x x_end s).
    { destruct (Z.eq_dec (overlap x x_end s) 0) as [->|Hne]; [lia|].
      assert (Hh : seg_h s <= y).
      { apply (Hy s (Z.max (seg_x s) x)); [left; reflexivity| |];
          unfold overlap, covers in *; lia. }
      unfold overlap in *; nia. }
    lia.
Qed.

(** ** Sorting and merging the cut profile *)

Lemma insert_by_front {A : Type} (key : A -> Z) (a : A) (l : list A) :
  Forall (fun b => key a <= key b) l -> insert_by key a l = a :: l.
Proof.
  destruct l as [|b l]; simpl; [reflexivity|].
  intros H; inversion H; subst.
  replace (key a <=? key b) with true by (symmetry; apply Z.leb_le; assumption).
  reflexivity.
Qed.

Lemma chain_keys (a b : Z) (l : list segment) :
  chain a b l -> Forall (fun s => a <= seg_x s) l.
Proof.
  intros H; apply Forall_forall; intros s Hs.
  destruct (chain_bounds _ _ _ H s Hs) as (? & _); assumption.
Qed.

(** The new segment, appended last, sorts to the gap left by the cut. *)
Lemma sort_gap (a x x_end b : Z) (l1 l2 : list segment) (new : segment) :
  chain a x l1 -> chain x_end b l2 -> x < x_end -> seg_x new = x ->
  sort_by seg_x ((l1 ++ l2) ++ [new]) = l1 ++ new :: l2.
Proof.
  intros H1 H2 Hx Hn. unfold sort_by.
  rewrite <- app_assoc, !fold_right_app. simpl.
  assert (E2 : fold_right (insert_by seg_x) [new] l2 = new :: l2).
  { clear H1. induction H2 as [c|c b w h l Hw Hl IH]; simpl; [reflexivity|].
    rewrite IH by lia. simpl.
    replace (seg_x (c, w, h) <=? seg_x new) with false; [f_equal|].
    - apply insert_by_front.
      eapply Forall_impl; [|apply (chain_keys _ _ _ Hl)].
      intros s Hs; unfold seg_x in *; simpl; lia.
    - symmetry; apply Z.leb_gt. unfold seg_x in *; simpl; lia. }
  rewrite E2. clear E2.
  induction H1 as [c|c x w h l Hw Hl IH]; simpl; [reflexivity|].
  rewrite IH by assumption.
  apply insert_by_front.
  pose proof (chain_le _ _ _ Hl) as Hle.
  apply Forall_app; split.
  - eapply Forall_impl; [|apply (chain_keys _ _ _ Hl)].
    intros s Hs; unfold seg_x in *; simpl; lia.
  - constructor; [unfold seg_x in *; simpl; lia|].
    eapply Forall_impl; [|apply (chain_keys _ _ _ H2)].
    intros s Hs; unfold seg_x in *; simpl; lia.
Qed.

Lemma merge_from_head (cur : segment) (rest : list segment) :
  exists s l, HeuristicSolver.merge_from cur rest = s :: l
              /\ seg_x s = seg_x cur /\ seg_h s = seg_h cur.
Proof.
  revert cur; induction rest as [|seg rest IH]; intros [[px pw] py]; simpl.
  - eexists _, _; repeat split.
  - destruct seg as [[sx sw] sy].
    destruct ((py =? sy) && (px + pw =? sx)).
    + destruct (IH (px, pw + sw, py)) as (s & l & E & Hx & Hh).
      exists s, l; auto.
    + eexists _, _; repeat split.
Qed.

Lemma merge_from_chain (a b : Z) (cur : segment) (rest : list segment) :
  chain a b (cur :: rest) ->
  chain a b (HeuristicSolver.merge_from cur rest)
  /\ merged (HeuristicSolver.merge_from cur rest).
Proof.
  revert a cur; induction rest as [|seg rest IH]; intros a cur H.
  - simpl. destruct cur as [[px pw] py]. split; [exact H|exact I].
  - inversion H as [|a' b' pw py l Hpw Hl]; subst.
    inversion Hl as [|a' b' sw sy l' Hsw Hl']; subst.
    simpl. rewrite Z.eqb_refl, andb_true_r.
    destruct (py =? sy) eqn:E.
    + apply IH. constructor; [lia|].
      replace (a + (pw + sw)) with (a + pw + sw) by lia. exact Hl'.
    + apply Z.eqb_neq in E.
      destruct (IH (a + pw) (a + pw, sw, sy) Hl) as [Hc Hm].
      split; [constructor; assumption|].
      destruct (merge_from_head (a + pw, sw, sy) rest) as (s & l & Es & _ & Hh).
      rewrite Es in Hm |- *. simpl. split; [|exact Hm].
      rewrite Hh. exact E.
Qed.

Lemma merge_chain (a b : Z) (l : list segment) :
  chain a b l -> chain a b (HeuristicSolver.merge l) /\ merged (HeuristicSolver.merge l).
Proof.
  destruct l as [|s l]; simpl; intros H; [split; [exact H|exact I]|].
  now apply merge_from_chain.
Qed.

Lemma merge_from_covers (cur : segment) (rest : list segment) (s' : segment) (t : Z) :
  In s' (HeuristicSolver.merge_from cur rest) -> covers s' t ->
  exists s, In s (cur :: rest) /\ covers s t /\ seg_h s = seg_h s'.
Proof.
  revert cur; induction rest as [|seg rest IH]; intros [[px pw] py]; simpl.
  - intros [<-|[]] Hc. eexists; split; [left; reflexivity|auto].
  - destruct seg as [[sx sw] sy].
    destruct ((py =? sy) && (px + pw =? sx)) eqn:E.
    + apply andb_true_iff in E as [E1 E2]. apply Z.eqb_eq in E1, E2. subst sy sx.
      intros Hin Hc. destruct (IH _ Hin Hc) as (s & [<-|Hs] & Hcs & Hh).
      * unfold covers, seg_x, seg_w, seg_h in *; simpl in *.
        destruct (Z_lt_ge_dec t (px + pw)).
        -- exists (px, pw, py); split; [left; reflexivity|simpl; split; [lia|exact Hh]].
        -- exists (px + pw, sw, py); split; [right; left; reflexivity|simpl; split; [lia|exact Hh]].
      * exists s; auto.
    + intros [<-|Hin] Hc.
      * eexists; split; [left; reflexivity|auto].
      * destruct (IH _ Hin Hc) as (s & Hs & H'); exists s; auto.
Qed.

Lemma merge_from_heights (cur : segment) (rest : list segment) (s' : segment) :
  In s' (HeuristicSolver.merge_from cur rest) ->
  exists s, In s (cur :: rest) /\ seg_h s = seg_h s'.
Proof.
  revert cur; induction rest as [|seg rest IH]; intros [[px pw] py]; simpl.
  - intros [<-|[]]. eexists; split; [left; reflexivity|auto].
  - destruct seg as [[sx sw] sy].
    destruct ((py =? sy) && (px + pw =? sx)) eqn:E.
    + intros Hin. destruct (IH _ Hin) as (s & [<-|Hs] & Hh).
      * exists (px, pw, py); split; [left; reflexivity|exact Hh].
      * exists s; auto.
    + intros [<-|Hin].
      * eexists; split; [left; reflexivity|auto].
      * destruct (IH _ Hin) as (s & Hs & H'); exists s; auto.
Qed.

Lemma merge_from_area (cur : segment) (rest : list segment) :
  py_sum (map seg_area (HeuristicSolver.merge_from cur rest))
  = py_sum (map seg_area (cur :: rest)).
Proof.
  revert cur; induction rest as [|seg rest IH]; intros [[px pw] py]; simpl;
    [reflexivity|].
  destruct seg as [[sx sw] sy].
  destruct ((py =? sy) && (px + pw =? sx)) eqn:E.
  - apply andb_true_iff in E as [E1 _]. apply Z.eqb_eq in E1. subst sy.
    rewrite IH. simpl. rewrite !py_sum_cons. unfold seg_area, seg_w, seg_h; simpl. lia.
  - simpl. rewrite !py_sum_cons, IH. simpl. rewrite py_sum_cons. lia.
Qed.

(** ** The scan for a position *)

Lemma find_position_from_spec (w_eff : Z) (l : list segment) :
  forall i best r,
    HeuristicSolver.find_position_from l i w_eff best = Some r ->
    best = Some r
    \/ exists s, In s l /\ seg_x s = fst (fst r) /\ seg_h s = snd (fst r)
                 /\ w_eff <= seg_w s.
Proof.
  induction l as [|[[xs width] y] l IH]; intros i best r; simpl; [auto|].
  destruct (width <? w_eff) eqn:E.
  - intros H; destruct (IH _ _ _ H) as [->|(s & Hs & H')]; [auto|].
    right; exists s; auto.
  - apply Z.ltb_ge in E.
    assert (Hcand : forall r, Some (xs, y, i) = Some r ->
                              exists s, In s ((xs, width, y) :: l)
                                        /\ seg_x s = fst (fst r) /\ seg_h s = snd (fst r)
                                        /\ w_eff <= seg_w s).
    { intros r' Er; inversion Er; subst. exists (xs, width, y).
      split; [left; reflexivity|simpl; auto]. }
    assert (Hrest : forall b, HeuristicSolver.find_position_from l (S i) w_eff b = Some r ->
                              b = Some r
                              \/ exists s, In s ((xs, width, y) :: l)
                                           /\ seg_x s = fst (fst r) /\ seg_h s = snd (fst r)
                                           /\ w_eff <= seg_w s).
    { intros b H; destruct (IH _ _ _ H) as [->|(s & Hs & H')]; [auto|].
      right; exists s; split; [right; exact Hs|exact H']. }
    destruct best as [b|].
    + destruct (HeuristicSolver.better (xs, y, i) b); intros H;
        destruct (Hrest _ H) as [Eb|Hex]; auto.
    + intros H; destruct (Hrest _ H) as [Eb|Hex]; auto.
Qed.

Lemma find_position_spec (l : list segment) (w_eff h_eff x y : Z) (i : nat) :
  HeuristicSolver.find_position l w_eff h_eff = Some (x, y, i) ->
  exists s, In s l /\ seg_x s = x /\ seg_h s = y /\ w_eff <= seg_w s.
Proof.
  unfold HeuristicSolver.find_position; intros H.
  destruct (find_position_from_spec _ _ _ _ _ H) as [E|Hex]; [discriminate|].
  exact Hex.
Qed.

Lemma merge_covers (l : list segment) (s' : segment) (t : Z) :
  In s' (HeuristicSolver.merge l) -> covers s' t ->
  exists s, In s l /\ covers s t /\ seg_h s = seg_h s'.
Proof.
  destruct l as [|cur rest]; simpl; [contradiction|].
  apply merge_from_covers.
Qed.

Lemma merge_heights (l : list segment) (s' : segment) :
  In s' (HeuristicSolver.merge l) -> exists s, In s l /\ seg_h s = seg_h s'.
Proof.
  destruct l as [|cur rest]; simpl; [contradiction|].
  apply merge_from_heights.
Qed.

Lemma merge_area (l : list segment) :
  py_sum (map seg_area (HeuristicSolver.merge l)) = py_sum (map seg_area l).
Proof.
  destruct l as [|cur rest]; simpl; [reflexivity|].
  apply merge_from_area.
Qed.

(** ** One update of the profile *)

Section Update.
Variables (W x w y h : Z) (l : list segment).
Hypothesis Hchain : chain 0 W l.
Hypothesis Hw : 0 < w.
Hypothesis Hx : 0 <= x.
Hypothesis Hend : x + w <= W.

Let l' : list segment := HeuristicSolver.update_skyline l x w y h.

Lemma update_sorted :
  exists l1 l2,
    flat_map (HeuristicSolver.cut x (x + w)) l = l1 ++ l2
    /\ chain 0 x l1 /\ chain (x + w) W l2
    /\ l' = HeuristicSolver.merge (l1 ++ (x, w, y + h) :: l2).
Proof.
  destruct (cut_chain x (x + w) 0 W l Hchain) as (l1 & l2 & E & H1 & H2); try lia.
  exists l1, l2; repeat split; auto.
  unfold l', HeuristicSolver.update_skyline. cbv zeta. rewrite E.
  f_equal. apply (sort_gap 0 x (x + w) W l1 l2 (x, w, y + h) H1 H2); [lia|reflexivity].
Qed.

Lemma update_chain : chain 0 W l' /\ merged l'.
Proof.
  destruct update_sorted as (l1 & l2 & E & H1 & H2 & ->).
  apply merge_chain. apply (chain_app 0 x W); [exact H1|].
  constructor; assumption.
Qed.

Lemma update_covers (s' : segment) (t : Z) :
  In s' l' -> covers s' t ->
  (x <= t < x + w /\ seg_h s' = y + h)
  \/ (~ (x <= t < x + w) /\ exists s, In s l /\ covers s t /\ seg_h s = seg_h s').
Proof.
  destruct update_sorted as (l1 & l2 & E & H1 & H2 & ->).
  intros Hin Hc. destruct (merge_covers _ _ _ Hin Hc) as (s & Hs & Hcs & Hh).
  assert (Hs' : s = (x, w, y + h) \/ In s (l1 ++ l2)).
  { apply in_app_or in Hs as [Hs|[Hs|Hs]]; [right|left|right]; auto;
      apply in_or_app; auto. }
  destruct Hs' as [->|Hs'].
  - left. unfold covers, seg_x, seg_w, seg_h in *; simpl in *. lia.
  - right. rewrite <- E in Hs'.
    destruct (cut_covers _ _ _ _ _ Hs' Hcs) as (Hout & s0 & Hs0 & Hc0 & Hh0).
    split; [exact Hout|].
    exists s0; split; [exact Hs0|split; [exact Hc0|congruence]].
Qed.

Lemma update_heights (s' : segment) :
  In s' l' -> seg_h s' = y + h \/ exists s, In s l /\ seg_h s = seg_h s'.
Proof.
  destruct update_sorted as (l1 & l2 & E & H1 & H2 & ->).
  intros Hin. destruct (merge_heights _ _ Hin) as (s & Hs & Hh).
  assert (Hs' : s = (x, w, y + h) \/ In s (l1 ++ l2)).
  { apply in_app_or in Hs as [Hs|[Hs|Hs]]; [right|left|right]; auto;
      apply in_or_app; auto. }
  destruct Hs' as [->|Hs'].
  - left. rewrite <- Hh. reflexivity.
  - right. rewrite <- E in Hs'.
    destruct (cut_heights _ _ _ _ Hs') as (s0 & Hs0 & Hh0).
    exists s0; split; [exact Hs0|congruence].
Qed.

Lemma update_area :
  (forall s t, In s l -> covers s t -> x <= t < x + w -> seg_h s <= y) ->
  py_sum (map seg_area l) + w * h <= py_sum (map seg_area l').
Proof.
  intros Hy.
  destruct update_sorted as (l1 & l2 & E & H1 & H2 & ->).
  rewrite merge_area, map_app, py_sum_app. simpl. rewrite py_sum_cons.
  assert (Hcut : py_sum (map seg_area (flat_map (HeuristicSolver.cut x (x + w)) l))
                 = py_sum (map seg_area l1) + py_sum (map seg_area l2))
    by (rewrite E, map_app, py_sum_app; reflexivity).
  assert (Hpos : Forall (fun s => 0 < seg_w s) l).
  { apply Forall_forall; intros s Hs.
    destruct (chain_bounds _ _ _ Hchain s Hs) as (_ & _ & ?); assumption. }
  pose proof (cut_area x (x + w) y l Hpos ltac:(lia) Hy) as Ha.
  rewrite (chain_overlap 0 W l x (x + w) Hchain) in Ha.
  replace (Z.max 0 (Z.min W (x + w) - Z.max 0 x)) with w in Ha by lia.
  unfold seg_area at 3, seg_w, seg_h; simpl. nia.
Qed.

End Update.

(** ** One round of the skyline loop *)

Lemma skyline_step_shape (W : Z) (ar : bool) (st st' : HeuristicSolver.profile)
      (r : Rectangle.t) :
  HeuristicSolver.skyline_step W ar st r = Ok st' ->
  exists q, HeuristicSolver.placements st' = HeuristicSolver.placements st ++ [q]
            /\ placement_of ar r q
            /\ Placement.w_eff q <= W
            /\ HeuristicSolver.skyline st'
               = HeuristicSolver.update_skyline (HeuristicSolver.skyline st)
                   (Placement.x q) (Placement.w_eff q) (Placement.y q) (Placement.h_eff q)
            /\ ((exists s, In s (HeuristicSolver.skyline st)
                           /\ seg_x s = Placement.x q /\ seg_h s = Placement.y q
                           /\ Placement.w_eff q <= seg_w s)
                \/ (Placement.x q = 0
                    /\ py_max (map seg_h (HeuristicSolver.skyline st))
                       = Ok (Placement.y q))).
Proof.
  unfold HeuristicSolver.skyline_step.
  destruct (HeuristicSolver._orient r ar true) as [[we he] rot] eqn:Eo.
  destruct (W <? we) eqn:EW; [discriminate|]. apply Z.ltb_ge in EW.
  intros E. apply bind_ok in E as ([x y] & Exy & E).
  inversion E; subst st'; clear E; simpl.
  exists (Placement.mk (Rectangle.id r) x y we he rot); simpl.
  split; [reflexivity|]. split; [split; simpl; auto|].
  split; [exact EW|]. split; [reflexivity|].
  destruct (HeuristicSolver.find_position (HeuristicSolver.skyline st) we he)
    as [[[x0 y0] i]|] eqn:Ef.
  - inversion Exy; subst. left. eapply find_position_spec; eauto.
  - apply bind_ok in Exy as (y0 & Ey & Exy). inversion Exy; subst. right; auto.
Qed.

Lemma spot_found (W : Z) (st : HeuristicSolver.profile) (x w y : Z) :
  profile_inv W st -> 0 < w -> w <= W ->
  (exists s, In s (HeuristicSolver.skyline st)
             /\ seg_x s = x /\ seg_h s = y /\ w <= seg_w s)
  \/ (x = 0 /\ py_max (map seg_h (HeuristicSolver.skyline st)) = Ok y) ->
  spot_ok W (HeuristicSolver.skyline st) x w y.
Proof.
  intros I Hw HwW Hpos.
  pose proof (pi_chain _ _ I) as Hc. pose proof (pi_floor _ _ I) as Hf.
  rewrite Forall_forall in Hf.
  destruct Hpos as [(s & Hs & Hx & Hy & Hfit)|(-> & Hmax)].
  - destruct (chain_bounds _ _ _ Hc s Hs) as (H0 & HW & _).
    pose proof (Hf s Hs) as Hh.
    repeat split; try lia.
    intros s1 t Hs1 Hc1 Ht.
    assert (s1 = s); [|subst; lia].
    apply (chain_unique 0 W _ s1 s t Hc Hs1 Hs Hc1). unfold covers; lia.
  - apply py_max_ok in Hmax as [Hin Hall].
    apply in_map_iff in Hin as (s & Hh & Hs). pose proof (Hf s Hs).
    repeat split; try lia.
    intros s1 t Hs1 _ _. rewrite Forall_forall in Hall.
    apply Hall, in_map, Hs1.
Qed.

Lemma profile_update (W : Z) (st : HeuristicSolver.profile) (q : Placement.t) :
  profile_inv W st ->
  0 < Placement.w_eff q -> 0 < Placement.h_eff q ->
  spot_ok W (HeuristicSolver.skyline st) (Placement.x q) (Placement.w_eff q) (Placement.y q) ->
  profile_inv W (HeuristicSolver.mk_profile
                   (HeuristicSolver.update_skyline (HeuristicSolver.skyline st)
                      (Placement.x q) (Placement.w_eff q) (Placement.y q) (Placement.h_eff q))
                   (HeuristicSolver.placements st ++ [q])).
Proof.
  intros I Hw Hh (Hx & Hend & Hy & Hbound).
  destruct I as [Ic Im If Is Iu Ia Iar It].
  rewrite Forall_forall in If, It.
  pose proof (update_chain W _ _ (Placement.y q) (Placement.h_eff q) _ Ic Hw Hx Hend)
    as [Hc' Hm'].
  (* no earlier placement rises above [y] under the new item *)
  assert (Hbelow : forall p t, In p (HeuristicSolver.placements st) ->
                               Placement.x p <= t < Placement.x p + Placement.w_eff p ->
                               Placement.x q <= t < Placement.x q + Placement.w_eff q ->
                               HeuristicSolver.top p <= Placement.y q).
  { intros p t Hp Hpt Hqt.
    destruct (chain_cover 0 W _ t Ic) as (s & Hs & Hcs); [lia|].
    pose proof (Iu p s t Hp Hs Hpt Hcs). pose proof (Hbound s t Hs Hcs Hqt). lia. }
  constructor; simpl; auto.
  - apply Forall_forall; intros s' Hs'.
    destruct (update_heights W _ _ _ _ _ Ic Hw Hx Hend s' Hs') as [E|(s & Hs & E)].
    + lia.
    + rewrite <- E; auto.
  - apply Forall_app; split; [exact Is|].
    constructor; [|constructor]. unfold in_strip; lia.
  - intros p s' t Hp Hs' Hpt Hc.
    destruct (update_covers W _ _ _ _ _ Ic Hw Hx Hend s' t Hs' Hc)
      as [[Ht E]|(Ht & s & Hs & Hcs & E)].
    + apply in_app_or in Hp as [Hp|[<-|[]]].
      * pose proof (Hbelow p t Hp Hpt Ht). lia.
      * unfold HeuristicSolver.top. lia.
    + apply in_app_or in Hp as [Hp|[<-|[]]].
      * rewrite <- E. eapply Iu; eauto.
      * contradiction.
  - apply ordered_snoc; [exact Ia|].
    apply Forall_forall; intros p Hp.
    unfold apart, Solution.separated. rewrite !orb_true_iff, !Z.leb_le.
    destruct (Z_le_gt_dec (Placement.x p + Placement.w_eff p) (Placement.x q)); [auto|].
    destruct (Z_le_gt_dec (Placement.x q + Placement.w_eff q) (Placement.x p)); [auto|].
    left; right.
    rewrite Forall_forall in Is. destruct (Is p Hp) as (? & ? & ? & ? & ?).
    apply (Hbelow p (Z.max (Placement.x p) (Placement.x q)) Hp); lia.
  - rewrite map_app, py_sum_app. simpl. rewrite py_sum_cons.
    change (py_sum []) with 0.
    pose proof (update_area W _ _ (Placement.y q) (Placement.h_eff q) _ Ic Hw Hx Hend Hbound).
    unfold area_of at 2. lia.
  - apply Forall_forall; intros s' Hs'.
    destruct (update_heights W _ _ _ _ _ Ic Hw Hx Hend s' Hs') as [E|(s & Hs & E)].
    + right; exists q; split; [apply in_or_app; right; left; reflexivity|].
      unfold HeuristicSolver.top; lia.
    + rewrite <- E. destruct (It s Hs) as [Hz|(p & Hp & Ht)]; [auto|].
      right; exists p; split; [apply in_or_app; auto|exact Ht].
Qed.

Lemma skyline_step_inv (W : Z) (ar : bool) (st st' : HeuristicSolver.profile)
      (r : Rectangle.t) :
  positive_sides r -> profile_inv W st ->
  HeuristicSolver.skyline_step W ar st r = Ok st' ->
  profile_inv W st'.
Proof.
  intros Hr I E.
  destruct (skyline_step_shape _ _ _ _ _ E) as (q & Epl & [Hid Ho] & HwW & Esk & Hpos).
  destruct (orient_dims r ar _ _ _ Hr Ho) as (Hw & Hh & _).
  pose proof (profile_update W st q I Hw Hh (spot_found W st _ _ _ I Hw HwW Hpos)) as I'.
  destruct st' as [sk' pl']; simpl in *; subst; exact I'.
Qed.

Lemma profile0_inv (W : Z) : 0 < W -> profile_inv W (HeuristicSolver.mk_profile [(0, W, 0)] []).
Proof.
  intros HW; constructor; simpl.
  - constructor; [lia|]. rewrite Z.add_0_l. constructor.
  - exact I.
  - constructor; [unfold seg_h; simpl; lia|constructor].
  - constructor.
  - intros p s t [].
  - constructor.
  - rewrite py_sum_cons. change (py_sum []) with 0.
    unfold seg_area, seg_w, seg_h; simpl; lia.
  - constructor; [left; reflexivity|constructor].
Qed.

(** ** Results of the skyline policy *)

Lemma skyline_loop_placements (W : Z) (ar : bool) (rs : list Rectangle.t) :
  forall st st',
    for_each (HeuristicSolver.skyline_step W ar) rs st = Ok st' ->
    exists qs, HeuristicSolver.placements st' = HeuristicSolver.placements st ++ qs
               /\ Forall2 (placement_of ar) rs qs.
Proof.
  induction rs as [|r rs IH]; intros st st' E; simpl in E.
  - inversion E; subst. exists []; split; [now rewrite app_nil_r|constructor].
  - apply bind_ok in E as (st1 & E1 & E2).
    apply skyline_step_shape in E1 as (q & Eq & Hq & _).
    destruct (IH _ _ E2) as (qs & Eqs & Hqs).
    exists (q :: qs); split.
    + rewrite Eqs, Eq, <- app_assoc; reflexivity.
    + constructor; assumption.
Qed.

Lemma skyline_loop_inv (W : Z) (ar : bool) (rs : list Rectangle.t)
      (st st' : HeuristicSolver.profile) :
  Forall positive_sides rs -> profile_inv W st ->
  for_each (HeuristicSolver.skyline_step W ar) rs st = Ok st' ->
  profile_inv W st'.
Proof.
  intros Hpos I E.
  eapply (for_each_invariant _ (profile_inv W) positive_sides); eauto.
  intros s a s' Ha Hs Es. eapply skyline_step_inv; eauto.
Qed.

Lemma skyline_height_spec (pl : list Placement.t) (H : Z) :
  HeuristicSolver.skyline_height pl = Ok H ->
  (forall p, In p pl -> HeuristicSolver.top p <= H)
  /\ (pl = [] -> H = 0)
  /\ (pl <> [] -> exists p, In p pl /\ HeuristicSolver.top p = H).
Proof.
  destruct pl as [|p0 pl]; intros E.
  - inversion E; subst. repeat split; [intros p []|congruence].
  - unfold HeuristicSolver.skyline_height in E.
    apply py_max_ok in E as [Hin Hall]. rewrite Forall_forall in Hall.
    split; [|split].
    + intros p Hp. apply Hall, in_map, Hp.
    + discriminate.
    + intros _. apply in_map_iff in Hin as (p & Hp & Hin). exists p; auto.
Qed.

Lemma skyline_height_total (pl : list Placement.t) :
  exists H, HeuristicSolver.skyline_height pl = Ok H.
Proof. destruct pl; eexists; reflexivity. Qed.

Lemma area_under (H : Z) (l : list segment) :
  Forall (fun s => 0 < seg_w s /\ seg_h s <= H) l ->
  py_sum (map seg_area l) <= H * py_sum (map seg_w l).
Proof.
  induction 1 as [|s l [Hw Hh] _ IH]; simpl.
  - change (py_sum []) with 0; lia.
  - rewrite !py_sum_cons.
    assert (seg_area s <= H * seg_w s) by (unfold seg_area; nia).
    lia.
Qed.

Lemma skyline_sound (self : HeuristicSolver.t) (sol : Solution.t) :
  well_formed (HeuristicSolver.instance self) ->
  HeuristicSolver.guillotine self = false ->
  HeuristicSolver._skyline self = Ok sol ->
  skyline_packing (HeuristicSolver.instance self) (HeuristicSolver.allow_rotation self) sol.
Proof.
  intros [HW Hd Hpos _] Hg E. unfold HeuristicSolver._skyline in E. rewrite Hg in E.
  apply bind_ok in E as (st & E & E'). apply bind_ok in E' as (H & EH & Es).
  inversion Es; subst sol; clear Es; simpl.
  set (rs := sort_by_reverse (HeuristicSolver.skyline_key (HeuristicSolver.allow_rotation self))
                             (Instance.rectangles (HeuristicSolver.instance self))) in *.
  assert (Hperm : Permutation rs (Instance.rectangles (HeuristicSolver.instance self)))
    by apply sort_by_reverse_perm.
  exists rs, st.
  destruct (skyline_loop_placements _ _ _ _ _ E) as (qs & Eqs & Hqs).
  simpl in Eqs; subst qs.
  split; [exact Hperm|]. split; [exact Hqs|]. split; [|split; [reflexivity|exact EH]].
  refine (skyline_loop_inv _ _ _ _ _ _ (profile0_inv _ HW) E).
  rewrite Forall_forall in *; intros r Hr; apply Hpos.
  eapply Permutation_in; eauto.
Qed.

Lemma packing_feasible (inst : Instance.t) (ar : bool) (sol : Solution.t) :
  Instance.forbidden_zones inst = [] ->
  skyline_packing inst ar sol ->
  Solution.check_feasibility sol inst = true.
Proof.
  intros Hz (rs & st & Hperm & Hof & I & Epl & EH).
  destruct (skyline_height_spec _ _ EH) as (Htop & _).
  apply check_feasibility_true; auto.
  - intros p Hp. rewrite Epl in Hp.
    pose proof (pi_strip _ _ I) as Hs. rewrite Forall_forall in Hs.
    destruct (Hs p Hp) as (? & ? & ? & ? & ?).
    pose proof (Htop p Hp) as Ht. unfold HeuristicSolver.top in Ht. lia.
  - eapply perm_ids_iff; eauto. now apply placement_of_ids with (ar := ar).
  - rewrite Epl; apply (pi_apart _ _ I).
Qed.

Lemma packing_bounds (inst : Instance.t) (ar : bool) (sol : Solution.t) (a m : Z) :
  well_formed inst ->
  double_exact inst ->
  skyline_packing inst ar sol ->
  Instance.area_lb inst = Ok a ->
  Instance.maxh_lb inst ar = Ok m ->
  Z.max a m <= Solution.H sol.
Proof.
  intros [HW Hd Hpos _] Hde (rs & st & Hperm & Hof & I & Epl & EH) Ea Em.
  destruct (skyline_height_spec _ _ EH) as (Htop & Hnil & Hex).
  pose proof (pi_strip _ _ I) as Hs. rewrite Forall_forall in Hs.
  assert (H0 : 0 <= Solution.H sol).
  { destruct (HeuristicSolver.placements st) as [|p pl] eqn:Ep; [rewrite Hnil; auto; lia|].
    destruct (Hs p (or_introl eq_refl)) as (_ & ? & _ & ? & _).
    pose proof (Htop p (or_introl eq_refl)) as Ht. unfold HeuristicSolver.top in Ht. lia. }
  eapply bounds_below; eauto.
  - intros q Hq. rewrite Epl in Hq.
    destruct (Hs q Hq) as (_ & ? & _). split; [lia|auto].
  - rewrite Epl. pose proof (pi_area _ _ I) as Ha.
    pose proof (pi_chain _ _ I) as Hc.
    assert (Hall : Forall (fun s => 0 < seg_w s /\ seg_h s <= Solution.H sol)
                          (HeuristicSolver.skyline st)).
    { apply Forall_forall; intros s Hin.
      destruct (chain_bounds _ _ _ Hc s Hin) as (_ & _ & Hw). split; [exact Hw|].
      pose proof (pi_tops _ _ I) as Ht. rewrite Forall_forall in Ht.
      destruct (Ht s Hin) as [->|(p & Hp & <-)]; auto. }
    pose proof (area_under _ _ Hall) as Hu.
    rewrite (chain_width _ _ _ Hc) in Hu. lia.
Qed.

Lemma skyline_feasible (self : HeuristicSolver.t) (sol : Solution.t) :
  well_formed (HeuristicSolver.instance self) ->
  Instance.forbidden_zones (HeuristicSolver.instance self) = [] ->
  HeuristicSolver._skyline self = Ok sol ->
  Solution.check_feasibility sol (HeuristicSolver.instance self) = true.
Proof.
  intros Hwf Hz E.
  destruct (HeuristicSolver.guillotine self) eqn:Hg.
  { unfold HeuristicSolver._skyline in E; rewrite Hg in E. now apply nfdh_feasible. }
  eapply packing_feasible; [exact Hz|].
  exact (skyline_sound self sol Hwf Hg E).
Qed.

Lemma skyline_bounds (self : HeuristicSolver.t) (sol : Solution.t) (a m : Z) :
  well_formed (HeuristicSolver.instance self) ->
  double_exact (HeuristicSolver.instance self) ->
  HeuristicSolver._skyline self = Ok sol ->
  Instance.area_lb (HeuristicSolver.instance self) = Ok a ->
  Instance.maxh_lb (HeuristicSolver.instance self) (HeuristicSolver.allow_rotation self)
  = Ok m ->
  Z.max a m <= Solution.H sol.
Proof.
  intros Hwf Hde E Ea Em.
  destruct (HeuristicSolver.guillotine self) eqn:Hg.
  { unfold HeuristicSolver._skyline in E; rewrite Hg in E. eapply nfdh_bounds; eauto. }
  eapply packing_bounds; eauto.
  exact (skyline_sound self sol Hwf Hg E).
Qed.

Lemma skyline_locked (self : HeuristicSolver.t) (sol : Solution.t) :
  HeuristicSolver._skyline self = Ok sol ->
  forall q, In q (Solution.placements sol) -> Placement.rotated q = true ->
            exists r, In r (Instance.rectangles (HeuristicSolver.instance self))
                      /\ Rectangle.id r = Placement.rect_id q
                      /\ Rectangle.rotatable r = true
                      /\ HeuristicSolver.allow_rotation self = true.
Proof.
  intros E q Hq Hrot. unfold HeuristicSolver._skyline in E.
  destruct (HeuristicSolver.guillotine self); [eapply nfdh_locked; eauto|].
  apply bind_ok in E as (st & E & E'). apply bind_ok in E' as (H & EH & Es).
  inversion Es; subst sol; clear Es; simpl in *.
  destruct (skyline_loop_placements _ _ _ _ _ E) as (qs & Eqs & Hqs).
  simpl in Eqs; subst qs.
  destruct (placement_of_locked _ _ _ Hqs q Hq Hrot) as (r & Hr & H').
  exists r; split; [|exact H'].
  eapply Permutation_in; [apply sort_by_reverse_perm|exact Hr].
Qed.

(** C9: in a strip of positive width and with rectangles of positive
    sides, the profile reached after any number of rounds of the skyline
    loop (none included) is a chain of positive-width segments from 0 to
    [W], hence sorted by start, pairwise disjoint, contiguous and of total
    width [W], and no two neighbours have the same height. *)
Theorem skyline_profile_invariant :
  forall (self : HeuristicSolver.t) (k : nat) (st : HeuristicSolver.profile),
    0 < Instance.W (HeuristicSolver.instance self) ->
    Forall positive_sides (Instance.rectangles (HeuristicSolver.instance self)) ->
    for_each (HeuristicSolver.skyline_step (Instance.W (HeuristicSolver.instance self))
                                           (HeuristicSolver.allow_rotation self))
             (firstn k (sort_by_reverse
                          (HeuristicSolver.skyline_key (HeuristicSolver.allow_rotation self))
                          (Instance.rectangles (HeuristicSolver.instance self))))
             (HeuristicSolver.mk_profile [(0, Instance.W (HeuristicSolver.instance self), 0)] [])
    = Ok st ->
    skyline_ok (Instance.W (HeuristicSolver.instance self)) (HeuristicSolver.skyline st).
Proof.
  intros self k st HW Hpos E.
  assert (I : profile_inv (Instance.W (HeuristicSolver.instance self)) st).
  { refine (skyline_loop_inv _ _ _ _ _ _ (profile0_inv _ HW) E).
    rewrite Forall_forall in *; intros r Hr; apply Hpos.
    eapply Permutation_in; [apply sort_by_reverse_perm|].
    rewrite <- (firstn_skipn k). apply in_or_app; left; exact Hr. }
  pose proof (pi_chain _ _ I) as Hc.
  constructor.
  - exact Hc.
  - exact (pi_merged _ _ I).
  - exact (chain_sorted _ _ _ Hc).
  - rewrite (chain_width _ _ _ Hc); lia.
Qed.

Lemma skyline_profile_invariant_witness :
  skyline_ok 10 [(0, 6, 2); (6, 4, 3)].
Proof.
  apply (skyline_profile_invariant
           (HeuristicSolver.mk (Instance.mk 10 [Rectangle.mk 1 4 3 true; Rectangle.mk 2 4 3 true;
                                                Rectangle.mk 3 2 6 true] 0 [])
                               true Skyline false)
           2%nat
           (HeuristicSolver.mk_profile
              [(0, 6, 2); (6, 4, 3)]
              [Placement.mk 3 0 0 6 2 true; Placement.mk 1 6 0 4 3 false])).
  - simpl; lia.
  - simpl. repeat constructor; simpl; lia.
  - reflexivity.
Defined.

(** ** Warm start of the coordinate model *)

Lemma heuristic_ids (self : HeuristicSolver.t) (sol : Solution.t) :
  HeuristicSolver.solve self = Ok sol ->
  forall a, In a (map Rectangle.id (Instance.rectangles (HeuristicSolver.instance self)))
            <-> In a (map Placement.rect_id (Solution.placements sol)).
Proof.
  intros E.
  assert (Hn : forall sol, HeuristicSolver._nfdh self = Ok sol ->
                           exists rs, Permutation rs (Instance.rectangles
                                                        (HeuristicSolver.instance self))
                                      /\ Forall2 (placement_of (HeuristicSolver.allow_rotation self))
                                                 rs (Solution.placements sol)).
  { clear; intros sol E. unfold HeuristicSolver._nfdh in E.
    apply bind_ok in E as (st & E & Es). inversion Es; subst sol; clear Es; simpl.
    destruct (nfdh_loop_placements _ _ _ _ _ _ E) as (qs & Eqs & Hqs).
    simpl in Eqs; subst qs. eexists; split; [apply nfdh_items_perm|exact Hqs]. }
  assert (Hrs : exists rs, Permutation rs (Instance.rectangles (HeuristicSolver.instance self))
                           /\ Forall2 (placement_of (HeuristicSolver.allow_rotation self))
                                      rs (Solution.placements sol)).
  { unfold HeuristicSolver.solve in E.
    destruct (HeuristicSolver.policy_ self); [auto| |discriminate].
    unfold HeuristicSolver._skyline in E.
    destruct (HeuristicSolver.guillotine self); [auto|].
    apply bind_ok in E as (st & E & E'). apply bind_ok in E' as (H & EH & Es).
    inversion Es; subst sol; clear Es; simpl.
    destruct (skyline_loop_placements _ _ _ _ _ E) as (qs & Eqs & Hqs).
    simpl in Eqs; subst qs. eexists; split; [apply sort_by_reverse_perm|exact Hqs]. }
  destruct Hrs as (rs & Hperm & Hof).
  eapply perm_ids_iff; eauto. eapply placement_of_ids; eauto.
Qed.

Lemma by_id_get_some (pl : list Placement.t) (rid : Z) :
  In rid (map Placement.rect_id pl) -> exists p, MilpSolver.by_id_get pl rid = Some p.
Proof.
  intros Hin. unfold MilpSolver.by_id_get.
  destruct (find _ (rev pl)) as [p|] eqn:E; [eauto|].
  apply in_map_iff in Hin as (p & <- & Hp).
  pose proof (find_none _ _ E p (proj1 (in_rev pl p) Hp)) as Hf.
  simpl in Hf. rewrite Z.eqb_refl in Hf. discriminate.
Qed.

Lemma py_index_raises {A : Type} (l : list A) (i : Z) (e : exn) :
  py_index l i = Raise e -> e = IndexError.
Proof.
  unfold py_index. destruct (_ || _); [congruence|].
  destruct (nth_error _ _); congruence.
Qed.

Lemma py_index_beyond {A : Type} (l : list A) (i : Z) :
  Z.of_nat (List.length l) <= i -> py_index l i = Raise IndexError.
Proof.
  intros Hi. unfold py_index.
  replace (i <? 0) with false by (symmetry; apply Z.ltb_ge; lia).
  replace (Z.of_nat (List.length l) <=? i) with true by (symmetry; apply Z.leb_le; lia).
  now rewrite orb_true_r.
Qed.

Lemma py_index_below {A : Type} (l : list A) (i : Z) :
  i < - Z.of_nat (List.length l) -> py_index l i = Raise IndexError.
Proof.
  intros Hi. unfold py_index. cbv zeta.
  destruct (Z.ltb_spec i 0) as [_|H]; [|lia].
  destruct (Z.ltb_spec (i + Z.of_nat (List.length l)) 0) as [_|H]; [reflexivity|lia].
Qed.

Lemma py_index_inside {A : Type} (l : list A) (i : Z) :
  - Z.of_nat (List.length l) <= i < Z.of_nat (List.length l) ->
  exists a, py_index l i = Ok a.
Proof.
  intros Hi. unfold py_index. cbv zeta.
  set (j := if i <? 0 then i + Z.of_nat (List.length l) else i).
  assert (Hj : 0 <= j < Z.of_nat (List.length l)).
  { unfold j. destruct (Z.ltb_spec i 0); lia. }
  destruct (Z.ltb_spec j 0) as [H|_]; [lia|].
  destruct (Z.leb_spec (Z.of_nat (List.length l)) j) as [H|_]; [lia|]. cbn [orb].
  destruct (nth_error l (Z.to_nat j)) as [a|] eqn:E; [now exists a|].
  apply nth_error_None in E. lia.
Qed.

Lemma py_index_nth {A : Type} (l : list A) (i : Z) :
  0 <= i < Z.of_nat (List.length l) ->
  py_index l i = match nth_error l (Z.to_nat i) with
                 | Some a => Ok a
                 | None => Raise IndexError
                 end.
Proof.
  intros Hi. unfold py_index. cbv zeta.
  destruct (Z.ltb_spec i 0) as [H|_]; [lia|].
  destruct (Z.ltb_spec i 0) as [H|_]; [lia|].
  destruct (Z.leb_spec (Z.of_nat (List.length l)) i) as [H|_]; [lia|]. reflexivity.
Qed.

Lemma by_id_get_in (pl : list Placement.t) (rid : Z) (p : Placement.t) :
  MilpSolver.by_id_get pl rid = Some p -> In p pl /\ Placement.rect_id p = rid.
Proof.
  unfold MilpSolver.by_id_get. intros E. apply find_some in E as [Hin E].
  apply Z.eqb_eq in E. split; [now apply in_rev|exact E].
Qed.

(** The warm-start loop stops with [IndexError] at the first id whose
    position [rid - 1] is no index of the rectangle list. *)
Lemma warm_loop_raises (self : MilpSolver.t) (hsol : Solution.t) (ids : list Z) :
  MilpSolver.allow_rotation self = true ->
  (forall rid, In rid ids -> In rid (map Placement.rect_id (Solution.placements hsol))) ->
  (exists rid, In rid ids
               /\ (Z.of_nat (List.length (Instance.rectangles (MilpSolver.instance self))) < rid
                   \/ rid <= - Z.of_nat (List.length (Instance.rectangles
                                                          (MilpSolver.instance self))))) ->
  forall seeds, for_each (MilpSolver.warm_step self hsol) ids seeds = Raise IndexError.
Proof.
  intros Har. induction ids as [|rid ids IH]; intros Hin (bad & Hbad & Hout) seeds.
  - contradiction.
  - simpl. unfold MilpSolver.warm_step at 1.
    destruct (by_id_get_some _ rid (Hin rid (or_introl eq_refl))) as (p & ->).
    rewrite Har.
    destruct (py_index (Instance.rectangles (MilpSolver.instance self)) (rid - 1))
      as [rc|e] eqn:Ei; simpl.
    + apply IH; [intros r Hr; apply Hin; right; exact Hr|].
      destruct Hbad as [->|Hbad]; [|eauto].
      destruct Hout as [Hgt|Hle].
      * rewrite py_index_beyond in Ei by lia. discriminate.
      * rewrite py_index_below in Ei by lia. discriminate.
    + now rewrite (py_index_raises _ _ _ Ei).
Qed.

(** When every position [rid - 1] is an index, the loop seeds every
    rectangle, in list order, from the placement of its id, and sets the
    rotation value by the flag of the rectangle found at that position. *)
Lemma warm_loop_seeds (self : MilpSolver.t) (hsol : Solution.t) :
  forall (rs : list Rectangle.t) (seeds : list MilpSolver.seed),
    (forall r, In r rs ->
               - Z.of_nat (List.length (Instance.rectangles (MilpSolver.instance self)))
               < Rectangle.id r
               <= Z.of_nat (List.length (Instance.rectangles (MilpSolver.instance self)))) ->
    (forall r, In r rs ->
               In (Rectangle.id r) (map Placement.rect_id (Solution.placements hsol))) ->
    exists new,
      for_each (MilpSolver.warm_step self hsol) (map Rectangle.id rs) seeds
      = Ok (seeds ++ new)
      /\ Forall2 (seeded_from self hsol) rs new.
Proof.
  induction rs as [|r rs IH]; intros seeds Hrange Hin.
  - exists []. simpl. rewrite app_nil_r. split; [reflexivity|constructor].
  - cbn [map for_each]. unfold MilpSolver.warm_step at 1.
    destruct (by_id_get_some _ _ (Hin r (or_introl eq_refl))) as (p & Ep). rewrite Ep.
    destruct (py_index_inside (Instance.rectangles (MilpSolver.instance self))
                              (Rectangle.id r - 1)) as (rc & Erc).
    { specialize (Hrange r (or_introl eq_refl)). lia. }
    rewrite Erc.
    assert (Erot : (if MilpSolver.allow_rotation self
                    then rc0 <- Ok rc ;; Ok (Rectangle.rotatable rc0)
                    else Ok false)
                   = Ok (MilpSolver.allow_rotation self && Rectangle.rotatable rc)).
    { destruct (MilpSolver.allow_rotation self); reflexivity. }
    rewrite Erot. cbn [bind].
    destruct (IH (seeds ++ [(Rectangle.id r, Placement.x p, Placement.y p,
                             if MilpSolver.allow_rotation self && Rectangle.rotatable rc
                             then Some (if Placement.rotated p then 1 else 0)
                             else None)])) as (new & E & Hnew).
    { intros r' Hr'. apply Hrange. now right. }
    { intros r' Hr'. apply Hin. now right. }
    eexists (_ :: new). split.
    + rewrite E, <- app_assoc. reflexivity.
    + constructor; [|exact Hnew]. exists p, rc. auto.
Qed.

Lemma ids_in_order (rects : list Rectangle.t) :
  forall k, map Rectangle.id rects = map Z.of_nat (seq k (List.length rects)) ->
            forall i r, nth_error rects i = Some r ->
                        Rectangle.id r = Z.of_nat (k + i).
Proof.
  induction rects as [|r0 rects IH]; intros k E i r Hi.
  - destruct i; discriminate.
  - simpl in E. inversion E as [[E0 E1]].
    destruct i as [|i]; simpl in Hi.
    + inversion Hi; subst. rewrite E0. f_equal; lia.
    + rewrite (IH (S k) E1 i r Hi). f_equal; lia.
Qed.

(** With the ids 1..n in list order, position [rid - 1] holds the
    rectangle with id [rid]. *)
Lemma own_position (rects : list Rectangle.t) (r : Rectangle.t) :
  map Rectangle.id rects = map Z.of_nat (seq 1 (List.length rects)) ->
  In r rects ->
  0 < Rectangle.id r <= Z.of_nat (List.length rects)
  /\ py_index rects (Rectangle.id r - 1) = Ok r.
Proof.
  intros Eids Hr.
  apply In_nth_error in Hr as (i & Hi).
  pose proof (ids_in_order rects 1 Eids i r Hi) as Eid.
  assert (Hlt : (i < List.length rects)%nat) by (apply nth_error_Some; congruence).
  split; [lia|].
  rewrite py_index_nth by lia.
  replace (Z.to_nat (Rectangle.id r - 1)) with i by lia. now rewrite Hi.
Qed.

Lemma Forall2_impl_in {A B : Type} (P Q : A -> B -> Prop) (l : list A) (l' : list B) :
  Forall2 P l l' -> (forall a b, In a l -> P a b -> Q a b) -> Forall2 Q l l'.
Proof.
  induction 1 as [|a b l l' Hab _ IH]; intros Himp; constructor.
  - apply Himp; [now left|exact Hab].
  - apply IH. intros a' b' Ha'. apply Himp. now right.
Qed.

(** C10, amended: with warm start and rotation enabled, once the skyline
    seed and the two lower bounds are computed, the warm start reads the
    rotation flag of every id [rid] at position [rid - 1] of the rectangle
    list, with Python's indices (-n..-1 count from the end).  An id above
    the list length, or one at or below [-n], makes [solve] raise
    [IndexError] before the backend is called.  Otherwise every rectangle
    is seeded, in list order, with the flag of the rectangle found at that
    position, which is its own flag when the ids are 1..n in list order. *)
Theorem warm_start_positional_lookup (self : MilpSolver.t) (hsol : Solution.t) (a m : Z) :
  MilpSolver.warm_start self = true ->
  MilpSolver.allow_rotation self = true ->
  HeuristicSolver.solve
    (HeuristicSolver.mk (MilpSolver.instance self) (MilpSolver.allow_rotation self)
                        Skyline false) = Ok hsol ->
  Instance.maxh_lb (MilpSolver.instance self) (MilpSolver.allow_rotation self) = Ok m ->
  Instance.area_lb (MilpSolver.instance self) = Ok a ->
  let rects := Instance.rectangles (MilpSolver.instance self) in
  let n := Z.of_nat (List.length rects) in
  ((exists r, In r rects /\ (n < Rectangle.id r \/ Rectangle.id r <= - n)) ->
   MilpSolver.prepare self = Raise IndexError
   /\ forall v status, MilpSolver.solve self v status = Raise IndexError)
  /\ ((forall r, In r rects -> - n < Rectangle.id r <= n) ->
      exists seeds,
        MilpSolver.prepare self = Ok (Z.max a m, Z.max (Solution.H hsol) m, seeds)
        /\ Forall2 (seeded_from self hsol) rects seeds)
  /\ (map Rectangle.id rects = map Z.of_nat (seq 1 (List.length rects)) ->
      exists seeds,
        MilpSolver.prepare self = Ok (Z.max a m, Z.max (Solution.H hsol) m, seeds)
        /\ Forall2 (fun r s =>
                      exists p, MilpSolver.by_id_get (Solution.placements hsol)
                                                     (Rectangle.id r) = Some p
                                /\ s = (Rectangle.id r, Placement.x p, Placement.y p,
                                        if Rectangle.rotatable r
                                        then Some (if Placement.rotated p then 1 else 0)
                                        else None))
                   rects seeds).
Proof.
  intros Hws Har Eh Em Ea rects n.
  assert (Hplaced : forall r, In r rects ->
                              In (Rectangle.id r)
                                 (map Placement.rect_id (Solution.placements hsol))).
  { intros r Hr. apply (heuristic_ids _ _ Eh). simpl. now apply in_map. }
  assert (Hprep : MilpSolver.prepare self
                  = (seeds <- for_each (MilpSolver.warm_step self hsol)
                                       (map Rectangle.id rects) [] ;;
                     Ok (Z.max a m, Z.max (Solution.H hsol) m, seeds))).
  { unfold MilpSolver.prepare. rewrite Eh. cbn [bind]. rewrite Em. cbn [bind].
    rewrite Ea. cbn [bind]. rewrite Hws. reflexivity. }
  assert (Hseeds : (forall r, In r rects -> - n < Rectangle.id r <= n) ->
                   exists seeds,
                     MilpSolver.prepare self
                     = Ok (Z.max a m, Z.max (Solution.H hsol) m, seeds)
                     /\ Forall2 (seeded_from self hsol) rects seeds).
  { intros Hrange.
    destruct (warm_loop_seeds self hsol rects [] Hrange Hplaced) as (new & E & Hnew).
    exists new. split; [|exact Hnew]. rewrite Hprep, E. reflexivity. }
  split; [|split].
  - intros (r & Hr & Hout).
    assert (E : MilpSolver.prepare self = Raise IndexError).
    { rewrite Hprep, warm_loop_raises; [reflexivity|exact Har| |].
      - intros rid Hrid. apply in_map_iff in Hrid as (r' & <- & Hr'). now apply Hplaced.
      - exists (Rectangle.id r). split; [now apply in_map|exact Hout]. }
    split; [exact E|]. intros v status. unfold MilpSolver.solve. now rewrite E.
  - exact Hseeds.
  - intros Eids.
    destruct Hseeds as (seeds & E & Hs).
    { intros r Hr. destruct (own_position rects r Eids Hr) as [Hid _]. fold n in Hid. lia. }
    exists seeds. split; [exact E|].
    assert (Hown : forall r, In r rects -> py_index rects (Rectangle.id r - 1) = Ok r).
    { intros r Hr. apply (own_position rects r Eids Hr). }
    apply (Forall2_impl_in _ _ _ _ Hs). intros r s Hr (p & rc & Ep & Erc & Es).
    exists p. split; [exact Ep|].
    destruct (own_position rects r Eids Hr) as [_ Eown]. fold rects in Erc.
    rewrite Eown in Erc. inversion Erc; subst rc.
    rewrite Har in Es. exact Es.
Qed.

Lemma warm_start_positional_lookup_witness :
  MilpSolver.prepare (MilpSolver.mk sparse_instance true true 2) = Raise IndexError.
Proof.
  refine (proj1 (proj1 (warm_start_positional_lookup
                          (MilpSolver.mk sparse_instance true true 2)
                          (Solution.mk 2 [Placement.mk 5 0 0 2 2 false]
                                       "Heuristic-Skyline" (Some "feasible"%string))
                          1 2 eq_refl eq_refl eq_refl eq_refl eq_refl) _)).
  exists (Rectangle.mk 5 2 2 true). split; [left; reflexivity|left; simpl; lia].
Defined.

(** C10, as stated, fails twice.  The ids -1, 0 are not 1..n, yet the warm
    start reads for each of them the flag of its own rectangle (a rotation
    value for the rotatable one, none for the locked one).  And an id above
    the list length on a rectangle wider than the strip never reaches the
    list access: [solve] raises the width error of the skyline seed. *)
Lemma warm_start_correct_beyond_one_to_n :
  (map Rectangle.id (Instance.rectangles wrap_instance) <> [1; 2]
   /\ MilpSolver.prepare (MilpSolver.mk wrap_instance true true 2)
      = Ok (3, 3, [(-1, 0, 0, Some 0); (0, 4, 0, None)]))
  /\ (Z.of_nat (List.length (Instance.rectangles wide_sparse_instance)) < 5
      /\ forall v status,
        MilpSolver.solve (MilpSolver.mk wide_sparse_instance true true 2) v status
        = Raise (GeometryError 5 3 1)).
Proof.
  split; split.
  - discriminate.
  - vm_compute. reflexivity.
  - simpl. lia.
  - intros v status. reflexivity.
Qed.

(** ** The decoder *)

Lemma NoDup_map_eq {A B : Type} (f : A -> B) (l : list A) (x y : A) :
  NoDup (map f l) -> In x l -> In y l -> f x = f y -> x = y.
Proof.
  induction l as [|a l IH]; simpl; intros Hnd Hx Hy E; [contradiction|].
  inversion Hnd as [|? ? Hna Hnd']; subst.
  destruct Hx as [->|Hx], Hy as [->|Hy]; auto.
  - exfalso; apply Hna. rewrite E. now apply in_map.
  - exfalso; apply Hna. rewrite <- E. now apply in_map.
Qed.

Lemma id_to_rect_unique (rects : list Rectangle.t) (r : Rectangle.t) :
  NoDup (map Rectangle.id rects) -> In r rects ->
  MetaheuristicSolver.id_to_rect rects (Rectangle.id r) = Ok r.
Proof.
  intros Hnd Hr. unfold MetaheuristicSolver.id_to_rect.
  destruct (find _ (rev rects)) as [r'|] eqn:E.
  - apply find_some in E as [Hin E]. apply Z.eqb_eq in E.
    apply in_rev in Hin. f_equal. eapply NoDup_map_eq; eauto.
  - pose proof (find_none _ _ E r (proj1 (in_rev rects r) Hr)) as Hf.
    simpl in Hf. rewrite Z.eqb_refl in Hf. discriminate.
Qed.

Lemma relabel_orient (ar : bool) (r : Rectangle.t) :
  HeuristicSolver._orient (relabel ar r) ar true = HeuristicSolver._orient r ar true.
Proof.
  unfold HeuristicSolver._orient, relabel; simpl.
  destruct ar, (Rectangle.rotatable r); reflexivity.
Qed.

Lemma relabel_placement (ar : bool) (rs : list Rectangle.t) (qs : list Placement.t) :
  Forall2 (placement_of ar) (map (relabel ar) rs) qs -> Forall2 (placement_of ar) rs qs.
Proof.
  revert qs; induction rs as [|r rs IH]; intros qs H; inversion H; subst; constructor.
  - destruct H2 as [Hi Ho]. split; [exact Hi|]. now rewrite <- relabel_orient.
  - auto.
Qed.

Lemma reorder_loop (self : MetaheuristicSolver.t) :
  NoDup (map Rectangle.id (Instance.rectangles (MetaheuristicSolver.instance self))) ->
  forall perm bits acc,
    List.length bits = List.length perm ->
    (forall rid, In rid perm ->
                 In rid (map Rectangle.id
                             (Instance.rectangles (MetaheuristicSolver.instance self)))) ->
    exists rs,
      map Rectangle.id rs = perm
      /\ incl rs (Instance.rectangles (MetaheuristicSolver.instance self))
      /\ for_each (MetaheuristicSolver.reorder_step self) (combine perm bits) acc
         = Ok (acc ++ map (relabel (MetaheuristicSolver.allow_rotation self)) rs).
Proof.
  intros Hnd. induction perm as [|rid perm IH]; intros bits acc Hlen Hin.
  - exists []; simpl. rewrite app_nil_r. repeat split; auto. intros x [].
  - destruct bits as [|b bits]; [discriminate|]. simpl in Hlen.
    destruct (proj1 (in_map_iff _ _ _) (Hin rid (or_introl eq_refl))) as (r & Er & Hr).
    simpl. unfold MetaheuristicSolver.reorder_step at 1.
    rewrite <- Er, (id_to_rect_unique _ r Hnd Hr). simpl.
    destruct (IH bits (acc ++ [relabel (MetaheuristicSolver.allow_rotation self) r]))
      as (rs & Eids & Hincl & E); [lia|intros x Hx; apply Hin; right; exact Hx|].
    exists (r :: rs); simpl. split; [congruence|]. split.
    + intros x [<-|Hx]; auto.
    + rewrite <- app_assoc in E. exact E.
Qed.

Lemma decode_sound (self : MetaheuristicSolver.t) (perm bits : list Z) (sol : Solution.t) :
  well_formed (MetaheuristicSolver.instance self) ->
  candidate (MetaheuristicSolver.instance self) perm bits ->
  MetaheuristicSolver._decode self perm bits = Ok sol ->
  skyline_packing (MetaheuristicSolver.instance self)
                  (MetaheuristicSolver.allow_rotation self) sol.
Proof.
  intros [HW Hd Hpos Hnd] [Hperm Hlen] E.
  unfold MetaheuristicSolver._decode in E.
  destruct (reorder_loop self Hnd perm bits [] Hlen) as (rs & Eids & Hincl & Eloop).
  { intros rid Hrid. eapply Permutation_in; eauto. }
  rewrite Eloop in E. simpl in E.
  apply bind_ok in E as (sol0 & E0 & Es). inversion Es; subst sol; clear Es.
  set (ar := MetaheuristicSolver.allow_rotation self) in *.
  set (inst := MetaheuristicSolver.instance self) in *.
  assert (Hrs : Permutation rs (Instance.rectangles inst)).
  { apply NoDup_Permutation_bis.
    - apply (NoDup_map_inv Rectangle.id). rewrite Eids.
      eapply Permutation_NoDup; [symmetry; exact Hperm|exact Hnd].
    - rewrite <- (length_map Rectangle.id rs), Eids.
      rewrite (Permutation_length Hperm), length_map. lia.
    - exact Hincl. }
  assert (Hwf : well_formed (Instance.mk (Instance.W inst) (map (relabel ar) rs)
                                         (Instance.kerf_delta inst)
                                         (Instance.forbidden_zones inst))).
  { constructor; simpl; auto.
    - apply Forall_forall; intros r' Hr'. apply in_map_iff in Hr' as (r & <- & Hr).
      rewrite Forall_forall in Hpos. apply (Hpos r). apply Hincl, Hr.
    - rewrite map_map; simpl. change (fun x => Rectangle.id x) with Rectangle.id.
      rewrite Eids. eapply Permutation_NoDup; [symmetry; exact Hperm|exact Hnd]. }
  pose proof (skyline_sound
                (HeuristicSolver.mk (Instance.mk (Instance.W inst) (map (relabel ar) rs)
                                                 (Instance.kerf_delta inst)
                                                 (Instance.forbidden_zones inst))
                                    ar Skyline false)
                sol0 Hwf eq_refl E0) as (rs' & st & Hp' & Hof & I & Epl & EH).
  simpl in *.
  apply Permutation_map_inv in Hp' as (rs'' & -> & Hp'').
  exists rs'', st.
  split; [rewrite <- Hrs; now symmetry|].
  split; [now apply relabel_placement|].
  split; [exact I|]. split; [exact Epl|exact EH].
Qed.

Lemma decode_feasible (self : MetaheuristicSolver.t) (perm bits : list Z) (sol : Solution.t) :
  well_formed (MetaheuristicSolver.instance self) ->
  Instance.forbidden_zones (MetaheuristicSolver.instance self) = [] ->
  candidate (MetaheuristicSolver.instance self) perm bits ->
  MetaheuristicSolver._decode self perm bits = Ok sol ->
  Solution.check_feasibility sol (MetaheuristicSolver.instance self) = true.
Proof.
  intros Hwf Hz Hc E. eapply packing_feasible; [exact Hz|].
  eapply decode_sound; eauto.
Qed.

Lemma decode_bounds (self : MetaheuristicSolver.t) (perm bits : list Z) (sol : Solution.t)
      (a m : Z) :
  well_formed (MetaheuristicSolver.instance self) ->
  double_exact (MetaheuristicSolver.instance self) ->
  candidate (MetaheuristicSolver.instance self) perm bits ->
  MetaheuristicSolver._decode self perm bits = Ok sol ->
  Instance.area_lb (MetaheuristicSolver.instance self) = Ok a ->
  Instance.maxh_lb (MetaheuristicSolver.instance self)
                   (MetaheuristicSolver.allow_rotation self) = Ok m ->
  Z.max a m <= Solution.H sol.
Proof.
  intros Hwf Hde Hc E Ea Em. eapply packing_bounds; eauto.
  eapply decode_sound; eauto.
Qed.

(** ** Moves of the search keep a candidate a candidate *)

Lemma py_set_length (l : list Z) : forall i v l',
    py_set l i v = Ok l' -> List.length l' = List.length l.
Proof.
  induction l as [|a l IH]; intros [|i] v l' E; simpl in E; try discriminate.
  - inversion E; reflexivity.
  - apply bind_ok in E as (l1 & E1 & E2). inversion E2; subst; simpl.
    f_equal; eauto.
Qed.

Lemma py_set_replace (l : list Z) : forall i v a l',
    py_get l i = Ok a -> py_set l i v = Ok l' -> Permutation (a :: l') (v :: l).
Proof.
  unfold py_get.
  induction l as [|x l IH]; intros [|i] v a l' Hg Hs; simpl in *; try discriminate.
  - inversion Hg; inversion Hs; subst. apply perm_swap.
  - apply bind_ok in Hs as (l1 & E1 & E2). inversion E2; subst.
    specialize (IH i v a l1 Hg E1).
    rewrite perm_swap, IH. rewrite (perm_swap x v). reflexivity.
Qed.

Lemma py_get_set (l : list Z) : forall i j v l',
    py_set l i v = Ok l' ->
    py_get l' j = if Nat.eqb i j then Ok v else py_get l j.
Proof.
  unfold py_get.
  induction l as [|x l IH]; intros [|i] [|j] v l' Hs; simpl in *; try discriminate.
  - inversion Hs; reflexivity.
  - inversion Hs; reflexivity.
  - apply bind_ok in Hs as (l1 & E1 & E2). inversion E2; reflexivity.
  - apply bind_ok in Hs as (l1 & E1 & E2). inversion E2; subst; simpl.
    apply (IH i j v l1 E1).
Qed.

Lemma swap_perm (l : list Z) (i j : nat) (l' : list Z) :
  swap l i j = Ok l' -> Permutation l' l.
Proof.
  unfold swap. intros E.
  apply bind_ok in E as (a & Ea & E). apply bind_ok in E as (b & Eb & E).
  apply bind_ok in E as (l1 & E1 & E2).
  pose proof (py_set_replace l i b a l1 Ea E1) as P1.
  assert (Eb' : py_get l1 j = Ok b).
  { rewrite (py_get_set l i j b l1 E1).
    destruct (Nat.eqb i j); [reflexivity|exact Eb]. }
  pose proof (py_set_replace l1 j a b l' Eb' E2) as P2.
  apply (Permutation_cons_inv (a := b)). rewrite P2, P1. reflexivity.
Qed.

Lemma flip_length (l : list Z) (k : nat) (l' : list Z) :
  flip l k = Ok l' -> List.length l' = List.length l.
Proof.
  unfold flip; intros E. apply bind_ok in E as (b & _ & E).
  eapply py_set_length; eauto.
Qed.

Lemma filter_split {A : Type} (f : A -> bool) (l : list A) :
  Permutation (filter f l ++ filter (fun x => negb (f x)) l) l.
Proof.
  induction l as [|a l IH]; simpl; [reflexivity|].
  destruct (f a); simpl.
  - now constructor.
  - rewrite <- Permutation_middle. now constructor.
Qed.

Lemma in_child_spec (a m : nat) (seg : list Z) (x : Z) :
  MetaheuristicSolver.in_child (repeat None a ++ map Some seg ++ repeat None m) x = true
  <-> In x seg.
Proof.
  unfold MetaheuristicSolver.in_child. rewrite existsb_exists. split.
  - intros (c & Hc & E). destruct c as [v|]; [|discriminate].
    apply Z.eqb_eq in E; subst v.
    apply in_app_or in Hc as [Hc|Hc]; [apply repeat_spec in Hc; discriminate|].
    apply in_app_or in Hc as [Hc|Hc]; [|apply repeat_spec in Hc; discriminate].
    apply in_map_iff in Hc as (y & Ey & Hy). now inversion Ey; subst.
  - intros Hx. exists (Some x); split; [|apply Z.eqb_refl].
    apply in_or_app; right; apply in_or_app; left. now apply in_map.
Qed.

Lemma skipn_nth {A : Type} (l : list A) : forall i v,
    nth_error l i = Some v -> skipn i l = v :: skipn (S i) l.
Proof.
  induction l as [|a l IH]; intros [|i] v E; simpl in *; try discriminate.
  - now inversion E.
  - now apply IH.
Qed.

Lemma fill_nones (fill : list Z) : forall k acc idx st,
    (idx <= List.length fill)%nat ->
    for_each (MetaheuristicSolver.fill_step fill) (repeat None k) (acc, idx) = Ok st ->
    st = (acc ++ firstn k (skipn idx fill), (idx + k)%nat)
    /\ (idx + k <= List.length fill)%nat.
Proof.
  induction k as [|k IH]; intros acc idx st Hidx E; simpl in E.
  - inversion E; subst. rewrite app_nil_r, Nat.add_0_r. auto.
  - unfold MetaheuristicSolver.fill_step at 1 in E. simpl in E.
    unfold py_get in E.
    destruct (nth_error fill idx) as [v|] eqn:Ev; [|discriminate]. simpl in E.
    assert (Hlt : (idx < List.length fill)%nat) by (apply nth_error_Some; congruence).
    destruct (IH _ _ _ Hlt E) as [-> Hle]. split; [|lia].
    rewrite (skipn_nth _ _ _ Ev). simpl. rewrite <- app_assoc. simpl.
    f_equal. lia.
Qed.

Lemma fill_somes (fill seg : list Z) : forall acc idx,
    for_each (MetaheuristicSolver.fill_step fill) (map Some seg) (acc, idx)
    = Ok (acc ++ seg, idx).
Proof.
  induction seg as [|v seg IH]; intros acc idx; simpl.
  - now rewrite app_nil_r.
  - rewrite IH, <- app_assoc. reflexivity.
Qed.

Lemma NoDup_firstn {A : Type} (l : list A) (k : nat) : NoDup l -> NoDup (firstn k l).
Proof.
  intros H. rewrite <- (firstn_skipn k l) in H. eapply NoDup_app_remove_r; eauto.
Qed.

Lemma NoDup_skipn {A : Type} (l : list A) (k : nat) : NoDup l -> NoDup (skipn k l).
Proof.
  intros H. rewrite <- (firstn_skipn k l) in H. eapply NoDup_app_remove_l; eauto.
Qed.

Lemma in_firstn {A : Type} (l : list A) (k : nat) (x : A) : In x (firstn k l) -> In x l.
Proof. intros H. rewrite <- (firstn_skipn k l). apply in_or_app; auto. Qed.

Lemma in_skipn {A : Type} (l : list A) (k : nat) (x : A) : In x (skipn k l) -> In x l.
Proof. intros H. rewrite <- (firstn_skipn k l). apply in_or_app; auto. Qed.

Lemma ox_crossover_perm (p1 p2 : list Z) (drawn : nat * nat) (child : list Z) :
  NoDup p1 -> Permutation p1 p2 ->
  MetaheuristicSolver._ox_crossover p1 p2 drawn = Ok child ->
  Permutation child p2.
Proof.
  intros Hnd Hperm E. unfold MetaheuristicSolver._ox_crossover in E.
  apply bind_ok in E as (ab & _ & E).
  set (a := Nat.min (fst ab) (snd ab)) in *.
  set (b := Nat.max (fst ab) (snd ab)) in *.
  set (n := List.length p1) in *.
  set (seg := firstn (b + 1 - a) (skipn a p1)) in *.
  set (m := (n - (b + 1))%nat) in *.
  set (fill := filter (fun x => negb (MetaheuristicSolver.in_child
                                        (repeat None a ++ map Some seg ++ repeat None m) x)) p2) in *.
  apply bind_ok in E as (st & E & Eres). inversion Eres; subst child; clear Eres.
  rewrite for_each_app in E.
  apply bind_ok in E as (st1 & E1 & E).
  rewrite for_each_app in E.
  apply bind_ok in E as (st2 & E2 & E3).
  destruct (fill_nones fill a [] 0%nat st1 ltac:(lia) E1) as [-> Ha].
  rewrite fill_somes in E2. inversion E2; subst st2; clear E2.
  apply fill_nones in E3 as [-> Hm]; [|exact Ha].
  simpl in *.
  (* the copied segment and the fill partition [p2] *)
  assert (Hseg_nd : NoDup seg) by (apply NoDup_firstn, NoDup_skipn, Hnd).
  assert (Hseg_in : forall x, In x seg -> In x p2).
  { intros x Hx. eapply Permutation_in; [exact Hperm|].
    eapply in_skipn, in_firstn, Hx. }
  assert (Hnd2 : NoDup p2) by (eapply Permutation_NoDup; eauto).
  assert (Hpart : Permutation (seg ++ fill) p2).
  { rewrite <- (filter_split (MetaheuristicSolver.in_child
                              (repeat None a ++ map Some seg ++ repeat None m)) p2).
    apply Permutation_app_tail. apply NoDup_Permutation.
    - exact Hseg_nd.
    - now apply NoDup_filter.
    - intros x. rewrite filter_In, in_child_spec. split; [auto|tauto]. }
  assert (Hlen : (List.length fill = n - List.length seg)%nat).
  { pose proof (Permutation_length Hpart) as Hl.
    rewrite length_app, <- (Permutation_length Hperm) in Hl. fold n in Hl. lia. }
  assert (Hslen : (List.length seg = Nat.min (b + 1 - a) (n - a))%nat).
  { unfold seg. rewrite length_firstn, length_skipn. reflexivity. }
  assert (Hall : firstn m (skipn a fill) = skipn a fill).
  { apply firstn_all2. rewrite length_skipn. unfold m in *. lia. }
  rewrite Hall, <- Hpart.
  rewrite <- (firstn_skipn a fill) at 3.
  rewrite (Permutation_app_comm (firstn a fill) seg), <- app_assoc.
  reflexivity.
Qed.

Lemma bit_crossover_length (b1 b2 : list Z) (pick : nat -> bool) :
  List.length b1 = List.length b2 ->
  List.length (MetaheuristicSolver._bit_crossover b1 b2 pick) = List.length b1.
Proof.
  intros E. unfold MetaheuristicSolver._bit_crossover.
  rewrite length_map, !length_combine, length_seq. lia.
Qed.

Lemma flips_length (flips : nat -> bool) (ks : list nat) : forall bits bits',
    for_each (fun bits k => if flips k then flip bits k else Ok bits) ks bits = Ok bits' ->
    List.length bits' = List.length bits.
Proof.
  induction ks as [|k ks IH]; intros bits bits' E; simpl in E.
  - now inversion E.
  - apply bind_ok in E as (b1 & E1 & E2). rewrite (IH _ _ E2).
    destruct (flips k); [eapply flip_length; eauto|now inversion E1].
Qed.

Lemma mutate_candidate (inst : Instance.t) (perm bits : list Z) (hit : bool)
      (drawn : nat * nat) (flips : nat -> bool) (perm' bits' : list Z) :
  candidate inst perm bits ->
  MetaheuristicSolver._mutate perm bits hit drawn flips = Ok (perm', bits') ->
  candidate inst perm' bits'.
Proof.
  intros [Hp Hl] E. unfold MetaheuristicSolver._mutate in E.
  apply bind_ok in E as (p1 & E1 & E). apply bind_ok in E as (b1 & E2 & E3).
  inversion E3; subst; clear E3.
  assert (Hp1 : Permutation perm' perm).
  { destruct (hit && _); [|now inversion E1].
    apply bind_ok in E1 as (ij & _ & E1). eapply swap_perm; eauto. }
  split.
  - now rewrite Hp1.
  - rewrite (flips_length _ _ _ _ E2), (Permutation_length Hp1). exact Hl.
Qed.

Lemma random_solution_candidate (self : MetaheuristicSolver.t) (shuffled : list Z)
      (draw : nat -> Z) (perm bits : list Z) :
  Permutation shuffled (map Rectangle.id (Instance.rectangles
                                            (MetaheuristicSolver.instance self))) ->
  MetaheuristicSolver._random_solution self shuffled draw = Ok (perm, bits) ->
  candidate (MetaheuristicSolver.instance self) perm bits.
Proof.
  intros Hp E. unfold MetaheuristicSolver._random_solution in E.
  apply bind_ok in E as (bs & E & Es). inversion Es; subst; clear Es.
  split; [exact Hp|].
  assert (Hgen : forall l acc bs',
             for_each (fun bits kr =>
                         b <- MetaheuristicSolver.forced_bit self (snd kr) (draw (fst kr)) ;;
                         Ok (bits ++ [b])) l acc = Ok bs' ->
             List.length bs' = (List.length acc + List.length l)%nat).
  { clear. induction l as [|kr l IH]; intros acc bs' E; simpl in E.
    - inversion E; subst; simpl; lia.
    - apply bind_ok in E as (b1 & E1 & E2). apply bind_ok in E1 as (b & _ & E1).
      inversion E1; subst. rewrite (IH _ _ E2), length_app. simpl. lia. }
  rewrite (Hgen _ _ _ E), length_combine, length_seq. simpl. lia.
Qed.

(** ** The three strategies return decoded candidates *)

Section Strategies.
Variable self : MetaheuristicSolver.t.
Variable rnd : Random.t.
Variable P : Solution.t -> Prop.

Let inst : Instance.t := MetaheuristicSolver.instance self.

Hypothesis ids_unique : NoDup (map Rectangle.id (Instance.rectangles inst)).
Hypothesis fair : shuffles rnd inst.
Hypothesis decoded : forall perm bits sol,
    candidate inst perm bits -> MetaheuristicSolver._decode self perm bits = Ok sol -> P sol.

Let good (t : MetaheuristicSolver.individual) : Prop :=
  candidate inst (MetaheuristicSolver.ind_perm t) (MetaheuristicSolver.ind_bits t)
  /\ P (MetaheuristicSolver.ind_sol t).

Lemma better_of_keeps (cand best : Solution.t) :
  P cand -> P best -> P (MetaheuristicSolver.better_of cand best).
Proof. unfold MetaheuristicSolver.better_of; destruct (_ <? _); auto. Qed.

Lemma all_true {A : Type} (l : list A) : Forall (fun _ => True) l.
Proof. apply Forall_forall; auto. Qed.

Lemma swap_candidate (perm bits perm' : list Z) (i j : nat) :
  candidate inst perm bits -> swap perm i j = Ok perm' -> candidate inst perm' bits.
Proof.
  intros [Hp Hl] E. pose proof (swap_perm _ _ _ _ E) as Hs. split.
  - now rewrite Hs.
  - now rewrite (Permutation_length Hs).
Qed.

Lemma flip_candidate (perm bits bits' : list Z) (k : nat) :
  candidate inst perm bits -> flip bits k = Ok bits' -> candidate inst perm bits'.
Proof.
  intros [Hp Hl] E. split; [exact Hp|]. now rewrite (flip_length _ _ _ E).
Qed.

(** The acceptance test of simulated annealing takes the candidate or
    keeps the state. *)
Lemma sa_choice {S : Type} (dH : Z) (coin : bool) (acc st st' : S) :
  (if dH <? 0 then Ok acc
   else _ <- py_float (- dH) ;; if coin then Ok acc else Ok st) = Ok st' ->
  st' = acc \/ st' = st.
Proof.
  destruct (dH <? 0); [intros E; inversion E; auto|].
  intros E. apply bind_ok in E as (f & _ & E).
  destruct coin; inversion E; auto.
Qed.

Lemma run_sa_keeps (sol : Solution.t) :
  MetaheuristicSolver._run_sa self rnd = Ok sol -> P sol.
Proof.
  unfold MetaheuristicSolver._run_sa. intros E.
  apply bind_ok in E as ([perm bits] & Er & E).
  apply bind_ok in E as (cur & Ed & E).
  apply bind_ok in E as (st & El & E). inversion E; subst sol; clear E.
  simpl in *.
  pose proof (random_solution_candidate self _ _ _ _ (fair 0%nat) Er) as Hc.
  pose proof (decoded _ _ _ Hc Ed) as Hcur.
  set (Inv := fun st : list Z * list Z * Solution.t * Solution.t =>
                candidate inst (fst (fst (fst st))) (snd (fst (fst st)))
                /\ P (snd (fst st)) /\ P (snd st)).
  assert (HI : Inv st).
  { refine (for_each_invariant _ Inv (fun _ => True) _ _ _ _ (all_true _) _ El).
    - intros [[[sp sb] cs] best] it st' _ (Hs & Hcs & Hb) E.
      unfold MetaheuristicSolver.sa_step in E.
      apply bind_ok in E as (ij & _ & E). apply bind_ok in E as (cp & Es & E).
      apply bind_ok in E as (k & _ & E). apply bind_ok in E as (cb & Ef & E).
      apply bind_ok in E as (cand & Ed' & E). simpl in Hs.
      assert (Hc' : candidate inst cp cb)
        by (eapply flip_candidate; [eapply swap_candidate|]; eauto).
      pose proof (decoded _ _ _ Hc' Ed') as Hcand. simpl in Hcs, Hb.
      apply sa_choice in E as [->| ->]; unfold Inv; simpl; auto.
      split; [exact Hc'|]. split; [exact Hcand|].
      apply better_of_keeps; assumption.
    - unfold Inv; simpl; auto. }
  apply HI.
Qed.

Lemma tabu_move_keeps (g m : nat) (perm bits : list Z)
      (tabu : list MetaheuristicSolver.tabu_key)
      (nb nb' : list MetaheuristicSolver.individual) :
  candidate inst perm bits -> Forall good nb ->
  MetaheuristicSolver.tabu_move self rnd g perm bits tabu nb m = Ok nb' ->
  Forall good nb'.
Proof.
  intros Hc Hnb E. unfold MetaheuristicSolver.tabu_move in E.
  apply bind_ok in E as (ij & _ & E). apply bind_ok in E as (pi & _ & E).
  apply bind_ok in E as (pj & _ & E).
  destruct (MetaheuristicSolver.in_tabu _ tabu); [now inversion E; subst|].
  apply bind_ok in E as (cp & Es & E). apply bind_ok in E as (cb & Ef & E).
  apply bind_ok in E as (cand & Ed & E). inversion E; subst; clear E.
  assert (Hc' : candidate inst cp cb).
  { pose proof (swap_candidate _ _ _ _ _ Hc Es) as H1.
    destruct (Random.coin rnd g m); [|now inversion Ef; subst].
    apply bind_ok in Ef as (k & _ & Ef). eapply flip_candidate; eauto. }
  apply Forall_app; split; [exact Hnb|].
  constructor; [|constructor]. split; simpl; eauto.
Qed.

Lemma tabu_loop_round (tenure g : nat) (gs : list nat) (perm bits : list Z)
      (best : Solution.t) (tabu : list MetaheuristicSolver.tabu_key) :
  MetaheuristicSolver.tabu_loop self rnd tenure (g :: gs) perm bits best tabu
  = (neighborhood <- for_each (MetaheuristicSolver.tabu_move self rnd g perm bits tabu)
                              (seq 0 30) [] ;;
     match sort_by MetaheuristicSolver.ind_H neighborhood with
     | [] => Ok (Some best)
     | best_nei :: _ =>
         let perm' := MetaheuristicSolver.ind_perm best_nei in
         p0 <- py_index perm' 0 ;;
         pl <- py_index perm' (-1) ;;
         let tabu1 := MetaheuristicSolver.tabu_add (Z.min p0 pl, Z.max p0 pl) tabu in
         let tabu2 := if (tenure <? List.length tabu1)%nat
                      then MetaheuristicSolver.tabu_pop (Random.pop rnd g) tabu1
                      else tabu1 in
         MetaheuristicSolver.tabu_loop self rnd tenure gs perm'
           (MetaheuristicSolver.ind_bits best_nei)
           (MetaheuristicSolver.better_of (MetaheuristicSolver.ind_sol best_nei) best) tabu2
     end).
Proof. reflexivity. Qed.

Lemma tabu_loop_keeps (tenure : nat) (gs : list nat) :
  forall perm bits best tabu sol,
    candidate inst perm bits -> P best ->
    MetaheuristicSolver.tabu_loop self rnd tenure gs perm bits best tabu = Ok (Some sol) ->
    P sol.
Proof.
  induction gs as [|g gs IH]; intros perm bits best tabu sol Hc Hb E.
  - simpl in E. destruct (MetaheuristicSolver.timed self); now inversion E; subst.
  - rewrite tabu_loop_round in E. apply bind_ok in E as (nb & En & E).
    assert (Hnb : Forall good nb).
    { refine (for_each_invariant _ (Forall good) (fun _ => True) _ _ _ _ (all_true _) _ En).
      - intros st m st' _ Hst Est. eapply tabu_move_keeps; eauto.
      - constructor. }
    assert (Hs : Forall good (sort_by MetaheuristicSolver.ind_H nb)).
    { rewrite Forall_forall in *. intros t Ht. apply Hnb.
      eapply Permutation_in; [apply sort_by_perm|exact Ht]. }
    destruct (sort_by MetaheuristicSolver.ind_H nb) as [|top rest]; [now inversion E; subst|].
    inversion Hs as [|? ? [Hct Hpt] _]; subst.
    apply bind_ok in E as (p0 & _ & E). apply bind_ok in E as (pl & _ & E).
    eapply IH; [exact Hct| |exact E].
    apply better_of_keeps; assumption.
Qed.

Lemma run_tabu_keeps (fuel : nat) (sol : Solution.t) :
  MetaheuristicSolver._run_tabu self rnd fuel = Ok (Some sol) -> P sol.
Proof.
  unfold MetaheuristicSolver._run_tabu. intros E.
  apply bind_ok in E as ([perm bits] & Er & E).
  apply bind_ok in E as (cur & Ed & E). simpl in *.
  pose proof (random_solution_candidate self _ _ _ _ (fair 0%nat) Er) as Hc.
  eapply tabu_loop_keeps; eauto.
Qed.

Lemma init_step_keeps (pool pool' : list MetaheuristicSolver.individual) (k : nat) :
  Forall good pool -> MetaheuristicSolver.init_step self rnd pool k = Ok pool' ->
  Forall good pool'.
Proof.
  intros Hp E. unfold MetaheuristicSolver.init_step in E.
  apply bind_ok in E as ([perm bits] & Er & E).
  apply bind_ok in E as (sol & Ed & E). inversion E; subst; clear E. simpl in *.
  pose proof (random_solution_candidate self _ _ _ _ (fair k) Er) as Hc.
  apply Forall_app; split; [exact Hp|].
  constructor; [|constructor]. split; simpl; eauto.
Qed.

Lemma py_choice_in (l : list MetaheuristicSolver.individual) (i : nat)
      (t : MetaheuristicSolver.individual) :
  MetaheuristicSolver.py_choice l i = Ok t -> In t l.
Proof.
  unfold MetaheuristicSolver.py_choice.
  destruct (nth_error l i) eqn:E; intros H; inversion H; subst.
  eapply nth_error_In; eauto.
Qed.

Lemma ga_child_keeps (g c : nat) (pool new_pool new_pool' : list MetaheuristicSolver.individual) :
  Forall good pool -> Forall good new_pool ->
  MetaheuristicSolver.ga_child self rnd g pool new_pool c = Ok new_pool' ->
  Forall good new_pool'.
Proof.
  intros Hpool Hnew E. unfold MetaheuristicSolver.ga_child in E.
  apply bind_ok in E as (p1 & E1 & E). apply bind_ok in E as (p2 & E2 & E).
  apply bind_ok in E as (cp & Eox & E). apply bind_ok in E as ([mp mb] & Em & E).
  apply bind_ok in E as (sol & Ed & E). inversion E; subst; clear E. simpl in *.
  rewrite Forall_forall in Hpool.
  destruct (Hpool p1 (in_firstn _ _ _ (py_choice_in _ _ _ E1))) as [[Hp1 Hl1] _].
  destruct (Hpool p2 (in_firstn _ _ _ (py_choice_in _ _ _ E2))) as [[Hp2 Hl2] _].
  assert (Hnd1 : NoDup (MetaheuristicSolver.ind_perm p1))
    by (eapply Permutation_NoDup; [symmetry; exact Hp1|exact ids_unique]).
  assert (H12 : Permutation (MetaheuristicSolver.ind_perm p1) (MetaheuristicSolver.ind_perm p2))
    by (rewrite Hp1, Hp2; reflexivity).
  pose proof (ox_crossover_perm _ _ _ _ Hnd1 H12 Eox) as Hcp.
  assert (Hc : candidate inst cp (MetaheuristicSolver._bit_crossover
                                    (MetaheuristicSolver.ind_bits p1)
                                    (MetaheuristicSolver.ind_bits p2)
                                    (Random.pick rnd g c))).
  { split; [now rewrite Hcp|].
    rewrite bit_crossover_length.
    - rewrite Hl1, (Permutation_length Hcp), (Permutation_length H12). reflexivity.
    - rewrite Hl1, Hl2. apply Permutation_length, H12. }
  pose proof (mutate_candidate _ _ _ _ _ _ _ _ Hc Em) as Hm.
  apply Forall_app; split; [exact Hnew|].
  constructor; [|constructor]. split; simpl; eauto.
Qed.

Lemma sorted_pool_good (pool : list MetaheuristicSolver.individual) :
  Forall good pool -> Forall good (sort_by MetaheuristicSolver.ind_H pool).
Proof.
  rewrite !Forall_forall. intros H t Ht. apply H.
  eapply Permutation_in; [apply sort_by_perm|exact Ht].
Qed.

Lemma ga_generation_keeps (g : nat)
      (st st' : list MetaheuristicSolver.individual * Solution.t) :
  Forall good (fst st) /\ P (snd st) ->
  MetaheuristicSolver.ga_generation self rnd st g = Ok st' ->
  Forall good (fst st') /\ P (snd st').
Proof.
  destruct st as [pool best]. intros [Hpool Hbest] E. simpl in *.
  apply bind_ok in E as (np & En & E).
  assert (Hnp : Forall good np).
  { refine (for_each_invariant _ (Forall good) (fun _ => True) _ _ _ _ (all_true _) _ En).
    - intros s c s' _ Hs Es. exact (ga_child_keeps g c pool s s' Hpool Hs Es).
    - rewrite Forall_forall in *. intros t Ht. apply Hpool. eapply in_firstn; eauto. }
  pose proof (sorted_pool_good _ Hnp) as Hs.
  destruct (sort_by MetaheuristicSolver.ind_H np) as [|top rest]; [discriminate|].
  inversion E; subst; clear E. simpl. split; [exact Hs|].
  inversion Hs as [|? ? [_ Hpt] _]; subst.
  destruct (_ <? _); assumption.
Qed.

Lemma run_ga_keeps (sol : Solution.t) :
  MetaheuristicSolver._run_ga self rnd = Ok sol -> P sol.
Proof.
  unfold MetaheuristicSolver._run_ga. intros E.
  apply bind_ok in E as (pool & Ei & E).
  assert (Hpool : Forall good pool).
  { refine (for_each_invariant _ (Forall good) (fun _ => True) _ _ _ _ (all_true _) _ Ei).
    - intros s k s' _ Hs Es. eapply init_step_keeps; eauto.
    - constructor. }
  pose proof (sorted_pool_good _ Hpool) as Hs.
  destruct (sort_by MetaheuristicSolver.ind_H pool) as [|top rest]; [discriminate|].
  apply bind_ok in E as (st & El & E). inversion E; subst; clear E.
  assert (HI : Forall good (fst st) /\ P (snd st)).
  { refine (for_each_invariant _ (fun st => Forall good (fst st) /\ P (snd st))
                               (fun _ => True) _ _ _ _ (all_true _) _ El).
    - intros s g s' _ Hs' Es. eapply ga_generation_keeps; eauto.
    - simpl. split; [exact Hs|]. inversion Hs as [|? ? [_ Hpt] _]; assumption. }
  apply HI.
Qed.

Lemma solve_keeps (fuel : nat) (sol : Solution.t) :
  MetaheuristicSolver.solve self rnd fuel = Ok (Some sol) -> P sol.
Proof.
  unfold MetaheuristicSolver.solve.
  destruct (MetaheuristicSolver.strategy_ self).
  - intros E. apply bind_ok in E as (s & E & Es). inversion Es; subst s.
    now apply run_ga_keeps.
  - intros E. apply bind_ok in E as (s & E & Es). inversion Es; subst s.
    now apply run_sa_keeps.
  - apply run_tabu_keeps.
Qed.

End Strategies.

(** ** Heights returned from the level model *)

Lemma sumZ_cons {A : Type} (f : A -> Z) (a : A) (l : list A) :
  LevelMilpSolver.sumZ f (a :: l) = f a + LevelMilpSolver.sumZ f l.
Proof. unfold LevelMilpSolver.sumZ; simpl. apply py_sum_cons. Qed.

Lemma sumZ_nil {A : Type} (f : A -> Z) : LevelMilpSolver.sumZ f [] = 0.
Proof. reflexivity. Qed.

Lemma sumZ_nonneg {A : Type} (f : A -> Z) (l : list A) :
  (forall x, In x l -> 0 <= f x) -> 0 <= LevelMilpSolver.sumZ f l.
Proof.
  induction l as [|a l IH]; intros H; [rewrite sumZ_nil; lia|].
  rewrite sumZ_cons. pose proof (H a (or_introl eq_refl)).
  assert (0 <= LevelMilpSolver.sumZ f l) by (apply IH; intros; apply H; right; auto). lia.
Qed.

Lemma sumZ_pos_exists {A : Type} (f : A -> Z) (l : list A) :
  0 < LevelMilpSolver.sumZ f l -> exists a, In a l /\ 0 < f a.
Proof.
  induction l as [|a l IH]; [rewrite sumZ_nil; lia|].
  rewrite sumZ_cons. intros H.
  destruct (Z_lt_ge_dec 0 (f a)) as [Hp|Hn]; [exists a; simpl; auto|].
  destruct IH as (b & Hb & Hfb); [lia|]. exists b; simpl; auto.
Qed.

Lemma sumZ_filter_le {A : Type} (f g : A -> Z) (p : A -> bool) (l : list A) :
  (forall x, In x l -> 0 <= g x) ->
  (forall x, In x l -> p x = true -> f x <= g x) ->
  LevelMilpSolver.sumZ f (filter p l) <= LevelMilpSolver.sumZ g l.
Proof.
  induction l as [|a l IH]; intros Hg Hfg; simpl; [rewrite !sumZ_nil; lia|].
  assert (IH' : LevelMilpSolver.sumZ f (filter p l) <= LevelMilpSolver.sumZ g l).
  { apply IH; intros; [apply Hg|apply Hfg]; simpl; auto. }
  pose proof (Hg a (or_introl eq_refl)).
  rewrite (sumZ_cons g). destruct (p a) eqn:Ep.
  - rewrite sumZ_cons. pose proof (Hfg a (or_introl eq_refl) Ep). lia.
  - lia.
Qed.

Lemma sumZ_perm {A : Type} (f : A -> Z) (l1 l2 : list A) :
  Permutation l1 l2 -> LevelMilpSolver.sumZ f l1 = LevelMilpSolver.sumZ f l2.
Proof. intros H. unfold LevelMilpSolver.sumZ. now apply py_sum_perm, Permutation_map. Qed.

Lemma max_element {A : Type} (f : A -> Z) (l : list A) :
  l <> [] -> exists a, In a l /\ forall b, In b l -> f b <= f a.
Proof.
  induction l as [|x l IH]; [congruence|]. intros _.
  destruct l as [|y l].
  - exists x; split; [left; auto|]. intros b [<-|[]]; lia.
  - destruct IH as (a & Ha & Hmax); [discriminate|].
    destruct (Z_le_gt_dec (f x) (f a)).
    + exists a; split; [right; auto|]. intros b [<-|Hb]; auto.
    + exists x; split; [left; auto|]. intros b [<-|Hb]; [lia|].
      specialize (Hmax b Hb). lia.
Qed.

Lemma area_in_row (mh : Z) (qs : list Placement.t) :
  Forall (fun q => 0 < Placement.w_eff q /\ Placement.h_eff q <= mh) qs ->
  py_sum (map area_of qs) <= mh * py_sum (map Placement.w_eff qs).
Proof.
  induction 1 as [|q qs [Hw Hh] _ IH]; simpl.
  - change (py_sum []) with 0; lia.
  - rewrite !py_sum_cons.
    assert (area_of q <= mh * Placement.w_eff q) by (unfold area_of; nia).
    lia.
Qed.

Lemma sum_covered (rects : list Rectangle.t) :
  NoDup (map Rectangle.id rects) ->
  forall pl,
    (forall r, In r rects ->
               exists q, In q pl /\ Placement.rect_id q = Rectangle.id r
                         /\ area_of q = Rectangle.area r) ->
    (forall q, In q pl -> 0 <= area_of q) ->
    py_sum (map Rectangle.area rects) <= py_sum (map area_of pl).
Proof.
  induction rects as [|r rects IH]; intros Hnd pl Hcov Hpos; simpl.
  - change (py_sum []) with 0.
    assert (H := sumZ_nonneg area_of pl Hpos). exact H.
  - inversion Hnd as [|? ? Hnotin Hnd']; subst.
    destruct (Hcov r (or_introl eq_refl)) as (q & Hq & Hid & Ha).
    apply in_split in Hq as (l1 & l2 & ->).
    rewrite py_sum_cons, map_app, py_sum_app. simpl. rewrite py_sum_cons.
    assert (IH' : py_sum (map Rectangle.area rects) <= py_sum (map area_of (l1 ++ l2))).
    { apply IH; [exact Hnd'| |].
      - intros r' Hr'. destruct (Hcov r' (or_intror Hr')) as (q' & Hq' & Hid' & Ha').
        exists q'; split; [|auto].
        apply in_app_or in Hq' as [Hq'|[Eq|Hq']]; [apply in_or_app; auto| |apply in_or_app; auto].
        subst q'. exfalso; apply Hnotin. rewrite <- Hid, Hid'. now apply in_map.
      - intros q' Hq'. apply Hpos.
        apply in_app_or in Hq' as [Hq'|Hq']; apply in_or_app; simpl; auto. }
    rewrite map_app, py_sum_app in IH'. lia.
Qed.

Section LevelBounds.
Variable self : LevelMilpSolver.t.
Variable v : LevelValues.t.

Let inst : Instance.t := LevelMilpSolver.instance self.
Let rects : list Rectangle.t := Instance.rectangles inst.
Let ids : list Z := map Rectangle.id rects.
Let L : list nat := LevelMilpSolver.range (LevelMilpSolver.levels self).
Let ar : bool := LevelMilpSolver.allow_rotation self.

Hypothesis Hwf : well_formed inst.
Hypothesis Hmodel : LevelMilpSolver.model self v.

Lemma level_lookup (r : Rectangle.t) :
  In r rects -> first_with_id rects (Rectangle.id r) = Ok r.
Proof.
  intros Hr. unfold first_with_id.
  destruct (find _ rects) as [r'|] eqn:E.
  - apply find_some in E as [Hin E]. apply Z.eqb_eq in E. f_equal.
    eapply NoDup_map_eq; eauto. apply (wf_ids _ Hwf).
  - pose proof (find_none _ _ E r Hr) as Hf. simpl in Hf.
    rewrite Z.eqb_refl in Hf. discriminate.
Qed.

Lemma level_rect (rid : Z) :
  In rid ids ->
  exists r, In r rects /\ Rectangle.id r = rid
            /\ first_with_id rects rid = Ok r
            /\ LevelMilpSolver.rect_w self rid = Rectangle.w r
            /\ LevelMilpSolver.rect_h self rid = Rectangle.h r
            /\ 0 < Rectangle.w r /\ 0 < Rectangle.h r.
Proof.
  intros Hin. apply in_map_iff in Hin as (r & <- & Hr).
  pose proof (level_lookup r Hr) as El.
  pose proof (wf_dims _ Hwf) as Hd. rewrite Forall_forall in Hd.
  destruct (Hd r Hr) as [Hw Hh].
  exists r. unfold LevelMilpSolver.rect_w, LevelMilpSolver.rect_h.
  fold inst rects. rewrite El. auto 10.
Qed.

Lemma level_binary (rid : Z) (ell : nat) :
  In rid ids -> In ell L ->
  0 <= LevelValues.zH v rid ell <= 1
  /\ 0 <= LevelMilpSolver.zV_term self v rid ell <= 1
  /\ (ar = true -> 0 <= LevelValues.zV v rid ell <= 1).
Proof.
  intros Hrid Hell.
  pose proof (LevelMilpSolver.bounds_zH _ _ Hmodel rid ell Hrid Hell) as BH.
  pose proof (LevelMilpSolver.bounds_zV _ _ Hmodel rid ell) as BV.
  unfold LevelMilpSolver.zV_term. fold ar in BV |- *.
  unfold LevelMilpSolver.binary in *.
  destruct ar.
  - specialize (BV eq_refl Hrid Hell). lia.
  - split; [lia|]. split; [lia|discriminate].
Qed.

(** What being assigned to a level gives. *)
Lemma level_on (rid : Z) (ell : nat) :
  In rid ids -> In ell L ->
  LevelMilpSolver.on_level self v ell rid = true ->
  0 < level_eff_w self v ell rid
  /\ 0 < LevelMilpSolver.eff_h self v ell rid
  /\ LevelMilpSolver.eff_h self v ell rid <= LevelValues.s v ell
  /\ level_eff_w self v ell rid * LevelMilpSolver.eff_h self v ell rid
     = LevelMilpSolver.rect_w self rid * LevelMilpSolver.rect_h self rid
  /\ level_eff_w self v ell rid
     <= LevelMilpSolver.rect_w self rid * LevelValues.zH v rid ell
        + LevelMilpSolver.rect_h self rid * LevelMilpSolver.zV_term self v rid ell
  /\ Z.min (LevelMilpSolver.rect_h self rid) (LevelMilpSolver.rect_w self rid)
     <= LevelMilpSolver.eff_h self v ell rid
  /\ (ar = false -> LevelMilpSolver.eff_h self v ell rid = LevelMilpSolver.rect_h self rid).
Proof.
  intros Hrid Hell Hon.
  destruct (level_rect rid Hrid) as (r & _ & _ & _ & Ew & Eh & Hw & Hh).
  destruct (level_binary rid ell Hrid Hell) as (BH & BVt & BV).
  destruct (LevelMilpSolver.height_per_level _ _ Hmodel ell rid Hell Hrid) as [HsH HsV].
  unfold level_eff_w, LevelMilpSolver.eff_h, LevelMilpSolver.on_level,
    LevelMilpSolver.is_rotated, LevelMilpSolver.zV_term in *.
  fold ar in Hon, HsV, BVt |- *. rewrite Ew, Eh in *.
  destruct ar; simpl in *.
  - specialize (BV eq_refl). specialize (HsV eq_refl).
    destruct (0 <? LevelValues.zV v rid ell) eqn:EV.
    + apply Z.ltb_lt in EV. assert (LevelValues.zV v rid ell = 1) by lia.
      repeat split; try lia; try nia; try discriminate.
    + apply Z.ltb_ge in EV. rewrite orb_false_r in Hon. apply Z.ltb_lt in Hon.
      assert (LevelValues.zH v rid ell = 1) by lia.
      repeat split; try lia; try nia; try discriminate.
  - rewrite orb_false_r in Hon. apply Z.ltb_lt in Hon.
    assert (LevelValues.zH v rid ell = 1) by lia.
    repeat split; try lia; try nia; try discriminate.
Qed.

Lemma level_width (ell : nat) :
  In ell L ->
  (exists rid, In rid ids /\ LevelMilpSolver.on_level self v ell rid = true) ->
  LevelMilpSolver.sumZ (level_eff_w self v ell)
                       (filter (LevelMilpSolver.on_level self v ell) ids)
  <= Instance.W inst.
Proof.
  intros Hell (rid0 & Hrid0 & Hon0).
  pose proof (LevelMilpSolver.width_per_level _ _ Hmodel ell Hell) as Hw.
  cbv zeta in Hw. fold inst rects ids in Hw.
  set (term := fun rid => LevelMilpSolver.rect_w self rid * LevelValues.zH v rid ell
                          + LevelMilpSolver.rect_h self rid
                            * LevelMilpSolver.zV_term self v rid ell) in *.
  set (cnt := fun rid => LevelValues.zH v rid ell + LevelMilpSolver.zV_term self v rid ell) in *.
  assert (Hterm : forall rid, In rid ids -> 0 <= term rid).
  { intros rid Hrid. destruct (level_rect rid Hrid) as (r & _ & _ & _ & Ew & Eh & ? & ?).
    destruct (level_binary rid ell Hrid Hell) as (? & ? & _). unfold term. nia. }
  assert (Hcnt : forall rid, In rid ids -> 0 <= cnt rid).
  { intros rid Hrid. destruct (level_binary rid ell Hrid Hell) as (? & ? & _).
    unfold cnt; lia. }
  assert (Hone : 1 <= LevelMilpSolver.sumZ cnt ids).
  { assert (Hc0 : 1 <= cnt rid0).
    { destruct (level_binary rid0 ell Hrid0 Hell) as (BH & BVt & BV).
      unfold cnt, LevelMilpSolver.on_level, LevelMilpSolver.zV_term in *.
      fold ar in Hon0, BVt |- *.
      apply orb_true_iff in Hon0 as [Hon0|Hon0].
      - apply Z.ltb_lt in Hon0. destruct ar; lia.
      - apply andb_true_iff in Hon0 as [Ea Hon0]. rewrite Ea in *.
        apply Z.ltb_lt in Hon0. lia. }
    clear -Hc0 Hcnt Hrid0. induction ids as [|a l IH]; [contradiction|].
    rewrite sumZ_cons.
    assert (0 <= LevelMilpSolver.sumZ cnt l)
      by (apply sumZ_nonneg; intros; apply Hcnt; right; auto).
    pose proof (Hcnt a (or_introl eq_refl)).
    destruct Hrid0 as [->|Hin]; [lia|].
    assert (1 <= LevelMilpSolver.sumZ cnt l) by (apply IH; auto; intros; apply Hcnt; right; auto).
    lia. }
  assert (Hu : LevelValues.u v ell <= 1).
  { destruct (LevelMilpSolver.bounds_u _ _ Hmodel ell Hell); lia. }
  pose proof (wf_W _ Hwf) as HW. pose proof (wf_kerf _ Hwf) as Hd.
  fold inst in HW, Hd.
  assert (Hsum : LevelMilpSolver.sumZ term ids <= Instance.W inst) by nia.
  etransitivity; [|exact Hsum].
  apply sumZ_filter_le; [exact Hterm|].
  intros rid Hrid Hon. now destruct (level_on rid ell Hrid Hell Hon) as (_ & _ & _ & _ & ? & _).
Qed.

Lemma row_loop (ell : nat) (y : Z) : forall l st r,
    (forall rid, In rid l -> In rid ids) ->
    for_each (LevelMilpSolver.place_step self v ell y) l st = Ok r ->
    exists qs, LevelMilpSolver.placed r = LevelMilpSolver.placed st ++ qs
               /\ Forall2 (level_slot self v ell y) l qs.
Proof.
  induction l as [|rid l IH]; intros st r Hin E; simpl in E.
  - inversion E; subst. exists []; split; [now rewrite app_nil_r|constructor].
  - apply bind_ok in E as (st1 & E1 & E2).
    unfold LevelMilpSolver.place_step in E1.
    destruct (level_rect rid (Hin rid (or_introl eq_refl)))
      as (rc & _ & _ & El & Ew & Eh & _).
    fold inst rects in E1. rewrite El in E1. simpl in E1.
    inversion E1; subst st1; clear E1.
    destruct (IH _ _ (fun x Hx => Hin x (or_intror Hx)) E2) as (qs & Eq & Hqs).
    simpl in Eq. eexists (_ :: qs); split.
    + rewrite Eq, <- app_assoc. reflexivity.
    + constructor; [|exact Hqs].
      unfold level_slot, level_eff_w, LevelMilpSolver.eff_h; simpl.
      rewrite Ew, Eh. auto.
Qed.

Lemma slots_widths (ell : nat) (y : Z) (l : list Z) (qs : list Placement.t) :
  Forall2 (level_slot self v ell y) l qs ->
  py_sum (map Placement.w_eff qs) = LevelMilpSolver.sumZ (level_eff_w self v ell) l.
Proof.
  induction 1 as [|rid q l qs Hs _ IH]; [reflexivity|].
  simpl. rewrite py_sum_cons, sumZ_cons, IH.
  destruct Hs as (_ & _ & -> & _). reflexivity.
Qed.

Lemma slots_in (ell : nat) (y : Z) (l : list Z) (qs : list Placement.t) :
  Forall2 (level_slot self v ell y) l qs ->
  (forall q, In q qs -> exists rid, In rid l /\ level_slot self v ell y rid q)
  /\ (forall rid, In rid l -> exists q, In q qs /\ level_slot self v ell y rid q).
Proof.
  induction 1 as [|rid q l qs Hs _ [IH1 IH2]]; [split; intros ? []|split].
  - intros q' [<-|Hq]; [exists rid; simpl; auto|].
    destruct (IH1 q' Hq) as (r' & ? & ?); exists r'; simpl; auto.
  - intros rid' [<-|Hr]; [exists q; simpl; auto|].
    destruct (IH2 rid' Hr) as (q' & ? & ?); exists q'; simpl; auto.
Qed.

Lemma level_step_inv (st st' : Z * list Placement.t) (ell : nat) :
  In ell L -> levels_inv (Instance.W inst) st ->
  LevelMilpSolver.level_step self v st ell = Ok st' ->
  levels_inv (Instance.W inst) st'
  /\ (exists qs, snd st' = snd st ++ qs)
  /\ (forall rid, In rid ids -> LevelMilpSolver.on_level self v ell rid = true ->
                  exists q, In q (snd st') /\ level_slot self v ell (fst st) rid q).
Proof.
  intros Hell I E. destruct st as [y pl]. unfold LevelMilpSolver.level_step in E.
  pose proof (wf_W _ Hwf) as HW. pose proof (wf_kerf _ Hwf) as Hd. fold inst in HW, Hd.
  destruct (LevelValues.s v ell <=? 0) eqn:Es.
  - inversion E; subst st'; clear E. apply Z.leb_le in Es.
    split; [exact I|]. split; [exists []; now rewrite app_nil_r|].
    intros rid Hrid Hon.
    destruct (level_on rid ell Hrid Hell Hon) as (_ & ? & ? & _). lia.
  - apply Z.leb_gt in Es.
    replace (0 <? LevelValues.s v ell) with true in E by (symmetry; apply Z.ltb_lt; lia).
    apply bind_ok in E as (r & Er & E). inversion E; subst st'; clear E.
    fold inst rects ids in Er.
    set (on := filter (LevelMilpSolver.on_level self v ell) ids) in *.
    set (ids_on := sort_by_reverse (LevelMilpSolver.eff_h self v ell) on) in *.
    assert (Hperm : Permutation ids_on on) by apply sort_by_reverse_perm.
    assert (Hon : forall rid, In rid ids_on ->
                              In rid ids /\ LevelMilpSolver.on_level self v ell rid = true).
    { intros rid Hr. apply (Permutation_in _ Hperm) in Hr.
      unfold on in Hr. apply filter_In in Hr. exact Hr. }
    destruct (row_loop ell y ids_on _ r (fun rid Hr => proj1 (Hon rid Hr)) Er)
      as (qs & Eq & Hqs).
    simpl in Eq. destruct (slots_in _ _ _ _ Hqs) as [Hq_of Hof_q].
    destruct I as [Iy It [M (HM & Harea & Hwit)]]. simpl in *.
    assert (Hq : forall q, In q qs ->
                           Placement.y q = y /\ 0 < Placement.w_eff q
                           /\ 0 < Placement.h_eff q
                           /\ Placement.h_eff q <= LevelValues.s v ell).
    { intros q Hin. destruct (Hq_of q Hin) as (rid & Hr & (_ & Ey & Ew & Eh)).
      destruct (Hon rid Hr) as [Hrid Ho].
      destruct (level_on rid ell Hrid Hell Ho) as (? & ? & ? & _).
      rewrite Ew, Eh. auto. }
    split; [|split].
    + unfold inst in *. constructor; simpl; rewrite ?Eq.
      * lia.
      * apply Forall_app; split.
        -- eapply Forall_impl; [|exact It]. simpl. intros q (? & ? & ?). repeat split; lia.
        -- apply Forall_forall. intros q Hin.
           destruct (Hq q Hin) as (Ey & ? & ? & ?).
           unfold HeuristicSolver.top, area_of. rewrite Ey. repeat split; try lia; nia.
      * assert (Hcase : qs = [] \/ qs <> [])
          by (destruct qs; [left|right]; congruence).
        destruct Hcase as [Hnil|Hne].
        { exists M. rewrite Hnil, app_nil_r. repeat split; try lia; auto. }
        destruct (max_element Placement.h_eff qs Hne) as (q0 & Hq0 & Hmax).
        destruct (Hq q0 Hq0) as (Ey0 & _ & Hh0 & Hs0).
        exists (y + Placement.h_eff q0). split; [lia|]. split.
        -- rewrite map_app, py_sum_app.
           assert (Hrow : py_sum (map area_of qs)
                          <= Placement.h_eff q0 * py_sum (map Placement.w_eff qs)).
           { apply area_in_row. apply Forall_forall. intros q Hin.
             destruct (Hq q Hin) as (_ & ? & _). split; [assumption|auto]. }
           rewrite (slots_widths _ _ _ _ Hqs), (sumZ_perm _ _ _ Hperm) in Hrow.
           assert (Hwid : LevelMilpSolver.sumZ (level_eff_w self v ell) on
                          <= Instance.W (LevelMilpSolver.instance self)).
           { apply level_width; [exact Hell|].
             destruct (Hq_of q0 Hq0) as (rid & Hr & _).
             exists rid. apply Hon, Hr. }
           nia.
        -- intros _. exists q0. split; [apply in_or_app; auto|].
           unfold HeuristicSolver.top. lia.
    + exists qs. exact Eq.
    + intros rid Hrid Ho.
      assert (Hin : In rid ids_on).
      { apply (Permutation_in _ (Permutation_sym Hperm)). unfold on.
        apply filter_In; auto. }
      destruct (Hof_q rid Hin) as (q & Hq' & Hslot).
      exists q; split; [rewrite Eq; apply in_or_app; auto|exact Hslot].
Qed.

Lemma levels_loop : forall ells st st',
    (forall ell, In ell ells -> In ell L) -> levels_inv (Instance.W inst) st ->
    for_each (LevelMilpSolver.level_step self v) ells st = Ok st' ->
    levels_inv (Instance.W inst) st'
    /\ (forall q, In q (snd st) -> In q (snd st'))
    /\ (forall ell rid, In ell ells -> In rid ids ->
                        LevelMilpSolver.on_level self v ell rid = true ->
                        exists q y, In q (snd st') /\ level_slot self v ell y rid q).
Proof.
  induction ells as [|ell ells IH]; intros st st' Hin I E; simpl in E.
  - inversion E; subst. split; [exact I|]. split; [auto|]. intros ? ? [].
  - apply bind_ok in E as (st1 & E1 & E2).
    destruct (level_step_inv st st1 ell (Hin ell (or_introl eq_refl)) I E1)
      as (I1 & (qs & Eqs) & Hnew).
    destruct (IH st1 st' (fun e He => Hin e (or_intror He)) I1 E2) as (I' & Hmono & Hrest).
    split; [exact I'|]. split.
    + intros q Hq. apply Hmono. rewrite Eqs. apply in_or_app; auto.
    + intros e rid [<-|He] Hrid Ho.
      * destruct (Hnew rid Hrid Ho) as (q & Hq & Hs).
        exists q, (fst st). split; [apply Hmono, Hq|exact Hs].
      * eapply Hrest; eauto.
Qed.

Lemma level_assigned (r : Rectangle.t) :
  In r rects ->
  exists ell, In ell L
              /\ LevelMilpSolver.on_level self v ell (Rectangle.id r) = true.
Proof.
  intros Hr. assert (Hrid : In (Rectangle.id r) ids) by (apply in_map; exact Hr).
  pose proof (LevelMilpSolver.assignment _ _ Hmodel _ Hrid) as Ha.
  fold L in Ha.
  destruct (sumZ_pos_exists _ L ltac:(rewrite Ha; lia)) as (ell & Hell & Hpos).
  exists ell; split; [exact Hell|].
  destruct (level_binary _ ell Hrid Hell) as (BH & BVt & BV).
  unfold LevelMilpSolver.on_level, LevelMilpSolver.zV_term in *. fold ar in Hpos, BVt |- *.
  destruct (Z_lt_ge_dec 0 (LevelValues.zH v (Rectangle.id r) ell)) as [Hp|Hn].
  - apply orb_true_iff; left. now apply Z.ltb_lt.
  - apply orb_true_iff; right. destruct ar; [|lia]. simpl. apply Z.ltb_lt. lia.
Qed.

Lemma level_bounds (status : string) (sol : Solution.t) (a m : Z) :
  double_exact inst ->
  LevelMilpSolver.solve self v status = Ok sol ->
  Instance.area_lb inst = Ok a ->
  Instance.maxh_lb inst ar = Ok m ->
  Z.max a m <= Solution.H sol.
Proof.
  intros Hde E Ea Em. unfold LevelMilpSolver.solve in E.
  apply bind_ok in E as (a0 & _ & E). apply bind_ok in E as (m0 & _ & E).
  apply bind_ok in E as (st & El & E). inversion E; subst sol; clear E. simpl.
  pose proof (wf_W _ Hwf) as HW. fold inst in HW.
  assert (I0 : levels_inv (Instance.W inst) (0, [])).
  { constructor; simpl; [lia|constructor|].
    exists 0. repeat split; try lia. change (py_sum []) with 0; lia. congruence. }
  destruct (levels_loop L (0, []) st (fun e He => He) I0 El) as (I & _ & Hall).
  set (H := match snd st with
            | [] => 0
            | p :: ps => fold_left Z.max (map HeuristicSolver.top ps) (HeuristicSolver.top p)
            end).
  assert (Htop : forall q, In q (snd st) -> HeuristicSolver.top q <= H).
  { unfold H. destruct (snd st) as [|p ps]; [intros q []|].
    destruct (fold_max_le (map HeuristicSolver.top ps) (HeuristicSolver.top p)) as [H1 H2].
    rewrite Forall_forall in H2.
    intros q [<-|Hq]; [exact H1|]. apply H2, in_map, Hq. }
  (* every rectangle is placed, in one of its two orientations *)
  assert (Hplaced : forall r, In r rects ->
             exists q, In q (snd st) /\ Placement.rect_id q = Rectangle.id r
                       /\ area_of q = Rectangle.area r
                       /\ Z.min (Rectangle.h r) (Rectangle.w r) <= Placement.h_eff q
                       /\ (ar = false -> Placement.h_eff q = Rectangle.h r)).
  { intros r Hr. destruct (level_assigned r Hr) as (ell & Hell & Hon).
    assert (Hrid : In (Rectangle.id r) ids) by (apply in_map; exact Hr).
    destruct (Hall ell _ Hell Hrid Hon) as (q & y & Hq & (Hid & _ & Ew & Eh)).
    destruct (level_on _ ell Hrid Hell Hon) as (_ & _ & _ & Harea & _ & Hmin & Hno).
    assert (Ewr : LevelMilpSolver.rect_w self (Rectangle.id r) = Rectangle.w r).
    { unfold LevelMilpSolver.rect_w. fold inst rects. now rewrite (level_lookup r Hr). }
    assert (Ehr : LevelMilpSolver.rect_h self (Rectangle.id r) = Rectangle.h r).
    { unfold LevelMilpSolver.rect_h. fold inst rects. now rewrite (level_lookup r Hr). }
    exists q. split; [exact Hq|]. split; [exact Hid|].
    unfold area_of, Rectangle.area. rewrite Ew, Eh, <- Ewr, <- Ehr.
    split; [exact Harea|]. split; [exact Hmin|exact Hno]. }
  pose proof (li_tops _ _ I) as It. rewrite Forall_forall in It.
  apply Z.max_lub.
  - apply (area_lb_le inst a H HW Hde (wf_dims _ Hwf) Ea).
    destruct (li_area _ _ I) as (M & HM & Harea & Hwit).
    assert (Hcov : py_sum (map Rectangle.area rects) <= py_sum (map area_of (snd st))).
    { apply sum_covered; [apply (wf_ids _ Hwf)| |].
      - intros r Hr. destruct (Hplaced r Hr) as (q & ? & ? & ? & _). exists q; auto.
      - intros q Hq. now destruct (It q Hq) as (_ & ? & _). }
    fold rects.
    assert (HMH : M <= H \/ snd st = []).
    { destruct (snd st) as [|p ps] eqn:Es; [auto|left].
      destruct Hwit as (q & Hq & Hle); [discriminate|].
      rewrite <- Es in Htop. specialize (Htop q). rewrite Es in Htop.
      specialize (Htop Hq). lia. }
    destruct HMH as [HMH|Hnil].
    + nia.
    + (* no placement, so no rectangle, but then [maxh_lb] raises *)
      unfold Instance.maxh_lb in Em. fold rects in Em.
      destruct rects as [|r0 rs] eqn:Er; [destruct ar; discriminate|].
      destruct (Hplaced r0 (or_introl eq_refl)) as (q & Hq & _).
      rewrite Hnil in Hq. contradiction.
  - unfold Instance.maxh_lb in Em. fold rects in Em.
    assert (Hr : exists r, In r rects
                           /\ (if ar then m = Z.min (Rectangle.h r) (Rectangle.w r)
                               else m = Rectangle.h r)).
    { destruct ar; apply py_max_ok in Em as [Hin _];
        apply in_map_iff in Hin as (r & <- & Hr); exists r; auto. }
    destruct Hr as (r & Hr & Hm).
    destruct (Hplaced r Hr) as (q & Hq & _ & _ & Hmin & Hno).
    destruct (It q Hq) as (Hy & _ & _). pose proof (Htop q Hq) as Ht.
    unfold HeuristicSolver.top in Ht.
    destruct ar; [lia|]. rewrite (Hno eq_refl) in Ht. lia.
Qed.

End LevelBounds.

(** ** Heights returned from the coordinate model *)

Lemma coordinate_locked (self : MilpSolver.t) (v : CoordValues.t) (r : Rectangle.t) :
  Rectangle.rotatable r = false ->
  Placement.rotated (MilpSolver.read_placement self v r) = false.
Proof.
  intros Hr. unfold MilpSolver.read_placement. rewrite Hr, andb_false_r. reflexivity.
Qed.

(** ** Feasibility of the returned solutions *)

Lemma heuristic_feasible (self : HeuristicSolver.t) (sol : Solution.t) :
  well_formed (HeuristicSolver.instance self) ->
  Instance.forbidden_zones (HeuristicSolver.instance self) = [] ->
  HeuristicSolver.solve self = Ok sol ->
  Solution.check_feasibility sol (HeuristicSolver.instance self) = true.
Proof.
  intros Hwf Hz E. unfold HeuristicSolver.solve in E.
  destruct (HeuristicSolver.policy_ self);
    [now apply nfdh_feasible|now apply skyline_feasible|discriminate].
Qed.

Lemma heuristic_bounds (self : HeuristicSolver.t) (sol : Solution.t) (a m : Z) :
  well_formed (HeuristicSolver.instance self) ->
  double_exact (HeuristicSolver.instance self) ->
  HeuristicSolver.solve self = Ok sol ->
  Instance.area_lb (HeuristicSolver.instance self) = Ok a ->
  Instance.maxh_lb (HeuristicSolver.instance self) (HeuristicSolver.allow_rotation self)
  = Ok m ->
  Z.max a m <= Solution.H sol.
Proof.
  intros Hwf Hde E Ea Em. unfold HeuristicSolver.solve in E.
  destruct (HeuristicSolver.policy_ self);
    [eapply nfdh_bounds|eapply skyline_bounds|discriminate]; eauto.
Qed.

Lemma kerf_instance_well_formed : well_formed kerf_instance.
Proof.
  constructor; simpl; try lia.
  - repeat constructor; simpl; lia.
  - repeat constructor; simpl; intuition lia.
Qed.

(** C1, as stated: with a forbidden zone over the bottom row of the strip,
    both policies place the 4x3 rectangle at the origin, inside the zone,
    and the verifier rejects the solution. *)
Lemma heuristic_ignores_forbidden_zone :
  exists sol,
    HeuristicSolver.solve (HeuristicSolver.mk zone_instance true NFDH false) = Ok sol
    /\ Solution.check_feasibility sol zone_instance = false
    /\ exists sol',
      HeuristicSolver.solve (HeuristicSolver.mk zone_instance true Skyline false) = Ok sol'
      /\ Solution.check_feasibility sol' zone_instance = false.
Proof.
  eexists; split; [reflexivity|]. split; [reflexivity|].
  eexists; split; reflexivity.
Qed.

(** C1, amended: on a well-formed instance without forbidden zones, every
    solution returned by the heuristic engine under either policy, and
    every solution returned by GA, SA or Tabu whatever the random draws,
    passes the feasibility check. *)
Theorem solutions_feasible_without_zones :
  forall inst : Instance.t,
    well_formed inst ->
    Instance.forbidden_zones inst = [] ->
    (forall ar pol g sol,
        HeuristicSolver.solve (HeuristicSolver.mk inst ar pol g) = Ok sol ->
        Solution.check_feasibility sol inst = true)
    /\ (forall ar strat time_limit population elite rnd fuel sol,
           shuffles rnd inst ->
           MetaheuristicSolver.solve
             (MetaheuristicSolver.mk inst ar strat time_limit population elite) rnd fuel
           = Ok (Some sol) ->
           Solution.check_feasibility sol inst = true).
Proof.
  intros inst Hwf Hz. split.
  - intros ar pol g sol E.
    exact (heuristic_feasible (HeuristicSolver.mk inst ar pol g) sol Hwf Hz E).
  - intros ar strat time_limit population elite rnd fuel sol Hfair E.
    set (self := MetaheuristicSolver.mk inst ar strat time_limit population elite) in *.
    apply (solve_keeps self rnd (fun s => Solution.check_feasibility s inst = true)
                       (wf_ids _ Hwf) Hfair) with (fuel := fuel).
    + intros perm bits s Hc Ed. exact (decode_feasible self perm bits s Hwf Hz Hc Ed).
    + exact E.
Qed.

Lemma solutions_feasible_witness :
  Solution.check_feasibility
    (Solution.mk 3 [Placement.mk 1 0 0 4 3 false; Placement.mk 2 6 0 4 3 false]
                 "Heuristic-NFDH" (Some "feasible"%string))
    kerf_instance = true.
Proof.
  destruct (solutions_feasible_without_zones kerf_instance kerf_instance_well_formed eq_refl)
    as [Hheur _].
  apply (Hheur true NFDH false). reflexivity.
Defined.

(** C3, refuted on two inputs.  [area_lb] divides in floating point: for
    one 1 x (2^53 + 3) rectangle on a strip of width 1 it returns
    2^53 + 4, more than the height 2^53 + 3 of the only packing, which both
    heuristic policies return and the verifier accepts.  And the level
    solver rebuilds a solution from whatever the backend reports: with one
    level for two 6x3 rectangles on width 10 its height is at most 3 for
    every report, below the area bound 4. *)
Theorem height_below_lower_bound :
  (forall ar pol g,
      pol <> OtherPolicy ->
      exists sol,
        HeuristicSolver.solve (HeuristicSolver.mk rounding_instance ar pol g) = Ok sol
        /\ Solution.H sol = 2 ^ 53 + 3
        /\ Solution.check_feasibility sol rounding_instance = true)
  /\ Instance.area_lb rounding_instance = Ok (2 ^ 53 + 4)
  /\ (forall time_limit v status,
         exists sol,
           LevelMilpSolver.solve
             (LevelMilpSolver.mk crowded_instance false (Some 1) time_limit) v status
           = Ok sol
           /\ Solution.H sol <= 3)
  /\ Instance.area_lb crowded_instance = Ok 4.
Proof.
  split; [|split; [|split]].
  - intros ar pol g Hpol.
    destruct pol; [| |congruence]; destruct ar, g; eexists;
      (split; [vm_compute; reflexivity|split; vm_compute; reflexivity]).
  - vm_compute. reflexivity.
  - intros time_limit v status.
    set (self := LevelMilpSolver.mk crowded_instance false (Some 1) time_limit).
    unfold LevelMilpSolver.solve.
    replace (Instance.area_lb (LevelMilpSolver.instance self)) with (@Ok Z 4)
      by (vm_compute; reflexivity).
    replace (Instance.maxh_lb (LevelMilpSolver.instance self)
                              (LevelMilpSolver.allow_rotation self)) with (@Ok Z 3)
      by (vm_compute; reflexivity).
    cbn [bind].
    change (LevelMilpSolver.range (LevelMilpSolver.levels self)) with [0%nat].
    cbn [for_each]. unfold LevelMilpSolver.level_step.
    destruct (LevelValues.s v 0 <=? 0) eqn:Es.
    + cbn [bind snd]. eexists. split; [reflexivity|]. simpl. lia.
    + change (map Rectangle.id (Instance.rectangles (LevelMilpSolver.instance self)))
        with [1; 2].
      assert (Eon : forall rid, LevelMilpSolver.on_level self v 0 rid
                                = (0 <? LevelValues.zH v rid 0)).
      { intros rid. unfold LevelMilpSolver.on_level. simpl. apply orb_false_r. }
      cbn [filter]. rewrite !Eon.
      destruct (0 <? LevelValues.zH v 1 0), (0 <? LevelValues.zH v 2 0);
        (eexists; split; [vm_compute; reflexivity|vm_compute; discriminate]).
  - vm_compute. reflexivity.
Qed.

(** ** When the heuristics raise *)

Lemma oriented_width_cases (ar : bool) (r : Rectangle.t) :
  oriented_width ar r = Rectangle.w r
  \/ (ar = true /\ Rectangle.rotatable r = true
      /\ oriented_width ar r = Z.max (Rectangle.w r) (Rectangle.h r)).
Proof.
  unfold oriented_width.
  destruct (orient_cases r ar) as [E|(Ha & Hr & Hlt & E)]; rewrite E; simpl; auto.
  right; repeat split; auto; lia.
Qed.

Lemma min_width_le_oriented (ar : bool) (r : Rectangle.t) :
  (if ar && Rectangle.rotatable r then Z.min (Rectangle.w r) (Rectangle.h r)
   else Rectangle.w r) <= oriented_width ar r.
Proof.
  destruct (oriented_width_cases ar r) as [E|(Ha & Hr & E)]; rewrite E.
  - destruct (ar && Rectangle.rotatable r); lia.
  - rewrite Ha, Hr; simpl; lia.
Qed.

Lemma nfdh_step_result (W d : Z) (ar : bool) (st : HeuristicSolver.shelf) (r : Rectangle.t) :
  (oriented_width ar r <= W
   /\ exists st', HeuristicSolver.nfdh_step W d ar st r = Ok st')
  \/ (W < oriented_width ar r
      /\ HeuristicSolver.nfdh_step W d ar st r
         = Raise (GeometryError (Rectangle.id r) (oriented_width ar r) W)).
Proof.
  unfold HeuristicSolver.nfdh_step, oriented_width.
  destruct (HeuristicSolver._orient r ar true) as [[we he] rot]; simpl.
  destruct (W <? we) eqn:E.
  - right. apply Z.ltb_lt in E. auto.
  - left. apply Z.ltb_ge in E. split; [exact E|].
    destruct (_ <=? W); eexists; reflexivity.
Qed.

Lemma update_skyline_nonempty (l : list segment) (x w y h : Z) :
  HeuristicSolver.update_skyline l x w y h <> [].
Proof.
  unfold HeuristicSolver.update_skyline.
  set (u := flat_map _ l ++ [_]).
  assert (Hu : sort_by seg_x u <> []).
  { intros En. pose proof (Permutation_length (sort_by_perm seg_x u)) as Hl.
    rewrite En in Hl. unfold u in Hl. rewrite length_app in Hl. simpl in Hl. lia. }
  destruct (sort_by seg_x u) as [|s rest]; [congruence|]. simpl.
  destruct (merge_from_head s rest) as (s' & l' & -> & _). discriminate.
Qed.

Lemma skyline_step_result (W : Z) (ar : bool) (st : HeuristicSolver.profile)
      (r : Rectangle.t) :
  HeuristicSolver.skyline st <> [] ->
  (oriented_width ar r <= W
   /\ exists st', HeuristicSolver.skyline_step W ar st r = Ok st'
                  /\ HeuristicSolver.skyline st' <> [])
  \/ (W < oriented_width ar r
      /\ HeuristicSolver.skyline_step W ar st r
         = Raise (GeometryError (Rectangle.id r) (oriented_width ar r) W)).
Proof.
  intros Hne. unfold HeuristicSolver.skyline_step, oriented_width.
  destruct (HeuristicSolver._orient r ar true) as [[we he] rot]; simpl.
  destruct (W <? we) eqn:E.
  - right. apply Z.ltb_lt in E. auto.
  - left. apply Z.ltb_ge in E. split; [exact E|].
    destruct (HeuristicSolver.find_position _ we he) as [[[x y] i]|].
    + simpl. eexists; split; [reflexivity|]. simpl. apply update_skyline_nonempty.
    + destruct (py_max_nonempty (map seg_h (HeuristicSolver.skyline st))) as (y & ->).
      { destruct (HeuristicSolver.skyline st); [congruence|discriminate]. }
      simpl. eexists; split; [reflexivity|]. simpl. apply update_skyline_nonempty.
Qed.

(** A loop over the rectangles ends normally when every oriented width
    fits, and otherwise raises the geometry error of the first that does
    not. *)
Lemma width_loop {S : Type} (body : S -> Rectangle.t -> result S) (Inv : S -> Prop)
      (W : Z) (ar : bool) :
  (forall st r, Inv st ->
                (oriented_width ar r <= W /\ exists st', body st r = Ok st' /\ Inv st')
                \/ (W < oriented_width ar r
                    /\ body st r
                       = Raise (GeometryError (Rectangle.id r) (oriented_width ar r) W))) ->
  forall rs st, Inv st ->
    (Forall (fun r => oriented_width ar r <= W) rs
     /\ exists st', for_each body rs st = Ok st')
    \/ (exists r, In r rs /\ W < oriented_width ar r
                  /\ for_each body rs st
                     = Raise (GeometryError (Rectangle.id r) (oriented_width ar r) W)).
Proof.
  intros Hbody. induction rs as [|r rs IH]; intros st Hst; simpl.
  - left; split; [constructor|eexists; reflexivity].
  - destruct (Hbody st r Hst) as [(Hle & st1 & E1 & H1)|(Hgt & E1)]; rewrite E1; simpl.
    + destruct (IH st1 H1) as [(Hall & st' & E')|(r' & Hr' & Hgt' & E')].
      * left; split; [constructor; assumption|eauto].
      * right; exists r'; auto.
    + right; exists r; auto.
Qed.

Lemma heuristic_raises (self : HeuristicSolver.t) :
  HeuristicSolver.policy_ self <> OtherPolicy ->
  let W := Instance.W (HeuristicSolver.instance self) in
  let ar := HeuristicSolver.allow_rotation self in
  (Forall (fun r => oriented_width ar r <= W)
          (Instance.rectangles (HeuristicSolver.instance self))
   /\ exists sol, HeuristicSolver.solve self = Ok sol)
  \/ (exists r, In r (Instance.rectangles (HeuristicSolver.instance self))
                /\ W < oriented_width ar r
                /\ HeuristicSolver.solve self
                   = Raise (GeometryError (Rectangle.id r) (oriented_width ar r) W)).
Proof.
  intros Hpol W ar.
  assert (Hn : (Forall (fun r => oriented_width ar r <= W)
                       (Instance.rectangles (HeuristicSolver.instance self))
                /\ exists sol, HeuristicSolver._nfdh self = Ok sol)
               \/ (exists r, In r (Instance.rectangles (HeuristicSolver.instance self))
                             /\ W < oriented_width ar r
                             /\ HeuristicSolver._nfdh self
                                = Raise (GeometryError (Rectangle.id r)
                                                       (oriented_width ar r) W))).
  { unfold HeuristicSolver._nfdh. fold W ar.
    pose proof (nfdh_items_perm (Instance.rectangles (HeuristicSolver.instance self)) ar)
      as Hperm.
    destruct (width_loop
                (HeuristicSolver.nfdh_step W (Instance.kerf_delta (HeuristicSolver.instance self)) ar)
                (fun _ => True) W ar) with
      (rs := map fst (HeuristicSolver.nfdh_items
                        (Instance.rectangles (HeuristicSolver.instance self)) ar))
      (st := HeuristicSolver.shelf0)
      as [(Hall & st' & E)|(r & Hr & Hgt & E)]; auto.
    - intros st r _.
      destruct (nfdh_step_result W (Instance.kerf_delta (HeuristicSolver.instance self)) ar st r)
        as [(Hle & st' & E)|H]; [left; eauto|right; exact H].
    - left. split.
      + rewrite Forall_forall in *. intros r Hr. apply Hall.
        eapply Permutation_in; [symmetry; exact Hperm|exact Hr].
      + rewrite E. simpl. eexists; reflexivity.
    - right. exists r. split; [eapply Permutation_in; eauto|]. split; [exact Hgt|].
      rewrite E. reflexivity. }
  unfold HeuristicSolver.solve.
  destruct (HeuristicSolver.policy_ self); [exact Hn| |congruence].
  unfold HeuristicSolver._skyline.
  destruct (HeuristicSolver.guillotine self); [exact Hn|]. fold W ar.
  set (rs := sort_by_reverse (HeuristicSolver.skyline_key ar)
                             (Instance.rectangles (HeuristicSolver.instance self))).
  assert (Hperm : Permutation rs (Instance.rectangles (HeuristicSolver.instance self)))
    by apply sort_by_reverse_perm.
  destruct (width_loop (HeuristicSolver.skyline_step W ar)
                       (fun st => HeuristicSolver.skyline st <> []) W ar) with
    (rs := rs) (st := HeuristicSolver.mk_profile [(0, W, 0)] [])
    as [(Hall & st' & E)|(r & Hr & Hgt & E)].
  - intros st r Hst. exact (skyline_step_result W ar st r Hst).
  - simpl; discriminate.
  - left. split.
    + rewrite Forall_forall in *. intros r Hr. apply Hall.
      eapply Permutation_in; [symmetry; exact Hperm|exact Hr].
    + rewrite E. simpl.
      destruct (skyline_height_total (HeuristicSolver.placements st')) as (H & ->).
      simpl. eexists; reflexivity.
  - right. exists r. split; [eapply Permutation_in; eauto|]. split; [exact Hgt|].
    rewrite E. reflexivity.
Qed.

(** ** Orientation lock outside the level model *)

Lemma locked_from_source (inst : Instance.t) (ar : bool) (sol : Solution.t) :
  NoDup (map Rectangle.id (Instance.rectangles inst)) ->
  (forall q, In q (Solution.placements sol) -> Placement.rotated q = true ->
             exists r, In r (Instance.rectangles inst)
                       /\ Rectangle.id r = Placement.rect_id q
                       /\ Rectangle.rotatable r = true /\ ar = true) ->
  lock_respected inst sol.
Proof.
  intros Hnd H q r Hq Hr Hid Hlock.
  destruct (Placement.rotated q) eqn:E; [|reflexivity].
  destruct (H q Hq E) as (r' & Hr' & Hid' & Hrot & _).
  assert (r' = r) by (eapply NoDup_map_eq; eauto; congruence).
  subst r'. congruence.
Qed.

Lemma heuristic_locked (self : HeuristicSolver.t) (sol : Solution.t) :
  NoDup (map Rectangle.id (Instance.rectangles (HeuristicSolver.instance self))) ->
  HeuristicSolver.solve self = Ok sol ->
  lock_respected (HeuristicSolver.instance self) sol.
Proof.
  intros Hnd E. apply (locked_from_source _ (HeuristicSolver.allow_rotation self)); [exact Hnd|].
  unfold HeuristicSolver.solve in E.
  destruct (HeuristicSolver.policy_ self);
    [now apply nfdh_locked|now apply skyline_locked|discriminate].
Qed.

Lemma decode_locked (self : MetaheuristicSolver.t) (perm bits : list Z) (sol : Solution.t) :
  well_formed (MetaheuristicSolver.instance self) ->
  candidate (MetaheuristicSolver.instance self) perm bits ->
  MetaheuristicSolver._decode self perm bits = Ok sol ->
  lock_respected (MetaheuristicSolver.instance self) sol.
Proof.
  intros Hwf Hc E.
  destruct (decode_sound self perm bits sol Hwf Hc E) as (rs & st & Hperm & Hof & _).
  apply (locked_from_source _ (MetaheuristicSolver.allow_rotation self));
    [apply (wf_ids _ Hwf)|].
  intros q Hq Hrot.
  destruct (placement_of_locked _ _ _ Hof q Hq Hrot) as (r & Hr & H').
  exists r; split; [eapply Permutation_in; eauto|exact H'].
Qed.

Lemma metaheuristic_locked (self : MetaheuristicSolver.t) (rnd : Random.t)
      (fuel : nat) (sol : Solution.t) :
  well_formed (MetaheuristicSolver.instance self) ->
  shuffles rnd (MetaheuristicSolver.instance self) ->
  MetaheuristicSolver.solve self rnd fuel = Ok (Some sol) ->
  lock_respected (MetaheuristicSolver.instance self) sol.
Proof.
  intros Hwf Hfair E.
  apply (solve_keeps self rnd (lock_respected (MetaheuristicSolver.instance self))
                     (wf_ids _ Hwf) Hfair) with (fuel := fuel).
  - intros perm bits s Hc Ed. exact (decode_locked self perm bits s Hwf Hc Ed).
  - exact E.
Qed.

Lemma coordinate_model_locked (self : MilpSolver.t) (v : CoordValues.t) (status : string)
      (sol : Solution.t) :
  NoDup (map Rectangle.id (Instance.rectangles (MilpSolver.instance self))) ->
  MilpSolver.build self v status = Ok sol ->
  lock_respected (MilpSolver.instance self) sol.
Proof.
  intros Hnd E. unfold MilpSolver.build in E.
  apply bind_ok in E as (H & _ & E). inversion E; subst sol; clear E.
  intros q r Hq Hr Hid Hlock. simpl in Hq.
  apply in_map_iff in Hq as (r' & <- & Hr').
  assert (Hid' : Placement.rect_id (MilpSolver.read_placement self v r') = Rectangle.id r').
  { unfold MilpSolver.read_placement. destruct (_ && _); reflexivity. }
  assert (r' = r) by (eapply NoDup_map_eq; eauto; congruence).
  subst r'. now apply coordinate_locked.
Qed.

(** * Further properties of the code *)

(** ** The verifier, read as a specification *)

Lemma ordered_of_combinations2 {A : Type} (R : A -> A -> Prop) (l : list A) :
  (forall ab, In ab (combinations2 l) -> R (fst ab) (snd ab)) -> ForallOrdPairs R l.
Proof.
  induction l as [|a l IH]; intros H; [constructor|].
  constructor.
  - rewrite Forall_forall. intros b Hb.
    apply (H (a, b)). simpl. apply in_or_app. left. now apply in_map.
  - apply IH. intros ab Hab. apply H. simpl. apply in_or_app. now right.
Qed.

Lemma out_of_bounds_false (s : Solution.t) (inst : Instance.t) (p : Placement.t) :
  Solution.out_of_bounds s inst p = false
  <-> 0 <= Placement.x p /\ 0 <= Placement.y p
      /\ Placement.x p + Placement.w_eff p <= Instance.W inst
      /\ Placement.y p + Placement.h_eff p <= Solution.H s.
Proof.
  unfold Solution.out_of_bounds. rewrite !orb_false_iff, !Z.ltb_ge. tauto.
Qed.

Lemma existsb_false {A : Type} (f : A -> bool) (l : list A) :
  existsb f l = false <-> forall a, In a l -> f a = false.
Proof.
  induction l as [|b l IH]; simpl.
  - split; [intros _ a []|reflexivity].
  - rewrite orb_false_iff, IH. split.
    + intros [Hb Hl] a [<-|Ha]; auto.
    + intros H; split; [apply H; now left|intros a Ha; apply H; now right].
Qed.

Lemma feasible_iff (sol : Solution.t) (inst : Instance.t) :
  Solution.check_feasibility sol inst = true
  <-> (forall p, In p (Solution.placements sol) ->
                 0 <= Placement.x p /\ 0 <= Placement.y p
                 /\ Placement.x p + Placement.w_eff p <= Instance.W inst
                 /\ Placement.y p + Placement.h_eff p <= Solution.H sol)
      /\ (forall a, In a (map Rectangle.id (Instance.rectangles inst))
                    <-> In a (map Placement.rect_id (Solution.placements sol)))
      /\ ForallOrdPairs apart (Solution.placements sol)
      /\ (forall p z, In p (Solution.placements sol) ->
                      In z (Instance.forbidden_zones inst) ->
                      Solution.inter p z = false).
Proof.
  unfold Solution.check_feasibility.
  destruct (existsb (Solution.out_of_bounds sol inst) (Solution.placements sol)) eqn:Eb.
  { split; [discriminate|]. intros (Hb & _).
    apply existsb_exists in Eb as (p & Hp & Ep).
    apply Hb, out_of_bounds_false in Hp. congruence. }
  rewrite existsb_false in Eb.
  destruct (set_eqb _ _) eqn:Es; simpl.
  2:{ split; [discriminate|]. intros (_ & Hs & _).
      pose proof (proj2 (set_eqb_true _ _) Hs). congruence. }
  pose proof (proj1 (set_eqb_true _ _) Es) as Es'.
  destruct (existsb _ (combinations2 _)) eqn:Ec.
  { split; [discriminate|]. intros (_ & _ & Ho & _).
    apply existsb_exists in Ec as (ab & Hab & Eab).
    apply (combinations2_ordered _ _ Ho) in Hab. unfold apart in Hab.
    rewrite Hab in Eab. discriminate. }
  rewrite existsb_false in Ec.
  destruct (existsb _ (Solution.placements sol)) eqn:Ez.
  { split; [discriminate|]. intros (_ & _ & _ & Hz).
    apply existsb_exists in Ez as (p & Hp & Ep).
    apply existsb_exists in Ep as (z & Hz' & Ei).
    rewrite (Hz p z Hp Hz') in Ei. discriminate. }
  rewrite existsb_false in Ez.
  split; [intros _|reflexivity].
  split; [intros p Hp; now apply out_of_bounds_false, Eb|].
  split; [exact Es'|]. split.
  - apply ordered_of_combinations2. intros ab Hab. unfold apart.
    apply Ec in Hab. now apply negb_false_iff in Hab.
  - intros p z Hp Hz. specialize (Ez p Hp). rewrite existsb_false in Ez. now apply Ez.
Qed.

Lemma ordered_pairs_split {A : Type} (R : A -> A -> Prop) (l : list A) :
  ForallOrdPairs R l
  <-> forall pre a mid b post, l = pre ++ a :: mid ++ b :: post -> R a b.
Proof.
  split.
  - induction 1 as [|a l Ha Hl IH]; intros pre x mid y post E.
    + destruct pre; discriminate.
    + destruct pre as [|c pre]; simpl in E; inversion E; subst.
      * rewrite Forall_forall in Ha. apply Ha. apply in_or_app. right. now left.
      * eapply IH; reflexivity.
  - induction l as [|a l IH]; intros H; [constructor|].
    constructor.
    + rewrite Forall_forall. intros b Hb.
      apply in_split in Hb as (mid & post & ->).
      apply (H [] a mid b post). reflexivity.
    + apply IH. intros pre x mid y post ->.
      apply (H (a :: pre) x mid y post). reflexivity.
Qed.

(** X1.  [check_feasibility] accepts a solution exactly when every
    placement lies in the strip below [H], the placed ids and the instance's
    ids are the same set, any two placements are separated along an axis, and
    no placement meets a forbidden zone. *)
Theorem check_feasibility_accepts_exactly (sol : Solution.t) (inst : Instance.t) :
  Solution.check_feasibility sol inst = true
  <-> (forall p, In p (Solution.placements sol) ->
                 0 <= Placement.x p /\ 0 <= Placement.y p
                 /\ Placement.x p + Placement.w_eff p <= Instance.W inst
                 /\ Placement.y p + Placement.h_eff p <= Solution.H sol)
      /\ (forall a, In a (map Rectangle.id (Instance.rectangles inst))
                    <-> In a (map Placement.rect_id (Solution.placements sol)))
      /\ (forall pre a mid b post,
             Solution.placements sol = pre ++ a :: mid ++ b :: post ->
             Placement.x a + Placement.w_eff a <= Placement.x b
             \/ Placement.x b + Placement.w_eff b <= Placement.x a
             \/ Placement.y a + Placement.h_eff a <= Placement.y b
             \/ Placement.y b + Placement.h_eff b <= Placement.y a)
      /\ (forall p zx zy zw zh,
             In p (Solution.placements sol) ->
             In (zx, zy, zw, zh) (Instance.forbidden_zones inst) ->
             Placement.x p + Placement.w_eff p <= zx
             \/ zx + zw <= Placement.x p
             \/ Placement.y p + Placement.h_eff p <= zy
             \/ zy + zh <= Placement.y p).
Proof.
  rewrite feasible_iff, ordered_pairs_split.
  split; intros (Hb & Hs & Ho & Hz); (split; [exact Hb|split; [exact Hs|split]]).
  - intros pre a mid b post E. specialize (Ho pre a mid b post E).
    unfold apart, Solution.separated in Ho.
    rewrite !orb_true_iff, !Z.leb_le in Ho. tauto.
  - intros p zx zy zw zh Hp Hin. specialize (Hz p _ Hp Hin).
    unfold Solution.inter in Hz. apply negb_false_iff in Hz.
    rewrite !orb_true_iff, !Z.leb_le in Hz. tauto.
  - intros pre a mid b post E. specialize (Ho pre a mid b post E).
    unfold apart, Solution.separated.
    rewrite !orb_true_iff, !Z.leb_le. tauto.
  - intros p [[[zx zy] zw] zh] Hp Hin. specialize (Hz p zx zy zw zh Hp Hin).
    unfold Solution.inter. apply negb_false_iff.
    rewrite !orb_true_iff, !Z.leb_le. tauto.
Qed.

(** X2.  The verifier reads an instance only through its width, the set
    of its ids and its forbidden zones: the sizes of the rectangles, their
    [rotatable] flags, the multiplicity of an id and the kerf never change
    the verdict. *)
Theorem check_feasibility_reads_width_ids_zones (sol : Solution.t) (i1 i2 : Instance.t) :
  Instance.W i1 = Instance.W i2 ->
  Instance.forbidden_zones i1 = Instance.forbidden_zones i2 ->
  (forall a, In a (map Rectangle.id (Instance.rectangles i1))
             <-> In a (map Rectangle.id (Instance.rectangles i2))) ->
  Solution.check_feasibility sol i1 = Solution.check_feasibility sol i2.
Proof.
  intros HW Hz Hids. apply eq_true_iff_eq. rewrite !feasible_iff, HW, Hz.
  split; intros (Hb & Hs & Ho & Hzz); (split; [exact Hb|split; [|split; assumption]]);
    intros a; rewrite <- (Hs a); [symmetry|]; apply Hids.
Qed.

Lemma check_feasibility_reads_witness :
  Solution.check_feasibility
    (Solution.mk 3 [Placement.mk 1 0 0 4 3 false; Placement.mk 2 6 0 4 3 false]
                 "Heuristic-NFDH" (Some "feasible"%string))
    (Instance.mk 10 [Rectangle.mk 2 9 9 false; Rectangle.mk 1 1 1 true;
                     Rectangle.mk 2 5 5 true] 7 [])
  = Solution.check_feasibility
      (Solution.mk 3 [Placement.mk 1 0 0 4 3 false; Placement.mk 2 6 0 4 3 false]
                   "Heuristic-NFDH" (Some "feasible"%string))
      kerf_instance.
Proof.
  apply check_feasibility_reads_width_ids_zones; [reflexivity|reflexivity|].
  intros a; simpl; tauto.
Defined.

(** ** The two lower bounds *)

(** X3.  [area_lb] divides in floating point.  On width 0 the division
    raises.  For a total area below 2^53 and a positive width below 2^1075
    nothing is lost: it returns the least height whose strip area holds the
    total area of the rectangles.  The bound on the area is sharp: an area
    of 2^53 + 1 on width 1 gives 2^53, a height whose strip area is too
    small. *)
Theorem area_lb_least_height (inst : Instance.t) :
  (Instance.W inst = 0 -> Instance.area_lb inst = Raise ZeroDivisionError)
  /\ (0 < Instance.W inst < 2 ^ 1075 ->
      0 <= py_sum (map Rectangle.area (Instance.rectangles inst)) < 2 ^ 53 ->
      exists a, Instance.area_lb inst = Ok a
                /\ forall H, a <= H
                             <-> py_sum (map Rectangle.area (Instance.rectangles inst))
                                 <= Instance.W inst * H)
  /\ Instance.area_lb (Instance.mk 1 [Rectangle.mk 1 1 (2 ^ 53 + 1) false] 0 [])
     = Ok (2 ^ 53).
Proof.
  split; [|split].
  - intros E. unfold Instance.area_lb, py_truediv. rewrite E. reflexivity.
  - intros [HW HWs] [H0 HA].
    rewrite (area_lb_exact inst HW (conj HA HWs) H0).
    eexists; split; [reflexivity|].
    set (A := py_sum _) in *. set (W := Instance.W inst) in *.
    intros H. pose proof (Z.div_mod (- A) W ltac:(lia)) as Hd.
    pose proof (Z.mod_pos_bound (- A) W HW) as Hm.
    split; intros Hle; nia.
  - vm_compute. reflexivity.
Qed.

Lemma area_lb_least_height_witness :
  exists a, Instance.area_lb kerf_instance = Ok a
            /\ forall H, a <= H
                         <-> py_sum (map Rectangle.area (Instance.rectangles kerf_instance))
                             <= Instance.W kerf_instance * H.
Proof.
  apply (proj1 (proj2 (area_lb_least_height kerf_instance))).
  - split; [reflexivity|vm_compute; reflexivity].
  - split; [vm_compute; discriminate|vm_compute; reflexivity].
Defined.

Lemma py_max_map_le {A : Type} (f g : A -> Z) (l : list A) (m1 m2 : Z) :
  (forall a, In a l -> f a <= g a) ->
  py_max (map f l) = Ok m1 -> py_max (map g l) = Ok m2 -> m1 <= m2.
Proof.
  intros Hfg E1 E2.
  apply py_max_ok in E1 as (Hin & _). apply py_max_ok in E2 as (_ & Hall).
  apply in_map_iff in Hin as (a & <- & Ha).
  rewrite Forall_forall in Hall. specialize (Hall (g a) (in_map g l a Ha)).
  specialize (Hfg a Ha). lia.
Qed.

(** X4.  [maxh_lb] raises on an instance without rectangles, whatever the
    flag; otherwise it returns, with rotation, the largest shorter side,
    which some rectangle attains and which never exceeds the largest height
    returned without rotation. *)
Theorem maxh_lb_rotation_lowers (inst : Instance.t) :
  (Instance.rectangles inst = [] ->
   forall ar, Instance.maxh_lb inst ar = Raise EmptySequence)
  /\ (Instance.rectangles inst <> [] ->
      exists m1 m2,
        Instance.maxh_lb inst true = Ok m1 /\ Instance.maxh_lb inst false = Ok m2
        /\ m1 <= m2
        /\ (forall r, In r (Instance.rectangles inst) ->
                      Z.min (Rectangle.h r) (Rectangle.w r) <= m1 /\ Rectangle.h r <= m2)
        /\ (exists r, In r (Instance.rectangles inst)
                      /\ m1 = Z.min (Rectangle.h r) (Rectangle.w r))
        /\ (exists r, In r (Instance.rectangles inst) /\ m2 = Rectangle.h r)).
Proof.
  unfold Instance.maxh_lb. split.
  - intros -> [|]; reflexivity.
  - intros Hne.
    destruct (py_max_nonempty (map (fun r => Z.min (Rectangle.h r) (Rectangle.w r))
                                   (Instance.rectangles inst))) as (m1 & E1).
    { destruct (Instance.rectangles inst); [congruence|discriminate]. }
    destruct (py_max_nonempty (map Rectangle.h (Instance.rectangles inst))) as (m2 & E2).
    { destruct (Instance.rectangles inst); [congruence|discriminate]. }
    exists m1, m2. split; [exact E1|]. split; [exact E2|].
    split; [eapply py_max_map_le; [|exact E1|exact E2]; intros; cbv beta; lia|].
    pose proof (py_max_ok _ _ E1) as (Hin1 & Hall1).
    pose proof (py_max_ok _ _ E2) as (Hin2 & Hall2).
    rewrite Forall_forall in Hall1, Hall2.
    split; [|split].
    + intros r Hr. split.
      * apply Hall1. apply in_map_iff. now exists r.
      * apply Hall2. now apply in_map.
    + apply in_map_iff in Hin1 as (r & <- & Hr). now exists r.
    + apply in_map_iff in Hin2 as (r & <- & Hr). now exists r.
Qed.

Lemma maxh_lb_rotation_lowers_witness :
  exists m1 m2,
    Instance.maxh_lb tall_instance true = Ok m1
    /\ Instance.maxh_lb tall_instance false = Ok m2
    /\ m1 <= m2
    /\ (forall r, In r (Instance.rectangles tall_instance) ->
                  Z.min (Rectangle.h r) (Rectangle.w r) <= m1 /\ Rectangle.h r <= m2)
    /\ (exists r, In r (Instance.rectangles tall_instance)
                  /\ m1 = Z.min (Rectangle.h r) (Rectangle.w r))
    /\ (exists r, In r (Instance.rectangles tall_instance) /\ m2 = Rectangle.h r).
Proof.
  apply (maxh_lb_rotation_lowers tall_instance). simpl. discriminate.
Defined.

(** ** When the heuristics return *)

(** X5.  For either policy the heuristic returns a solution exactly when
    every rectangle, in the orientation [_orient] prefers, is at most as wide
    as the strip; any exception it raises is the geometry error of such a
    rectangle. *)
Theorem heuristic_returns_iff_widths_fit (self : HeuristicSolver.t) :
  HeuristicSolver.policy_ self <> OtherPolicy ->
  ((exists sol, HeuristicSolver.solve self = Ok sol)
   <-> Forall (fun r => oriented_width (HeuristicSolver.allow_rotation self) r
                        <= Instance.W (HeuristicSolver.instance self))
              (Instance.rectangles (HeuristicSolver.instance self)))
  /\ (forall e, HeuristicSolver.solve self = Raise e ->
                exists r, In r (Instance.rectangles (HeuristicSolver.instance self))
                          /\ Instance.W (HeuristicSolver.instance self)
                             < oriented_width (HeuristicSolver.allow_rotation self) r
                          /\ e = GeometryError (Rectangle.id r)
                                   (oriented_width (HeuristicSolver.allow_rotation self) r)
                                   (Instance.W (HeuristicSolver.instance self))).
Proof.
  intros Hpol.
  destruct (heuristic_raises self Hpol) as [(Hall & sol & E)|(r & Hr & Hgt & E)].
  - split.
    + split; [intros _; exact Hall|intros _; now exists sol].
    + intros e E'. rewrite E in E'. discriminate.
  - split.
    + split.
      * intros (sol & E'). rewrite E in E'. discriminate.
      * intros Hall. rewrite Forall_forall in Hall. specialize (Hall r Hr). lia.
    + intros e E'. rewrite E in E'. inversion E'. now exists r.
Qed.

Lemma heuristic_returns_iff_widths_fit_witness :
  ((exists sol, HeuristicSolver.solve (HeuristicSolver.mk kerf_instance true Skyline false)
                = Ok sol)
   <-> Forall (fun r => oriented_width true r <= Instance.W kerf_instance)
              (Instance.rectangles kerf_instance))
  /\ (forall e, HeuristicSolver.solve (HeuristicSolver.mk kerf_instance true Skyline false)
                = Raise e ->
                exists r, In r (Instance.rectangles kerf_instance)
                          /\ Instance.W kerf_instance < oriented_width true r
                          /\ e = GeometryError (Rectangle.id r) (oriented_width true r)
                                   (Instance.W kerf_instance)).
Proof.
  apply (heuristic_returns_iff_widths_fit (HeuristicSolver.mk kerf_instance true Skyline false)).
  simpl. discriminate.
Defined.

(** ** Order of the sorted lists *)

Section SortOrder.
Context {A : Type}.
Variable key : A -> Z.

Lemma insert_by_rev_sorted (a : A) (l : list A) :
  StronglySorted (fun x y => key y <= key x) l ->
  StronglySorted (fun x y => key y <= key x) (insert_by_rev key a l).
Proof.
  induction 1 as [|b l Hl IH Hb]; simpl; [repeat constructor|].
  destruct (key b <=? key a) eqn:E.
  - apply Z.leb_le in E. constructor; [now constructor|].
    constructor; [exact E|]. eapply Forall_impl; [|exact Hb]. intros; cbv beta in *; lia.
  - apply Z.leb_gt in E. constructor; [exact IH|].
    rewrite Forall_forall in *. intros x Hx.
    apply (Permutation_in _ (insert_by_rev_perm key a l)) in Hx as [<-|Hx]; [lia|auto].
Qed.

Lemma sort_by_reverse_sorted (l : list A) :
  StronglySorted (fun x y => key y <= key x) (sort_by_reverse key l).
Proof.
  induction l as [|a l IH]; simpl; [constructor|]. now apply insert_by_rev_sorted.
Qed.

Lemma insert_by_sorted (a : A) (l : list A) :
  StronglySorted (fun x y => key x <= key y) l ->
  StronglySorted (fun x y => key x <= key y) (insert_by key a l).
Proof.
  induction 1 as [|b l Hl IH Hb]; simpl; [repeat constructor|].
  destruct (key a <=? key b) eqn:E.
  - apply Z.leb_le in E. constructor; [now constructor|].
    constructor; [exact E|]. eapply Forall_impl; [|exact Hb]. intros; cbv beta in *; lia.
  - apply Z.leb_gt in E. constructor; [exact IH|].
    rewrite Forall_forall in *. intros x Hx.
    apply (Permutation_in _ (insert_by_perm key a l)) in Hx as [<-|Hx]; [lia|auto].
Qed.

Lemma sort_by_sorted (l : list A) :
  StronglySorted (fun x y => key x <= key y) (sort_by key l).
Proof.
  induction l as [|a l IH]; simpl; [constructor|]. now apply insert_by_sorted.
Qed.
End SortOrder.

Lemma sorted_map {A B : Type} (f : A -> B) (R : B -> B -> Prop) (l : list A) :
  StronglySorted (fun x y => R (f x) (f y)) l -> StronglySorted R (map f l).
Proof.
  induction 1 as [|a l Hl IH Ha]; simpl; constructor; [exact IH|].
  rewrite Forall_forall in *. intros y Hy.
  apply in_map_iff in Hy as (x & <- & Hx). auto.
Qed.

Lemma sorted_ext {A : Type} (R R' : A -> A -> Prop) (l : list A) :
  (forall x y, In x l -> In y l -> R x y -> R' x y) ->
  StronglySorted R l -> StronglySorted R' l.
Proof.
  intros H Hs. induction Hs as [|a l Hl IH Ha]; constructor.
  - apply IH. intros x y Hx Hy. apply H; now right.
  - rewrite Forall_forall in *. intros y Hy. apply H; [now left|now right|auto].
Qed.

Lemma nfdh_items_sorted (rects : list Rectangle.t) (ar : bool) :
  StronglySorted (fun a b => oriented_height ar b <= oriented_height ar a)
                 (map fst (HeuristicSolver.nfdh_items rects ar)).
Proof.
  unfold HeuristicSolver.nfdh_items.
  set (items := map _ rects).
  assert (Hk : forall it, In it (sort_by_reverse snd items) ->
                          snd it = oriented_height ar (fst it)).
  { intros it Hit. apply (Permutation_in _ (sort_by_reverse_perm snd items)) in Hit.
    apply in_map_iff in Hit as (r & <- & _). reflexivity. }
  apply (sorted_map fst (fun a b => oriented_height ar b <= oriented_height ar a)).
  eapply sorted_ext; [|apply (sort_by_reverse_sorted snd)].
  intros x y Hx Hy Hxy. cbv beta in *. rewrite <- (Hk x Hx), <- (Hk y Hy). exact Hxy.
Qed.

Lemma placements_sorted (ar : bool) (rs : list Rectangle.t) (qs : list Placement.t) :
  Forall2 (placement_of ar) rs qs ->
  StronglySorted (fun a b => oriented_height ar b <= oriented_height ar a) rs ->
  StronglySorted (fun p q => Placement.h_eff q <= Placement.h_eff p) qs.
Proof.
  induction 1 as [|r q rs qs Hrq Hall IH]; intros Hs; [constructor|].
  inversion Hs as [|? ? Hs' Hr]; subst. constructor; [now apply IH|].
  assert (Hq : oriented_height ar r = Placement.h_eff q).
  { destruct Hrq as [_ E]. unfold oriented_height. now rewrite E. }
  clear IH Hs Hs'. induction Hall as [|r' q' rs qs Hrq' Hall IH]; [constructor|].
  inversion Hr; subst. constructor; [|now apply IH].
  destruct Hrq' as [_ E]. unfold oriented_height in *. rewrite E in *. simpl in *. lia.
Qed.

(** X6.  The shelf policy emits its placements in order of non-increasing
    height, whatever the instance. *)
Theorem nfdh_places_by_decreasing_height (self : HeuristicSolver.t) (sol : Solution.t) :
  HeuristicSolver._nfdh self = Ok sol ->
  StronglySorted (fun p q => Placement.h_eff q <= Placement.h_eff p)
                 (Solution.placements sol).
Proof.
  intros E. unfold HeuristicSolver._nfdh in E.
  apply bind_ok in E as (st & E & Es). inversion Es; subst sol; clear Es; simpl.
  destruct (nfdh_loop_placements _ _ _ _ _ _ E) as (qs & Eqs & Hqs).
  simpl in Eqs; subst qs.
  eapply placements_sorted; [exact Hqs|apply nfdh_items_sorted].
Qed.

Lemma nfdh_places_by_decreasing_height_witness :
  StronglySorted (fun p q => Placement.h_eff q <= Placement.h_eff p)
                 [Placement.mk 1 0 0 4 3 false; Placement.mk 2 6 0 4 3 false].
Proof.
  apply (nfdh_places_by_decreasing_height
           (HeuristicSolver.mk kerf_instance true NFDH false)
           (Solution.mk 3 [Placement.mk 1 0 0 4 3 false; Placement.mk 2 6 0 4 3 false]
                        "Heuristic-NFDH" (Some "feasible"%string))).
  reflexivity.
Defined.

(** ** Height of the shelf policy from above *)

(** The shelf loop without kerf.  [C] is the area on the closed shelves,
    [Cur] the area on the running shelf, [F] the area of the items that
    opened a shelf above the first; [m] bounds the heights still to come. *)
Lemma nfdh_bound_loop (W : Z) (ar : bool) (hmax : Z) :
  0 < W ->
  forall rs st st' m C Cur F,
    Forall positive_sides rs ->
    StronglySorted (fun a b => oriented_height ar b <= oriented_height ar a) rs ->
    Forall (fun r => oriented_height ar r <= m) rs ->
    Forall (fun r => oriented_height ar r <= hmax) rs ->
    0 <= HeuristicSolver.x st -> 0 <= m ->
    (HeuristicSolver.first_in_shelf st = true ->
     HeuristicSolver.x st = 0 /\ HeuristicSolver.shelf_h st = 0
     /\ HeuristicSolver.shelf_y st = 0) ->
    (HeuristicSolver.first_in_shelf st = false -> m <= HeuristicSolver.shelf_h st) ->
    py_sum (map area_of (HeuristicSolver.placed st)) = C + Cur ->
    0 <= C -> 0 <= F -> F <= C + Cur ->
    HeuristicSolver.x st * m <= Cur ->
    W * (HeuristicSolver.shelf_y st + HeuristicSolver.shelf_h st - hmax) <= C + F ->
    for_each (HeuristicSolver.nfdh_step W 0 ar) rs st = Ok st' ->
    W * (HeuristicSolver.shelf_y st' + HeuristicSolver.shelf_h st' - hmax)
    <= 2 * py_sum (map area_of (HeuristicSolver.placed st')).
Proof.
  intros HW. induction rs as [|r rs IH];
    intros st st' m C Cur F Hpos Hsort Hm Hmax Hx Hm0 Hfirst Hopen HA HC HF HFA HCur HY E.
  - simpl in E. inversion E; subst st'. nia.
  - simpl in E. apply bind_ok in E as (st1 & E1 & E).
    inversion Hpos as [|? ? Hr Hpos']; subst.
    inversion Hsort as [|? ? Hsort' Hle]; subst.
    inversion Hm as [|? ? Hrm _]; subst.
    inversion Hmax as [|? ? Hrmax Hmax']; subst.
    unfold HeuristicSolver.nfdh_step in E1.
    destruct (HeuristicSolver._orient r ar true) as [[we he] rot] eqn:Eo.
    destruct (orient_dims r ar we he rot Hr Eo) as (Hwe & Hhe & _).
    assert (Eh : oriented_height ar r = he) by (unfold oriented_height; now rewrite Eo).
    rewrite Eh in *.
    destruct (W <? we) eqn:EW; [discriminate|]. apply Z.ltb_ge in EW.
    assert (Hextra : (if HeuristicSolver.first_in_shelf st then 0 else 0) = 0)
      by (destruct (HeuristicSolver.first_in_shelf st); reflexivity).
    rewrite Hextra in E1.
    destruct (HeuristicSolver.x st + 0 + we <=? W) eqn:Efit;
      inversion E1; subst st1; clear E1.
    + (* the item joins the running shelf *)
      apply Z.leb_le in Efit.
      refine (IH _ st' he C (Cur + we * he) F Hpos' Hsort' Hle Hmax' _ _ _ _ _ HC HF _ _ _ E);
        simpl; try lia.
      * rewrite map_app, py_sum_app, HA. simpl. rewrite py_sum_cons.
        change (py_sum []) with 0. unfold area_of; simpl. lia.
      * nia.
      * destruct (HeuristicSolver.first_in_shelf st) eqn:Ef.
        -- destruct (Hfirst eq_refl) as (_ & Eh0 & Ey0). rewrite Eh0, Ey0.
           rewrite Z.max_r by lia. nia.
        -- specialize (Hopen eq_refl). rewrite Z.max_l by lia. exact HY.
    + (* the item opens a new shelf *)
      apply Z.leb_gt in Efit.
      destruct (HeuristicSolver.first_in_shelf st) eqn:Ef.
      { destruct (Hfirst eq_refl) as (Ex & _). lia. }
      specialize (Hopen eq_refl).
      assert (Ez : (if 0 <? HeuristicSolver.shelf_h st then 0 else 0) = 0)
        by (destruct (0 <? HeuristicSolver.shelf_h st); reflexivity).
      rewrite Ez in *.
      refine (IH _ st' he (C + Cur) (we * he) (F + we * he) Hpos' Hsort' Hle Hmax'
                 _ _ _ _ _ _ _ _ _ _ E); simpl; try lia.
      * rewrite map_app, py_sum_app, HA. simpl. rewrite py_sum_cons.
        change (py_sum []) with 0. unfold area_of; simpl. lia.
      * nia.
Qed.

(** X7.  Without kerf the shelf policy stays within twice the area bound
    plus one item: when no oriented height exceeds [hmax], the returned
    height [H] satisfies [W * (H - hmax) <= 2 * total area]. *)
Theorem nfdh_height_within_twice_area (self : HeuristicSolver.t) (sol : Solution.t)
        (hmax : Z) :
  well_formed (HeuristicSolver.instance self) ->
  Instance.kerf_delta (HeuristicSolver.instance self) = 0 ->
  0 <= hmax ->
  (forall r, In r (Instance.rectangles (HeuristicSolver.instance self)) ->
             oriented_height (HeuristicSolver.allow_rotation self) r <= hmax) ->
  HeuristicSolver._nfdh self = Ok sol ->
  Instance.W (HeuristicSolver.instance self) * (Solution.H sol - hmax)
  <= 2 * py_sum (map Rectangle.area (Instance.rectangles (HeuristicSolver.instance self))).
Proof.
  intros Hwf Hd H0 Hmax E.
  destruct (nfdh_sound self sol Hwf E) as (rs & st0 & Hperm & Hof & _ & _ & _).
  destruct Hwf as [HW _ Hpos _].
  rewrite (py_sum_perm _ _ (Permutation_map Rectangle.area (Permutation_sym Hperm))).
  rewrite (placement_of_area (HeuristicSolver.allow_rotation self) rs (Solution.placements sol));
    [|rewrite Forall_forall in *; intros r Hr; apply Hpos;
      eapply Permutation_in; eauto|exact Hof].
  unfold HeuristicSolver._nfdh in E. rewrite Hd in E.
  apply bind_ok in E as (st & E & Es). inversion Es; subst sol; clear Es; simpl.
  pose proof (nfdh_items_perm (Instance.rectangles (HeuristicSolver.instance self))
                              (HeuristicSolver.allow_rotation self)) as Hp.
  assert (Hall : forall (P : Rectangle.t -> Prop),
             (forall r, In r (Instance.rectangles (HeuristicSolver.instance self)) -> P r) ->
             Forall P (map fst (HeuristicSolver.nfdh_items
                                  (Instance.rectangles (HeuristicSolver.instance self))
                                  (HeuristicSolver.allow_rotation self)))).
  { intros P HP. rewrite Forall_forall. intros r Hr. apply HP.
    eapply Permutation_in; eauto. }
  refine (nfdh_bound_loop _ _ hmax HW _ HeuristicSolver.shelf0 st hmax 0 0 0
            _ (nfdh_items_sorted _ _) _ _ _ H0 _ _ _ _ _ _ _ _ E); simpl; try lia; auto.
  apply Hall. rewrite Forall_forall in Hpos. exact Hpos.
Qed.

Lemma nfdh_height_within_twice_area_witness :
  Instance.W four_instance * (1 - 1)
  <= 2 * py_sum (map Rectangle.area (Instance.rectangles four_instance)).
Proof.
  apply (nfdh_height_within_twice_area
           (HeuristicSolver.mk four_instance true NFDH false)
           (Solution.mk 1 [Placement.mk 1 0 0 1 1 false; Placement.mk 2 1 0 1 1 false;
                           Placement.mk 3 2 0 1 1 false; Placement.mk 4 3 0 1 1 false]
                        "Heuristic-NFDH" (Some "feasible"%string)) 1).
  - constructor; simpl; [lia|lia| |].
    + repeat constructor.
    + repeat constructor; simpl; intuition congruence.
  - reflexivity.
  - lia.
  - intros r Hr. simpl in Hr.
    repeat (destruct Hr as [<-|Hr]; [vm_compute; discriminate|]). destruct Hr.
  - reflexivity.
Defined.

(** ** Kerf between any two placements of the shelf policy *)

Lemma nfdh_step_kerf (W d : Z) (ar : bool) (st st' : HeuristicSolver.shelf)
      (r : Rectangle.t) :
  0 <= d -> positive_sides r ->
  (HeuristicSolver.first_in_shelf st = true -> HeuristicSolver.placed st = []) ->
  (HeuristicSolver.first_in_shelf st = false -> 0 < HeuristicSolver.shelf_h st) ->
  0 <= HeuristicSolver.shelf_h st ->
  Forall (kerf_shelved d st) (HeuristicSolver.placed st) ->
  kerf_apart d (HeuristicSolver.placed st) ->
  HeuristicSolver.nfdh_step W d ar st r = Ok st' ->
  HeuristicSolver.first_in_shelf st' = false
  /\ 0 < HeuristicSolver.shelf_h st'
  /\ Forall (kerf_shelved d st') (HeuristicSolver.placed st')
  /\ kerf_apart d (HeuristicSolver.placed st').
Proof.
  intros Hd Hr Hfirst Hopen Hh Hsh Hap. unfold HeuristicSolver.nfdh_step.
  destruct (HeuristicSolver._orient r ar true) as [[we he] rot] eqn:Eo.
  destruct (orient_dims r ar we he rot Hr Eo) as (Hwe & Hhe & _).
  destruct (W <? we); [discriminate|].
  destruct (HeuristicSolver.x st + _ + we <=? W) eqn:Efit; intros E; inversion E; subst; clear E;
    simpl.
  - (* the item joins the running shelf *)
    split; [reflexivity|]. split; [lia|]. split.
    + apply Forall_app. split.
      * eapply Forall_impl; [|exact Hsh]. unfold kerf_shelved. simpl. intros p Hp.
        destruct (HeuristicSolver.first_in_shelf st); lia.
      * constructor; [|constructor]. unfold kerf_shelved. simpl. right. lia.
    + unfold kerf_apart. apply ordered_snoc; [exact Hap|].
      destruct (HeuristicSolver.first_in_shelf st) eqn:Ef.
      * rewrite (Hfirst eq_refl). constructor.
      * eapply Forall_impl; [|exact Hsh]. unfold kerf_shelved, HeuristicSolver.top. simpl.
        intros p Hp. lia.
  - (* the item opens a new shelf *)
    apply Z.leb_gt in Efit.
    assert (Hpos : 0 < HeuristicSolver.shelf_h st
                   \/ HeuristicSolver.placed st = []).
    { destruct (HeuristicSolver.first_in_shelf st) eqn:Ef; [right|left]; auto. }
    split; [reflexivity|]. split; [lia|]. split.
    + apply Forall_app. split.
      * destruct Hpos as [Hpos|Hnil]; [|rewrite Hnil; constructor].
        replace (0 <? HeuristicSolver.shelf_h st) with true by (symmetry; apply Z.ltb_lt; lia).
        eapply Forall_impl; [|exact Hsh]. unfold kerf_shelved, HeuristicSolver.top. simpl.
        intros p Hp. left. lia.
      * constructor; [|constructor]. unfold kerf_shelved. simpl. right. lia.
    + unfold kerf_apart. apply ordered_snoc; [exact Hap|].
      destruct Hpos as [Hpos|Hnil]; [|rewrite Hnil; constructor].
      replace (0 <? HeuristicSolver.shelf_h st) with true by (symmetry; apply Z.ltb_lt; lia).
      eapply Forall_impl; [|exact Hsh]. unfold kerf_shelved, HeuristicSolver.top. simpl.
      intros p Hp. lia.
Qed.

Lemma nfdh_loop_kerf (W d : Z) (ar : bool) (rs : list Rectangle.t) :
  0 <= d -> Forall positive_sides rs ->
  forall st st',
    (HeuristicSolver.first_in_shelf st = true -> HeuristicSolver.placed st = []) ->
    (HeuristicSolver.first_in_shelf st = false -> 0 < HeuristicSolver.shelf_h st) ->
    0 <= HeuristicSolver.shelf_h st ->
    Forall (kerf_shelved d st) (HeuristicSolver.placed st) ->
    kerf_apart d (HeuristicSolver.placed st) ->
    for_each (HeuristicSolver.nfdh_step W d ar) rs st = Ok st' ->
    kerf_apart d (HeuristicSolver.placed st').
Proof.
  intros Hd Hpos. induction Hpos as [|r rs Hr _ IH]; intros st st' Hf Ho Hh Hsh Hap E.
  - simpl in E. inversion E; subst. exact Hap.
  - simpl in E. apply bind_ok in E as (st1 & E1 & E2).
    destruct (nfdh_step_kerf W d ar st st1 r Hd Hr Hf Ho Hh Hsh Hap E1)
      as (Ef & Hh1 & Hsh1 & Hap1).
    apply (IH st1 st'); auto; try lia. rewrite Ef. discriminate.
Qed.

(** X24.  With a non-negative kerf and positive sides, any two placements
    of the shelf policy, adjacent or not, on one shelf or on two, keep the
    kerf between them along one axis. *)
Theorem nfdh_keeps_kerf_between_all_pairs (self : HeuristicSolver.t) (sol : Solution.t) :
  0 <= Instance.kerf_delta (HeuristicSolver.instance self) ->
  Forall positive_sides (Instance.rectangles (HeuristicSolver.instance self)) ->
  HeuristicSolver._nfdh self = Ok sol ->
  kerf_apart (Instance.kerf_delta (HeuristicSolver.instance self))
             (Solution.placements sol).
Proof.
  intros Hd Hpos E. unfold HeuristicSolver._nfdh in E.
  apply bind_ok in E as (st & E & Es). inversion Es; subst sol; clear Es; simpl.
  refine (nfdh_loop_kerf _ _ _ _ Hd _ HeuristicSolver.shelf0 st _ _ _ _ _ E); simpl;
    try lia; try constructor; try discriminate; auto.
  rewrite Forall_forall in *. intros r Hr. apply Hpos.
  eapply Permutation_in; [apply nfdh_items_perm|exact Hr].
Qed.

Lemma nfdh_keeps_kerf_witness :
  kerf_apart 2 [Placement.mk 1 0 0 4 3 false; Placement.mk 2 6 0 4 3 false].
Proof.
  apply (nfdh_keeps_kerf_between_all_pairs
           (HeuristicSolver.mk kerf_instance true NFDH false)
           (Solution.mk 3 [Placement.mk 1 0 0 4 3 false; Placement.mk 2 6 0 4 3 false]
                        "Heuristic-NFDH" (Some "feasible"%string))).
  - simpl. lia.
  - simpl. repeat constructor.
  - reflexivity.
Defined.

(** ** Where the skyline policy puts an item *)

Lemma snoc_split {A : Type} (l pre post : list A) (q q' : A) :
  l ++ [q] = pre ++ q' :: post ->
  (post = [] /\ q' = q /\ pre = l)
  \/ (exists post', post = post' ++ [q] /\ l = pre ++ q' :: post').
Proof.
  destruct post as [|c post] using rev_ind.
  - intros E. apply app_inj_tail in E as [-> ->]. left; auto.
  - clear IHpost. intros E.
    rewrite app_comm_cons, app_assoc in E. apply app_inj_tail in E as [-> ->].
    right. exists post. auto.
Qed.

Lemma supported_loop (W : Z) (ar : bool) (rs : list Rectangle.t) :
  forall st st',
    Forall positive_sides rs -> profile_inv W st ->
    supported (HeuristicSolver.placements st) ->
    for_each (HeuristicSolver.skyline_step W ar) rs st = Ok st' ->
    supported (HeuristicSolver.placements st').
Proof.
  induction rs as [|r rs IH]; intros st st' Hpos I Hs E; simpl in E.
  - inversion E; subst; exact Hs.
  - apply bind_ok in E as (st1 & E1 & E2).
    inversion Hpos as [|? ? Hr Hpos']; subst.
    pose proof (skyline_step_inv W ar st st1 r Hr I E1) as I1.
    apply (IH st1 st' Hpos' I1); [|exact E2].
    apply skyline_step_shape in E1 as (q & Eq & _ & _ & _ & Hspot).
    assert (Hy : exists s, In s (HeuristicSolver.skyline st) /\ seg_h s = Placement.y q).
    { destruct Hspot as [(s & Hin & _ & Hh & _)|(_ & Hmax)]; [now exists s|].
      apply py_max_ok in Hmax as [Hin _].
      apply in_map_iff in Hin as (s & Hh & Hin). now exists s. }
    destruct Hy as (s & Hin & Hh).
    pose proof (pi_tops _ _ I) as Ht. rewrite Forall_forall in Ht.
    specialize (Ht s Hin). rewrite Hh in Ht.
    intros pre q' post Ep. rewrite Eq in Ep.
    apply snoc_split in Ep as [(_ & -> & ->)|(post' & _ & Ep)].
    + exact Ht.
    + exact (Hs _ _ _ Ep).
Qed.

Lemma skyline_supported (self : HeuristicSolver.t) (sol : Solution.t) :
  0 < Instance.W (HeuristicSolver.instance self) ->
  Forall positive_sides (Instance.rectangles (HeuristicSolver.instance self)) ->
  HeuristicSolver.guillotine self = false ->
  HeuristicSolver._skyline self = Ok sol ->
  supported (Solution.placements sol).
Proof.
  intros HW Hpos Hg E. unfold HeuristicSolver._skyline in E. rewrite Hg in E.
  apply bind_ok in E as (st & E & E'). apply bind_ok in E' as (H & _ & Es).
  inversion Es; subst sol; clear Es; simpl.
  refine (supported_loop _ _ _ _ _ _ (profile0_inv _ HW) _ E).
  - rewrite Forall_forall in *. intros r Hr. apply Hpos.
    eapply Permutation_in; [apply sort_by_reverse_perm|exact Hr].
  - intros pre q post Ep. destruct pre; discriminate.
Qed.

(** X8.  Every placement of the skyline policy stands on the floor or on
    the top edge of a placement made before it. *)
Theorem skyline_placements_supported (self : HeuristicSolver.t) (sol : Solution.t) :
  0 < Instance.W (HeuristicSolver.instance self) ->
  Forall positive_sides (Instance.rectangles (HeuristicSolver.instance self)) ->
  HeuristicSolver.guillotine self = false ->
  HeuristicSolver._skyline self = Ok sol ->
  supported (Solution.placements sol).
Proof.
  intros HW Hpos Hg E. exact (skyline_supported self sol HW Hpos Hg E).
Qed.

Lemma skyline_placements_supported_witness :
  supported [Placement.mk 2 0 0 2 5 false; Placement.mk 1 2 0 6 2 false;
             Placement.mk 3 2 2 3 1 false].
Proof.
  apply (skyline_placements_supported
           (HeuristicSolver.mk
              (Instance.mk 8 [Rectangle.mk 1 6 2 false; Rectangle.mk 2 2 5 false;
                              Rectangle.mk 3 3 1 false] 0 [])
              false Skyline false)
           (Solution.mk 5 [Placement.mk 2 0 0 2 5 false; Placement.mk 1 2 0 6 2 false;
                           Placement.mk 3 2 2 3 1 false]
                        "Heuristic-Skyline" (Some "feasible"%string))).
  - simpl; lia.
  - simpl. repeat constructor.
  - reflexivity.
  - reflexivity.
Defined.

(** The order [better] decides: lower first, then further left. *)
Lemma better_false (cand b : Z * Z * nat) :
  HeuristicSolver.better cand b = false ->
  snd (fst b) < snd (fst cand)
  \/ (snd (fst b) = snd (fst cand) /\ fst (fst b) <= fst (fst cand)).
Proof.
  unfold HeuristicSolver.better. rewrite orb_false_iff, andb_false_iff.
  rewrite !Z.ltb_ge, Z.eqb_neq. lia.
Qed.

Lemma better_true (cand b : Z * Z * nat) :
  HeuristicSolver.better cand b = true ->
  snd (fst cand) < snd (fst b)
  \/ (snd (fst cand) = snd (fst b) /\ fst (fst cand) <= fst (fst b)).
Proof.
  unfold HeuristicSolver.better. rewrite orb_true_iff, andb_true_iff.
  rewrite !Z.ltb_lt, Z.eqb_eq. lia.
Qed.

Lemma find_position_from_least (w_eff : Z) (l : list segment) :
  forall i best r,
    HeuristicSolver.find_position_from l i w_eff best = Some r ->
    (forall b, best = Some b ->
               snd (fst r) < snd (fst b)
               \/ (snd (fst r) = snd (fst b) /\ fst (fst r) <= fst (fst b)))
    /\ (forall s, In s l -> w_eff <= seg_w s ->
                  snd (fst r) < seg_h s
                  \/ (snd (fst r) = seg_h s /\ fst (fst r) <= seg_x s)).
Proof.
  induction l as [|[[xs width] y] l IH]; intros i best r; simpl.
  - intros ->. split; [intros b Eb; inversion Eb; subst; lia|intros s []].
  - destruct (width <? w_eff) eqn:E.
    + apply Z.ltb_lt in E. intros H. destruct (IH _ _ _ H) as [Hb Hl].
      split; [exact Hb|]. intros s [<-|Hs] Hw; [unfold seg_w in Hw; simpl in Hw; lia|auto].
    + apply Z.ltb_ge in E.
      assert (Hcand : HeuristicSolver.find_position_from l (S i) w_eff (Some (xs, y, i)) = Some r ->
                      (forall s, In s ((xs, width, y) :: l) -> w_eff <= seg_w s ->
                                 snd (fst r) < seg_h s
                                 \/ (snd (fst r) = seg_h s /\ fst (fst r) <= seg_x s))
                      /\ (snd (fst r) < y \/ (snd (fst r) = y /\ fst (fst r) <= xs))).
      { intros H. destruct (IH _ _ _ H) as [Hb Hl].
        specialize (Hb _ eq_refl). simpl in Hb.
        split; [|exact Hb]. intros s [<-|Hs] Hw; [exact Hb|auto]. }
      destruct best as [b|].
      * destruct (HeuristicSolver.better (xs, y, i) b) eqn:Eb; intros H.
        -- destruct (Hcand H) as [Hl Hc]. split; [|exact Hl].
           intros b' Eb'; inversion Eb'; subst b'.
           apply better_true in Eb. simpl in Eb. lia.
        -- destruct (IH _ _ _ H) as [Hb Hl]. split; [exact Hb|].
           specialize (Hb _ eq_refl). apply better_false in Eb. simpl in Eb.
           intros s [<-|Hs] Hw; [unfold seg_h, seg_x; simpl; lia|auto].
      * intros H. destruct (Hcand H) as [Hl _]. split; [discriminate|exact Hl].
Qed.

Lemma find_position_from_none (w_eff : Z) (l : list segment) :
  forall i best,
    HeuristicSolver.find_position_from l i w_eff best = None
    <-> best = None /\ forall s, In s l -> seg_w s < w_eff.
Proof.
  induction l as [|[[xs width] y] l IH]; intros i best; simpl.
  - split; [intros ->; split; [reflexivity|intros s []]|intros [-> _]; reflexivity].
  - destruct (width <? w_eff) eqn:E.
    + apply Z.ltb_lt in E. rewrite IH. split; intros [Hb Hl]; (split; [exact Hb|]).
      * intros s [<-|Hs]; [exact E|auto].
      * intros s Hs. apply Hl. now right.
    + apply Z.ltb_ge in E.
      assert (Hno : ~ (forall s, In s ((xs, width, y) :: l) -> seg_w s < w_eff)).
      { intros H. specialize (H _ (or_introl eq_refl)). unfold seg_w in H. simpl in H. lia. }
      destruct best as [b|]; [destruct (HeuristicSolver.better (xs, y, i) b)|];
        rewrite IH; split; intros [Hb Hl]; try discriminate; contradiction.
Qed.

(** X9.  [find_position] answers with the start and height of a segment
    at least as wide as the item, the lowest such segment and among the
    lowest the leftmost; it answers [None] exactly when no segment is wide
    enough. *)
Theorem find_position_lowest_then_leftmost (l : list segment) (w_eff h_eff : Z) :
  (forall x y i,
      HeuristicSolver.find_position l w_eff h_eff = Some (x, y, i) ->
      (exists s, In s l /\ seg_x s = x /\ seg_h s = y /\ w_eff <= seg_w s)
      /\ forall s, In s l -> w_eff <= seg_w s ->
                   y < seg_h s \/ (y = seg_h s /\ x <= seg_x s))
  /\ (HeuristicSolver.find_position l w_eff h_eff = None
      <-> forall s, In s l -> seg_w s < w_eff).
Proof.
  split.
  - intros x y i E. split; [eapply find_position_spec; eauto|].
    unfold HeuristicSolver.find_position in E.
    apply find_position_from_least in E as [_ Hl]. exact Hl.
  - unfold HeuristicSolver.find_position. rewrite find_position_from_none.
    split; [intros [_ H]; exact H|intros H; split; [reflexivity|exact H]].
Qed.

(** ** Orientation lock outside the level model, for every strategy *)

(** X10.  On an instance with distinct ids the heuristics, the three
    metaheuristic strategies and the coordinate model never return a rotated
    placement for a rectangle with [rotatable = false], whatever the global
    flag. *)
Theorem locked_rectangles_stay_unrotated (inst : Instance.t) :
  NoDup (map Rectangle.id (Instance.rectangles inst)) ->
  (forall ar pol g sol,
      HeuristicSolver.solve (HeuristicSolver.mk inst ar pol g) = Ok sol ->
      lock_respected inst sol)
  /\ (forall ar strat time_limit population elite rnd fuel sol,
         well_formed inst -> shuffles rnd inst ->
         MetaheuristicSolver.solve
           (MetaheuristicSolver.mk inst ar strat time_limit population elite) rnd fuel
         = Ok (Some sol) ->
         lock_respected inst sol)
  /\ (forall ar warm radius v status sol,
         MilpSolver.solve (MilpSolver.mk inst ar warm radius) v status = Ok sol ->
         lock_respected inst sol).
Proof.
  intros Hnd. split; [|split].
  - intros ar pol g sol E.
    exact (heuristic_locked (HeuristicSolver.mk inst ar pol g) sol Hnd E).
  - intros ar strat time_limit population elite rnd fuel sol Hwf Hfair E.
    exact (metaheuristic_locked
             (MetaheuristicSolver.mk inst ar strat time_limit population elite)
             rnd fuel sol Hwf Hfair E).
  - intros ar warm radius v status sol E. unfold MilpSolver.solve in E.
    apply bind_ok in E as (x & _ & E).
    exact (coordinate_model_locked (MilpSolver.mk inst ar warm radius) v status sol Hnd E).
Qed.

Lemma locked_rectangles_stay_unrotated_witness :
  lock_respected lock_instance
    (Solution.mk 6 [Placement.mk 1 0 0 3 6 false] "Heuristic-Skyline"
                 (Some "feasible"%string)).
Proof.
  refine (proj1 (locked_rectangles_stay_unrotated lock_instance _) true Skyline false _ _).
  - simpl. repeat constructor. intros [].
  - reflexivity.
Defined.

(** ** What the decoder reads of a candidate *)

Lemma id_to_rect_ok (rects : list Rectangle.t) (rid : Z) (r : Rectangle.t) :
  MetaheuristicSolver.id_to_rect rects rid = Ok r -> In r rects /\ Rectangle.id r = rid.
Proof.
  unfold MetaheuristicSolver.id_to_rect.
  destruct (find _ (rev rects)) as [r'|] eqn:E; [|discriminate].
  intros Er; inversion Er; subst r'.
  apply find_some in E as [Hin E]. apply Z.eqb_eq in E.
  split; [now apply in_rev|exact E].
Qed.

Lemma id_to_rect_missing (rects : list Rectangle.t) (rid : Z) :
  ~ In rid (map Rectangle.id rects) ->
  MetaheuristicSolver.id_to_rect rects rid = Raise (KeyError rid).
Proof.
  intros Hn. unfold MetaheuristicSolver.id_to_rect.
  destruct (find _ (rev rects)) as [r'|] eqn:E; [|reflexivity].
  apply find_some in E as [Hin E]. apply Z.eqb_eq in E.
  exfalso. apply Hn. rewrite <- E. apply in_map. now apply in_rev.
Qed.

Lemma id_to_rect_present (rects : list Rectangle.t) (rid : Z) :
  In rid (map Rectangle.id rects) ->
  exists r, MetaheuristicSolver.id_to_rect rects rid = Ok r.
Proof.
  intros Hin. unfold MetaheuristicSolver.id_to_rect.
  destruct (find _ (rev rects)) as [r'|] eqn:E; [now exists r'|].
  apply in_map_iff in Hin as (r & Er & Hr).
  pose proof (find_none _ _ E r (proj1 (in_rev rects r) Hr)) as Hf.
  simpl in Hf. rewrite Er, Z.eqb_refl in Hf. discriminate.
Qed.

Lemma reorder_loop_ids (self : MetaheuristicSolver.t) :
  forall (pairs : list (Z * Z)) (acc rects : list Rectangle.t),
    for_each (MetaheuristicSolver.reorder_step self) pairs acc = Ok rects ->
    map Rectangle.id rects = map Rectangle.id acc ++ map fst pairs.
Proof.
  induction pairs as [|[rid bit] pairs IH]; intros acc rects E; simpl in E.
  - inversion E; subst. now rewrite app_nil_r.
  - apply bind_ok in E as (acc1 & E1 & E2).
    unfold MetaheuristicSolver.reorder_step in E1.
    apply bind_ok in E1 as (r & Er & E1). inversion E1; subst acc1; clear E1.
    apply id_to_rect_ok in Er as [_ Er].
    rewrite (IH _ _ E2), map_app; simpl. rewrite Er, <- app_assoc. reflexivity.
Qed.

Lemma combine_fst_firstn {A B : Type} (l : list A) : forall (l' : list B),
    map fst (combine l l') = firstn (List.length l') l.
Proof.
  induction l as [|a l IH]; intros [|b l']; simpl; try reflexivity.
  - now rewrite IH.
Qed.

(** X11.  The decoder walks [zip(perm, orient_bits)]: it places the ids of
    the first [len(orient_bits)] positions of [perm], each as often as it
    occurs there, and nothing else. *)
Theorem decode_places_zipped_prefix (self : MetaheuristicSolver.t)
        (perm bits : list Z) (sol : Solution.t) :
  MetaheuristicSolver._decode self perm bits = Ok sol ->
  Permutation (map Placement.rect_id (Solution.placements sol))
              (firstn (List.length bits) perm).
Proof.
  intros E. unfold MetaheuristicSolver._decode in E.
  apply bind_ok in E as (rects & Er & E). apply bind_ok in E as (sol0 & E0 & Es).
  inversion Es; subst sol; clear Es; simpl.
  apply reorder_loop_ids in Er. simpl in Er. rewrite combine_fst_firstn in Er.
  rewrite <- Er. clear Er.
  unfold HeuristicSolver.solve, HeuristicSolver._skyline in E0; simpl in E0.
  apply bind_ok in E0 as (st & E0 & E1). apply bind_ok in E1 as (H & _ & E1).
  inversion E1; subst sol0; clear E1; simpl.
  destruct (skyline_loop_placements _ _ _ _ _ E0) as (qs & Eqs & Hqs).
  simpl in Eqs; subst qs.
  rewrite (placement_of_ids _ _ _ Hqs).
  apply Permutation_map, sort_by_reverse_perm.
Qed.

Lemma decode_places_zipped_prefix_witness :
  Permutation (map Placement.rect_id [Placement.mk 1 0 0 4 3 false])
              (firstn (List.length [0]) [1; 2]).
Proof.
  apply (decode_places_zipped_prefix
           (MetaheuristicSolver.mk kerf_instance true SA (Some 5%Q) 40 4) [1; 2] [0]
           (Solution.mk 3 [Placement.mk 1 0 0 4 3 false]
                        "Meta-SA-SkylineDecode" (Some "feasible"%string))).
  reflexivity.
Defined.

Lemma combine_app_left {A B : Type} (l1 l2 : list A) (l' : list B) :
  combine (l1 ++ l2) l'
  = combine l1 (firstn (List.length l1) l') ++ combine l2 (skipn (List.length l1) l').
Proof.
  revert l'. induction l1 as [|a l1 IH]; intros [|b l']; simpl; try reflexivity.
  - now destruct l2.
  - now rewrite IH.
Qed.

Lemma reorder_loop_present (self : MetaheuristicSolver.t) :
  forall (pairs : list (Z * Z)) (acc : list Rectangle.t),
    (forall rb, In rb pairs ->
                In (fst rb) (map Rectangle.id
                                 (Instance.rectangles (MetaheuristicSolver.instance self)))) ->
    exists rects, for_each (MetaheuristicSolver.reorder_step self) pairs acc = Ok rects.
Proof.
  induction pairs as [|[rid bit] pairs IH]; intros acc Hin; simpl.
  - now exists acc.
  - destruct (id_to_rect_present _ _ (Hin (rid, bit) (or_introl eq_refl))) as (r & Er).
    simpl in Er. unfold MetaheuristicSolver.reorder_step at 1. rewrite Er. simpl.
    apply IH. intros rb Hrb. apply Hin. now right.
Qed.

(** X12.  An id of the zipped prefix that the instance does not have makes
    the decoder raise [KeyError] for the first such id. *)
Theorem decode_unknown_id_raises (self : MetaheuristicSolver.t)
        (pre post bits : list Z) (rid : Z) :
  (forall a, In a pre ->
             In a (map Rectangle.id (Instance.rectangles (MetaheuristicSolver.instance self)))) ->
  ~ In rid (map Rectangle.id (Instance.rectangles (MetaheuristicSolver.instance self))) ->
  (List.length pre < List.length bits)%nat ->
  MetaheuristicSolver._decode self (pre ++ rid :: post) bits = Raise (KeyError rid).
Proof.
  intros Hpre Hrid Hlen. unfold MetaheuristicSolver._decode.
  rewrite combine_app_left, for_each_app.
  destruct (reorder_loop_present self (combine pre (firstn (List.length pre) bits)) [])
    as (rects & ->).
  { intros [a b] Hab. apply in_combine_l in Hab. now apply Hpre. }
  simpl.
  destruct (skipn (List.length pre) bits) as [|b bs] eqn:Es.
  { apply (f_equal (@List.length Z)) in Es. rewrite length_skipn in Es. simpl in Es. lia. }
  simpl. unfold MetaheuristicSolver.reorder_step at 1.
  now rewrite (id_to_rect_missing _ _ Hrid).
Qed.

Lemma decode_unknown_id_raises_witness :
  MetaheuristicSolver._decode (MetaheuristicSolver.mk kerf_instance true GA (Some 5%Q) 40 4)
                              ([1] ++ 7 :: [2]) [0; 0; 0]
  = Raise (KeyError 7).
Proof.
  apply decode_unknown_id_raises.
  - intros a [<-|[]]. simpl. auto.
  - simpl. intuition discriminate.
  - simpl. lia.
Defined.

(** ** The decoder and the order of the permutation *)

Section SortUnique.
Context {A : Type}.
Variable key : A -> Z.

Lemma sorted_strict (l : list A) :
  NoDup (map key l) ->
  StronglySorted (fun x y => key y <= key x) l ->
  StronglySorted (fun x y => key y < key x) l.
Proof.
  induction l as [|a l IH]; intros Hnd Hs; [constructor|].
  inversion Hnd as [|? ? Hna Hnd']; subst. inversion Hs as [|? ? Hs' Ha]; subst.
  constructor; [now apply IH|].
  rewrite Forall_forall in *. intros y Hy. specialize (Ha y Hy).
  assert (key y <> key a); [|lia].
  intros E. apply Hna. rewrite <- E. now apply in_map.
Qed.

Lemma sorted_strict_unique (l1 : list A) : forall l2,
    StronglySorted (fun x y => key y < key x) l1 ->
    StronglySorted (fun x y => key y < key x) l2 ->
    Permutation l1 l2 -> l1 = l2.
Proof.
  induction l1 as [|a l1 IH]; intros l2 H1 H2 Hp.
  - apply Permutation_nil in Hp. now subst.
  - destruct l2 as [|b l2]; [apply Permutation_sym, Permutation_nil in Hp; discriminate|].
    inversion H1 as [|? ? H1' Ha]; subst. inversion H2 as [|? ? H2' Hb]; subst.
    rewrite Forall_forall in Ha, Hb.
    assert (a = b).
    { assert (Hab : In a (b :: l2)) by (eapply Permutation_in; [exact Hp|now left]).
      assert (Hba : In b (a :: l1))
        by (eapply Permutation_in; [symmetry; exact Hp|now left]).
      destruct Hab as [->|Hab]; [reflexivity|].
      destruct Hba as [->|Hba]; [reflexivity|].
      specialize (Ha b Hba). specialize (Hb a Hab). lia. }
    subst b. f_equal. apply IH; auto. eapply Permutation_cons_inv; eauto.
Qed.

Lemma sort_by_reverse_unique (l l' : list A) :
  NoDup (map key l) -> Permutation l l' ->
  sort_by_reverse key l = sort_by_reverse key l'.
Proof.
  intros Hnd Hp.
  assert (Hp1 := sort_by_reverse_perm key l). assert (Hp2 := sort_by_reverse_perm key l').
  apply sorted_strict_unique.
  - apply sorted_strict; [|apply sort_by_reverse_sorted].
    eapply Permutation_NoDup; [|exact Hnd]. apply Permutation_map. now symmetry.
  - apply sorted_strict; [|apply sort_by_reverse_sorted].
    eapply Permutation_NoDup; [|exact Hnd]. apply Permutation_map.
    rewrite Hp2. exact Hp.
  - rewrite Hp1, Hp2. exact Hp.
Qed.
End SortUnique.

Lemma sort_by_reverse_map {A B : Type} (key : B -> Z) (f : A -> B) (l : list A) :
  sort_by_reverse key (map f l) = map f (sort_by_reverse (fun a => key (f a)) l).
Proof.
  induction l as [|a l IH]; simpl; [reflexivity|]. rewrite IH.
  generalize (sort_by_reverse (fun a0 => key (f a0)) l) as s.
  induction s as [|b s IHs]; simpl; [reflexivity|].
  destruct (key (f b) <=? key (f a)); simpl; [reflexivity|now rewrite IHs].
Qed.

Lemma skyline_step_relabel (W : Z) (ar : bool) (st : HeuristicSolver.profile)
      (r : Rectangle.t) :
  HeuristicSolver.skyline_step W ar st (relabel ar r)
  = HeuristicSolver.skyline_step W ar st r.
Proof.
  unfold HeuristicSolver.skyline_step. rewrite relabel_orient. reflexivity.
Qed.

Lemma skyline_loop_relabel (W : Z) (ar : bool) (rs : list Rectangle.t) :
  forall st,
    for_each (HeuristicSolver.skyline_step W ar) (map (relabel ar) rs) st
    = for_each (HeuristicSolver.skyline_step W ar) rs st.
Proof.
  induction rs as [|r rs IH]; intros st; simpl; [reflexivity|].
  rewrite skyline_step_relabel. destruct (HeuristicSolver.skyline_step W ar st r); simpl; auto.
Qed.

Lemma candidate_rects (self : MetaheuristicSolver.t) (perm bits : list Z) :
  NoDup (map Rectangle.id (Instance.rectangles (MetaheuristicSolver.instance self))) ->
  candidate (MetaheuristicSolver.instance self) perm bits ->
  exists rs,
    Permutation rs (Instance.rectangles (MetaheuristicSolver.instance self))
    /\ map Rectangle.id rs = perm
    /\ for_each (MetaheuristicSolver.reorder_step self) (combine perm bits) []
       = Ok (map (relabel (MetaheuristicSolver.allow_rotation self)) rs).
Proof.
  intros Hnd [Hperm Hlen].
  destruct (reorder_loop self Hnd perm bits [] Hlen) as (rs & Eids & Hincl & Eloop).
  { intros rid Hrid. eapply Permutation_in; eauto. }
  exists rs. split; [|split; [exact Eids|exact Eloop]].
  apply NoDup_Permutation_bis.
  - apply (NoDup_map_inv Rectangle.id). rewrite Eids.
    eapply Permutation_NoDup; [symmetry; exact Hperm|exact Hnd].
  - rewrite <- (length_map Rectangle.id rs), Eids.
    rewrite (Permutation_length Hperm), length_map. lia.
  - exact Hincl.
Qed.

Lemma decode_is_skyline (self : MetaheuristicSolver.t) (perm bits : list Z) :
  NoDup (map Rectangle.id (Instance.rectangles (MetaheuristicSolver.instance self))) ->
  NoDup (map (HeuristicSolver.skyline_key (MetaheuristicSolver.allow_rotation self))
             (Instance.rectangles (MetaheuristicSolver.instance self))) ->
  candidate (MetaheuristicSolver.instance self) perm bits ->
  MetaheuristicSolver._decode self perm bits
  = (sol <- HeuristicSolver.solve
              (HeuristicSolver.mk (MetaheuristicSolver.instance self)
                                  (MetaheuristicSolver.allow_rotation self) Skyline false) ;;
     Ok (Solution.set_method sol
           ("Meta-" ++ strategy_name (MetaheuristicSolver.strategy_ self)
                    ++ "-SkylineDecode")%string)).
Proof.
  intros Hnd Hkeys Hc.
  destruct (candidate_rects self perm bits Hnd Hc) as (rs & Hperm & _ & Eloop).
  unfold MetaheuristicSolver._decode. rewrite Eloop. simpl.
  unfold HeuristicSolver.solve, HeuristicSolver._skyline; simpl.
  set (ar := MetaheuristicSolver.allow_rotation self) in *.
  rewrite sort_by_reverse_map, skyline_loop_relabel.
  change (fun a => HeuristicSolver.skyline_key ar (relabel ar a))
    with (HeuristicSolver.skyline_key ar).
  rewrite (sort_by_reverse_unique (HeuristicSolver.skyline_key ar) rs
             (Instance.rectangles (MetaheuristicSolver.instance self)));
    [reflexivity| |exact Hperm].
  eapply Permutation_NoDup; [|exact Hkeys]. apply Permutation_map. now symmetry.
Qed.

(** X13.  When the rectangles have pairwise different sort keys (the
    longer side with rotation allowed, the height without) and different
    ids, the sort inside the skyline policy undoes the permutation: every
    candidate decodes to the packing of the plain skyline heuristic, and so
    does whatever a strategy returns. *)
Theorem search_equals_skyline_for_distinct_keys (inst : Instance.t) (ar : bool) :
  NoDup (map Rectangle.id (Instance.rectangles inst)) ->
  NoDup (map (HeuristicSolver.skyline_key ar) (Instance.rectangles inst)) ->
  (forall strat time_limit population elite perm bits,
      candidate inst perm bits ->
      MetaheuristicSolver._decode
        (MetaheuristicSolver.mk inst ar strat time_limit population elite) perm bits
      = (sol <- HeuristicSolver.solve (HeuristicSolver.mk inst ar Skyline false) ;;
         Ok (Solution.set_method sol
               ("Meta-" ++ strategy_name strat ++ "-SkylineDecode")%string)))
  /\ (forall strat time_limit population elite rnd fuel sol hsol,
         shuffles rnd inst ->
         MetaheuristicSolver.solve
           (MetaheuristicSolver.mk inst ar strat time_limit population elite) rnd fuel
         = Ok (Some sol) ->
         HeuristicSolver.solve (HeuristicSolver.mk inst ar Skyline false) = Ok hsol ->
         Solution.H sol = Solution.H hsol
         /\ Solution.placements sol = Solution.placements hsol).
Proof.
  intros Hnd Hkeys. split.
  - intros strat time_limit population elite perm bits Hc.
    exact (decode_is_skyline
             (MetaheuristicSolver.mk inst ar strat time_limit population elite)
             perm bits Hnd Hkeys Hc).
  - intros strat time_limit population elite rnd fuel sol hsol Hfair E Eh.
    set (self := MetaheuristicSolver.mk inst ar strat time_limit population elite) in *.
    apply (solve_keeps self rnd
             (fun s => Solution.H s = Solution.H hsol
                       /\ Solution.placements s = Solution.placements hsol)
             Hnd Hfair) with (fuel := fuel); [|exact E].
    intros perm bits s Hc Ed.
    rewrite (decode_is_skyline self perm bits Hnd Hkeys Hc) in Ed.
    simpl in Ed. rewrite Eh in Ed. simpl in Ed. inversion Ed; subst s. simpl. auto.
Qed.

Lemma search_equals_skyline_witness :
  MetaheuristicSolver._decode
    (MetaheuristicSolver.mk
       (Instance.mk 8 [Rectangle.mk 1 6 2 false; Rectangle.mk 2 2 5 false;
                       Rectangle.mk 3 3 1 false] 0 [])
       false Tabu (Some 5%Q) 40 4) [3; 1; 2] [0; 0; 0]
  = (sol <- HeuristicSolver.solve
              (HeuristicSolver.mk
                 (Instance.mk 8 [Rectangle.mk 1 6 2 false; Rectangle.mk 2 2 5 false;
                                 Rectangle.mk 3 3 1 false] 0 [])
                 false Skyline false) ;;
     Ok (Solution.set_method sol ("Meta-" ++ strategy_name Tabu ++ "-SkylineDecode")%string)).
Proof.
  refine (proj1 (search_equals_skyline_for_distinct_keys _ false _ _) Tabu (Some 5%Q)
                40%nat 4%nat [3; 1; 2] [0; 0; 0] _).
  - simpl. repeat constructor; simpl; intuition discriminate.
  - simpl. repeat constructor; simpl; intuition discriminate.
  - split; [|reflexivity]. simpl.
    apply (perm_trans (l' := [1; 3; 2])); [apply perm_swap|apply perm_skip, perm_swap].
Defined.

(** ** The search never ends above its start *)

Lemma better_of_le (cand best : Solution.t) :
  Solution.H (MetaheuristicSolver.better_of cand best) <= Solution.H best.
Proof.
  unfold MetaheuristicSolver.better_of.
  destruct (Solution.H cand <? Solution.H best) eqn:E; [apply Z.ltb_lt in E|]; lia.
Qed.

Lemma run_sa_le (self : MetaheuristicSolver.t) (rnd : Random.t)
      (sol s0 : Solution.t) (pb : list Z * list Z) :
  MetaheuristicSolver._run_sa self rnd = Ok sol ->
  MetaheuristicSolver._random_solution self (Random.shuffle rnd 0) (Random.randint rnd 0)
  = Ok pb ->
  MetaheuristicSolver._decode self (fst pb) (snd pb) = Ok s0 ->
  Solution.H sol <= Solution.H s0.
Proof.
  intros E Epb Es0. unfold MetaheuristicSolver._run_sa in E.
  rewrite Epb in E. simpl in E. rewrite Es0 in E. simpl in E.
  apply bind_ok in E as (st & E & Es). inversion Es; subst sol; clear Es.
  refine (for_each_invariant (MetaheuristicSolver.sa_step self rnd)
            (fun st => Solution.H (snd st) <= Solution.H s0) (fun _ => True)
            _ _ _ _ (all_true _) _ E); [|simpl; lia].
  clear. intros [[[p b] cur] best] it st' _ Hst E. simpl in Hst.
  unfold MetaheuristicSolver.sa_step in E.
  apply bind_ok in E as (ij & _ & E). apply bind_ok in E as (cp & _ & E).
  apply bind_ok in E as (k & _ & E). apply bind_ok in E as (cb & _ & E).
  apply bind_ok in E as (cs & _ & E).
  apply sa_choice in E as [->| ->]; simpl; [|exact Hst].
  pose proof (better_of_le cs best). lia.
Qed.

Lemma tabu_loop_le (self : MetaheuristicSolver.t) (rnd : Random.t) (tenure : nat)
      (gs : list nat) :
  forall perm bits best tabu sol,
    MetaheuristicSolver.tabu_loop self rnd tenure gs perm bits best tabu = Ok (Some sol) ->
    Solution.H sol <= Solution.H best.
Proof.
  induction gs as [|g gs IH]; intros perm bits best tabu sol E.
  - simpl in E. destruct (MetaheuristicSolver.timed self); inversion E; subst. lia.
  - rewrite tabu_loop_round in E.
    apply bind_ok in E as (nb & _ & E).
    destruct (sort_by MetaheuristicSolver.ind_H nb) as [|top rest].
    + inversion E; subst. lia.
    + apply bind_ok in E as (p0 & _ & E). apply bind_ok in E as (pl & _ & E).
      apply IH in E. pose proof (better_of_le (MetaheuristicSolver.ind_sol top) best). lia.
Qed.

Lemma run_tabu_le (self : MetaheuristicSolver.t) (rnd : Random.t) (fuel : nat)
      (sol s0 : Solution.t) (pb : list Z * list Z) :
  MetaheuristicSolver._run_tabu self rnd fuel = Ok (Some sol) ->
  MetaheuristicSolver._random_solution self (Random.shuffle rnd 0) (Random.randint rnd 0)
  = Ok pb ->
  MetaheuristicSolver._decode self (fst pb) (snd pb) = Ok s0 ->
  Solution.H sol <= Solution.H s0.
Proof.
  intros E Epb Es0. unfold MetaheuristicSolver._run_tabu in E.
  rewrite Epb in E. simpl in E. rewrite Es0 in E. simpl in E.
  now apply tabu_loop_le in E.
Qed.

(** A pool entry carries the height of its own solution. *)
Lemma init_loop_pool (self : MetaheuristicSolver.t) (rnd : Random.t) (ks : list nat) :
  forall pool pool',
    Forall (fun t => MetaheuristicSolver.ind_H t
                     = Solution.H (MetaheuristicSolver.ind_sol t)) pool ->
    for_each (MetaheuristicSolver.init_step self rnd) ks pool = Ok pool' ->
    Forall (fun t => MetaheuristicSolver.ind_H t
                     = Solution.H (MetaheuristicSolver.ind_sol t)) pool'
    /\ (forall t, In t pool -> In t pool')
    /\ (forall k pb s0,
           In k ks ->
           MetaheuristicSolver._random_solution self (Random.shuffle rnd k)
                                                (Random.randint rnd k) = Ok pb ->
           MetaheuristicSolver._decode self (fst pb) (snd pb) = Ok s0 ->
           In (Solution.H s0, fst pb, snd pb, s0) pool').
Proof.
  induction ks as [|k ks IH]; intros pool pool' Hc E; simpl in E.
  - inversion E; subst. split; [exact Hc|]. split; [auto|intros k pb s0 []].
  - apply bind_ok in E as (pool1 & E1 & E2).
    unfold MetaheuristicSolver.init_step in E1.
    apply bind_ok in E1 as (pb1 & Epb & E1). apply bind_ok in E1 as (s1 & Es1 & E1).
    inversion E1; subst pool1; clear E1.
    assert (Hc1 : Forall (fun t => MetaheuristicSolver.ind_H t
                                   = Solution.H (MetaheuristicSolver.ind_sol t))
                         (pool ++ [(Solution.H s1, fst pb1, snd pb1, s1)])).
    { apply Forall_app. split; [exact Hc|]. now repeat constructor. }
    destruct (IH _ _ Hc1 E2) as (Hc' & Hin & Hk).
    split; [exact Hc'|]. split.
    + intros t Ht. apply Hin, in_or_app. now left.
    + intros k' pb s0 [<-|Hk'] Epb' Es0; [|eauto].
      rewrite Epb in Epb'. inversion Epb'; subst pb.
      rewrite Es1 in Es0. inversion Es0; subst s0.
      apply Hin, in_or_app. right. now left.
Qed.

Lemma sort_by_head_least {A : Type} (key : A -> Z) (l : list A) (top : A) (rest : list A) :
  sort_by key l = top :: rest -> In top l /\ forall t, In t l -> key top <= key t.
Proof.
  intros E. pose proof (sort_by_sorted key l) as Hs. pose proof (sort_by_perm key l) as Hp.
  rewrite E in Hs, Hp. inversion Hs as [|? ? _ Ht]; subst.
  split; [eapply Permutation_in; [exact Hp|now left]|].
  intros t Hin. apply (Permutation_in _ (Permutation_sym Hp)) in Hin as [<-|Hin]; [lia|].
  rewrite Forall_forall in Ht. now apply Ht.
Qed.

Lemma ga_child_pool (self : MetaheuristicSolver.t) (rnd : Random.t) (g : nat)
      (pool : list MetaheuristicSolver.individual) (cs : list nat) :
  forall new_pool new_pool',
    Forall (fun t => MetaheuristicSolver.ind_H t
                     = Solution.H (MetaheuristicSolver.ind_sol t)) new_pool ->
    for_each (MetaheuristicSolver.ga_child self rnd g pool) cs new_pool = Ok new_pool' ->
    Forall (fun t => MetaheuristicSolver.ind_H t
                     = Solution.H (MetaheuristicSolver.ind_sol t)) new_pool'.
Proof.
  induction cs as [|c cs IH]; intros np np' Hc E; simpl in E.
  - now inversion E; subst.
  - apply bind_ok in E as (np1 & E1 & E2). refine (IH _ _ _ E2).
    unfold MetaheuristicSolver.ga_child in E1.
    apply bind_ok in E1 as (p1 & _ & E1). apply bind_ok in E1 as (p2 & _ & E1).
    apply bind_ok in E1 as (cp & _ & E1). apply bind_ok in E1 as (m & _ & E1).
    apply bind_ok in E1 as (s & _ & E1). inversion E1; subst np1.
    apply Forall_app. split; [exact Hc|]. now repeat constructor.
Qed.

Lemma run_ga_le (self : MetaheuristicSolver.t) (rnd : Random.t)
      (sol s0 : Solution.t) (k : nat) (pb : list Z * list Z) :
  MetaheuristicSolver._run_ga self rnd = Ok sol ->
  (k < MetaheuristicSolver.population self)%nat ->
  MetaheuristicSolver._random_solution self (Random.shuffle rnd k) (Random.randint rnd k)
  = Ok pb ->
  MetaheuristicSolver._decode self (fst pb) (snd pb) = Ok s0 ->
  Solution.H sol <= Solution.H s0.
Proof.
  intros E Hk Epb Es0. unfold MetaheuristicSolver._run_ga in E.
  apply bind_ok in E as (pool & Ep & E).
  destruct (init_loop_pool self rnd _ _ _ (Forall_nil _) Ep) as (Hc & _ & Hin).
  assert (Hks : In k (seq 0 (MetaheuristicSolver.population self)))
    by (apply in_seq; lia).
  specialize (Hin k pb s0 Hks Epb Es0).
  destruct (sort_by MetaheuristicSolver.ind_H pool) as [|top rest] eqn:Esort; [discriminate|].
  destruct (sort_by_head_least _ _ _ _ Esort) as (Htop & Hleast).
  specialize (Hleast _ Hin).
  change (MetaheuristicSolver.ind_H (Solution.H s0, fst pb, snd pb, s0))
    with (Solution.H s0) in Hleast.
  assert (Hcs : Forall (fun t => MetaheuristicSolver.ind_H t
                                 = Solution.H (MetaheuristicSolver.ind_sol t)) (top :: rest)).
  { rewrite <- Esort. rewrite Forall_forall in *. intros t Ht. apply Hc.
    eapply Permutation_in; [apply sort_by_perm|exact Ht]. }
  apply bind_ok in E as (st & E & Es). inversion Es; subst sol; clear Es.
  assert (Hinv : Forall (fun t => MetaheuristicSolver.ind_H t
                                  = Solution.H (MetaheuristicSolver.ind_sol t)) (fst st)
                 /\ Solution.H (snd st) <= Solution.H s0); [|tauto].
  refine (for_each_invariant (MetaheuristicSolver.ga_generation self rnd)
            (fun st => Forall (fun t => MetaheuristicSolver.ind_H t
                                        = Solution.H (MetaheuristicSolver.ind_sol t)) (fst st)
                       /\ Solution.H (snd st) <= Solution.H s0) (fun _ => True)
            _ _ _ _ (all_true _) _ E).
  - clear. intros [pool best] g st' _ [Hc Hb] E. simpl in Hc, Hb.
    unfold MetaheuristicSolver.ga_generation in E.
    apply bind_ok in E as (np & Enp & E).
    apply ga_child_pool in Enp.
    2:{ rewrite Forall_forall in *. intros t Ht. apply Hc.
        rewrite <- (firstn_skipn (MetaheuristicSolver.elite self) pool).
        apply in_or_app. now left. }
    destruct (sort_by MetaheuristicSolver.ind_H np) as [|top rest] eqn:Esort; [discriminate|].
    inversion E; subst st'; clear E. simpl.
    assert (Hcs : Forall (fun t => MetaheuristicSolver.ind_H t
                                   = Solution.H (MetaheuristicSolver.ind_sol t)) (top :: rest)).
    { rewrite <- Esort. rewrite Forall_forall in *. intros t Ht. apply Enp.
      eapply Permutation_in; [apply sort_by_perm|exact Ht]. }
    split; [exact Hcs|].
    inversion Hcs as [|? ? Ht _]; subst.
    destruct (MetaheuristicSolver.ind_H top <? Solution.H best) eqn:El;
      [apply Z.ltb_lt in El|]; lia.
  - simpl. split; [exact Hcs|]. inversion Hcs as [|? ? Ht _]; subst. lia.
Qed.

(** X14.  No strategy returns a solution higher than where it started:
    simulated annealing and tabu search stay at or below the height of their
    first random solution, the genetic algorithm at or below the height of
    every member of its initial population. *)
Theorem search_never_worse_than_start (self : MetaheuristicSolver.t) (rnd : Random.t)
        (fuel : nat) (sol s0 : Solution.t) (k : nat) (pb : list Z * list Z) :
  MetaheuristicSolver.solve self rnd fuel = Ok (Some sol) ->
  (match MetaheuristicSolver.strategy_ self with
   | GA => (k < MetaheuristicSolver.population self)%nat
   | _ => k = 0%nat
   end) ->
  MetaheuristicSolver._random_solution self (Random.shuffle rnd k) (Random.randint rnd k)
  = Ok pb ->
  MetaheuristicSolver._decode self (fst pb) (snd pb) = Ok s0 ->
  Solution.H sol <= Solution.H s0.
Proof.
  unfold MetaheuristicSolver.solve.
  destruct (MetaheuristicSolver.strategy_ self); intros E Hk Epb Es0.
  - apply bind_ok in E as (s & E & Es). inversion Es; subst s. eapply run_ga_le; eauto.
  - apply bind_ok in E as (s & E & Es). inversion Es; subst s.
    subst k. eapply run_sa_le; eauto.
  - subst k. eapply run_tabu_le; eauto.
Qed.

Lemma search_never_worse_than_start_witness :
  Solution.H (Solution.mk 3 [Placement.mk 1 0 0 4 3 false; Placement.mk 2 4 0 4 3 false]
                          "Meta-SA-SkylineDecode" (Some "feasible"%string))
  <= Solution.H (Solution.mk 3 [Placement.mk 1 0 0 4 3 false; Placement.mk 2 4 0 4 3 false]
                             "Meta-SA-SkylineDecode" (Some "feasible"%string)).
Proof.
  apply (search_never_worse_than_start
           (MetaheuristicSolver.mk kerf_instance true SA (Some 5%Q) 40 4)
           (steady_source [1; 2] 3) 0%nat
           _ _ 0%nat ([1; 2], [0; 0])); reflexivity.
Defined.

(** ** Order crossover *)

Lemma fill_nones_ok (fill : list Z) : forall k acc idx,
    (idx + k <= List.length fill)%nat ->
    for_each (MetaheuristicSolver.fill_step fill) (repeat None k) (acc, idx)
    = Ok (acc ++ firstn k (skipn idx fill), (idx + k)%nat).
Proof.
  induction k as [|k IH]; intros acc idx Hk; simpl.
  - now rewrite app_nil_r, Nat.add_0_r.
  - unfold MetaheuristicSolver.fill_step at 1. simpl. unfold py_get.
    destruct (nth_error fill idx) as [v|] eqn:Ev.
    2:{ apply nth_error_None in Ev. lia. }
    simpl. rewrite IH by lia. rewrite (skipn_nth _ _ _ Ev). simpl.
    rewrite <- app_assoc. simpl. do 2 f_equal. lia.
Qed.

Lemma ox_crossover_result (p1 p2 : list Z) (drawn : nat * nat) :
  let n := List.length p1 in
  let a := Nat.min (fst drawn) (snd drawn) in
  let b := Nat.max (fst drawn) (snd drawn) in
  let seg := firstn (b + 1 - a) (skipn a p1) in
  let fill := filter (fun x => negb (mem x seg)) p2 in
  NoDup p1 -> Permutation p1 p2 -> (2 <= n)%nat -> (b < n)%nat ->
  MetaheuristicSolver._ox_crossover p1 p2 drawn = Ok (firstn a fill ++ seg ++ skipn a fill)
  /\ List.length seg = (b + 1 - a)%nat
  /\ List.length fill = (n - (b + 1 - a))%nat.
Proof.
  intros n a b seg fill Hnd Hperm Hn Hb.
  assert (Hab : (a <= b)%nat) by (unfold a, b; lia).
  assert (Hslen : List.length seg = (b + 1 - a)%nat).
  { unfold seg. rewrite length_firstn, length_skipn. fold n. lia. }
  set (child := repeat (@None Z) a ++ map Some seg ++ repeat None (n - (b + 1))).
  assert (Efill : filter (fun x => negb (MetaheuristicSolver.in_child child x)) p2 = fill).
  { apply filter_ext. intros x. f_equal. apply eq_true_iff_eq.
    unfold child. rewrite in_child_spec, mem_in. reflexivity. }
  assert (Hseg_nd : NoDup seg) by (apply NoDup_firstn, NoDup_skipn, Hnd).
  assert (Hnd2 : NoDup p2) by (eapply Permutation_NoDup; eauto).
  assert (Hpart : Permutation (seg ++ fill) p2).
  { rewrite <- (filter_split (fun x => mem x seg) p2).
    apply Permutation_app_tail. apply NoDup_Permutation.
    - exact Hseg_nd.
    - now apply NoDup_filter.
    - intros x. rewrite filter_In, mem_in. split; [|tauto].
      intros Hx. split; [|exact Hx]. eapply Permutation_in; [exact Hperm|].
      eapply in_skipn, in_firstn, Hx. }
  assert (Hflen : List.length fill = (n - (b + 1 - a))%nat).
  { pose proof (Permutation_length Hpart) as Hl.
    rewrite length_app, <- (Permutation_length Hperm) in Hl. fold n in Hl. lia. }
  split; [|split; assumption].
  unfold MetaheuristicSolver._ox_crossover. fold n.
  unfold sample2. destruct (Nat.ltb_spec n 2) as [Hlt|_]; [lia|]. simpl.
  fold a b seg child. rewrite Efill.
  unfold child. rewrite for_each_app.
  rewrite (fill_nones_ok fill a [] 0%nat) by lia. cbn [bind app Nat.add skipn].
  rewrite for_each_app, fill_somes. cbn [bind].
  rewrite fill_nones_ok by lia. cbn [bind fst].
  rewrite (firstn_all2 (n := (n - (b + 1))%nat)) by (rewrite length_skipn; lia).
  now rewrite <- app_assoc.
Qed.

(** X15.  [_ox_crossover] raises on parents shorter than two.  On two
    orderings of the same distinct ids, cut at two positions of the parent,
    it returns an ordering of these ids that repeats the first parent between
    the two cuts and lists the other ids around it in the order of the second
    parent. *)
Theorem ox_crossover_keeps_slice (p1 p2 : list Z) (drawn : nat * nat) :
  let n := List.length p1 in
  let a := Nat.min (fst drawn) (snd drawn) in
  let b := Nat.max (fst drawn) (snd drawn) in
  ((n < 2)%nat -> MetaheuristicSolver._ox_crossover p1 p2 drawn = Raise ValueError)
  /\ (NoDup p1 -> Permutation p1 p2 ->
      (fst drawn < n)%nat -> (snd drawn < n)%nat -> fst drawn <> snd drawn ->
      exists child,
        MetaheuristicSolver._ox_crossover p1 p2 drawn = Ok child
        /\ Permutation child p1
        /\ (forall i, (a <= i <= b)%nat -> nth_error child i = nth_error p1 i)
        /\ firstn a child ++ skipn (b + 1) child
           = filter (fun x => negb (mem x (firstn (b + 1 - a) (skipn a p1)))) p2).
Proof.
  intros n a b. split.
  - intros Hn. unfold MetaheuristicSolver._ox_crossover, sample2. fold n.
    destruct (Nat.ltb_spec n 2) as [_|Hge]; [reflexivity|lia].
  - intros Hnd Hperm H1 H2 Hne.
    assert (Hn : (2 <= n)%nat) by lia.
    assert (Hb : (b < n)%nat) by (unfold b; lia).
    assert (Hab : (a <= b)%nat) by (unfold a, b; lia).
    destruct (ox_crossover_result p1 p2 drawn Hnd Hperm Hn Hb) as (E & Hslen & Hflen).
    fold a b in E, Hslen, Hflen.
    set (seg := firstn (b + 1 - a) (skipn a p1)) in *.
    set (fill := filter (fun x => negb (mem x seg)) p2) in *.
    assert (Hfa : List.length (firstn a fill) = a) by (rewrite length_firstn; lia).
    eexists; split; [exact E|]. split; [|split].
    + rewrite Hperm. apply (ox_crossover_perm p1 p2 drawn); assumption.
    + intros i Hi.
      rewrite nth_error_app2 by lia. rewrite Hfa.
      rewrite nth_error_app1 by lia.
      unfold seg. rewrite nth_error_firstn.
      destruct (Nat.ltb_spec (i - a) (b + 1 - a)) as [_|Hge]; [|lia].
      rewrite nth_error_skipn. f_equal. lia.
    + rewrite firstn_app, Hfa, Nat.sub_diag. simpl. rewrite app_nil_r.
      rewrite firstn_firstn, Nat.min_id.
      rewrite skipn_app, Hfa.
      rewrite (skipn_all2 (n := (b + 1)%nat)) by lia. simpl.
      rewrite skipn_app, Hslen.
      rewrite (skipn_all2 seg) by lia. simpl.
      replace (b + 1 - a - (b + 1 - a))%nat with 0%nat by lia. simpl.
      apply firstn_skipn.
Qed.

Lemma ox_crossover_keeps_slice_witness :
  exists child,
    MetaheuristicSolver._ox_crossover [1; 2; 3; 4] [4; 3; 2; 1] (2%nat, 1%nat) = Ok child
    /\ Permutation child [1; 2; 3; 4]
    /\ (forall i, (1 <= i <= 2)%nat -> nth_error child i = nth_error [1; 2; 3; 4] i)
    /\ firstn 1 child ++ skipn (2 + 1) child
       = filter (fun x => negb (mem x (firstn (2 + 1 - 1) (skipn 1 [1; 2; 3; 4]))))
                [4; 3; 2; 1].
Proof.
  apply (proj2 (ox_crossover_keeps_slice [1; 2; 3; 4] [4; 3; 2; 1] (2%nat, 1%nat))).
  - repeat constructor; simpl; intuition discriminate.
  - apply Permutation_rev.
  - simpl; lia.
  - simpl; lia.
  - simpl; lia.
Defined.

(** ** Heights of decoded solutions *)

(** A stack of supported placements is no higher than its heights add up
    to. *)
Lemma supported_top_le (pl : list Placement.t) :
  supported pl -> Forall (fun p => 0 <= Placement.h_eff p) pl ->
  0 <= py_sum (map Placement.h_eff pl)
  /\ forall p, In p pl -> HeuristicSolver.top p <= py_sum (map Placement.h_eff pl).
Proof.
  induction pl as [|q pl IH] using rev_ind; intros Hs Hpos.
  - split; [change (py_sum (map Placement.h_eff [])) with 0; lia|intros p []].
  - apply Forall_app in Hpos as [Hpos Hq]. inversion Hq as [|? ? Hq0 _]; subst.
    assert (Hs' : supported pl).
    { intros pre q' post E. apply (Hs pre q' (post ++ [q])).
      rewrite E, <- app_assoc. reflexivity. }
    destruct (IH Hs' Hpos) as [H0 Hle].
    rewrite map_app, py_sum_app. simpl map. rewrite py_sum_cons.
    change (py_sum []) with 0. split; [lia|].
    intros p Hp. apply in_app_or in Hp as [Hp|[Ep|[]]].
    + specialize (Hle p Hp). lia.
    + subst q. destruct (Hs pl p [] eq_refl) as [Hy|(p' & Hp' & Hy)];
        unfold HeuristicSolver.top in *; [lia|].
      specialize (Hle p' Hp'). lia.
Qed.

Lemma oriented_height_le (ar : bool) (r : Rectangle.t) :
  oriented_height ar r <= Rectangle.h r.
Proof.
  unfold oriented_height.
  destruct (orient_cases r ar) as [E|(_ & _ & Hlt & E)]; rewrite E; simpl; lia.
Qed.

Lemma placement_heights_le (ar : bool) (rs : list Rectangle.t) (qs : list Placement.t) :
  Forall2 (placement_of ar) rs qs ->
  py_sum (map Placement.h_eff qs) <= py_sum (map Rectangle.h rs).
Proof.
  induction 1 as [|r q rs qs [_ Ho] _ IH]; [apply Z.le_refl|].
  simpl. rewrite !py_sum_cons.
  pose proof (oriented_height_le ar r) as Hle. unfold oriented_height in Hle.
  rewrite Ho in Hle. simpl in Hle. lia.
Qed.

(** The height of a decoded candidate lies between 0 and the sum of the
    heights of the rectangles. *)
Lemma decode_height_range (self : MetaheuristicSolver.t) (perm bits : list Z)
      (sol : Solution.t) :
  well_formed (MetaheuristicSolver.instance self) ->
  candidate (MetaheuristicSolver.instance self) perm bits ->
  MetaheuristicSolver._decode self perm bits = Ok sol ->
  0 <= Solution.H sol
       <= py_sum (map Rectangle.h (Instance.rectangles (MetaheuristicSolver.instance self))).
Proof.
  intros Hwf Hc E.
  destruct (decode_sound self perm bits sol Hwf Hc E) as (rs' & st' & Hp' & Hof & I & Epl & EH).
  destruct Hwf as [HW Hd Hpos Hnd].
  destruct (candidate_rects self perm bits Hnd Hc) as (rs & Hperm & _ & Eloop).
  unfold MetaheuristicSolver._decode in E. rewrite Eloop in E. cbn [bind] in E.
  apply bind_ok in E as (sol0 & E0 & Es). inversion Es; subst sol; clear Es.
  simpl in Hof, Epl, EH |- *.
  assert (Hs : supported (Solution.placements sol0)).
  { change (HeuristicSolver.solve ?hs) with (HeuristicSolver._skyline hs) in E0.
    apply (skyline_supported _ _) with (4 := E0); simpl; [exact HW| |reflexivity].
    apply Forall_forall. intros r' Hr'. apply in_map_iff in Hr' as (r & <- & Hr).
    rewrite Forall_forall in Hpos. apply (Hpos r). eapply Permutation_in; eauto. }
  pose proof (pi_strip _ _ I) as Hstrip. rewrite <- Epl in Hstrip.
  assert (Hh : Forall (fun p => 0 <= Placement.h_eff p) (Solution.placements sol0)).
  { rewrite Forall_forall in *. intros p Hp.
    destruct (Hstrip p Hp) as (_ & _ & _ & ? & _). lia. }
  destruct (supported_top_le _ Hs Hh) as [H0 Hle].
  pose proof (placement_heights_le _ _ _ Hof) as Hsum.
  rewrite (py_sum_perm _ _ (Permutation_map Rectangle.h Hp')) in Hsum.
  rewrite <- Epl in EH.
  destruct (skyline_height_spec _ _ EH) as (_ & Hnil & Hex).
  destruct (Solution.placements sol0) as [|p0 pl] eqn:Ep.
  - rewrite (Hnil eq_refl). lia.
  - destruct Hex as (p & Hp & <-); [discriminate|].
    specialize (Hle p Hp). rewrite Forall_forall in Hstrip.
    destruct (Hstrip p Hp) as (_ & Hy & _ & Hhp & _).
    unfold HeuristicSolver.top in *. lia.
Qed.

(** ** The strategies return *)

Lemma for_each_total {S A : Type} (body : S -> A -> result S) (Inv : S -> Prop) :
  forall (l : list A),
    (forall st a, In a l -> Inv st -> exists st', body st a = Ok st' /\ Inv st') ->
    forall st, Inv st -> exists st', for_each body l st = Ok st' /\ Inv st'.
Proof.
  induction l as [|a l IH]; intros Hbody st Hst; simpl.
  - now exists st.
  - destruct (Hbody st a (or_introl eq_refl) Hst) as (st1 & -> & Hst1). simpl.
    apply IH; [|exact Hst1]. intros st2 b Hb. apply Hbody. now right.
Qed.

Lemma py_get_total (l : list Z) (i : nat) :
  (i < List.length l)%nat -> exists a, py_get l i = Ok a.
Proof.
  intros Hi. unfold py_get. destruct (nth_error l i) as [a|] eqn:E; [now exists a|].
  apply nth_error_None in E. lia.
Qed.

Lemma py_set_total (l : list Z) : forall i v,
    (i < List.length l)%nat -> exists l', py_set l i v = Ok l'.
Proof.
  induction l as [|a l IH]; intros [|i] v Hi; simpl in *; try lia.
  - eexists; reflexivity.
  - destruct (IH i v) as (l' & ->); [lia|]. simpl. eexists; reflexivity.
Qed.

Lemma swap_total (l : list Z) (i j : nat) :
  (i < List.length l)%nat -> (j < List.length l)%nat -> exists l', swap l i j = Ok l'.
Proof.
  intros Hi Hj. unfold swap.
  destruct (py_get_total l i Hi) as (a & ->). destruct (py_get_total l j Hj) as (b & ->).
  simpl. destruct (py_set_total l i b Hi) as (l1 & E1). rewrite E1. simpl.
  apply py_set_total. now rewrite (py_set_length _ _ _ _ E1).
Qed.

Lemma flip_total (l : list Z) (k : nat) :
  (k < List.length l)%nat -> exists l', flip l k = Ok l'.
Proof.
  intros Hk. unfold flip. destruct (py_get_total l k Hk) as (b & ->). simpl.
  now apply py_set_total.
Qed.

Lemma candidate_length (inst : Instance.t) (perm bits : list Z) :
  candidate inst perm bits ->
  List.length perm = List.length (Instance.rectangles inst)
  /\ List.length bits = List.length (Instance.rectangles inst).
Proof.
  intros [Hp Hl]. rewrite Hl, (Permutation_length Hp), length_map. auto.
Qed.

Lemma oriented_width_relabel (ar : bool) (r : Rectangle.t) :
  oriented_width ar (relabel ar r) = oriented_width ar r.
Proof. unfold oriented_width. now rewrite relabel_orient. Qed.

Lemma decode_total (self : MetaheuristicSolver.t) (perm bits : list Z) :
  NoDup (map Rectangle.id (Instance.rectangles (MetaheuristicSolver.instance self))) ->
  Forall (fun r => oriented_width (MetaheuristicSolver.allow_rotation self) r
                   <= Instance.W (MetaheuristicSolver.instance self))
         (Instance.rectangles (MetaheuristicSolver.instance self)) ->
  candidate (MetaheuristicSolver.instance self) perm bits ->
  exists sol, MetaheuristicSolver._decode self perm bits = Ok sol.
Proof.
  intros Hnd Hfit Hc.
  destruct (candidate_rects self perm bits Hnd Hc) as (rs & Hperm & _ & Eloop).
  unfold MetaheuristicSolver._decode. rewrite Eloop. simpl.
  set (hs := HeuristicSolver.mk _ _ _ _).
  destruct (heuristic_raises hs) as [(_ & sol & ->)|(r & Hr & Hgt & _)].
  - discriminate.
  - simpl. eexists; reflexivity.
  - exfalso. simpl in Hr, Hgt. apply in_map_iff in Hr as (r0 & <- & Hr0).
    rewrite oriented_width_relabel in Hgt. rewrite Forall_forall in Hfit.
    apply (Permutation_in _ Hperm) in Hr0. specialize (Hfit _ Hr0). lia.
Qed.

Lemma first_with_id_present (rects : list Rectangle.t) (rid : Z) :
  In rid (map Rectangle.id rects) -> exists r, first_with_id rects rid = Ok r.
Proof.
  intros Hin. unfold first_with_id.
  destruct (find _ rects) as [r|] eqn:E; [now exists r|].
  apply in_map_iff in Hin as (r & Er & Hr).
  pose proof (find_none _ _ E r Hr) as Hf. simpl in Hf.
  rewrite Er, Z.eqb_refl in Hf. discriminate.
Qed.

Lemma random_solution_total (self : MetaheuristicSolver.t) (shuffled : list Z)
      (draw : nat -> Z) :
  Permutation shuffled (map Rectangle.id
                            (Instance.rectangles (MetaheuristicSolver.instance self))) ->
  exists pb, MetaheuristicSolver._random_solution self shuffled draw = Ok pb
             /\ candidate (MetaheuristicSolver.instance self) (fst pb) (snd pb).
Proof.
  intros Hp. unfold MetaheuristicSolver._random_solution.
  destruct (for_each_total
              (fun bits kr => b <- MetaheuristicSolver.forced_bit self (snd kr) (draw (fst kr)) ;;
                              Ok (bits ++ [b]))
              (fun _ => True) (combine (seq 0 (List.length shuffled)) shuffled))
    with (st := @nil Z) as (bits & E & _); [|exact I|].
  - intros st [k rid] Hin _. apply in_combine_r in Hin.
    apply (Permutation_in _ Hp) in Hin. simpl.
    unfold MetaheuristicSolver.forced_bit.
    destruct (MetaheuristicSolver.allow_rotation self); [|eexists; split; [reflexivity|exact I]].
    destruct (first_with_id_present _ _ Hin) as (r & ->). simpl.
    eexists; split; [reflexivity|exact I].
  - pose proof (random_solution_candidate self shuffled draw shuffled bits Hp) as Hc.
    unfold MetaheuristicSolver._random_solution in Hc.
    rewrite E in *. simpl in *. eexists; split; [reflexivity|]. now apply Hc.
Qed.

Lemma py_index_ends (l : list Z) :
  l <> [] -> (exists a, py_index l 0 = Ok a) /\ (exists b, py_index l (-1) = Ok b).
Proof.
  intros Hne. assert (Hlen : (0 < List.length l)%nat) by (destruct l; [congruence|simpl; lia]).
  assert (Hin : forall i j, j = (if i <? 0 then i + Z.of_nat (List.length l) else i) ->
                            0 <= j < Z.of_nat (List.length l) ->
                            exists a, py_index l i = Ok a).
  { intros i j Ej Hj. unfold py_index. cbv zeta. rewrite <- Ej.
    destruct (Z.ltb_spec j 0) as [H|_]; [lia|].
    destruct (Z.leb_spec (Z.of_nat (List.length l)) j) as [H|_]; [lia|]. simpl.
    destruct (nth_error l (Z.to_nat j)) as [a|] eqn:E; [now exists a|].
    apply nth_error_None in E. lia. }
  split.
  - apply (Hin 0 0); [reflexivity|lia].
  - apply (Hin (-1) (-1 + Z.of_nat (List.length l))); [reflexivity|lia].
Qed.

Lemma mutate_total (perm bits : list Z) (hit : bool) (drawn : nat * nat)
      (flips : nat -> bool) :
  List.length bits = List.length perm ->
  (fst drawn < List.length perm)%nat -> (snd drawn < List.length perm)%nat ->
  exists m, MetaheuristicSolver._mutate perm bits hit drawn flips = Ok m.
Proof.
  intros Hl Hi Hj. unfold MetaheuristicSolver._mutate.
  assert (Hp : exists perm',
             (if hit && (2 <=? List.length perm)%nat
              then ij <- sample2 (List.length perm) drawn ;; swap perm (fst ij) (snd ij)
              else Ok perm) = Ok perm').
  { destruct (hit && _) eqn:Eh; [|now exists perm].
    apply andb_true_iff in Eh as [_ Eh]. apply Nat.leb_le in Eh.
    unfold sample2. destruct (Nat.ltb_spec (List.length perm) 2) as [H|_]; [lia|].
    simpl. now apply swap_total. }
  destruct Hp as (perm' & ->). cbn [bind].
  destruct (for_each_total (fun bits k => if flips k then flip bits k else Ok bits)
              (fun b => List.length b = List.length perm) (seq 0 (List.length perm)))
    with (st := bits) as (bits' & -> & _).
  - intros b k Hk Hb. apply in_seq in Hk.
    destruct (flips k); [|now exists b].
    destruct (flip_total b k) as (b' & Eb); [lia|].
    exists b'. split; [exact Eb|]. now rewrite (flip_length _ _ _ Eb).
  - exact Hl.
  - cbn [bind]. eexists; reflexivity.
Qed.

Lemma py_choice_total (l : list MetaheuristicSolver.individual) (i : nat) :
  (i < List.length l)%nat -> exists t, MetaheuristicSolver.py_choice l i = Ok t /\ In t l.
Proof.
  intros Hi. unfold MetaheuristicSolver.py_choice.
  destruct (nth_error l i) as [t|] eqn:E.
  - exists t. split; [reflexivity|]. eapply nth_error_In; eauto.
  - apply nth_error_None in E. lia.
Qed.

Lemma ga_child_loop_length (self : MetaheuristicSolver.t) (rnd : Random.t) (g : nat) (pool : list MetaheuristicSolver.individual)
      (cs : list nat) :
  forall np np',
    for_each (MetaheuristicSolver.ga_child self rnd g pool) cs np = Ok np' ->
    List.length np' = (List.length np + List.length cs)%nat.
Proof.
  induction cs as [|c cs IH]; intros np np' E; simpl in E.
  - inversion E; subst. simpl. lia.
  - apply bind_ok in E as (np1 & E1 & E2). rewrite (IH _ _ E2).
    unfold MetaheuristicSolver.ga_child in E1.
    apply bind_ok in E1 as (p1 & _ & E1). apply bind_ok in E1 as (p2 & _ & E1).
    apply bind_ok in E1 as (cp & _ & E1). apply bind_ok in E1 as (m & _ & E1).
    apply bind_ok in E1 as (s & _ & E1). inversion E1; subst np1.
    rewrite length_app. simpl. lia.
Qed.

Lemma init_loop_length (self : MetaheuristicSolver.t) (rnd : Random.t) (ks : list nat) :
  forall pool pool',
    for_each (MetaheuristicSolver.init_step self rnd) ks pool = Ok pool' ->
    List.length pool' = (List.length pool + List.length ks)%nat.
Proof.
  induction ks as [|k ks IH]; intros pool pool' E; simpl in E.
  - inversion E; subst. simpl. lia.
  - apply bind_ok in E as (p1 & E1 & E2). rewrite (IH _ _ E2).
    unfold MetaheuristicSolver.init_step in E1.
    apply bind_ok in E1 as (pb & _ & E1). apply bind_ok in E1 as (s & _ & E1).
    inversion E1; subst p1. rewrite length_app. simpl. lia.
Qed.

Lemma sorted_nonempty (P : MetaheuristicSolver.individual -> Prop)
      (pool : list MetaheuristicSolver.individual) :
  (1 <= List.length pool)%nat -> Forall P pool ->
  exists top rest, sort_by MetaheuristicSolver.ind_H pool = top :: rest
                   /\ Forall P (top :: rest)
                   /\ List.length (top :: rest) = List.length pool.
Proof.
  intros Hlen Hgood.
  pose proof (sort_by_perm MetaheuristicSolver.ind_H pool) as Hp.
  destruct (sort_by MetaheuristicSolver.ind_H pool) as [|top rest] eqn:E.
  - apply Permutation_length in Hp. simpl in Hp. lia.
  - exists top, rest. split; [reflexivity|]. split.
    + rewrite Forall_forall in *. intros t Ht. apply Hgood.
      eapply Permutation_in; [exact Hp|exact Ht].
    + now apply Permutation_length.
Qed.

Section Totality.
Variable self : MetaheuristicSolver.t.
Variable rnd : Random.t.

Let inst : Instance.t := MetaheuristicSolver.instance self.
Let ar : bool := MetaheuristicSolver.allow_rotation self.
Let n : nat := List.length (Instance.rectangles inst).

Hypothesis ids_unique : NoDup (map Rectangle.id (Instance.rectangles inst)).
Hypothesis widths_fit :
  Forall (fun r => oriented_width ar r <= Instance.W inst) (Instance.rectangles inst).
Hypothesis fair : shuffles rnd inst.
Hypothesis ranged : in_range rnd n (MetaheuristicSolver.population self).
Hypothesis two : (2 <= n)%nat.

Let good (t : MetaheuristicSolver.individual) : Prop :=
  candidate inst (MetaheuristicSolver.ind_perm t) (MetaheuristicSolver.ind_bits t) /\ True.

Lemma trivially_decoded (perm bits : list Z) (sol : Solution.t) :
  candidate inst perm bits -> MetaheuristicSolver._decode self perm bits = Ok sol -> True.
Proof. auto. Qed.

Lemma tabu_move_total (g m : nat) (perm bits : list Z)
      (tabu : list MetaheuristicSolver.tabu_key) (nb : list MetaheuristicSolver.individual) :
  candidate inst perm bits -> Forall good nb ->
  exists nb', MetaheuristicSolver.tabu_move self rnd g perm bits tabu nb m = Ok nb'
              /\ Forall good nb'.
Proof.
  intros Hc Hnb.
  assert (Hkeep : forall nb', MetaheuristicSolver.tabu_move self rnd g perm bits tabu nb m
                              = Ok nb' -> Forall good nb').
  { intros nb' E.
    exact (tabu_move_keeps self rnd (fun _ => True) trivially_decoded
                           g m perm bits tabu nb nb' Hc Hnb E). }
  destruct (candidate_length _ _ _ Hc) as [Hlp Hlb]. fold n in Hlp, Hlb.
  destruct (ir_sample _ _ _ ranged g m) as [Hi Hj].
  pose proof (ir_randrange _ _ _ ranged g m) as Hk.
  revert Hkeep.
  unfold MetaheuristicSolver.tabu_move, sample2, randrange. rewrite Hlp, Hlb.
  destruct (Nat.ltb_spec n 2) as [H|_]; [lia|]. simpl.
  destruct (py_get_total perm (fst (Random.sample rnd g m))) as (pi & ->); [lia|].
  destruct (py_get_total perm (snd (Random.sample rnd g m))) as (pj & ->); [lia|].
  simpl.
  destruct (MetaheuristicSolver.in_tabu _ tabu); [intros _; now exists nb|].
  destruct (swap_total perm (fst (Random.sample rnd g m)) (snd (Random.sample rnd g m)))
    as (cp & Ecp); [lia|lia|]. rewrite Ecp. simpl.
  assert (Hcb : exists cb,
             (if Random.coin rnd g m
              then k <- (if (n =? 0)%nat then Raise ValueError
                         else Ok (Random.randrange rnd g m)) ;; flip bits k
              else Ok bits) = Ok cb /\ candidate inst cp cb).
  { destruct (Random.coin rnd g m).
    - destruct (Nat.eqb_spec n 0) as [H|_]; [lia|]. simpl.
      destruct (flip_total bits (Random.randrange rnd g m)) as (cb & Ecb); [lia|].
      exists cb. split; [exact Ecb|].
      eapply flip_candidate; [|exact Ecb]. eapply swap_candidate; [exact Hc|exact Ecp].
    - exists bits. split; [reflexivity|]. eapply swap_candidate; [exact Hc|exact Ecp]. }
  destruct Hcb as (cb & -> & Hc'). simpl.
  destruct (decode_total self cp cb ids_unique widths_fit Hc') as (cs & ->). simpl.
  intros Hkeep. eexists; split; [reflexivity|]. now apply Hkeep.
Qed.

Lemma tabu_loop_total (tenure : nat) (gs : list nat) :
  forall perm bits best tabu,
    candidate inst perm bits ->
    exists o, MetaheuristicSolver.tabu_loop self rnd tenure gs perm bits best tabu = Ok o
              /\ (o = None -> MetaheuristicSolver.timed self = false).
Proof.
  induction gs as [|g gs IH]; intros perm bits best tabu Hc.
  - simpl. destruct (MetaheuristicSolver.timed self);
      eexists; (split; [reflexivity|]); [discriminate|reflexivity].
  - rewrite tabu_loop_round.
    destruct (for_each_total (MetaheuristicSolver.tabu_move self rnd g perm bits tabu)
                (Forall good) (seq 0 30)) with (st := @nil MetaheuristicSolver.individual)
      as (nb & -> & Hnb).
    + intros st m _ Hst. now apply tabu_move_total.
    + constructor.
    + simpl.
      destruct (sort_by MetaheuristicSolver.ind_H nb) as [|top rest] eqn:Es;
        [exists (Some best); split; [reflexivity|discriminate]|].
      assert (Htop : good top).
      { rewrite Forall_forall in Hnb. apply Hnb.
        eapply Permutation_in; [apply sort_by_perm|]. rewrite Es. now left. }
      destruct Htop as [Hct _].
      destruct (candidate_length _ _ _ Hct) as [Hlp _]. fold n in Hlp.
      destruct (py_index_ends (MetaheuristicSolver.ind_perm top))
        as [(p0 & ->) (pl & ->)].
      { intros E. rewrite E in Hlp. simpl in Hlp. lia. }
      simpl. apply IH. exact Hct.
Qed.

Lemma run_tabu_total (fuel : nat) :
  exists o, MetaheuristicSolver._run_tabu self rnd fuel = Ok o
            /\ (o = None -> MetaheuristicSolver.timed self = false).
Proof.
  unfold MetaheuristicSolver._run_tabu.
  destruct (random_solution_total self (Random.shuffle rnd 0) (Random.randint rnd 0) (fair 0%nat))
    as (pb & -> & Hc). cbn [bind].
  destruct (decode_total self _ _ ids_unique widths_fit Hc) as (cur & ->). cbn [bind].
  now apply tabu_loop_total.
Qed.

Lemma ga_child_total (g c : nat) (pool new_pool : list MetaheuristicSolver.individual) :
  Forall good pool -> List.length pool = MetaheuristicSolver.population self ->
  Forall good new_pool ->
  exists np', MetaheuristicSolver.ga_child self rnd g pool new_pool c = Ok np'
              /\ Forall good np'.
Proof.
  intros Hpool Hlen Hnp.
  assert (Hkeep : forall np', MetaheuristicSolver.ga_child self rnd g pool new_pool c = Ok np' ->
                              Forall good np').
  { intros np' E.
    exact (ga_child_keeps self rnd (fun _ => True) ids_unique trivially_decoded
                          g c pool new_pool np' Hpool Hnp E). }
  revert Hkeep. unfold MetaheuristicSolver.ga_child.
  set (parents := firstn _ pool).
  assert (Hpl : List.length parents
                = Nat.min (Nat.max 2 (MetaheuristicSolver.population self / 2))
                          (MetaheuristicSolver.population self)).
  { unfold parents. now rewrite length_firstn, Hlen. }
  assert (Hpar : forall t, In t parents -> good t).
  { intros t Ht. rewrite Forall_forall in Hpool. apply Hpool.
    unfold parents in Ht. eapply in_firstn; eauto. }
  destruct (py_choice_total parents (Random.choice rnd g (2 * c))) as (p1 & -> & Hp1).
  { rewrite Hpl. apply (ir_choice _ _ _ ranged). }
  destruct (py_choice_total parents (Random.choice rnd g (2 * c + 1))) as (p2 & -> & Hp2).
  { rewrite Hpl. apply (ir_choice _ _ _ ranged). }
  cbn [bind].
  destruct (Hpar _ Hp1) as [[Hperm1 Hl1] _]. destruct (Hpar _ Hp2) as [[Hperm2 Hl2] _].
  assert (Hn1 : List.length (MetaheuristicSolver.ind_perm p1) = n)
    by (rewrite (Permutation_length Hperm1), length_map; reflexivity).
  assert (Hn2 : List.length (MetaheuristicSolver.ind_perm p2) = n)
    by (rewrite (Permutation_length Hperm2), length_map; reflexivity).
  destruct (ir_cut _ _ _ ranged g c) as [Hc1 Hc2].
  destruct (ox_crossover_result (MetaheuristicSolver.ind_perm p1)
              (MetaheuristicSolver.ind_perm p2) (Random.cut rnd g c)) as (Eox & _ & _).
  { eapply Permutation_NoDup; [symmetry; exact Hperm1|exact ids_unique]. }
  { rewrite Hperm1. now symmetry. }
  { rewrite Hn1. exact two. }
  { rewrite Hn1. lia. }
  rewrite Eox. cbn [bind].
  set (child := firstn _ _ ++ _ ++ _) in *.
  assert (Hchild : Permutation child (MetaheuristicSolver.ind_perm p2)).
  { apply (ox_crossover_perm (MetaheuristicSolver.ind_perm p1) _ (Random.cut rnd g c)).
    - eapply Permutation_NoDup; [symmetry; exact Hperm1|exact ids_unique].
    - rewrite Hperm1. now symmetry.
    - exact Eox. }
  set (cbits := MetaheuristicSolver._bit_crossover _ _ _).
  assert (Hcb : List.length cbits = List.length child).
  { unfold cbits. rewrite bit_crossover_length by lia.
    rewrite (Permutation_length Hchild). lia. }
  assert (Hcn : List.length child = n) by (rewrite (Permutation_length Hchild); exact Hn2).
  destruct (ir_sample _ _ _ ranged g c) as [Hs1 Hs2].
  destruct (mutate_total child cbits (Random.coin rnd g c) (Random.sample rnd g c)
                         (Random.flips rnd g c)) as ([mp mb] & Em); [exact Hcb|lia|lia|].
  rewrite Em. cbn [bind fst snd].
  assert (Hcm : candidate inst mp mb).
  { eapply mutate_candidate; [|exact Em]. split; [|exact Hcb].
    rewrite Hchild. exact Hperm2. }
  destruct (decode_total self mp mb ids_unique widths_fit Hcm) as (sol & ->). cbn [bind].
  intros Hkeep. eexists; split; [reflexivity|]. now apply Hkeep.
Qed.

Lemma init_step_total (pool : list MetaheuristicSolver.individual) (k : nat) :
  Forall good pool ->
  exists pool', MetaheuristicSolver.init_step self rnd pool k = Ok pool' /\ Forall good pool'.
Proof.
  intros Hpool. unfold MetaheuristicSolver.init_step.
  destruct (random_solution_total self (Random.shuffle rnd k) (Random.randint rnd k) (fair k))
    as (pb & -> & Hc). cbn [bind].
  destruct (decode_total self _ _ ids_unique widths_fit Hc) as (sol & ->). cbn [bind].
  eexists; split; [reflexivity|].
  apply Forall_app. split; [exact Hpool|]. constructor; [|constructor].
  split; [exact Hc|exact I].
Qed.

Hypothesis populated : (1 <= MetaheuristicSolver.population self)%nat.

Lemma ga_generation_total (st : list MetaheuristicSolver.individual * Solution.t) (g : nat) :
  Forall good (fst st) /\ List.length (fst st) = MetaheuristicSolver.population self ->
  exists st', MetaheuristicSolver.ga_generation self rnd st g = Ok st'
              /\ Forall good (fst st')
              /\ List.length (fst st') = MetaheuristicSolver.population self.
Proof.
  destruct st as [pool best]. simpl. intros [Hpool Hlen].
  unfold MetaheuristicSolver.ga_generation.
  set (elites := firstn (MetaheuristicSolver.elite self) pool).
  assert (Hel : Forall good elites).
  { rewrite Forall_forall in *. intros t Ht. apply Hpool. eapply in_firstn; eauto. }
  destruct (for_each_total (MetaheuristicSolver.ga_child self rnd g pool) (Forall good)
              (seq 0 (MetaheuristicSolver.population self - List.length elites)))
    with (st := elites) as (np & Enp & Hnp).
  - intros np c _ Hnp. now apply ga_child_total.
  - exact Hel.
  - rewrite Enp. cbn [bind].
    pose proof (ga_child_loop_length _ _ _ _ _ _ _ Enp) as Hl. rewrite length_seq in Hl.
    assert (Hle : (List.length elites <= MetaheuristicSolver.population self)%nat).
    { unfold elites. rewrite length_firstn. lia. }
    destruct (sorted_nonempty good np) as (top & rest & -> & Hg & Hl'); [lia|exact Hnp|].
    eexists; split; [reflexivity|]. simpl fst. split; [exact Hg|]. rewrite Hl'. lia.
Qed.

Lemma run_ga_total : exists sol, MetaheuristicSolver._run_ga self rnd = Ok sol.
Proof.
  unfold MetaheuristicSolver._run_ga.
  destruct (for_each_total (MetaheuristicSolver.init_step self rnd) (Forall good)
              (seq 0 (MetaheuristicSolver.population self)))
    with (st := @nil MetaheuristicSolver.individual) as (pool & Epool & Hpool).
  - intros pool k _ Hp. now apply init_step_total.
  - constructor.
  - rewrite Epool. cbn [bind].
    pose proof (init_loop_length _ _ _ _ _ Epool) as Hl. rewrite length_seq in Hl. simpl in Hl.
    destruct (sorted_nonempty good pool) as (top & rest & -> & Hg & Hl'); [lia|exact Hpool|].
    destruct (for_each_total (MetaheuristicSolver.ga_generation self rnd)
                (fun st => Forall good (fst st)
                           /\ List.length (fst st) = MetaheuristicSolver.population self)
                (seq 0 (Random.rounds rnd)))
      with (st := (top :: rest, MetaheuristicSolver.ind_sol top)) as (st & -> & _).
    + intros st g _ Hst. destruct (ga_generation_total st g Hst) as (st' & E & H1 & H2).
      exists st'. auto.
    + simpl fst. split; [exact Hg|]. rewrite Hl'. lia.
    + cbn [bind]. eexists; reflexivity.
Qed.
End Totality.

Section Annealing.
Variable self : MetaheuristicSolver.t.
Variable rnd : Random.t.

Let inst : Instance.t := MetaheuristicSolver.instance self.
Let ar : bool := MetaheuristicSolver.allow_rotation self.
Let n : nat := List.length (Instance.rectangles inst).

Hypothesis wf : well_formed inst.
Hypothesis widths_fit :
  Forall (fun r => oriented_width ar r <= Instance.W inst) (Instance.rectangles inst).
Hypothesis fair : shuffles rnd inst.
Hypothesis ranged : in_range rnd n (MetaheuristicSolver.population self).
Hypothesis two : (2 <= n)%nat.
Hypothesis heights : py_sum (map Rectangle.h (Instance.rectangles inst)) < 2 ^ 1023.

(** A state of the loop: a candidate, and a current solution of
    non-negative height. *)
Let calm (st : list Z * list Z * Solution.t * Solution.t) : Prop :=
  candidate inst (fst (fst (fst st))) (snd (fst (fst st)))
  /\ 0 <= Solution.H (snd (fst st)).

Lemma sa_step_total (st : list Z * list Z * Solution.t * Solution.t) (it : nat) :
  calm st ->
  exists st', MetaheuristicSolver.sa_step self rnd st it = Ok st' /\ calm st'.
Proof.
  destruct st as [[[p b] cur] best]. unfold calm. simpl. intros [Hc Hcur].
  destruct (candidate_length _ _ _ Hc) as [Hlp Hlb]. fold n in Hlp, Hlb.
  destruct (ir_sample _ _ _ ranged it 0%nat) as [Hi Hj].
  pose proof (ir_randrange _ _ _ ranged it 0%nat) as Hk.
  unfold MetaheuristicSolver.sa_step, sample2, randrange. rewrite Hlp, Hlb.
  destruct (Nat.ltb_spec n 2) as [H|_]; [lia|]. cbn [bind].
  destruct (swap_total p (fst (Random.sample rnd it 0)) (snd (Random.sample rnd it 0)))
    as (cp & Ecp); [lia|lia|]. rewrite Ecp. cbn [bind].
  destruct (Nat.eqb_spec n 0) as [H|_]; [lia|]. cbn [bind].
  destruct (flip_total b (Random.randrange rnd it 0)) as (cb & Ecb); [lia|].
  rewrite Ecb. cbn [bind].
  assert (Hc' : candidate inst cp cb).
  { eapply flip_candidate; [|exact Ecb]. eapply swap_candidate; [exact Hc|exact Ecp]. }
  destruct (decode_total self cp cb (wf_ids _ wf) widths_fit Hc') as (cs & Ecs).
  rewrite Ecs. cbn [bind].
  pose proof (decode_height_range self cp cb cs wf Hc' Ecs) as Hcs. fold inst in Hcs.
  destruct (Z.ltb_spec (Solution.H cs - Solution.H cur) 0) as [Hlt|Hge].
  - eexists; split; [reflexivity|]. simpl. split; [exact Hc'|lia].
  - destruct (py_truediv_returns (- (Solution.H cs - Solution.H cur)) 1) as (f & Ef);
      [lia|lia|].
    unfold py_float. rewrite Ef. cbn [bind].
    destruct (Random.coin rnd it 0); eexists; (split; [reflexivity|]); simpl.
    + split; [exact Hc'|lia].
    + split; [exact Hc|exact Hcur].
Qed.

Lemma run_sa_total : exists sol, MetaheuristicSolver._run_sa self rnd = Ok sol.
Proof.
  unfold MetaheuristicSolver._run_sa.
  destruct (random_solution_total self (Random.shuffle rnd 0) (Random.randint rnd 0) (fair 0%nat))
    as (pb & -> & Hc). cbn [bind].
  destruct (decode_total self _ _ (wf_ids _ wf) widths_fit Hc) as (cur & Ecur).
  rewrite Ecur. cbn [bind].
  pose proof (decode_height_range self _ _ cur wf Hc Ecur) as Hcur.
  destruct (for_each_total (MetaheuristicSolver.sa_step self rnd) calm
              (seq 0 (MetaheuristicSolver.sa_rounds self rnd)))
    with (st := (fst pb, snd pb, cur, cur)) as (st & -> & _).
  - intros st it _ Hst. now apply sa_step_total.
  - unfold calm. simpl. split; [exact Hc|lia].
  - cbn [bind]. eexists; reflexivity.
Qed.
End Annealing.

(** X17.  On an instance with at least two rectangles, distinct ids and
    every oriented width within the strip, no strategy raises, for every
    random source that shuffles the ids and answers inside the ranges it is
    asked for; a loop that tests the clock against a time limit is left
    after the finitely many rounds the source gives for it.  The genetic
    algorithm (with a population of at least one),
    simulated annealing (on a well-formed instance whose heights add up to
    less than 2^1023, so that no height difference is beyond the floats)
    and tabu search with a time limit return a solution.  Tabu search
    without a time limit returns one or is still running, however many
    rounds are looked at. *)
Theorem strategies_return (self : MetaheuristicSolver.t) (rnd : Random.t) (fuel : nat) :
  NoDup (map Rectangle.id (Instance.rectangles (MetaheuristicSolver.instance self))) ->
  Forall (fun r => oriented_width (MetaheuristicSolver.allow_rotation self) r
                   <= Instance.W (MetaheuristicSolver.instance self))
         (Instance.rectangles (MetaheuristicSolver.instance self)) ->
  (2 <= List.length (Instance.rectangles (MetaheuristicSolver.instance self)))%nat ->
  shuffles rnd (MetaheuristicSolver.instance self) ->
  in_range rnd (List.length (Instance.rectangles (MetaheuristicSolver.instance self)))
           (MetaheuristicSolver.population self) ->
  (MetaheuristicSolver.strategy_ self = GA ->
   (1 <= MetaheuristicSolver.population self)%nat) ->
  (MetaheuristicSolver.strategy_ self = SA ->
   well_formed (MetaheuristicSolver.instance self)
   /\ py_sum (map Rectangle.h (Instance.rectangles (MetaheuristicSolver.instance self)))
      < 2 ^ 1023) ->
  exists o, MetaheuristicSolver.solve self rnd fuel = Ok o
            /\ (o = None -> MetaheuristicSolver.strategy_ self = Tabu
                            /\ MetaheuristicSolver.timed self = false).
Proof.
  intros Hnd Hfit Htwo Hfair Hrange Hpop Hsa. unfold MetaheuristicSolver.solve.
  destruct (MetaheuristicSolver.strategy_ self).
  - destruct (run_ga_total self rnd Hnd Hfit Hfair Hrange Htwo (Hpop eq_refl)) as (sol & ->).
    cbn [bind]. eexists; split; [reflexivity|discriminate].
  - destruct (Hsa eq_refl) as [Hwf Hh].
    destruct (run_sa_total self rnd Hwf Hfit Hfair Hrange Htwo Hh) as (sol & ->).
    cbn [bind]. eexists; split; [reflexivity|discriminate].
  - destruct (run_tabu_total self rnd Hnd Hfit Hfair Hrange Htwo fuel) as (o & -> & Ho).
    exists o. split; [reflexivity|]. intros E. split; [reflexivity|exact (Ho E)].
Qed.

Lemma strategies_return_witness :
  exists o,
    MetaheuristicSolver.solve (MetaheuristicSolver.mk kerf_instance true SA (Some 5%Q) 4 1)
                              (steady_source [1; 2] 2) 0 = Ok o
    /\ (o = None -> SA = Tabu /\ true = false).
Proof.
  apply (strategies_return (MetaheuristicSolver.mk kerf_instance true SA (Some 5%Q) 4 1)
                           (steady_source [1; 2] 2) 0).
  - simpl. repeat constructor; simpl; intuition discriminate.
  - simpl. repeat constructor; vm_compute; discriminate.
  - simpl. lia.
  - intros k. simpl. apply Permutation_refl.
  - constructor; simpl; intros; lia.
  - discriminate.
  - intros _. split; [exact kerf_instance_well_formed|vm_compute; reflexivity].
Defined.

(** ** Fewer than two rectangles *)

Lemma for_each_first_raises {S A : Type} (body : S -> A -> result S) (a : A) (l : list A)
      (st : S) (e : exn) :
  body st a = Raise e -> for_each body (a :: l) st = Raise e.
Proof. intros E. simpl. now rewrite E. Qed.

(** X16.  With fewer than two rectangles every strategy that enters its
    loop raises [ValueError]: the first swap or crossover asks
    [random.sample] for two positions out of fewer.  (The genetic algorithm
    gets there when it has a child to breed, that is with [elite] below
    [population].) *)
Theorem strategies_raise_below_two_rectangles (self : MetaheuristicSolver.t)
        (rnd : Random.t) (fuel : nat) :
  NoDup (map Rectangle.id (Instance.rectangles (MetaheuristicSolver.instance self))) ->
  Forall (fun r => oriented_width (MetaheuristicSolver.allow_rotation self) r
                   <= Instance.W (MetaheuristicSolver.instance self))
         (Instance.rectangles (MetaheuristicSolver.instance self)) ->
  (List.length (Instance.rectangles (MetaheuristicSolver.instance self)) < 2)%nat ->
  shuffles rnd (MetaheuristicSolver.instance self) ->
  (1 <= MetaheuristicSolver.rounds_allowed self rnd fuel)%nat ->
  (MetaheuristicSolver.strategy_ self = GA ->
   (MetaheuristicSolver.elite self < MetaheuristicSolver.population self)%nat
   /\ forall c, (Random.choice rnd 0 c
                 < Nat.min (Nat.max 2 (MetaheuristicSolver.population self / 2))
                           (MetaheuristicSolver.population self))%nat) ->
  MetaheuristicSolver.solve self rnd fuel = Raise ValueError.
Proof.
  intros Hnd Hfit Hn Hfair Hrounds Hga.
  unfold MetaheuristicSolver.rounds_allowed in Hrounds. revert Hrounds.
  unfold MetaheuristicSolver.solve.
  assert (Hsample : forall (l : list Z) drawn,
             List.length l = List.length (Instance.rectangles (MetaheuristicSolver.instance self)) ->
             sample2 (List.length l) drawn = Raise ValueError).
  { intros l drawn ->. unfold sample2.
    destruct (Nat.ltb_spec (List.length (Instance.rectangles (MetaheuristicSolver.instance self))) 2);
      [reflexivity|lia]. }
  destruct (MetaheuristicSolver.strategy_ self) eqn:Estrat; intros Hrounds.
  - (* GA *)
    destruct (Hga eq_refl) as [Helite Hchoice].
    assert (E : MetaheuristicSolver._run_ga self rnd = Raise ValueError);
      [|now rewrite E].
    unfold MetaheuristicSolver._run_ga.
    destruct (for_each_total (MetaheuristicSolver.init_step self rnd)
                (Forall (fun t => candidate (MetaheuristicSolver.instance self)
                                            (MetaheuristicSolver.ind_perm t)
                                            (MetaheuristicSolver.ind_bits t) /\ True))
                (seq 0 (MetaheuristicSolver.population self)))
      with (st := @nil MetaheuristicSolver.individual) as (pool & Epool & Hpool).
    { intros pool k _ Hp. now apply init_step_total. }
    { constructor. }
    rewrite Epool. cbn [bind].
    pose proof (init_loop_length _ _ _ _ _ Epool) as Hl. rewrite length_seq in Hl. simpl in Hl.
    destruct (sorted_nonempty _ pool ltac:(lia) Hpool) as (top & rest & -> & Hg & Hl').
    destruct (Random.rounds rnd) as [|k]; [lia|].
    cbn [seq]. rewrite (for_each_first_raises _ _ _ _ ValueError); [reflexivity|].
    unfold MetaheuristicSolver.ga_generation.
    set (elites := firstn (MetaheuristicSolver.elite self) (top :: rest)).
    assert (Hel : List.length elites = MetaheuristicSolver.elite self).
    { unfold elites. rewrite length_firstn. lia. }
    destruct (MetaheuristicSolver.population self - List.length elites)%nat as [|cnt] eqn:Ec;
      [lia|].
    cbn [seq]. rewrite (for_each_first_raises _ _ _ _ ValueError); [reflexivity|].
    unfold MetaheuristicSolver.ga_child.
    set (parents := firstn _ (top :: rest)).
    assert (Hpl : List.length parents
                  = Nat.min (Nat.max 2 (MetaheuristicSolver.population self / 2))
                            (MetaheuristicSolver.population self)).
    { unfold parents. rewrite length_firstn. f_equal. lia. }
    destruct (py_choice_total parents (Random.choice rnd 0 (2 * 0))) as (p1 & -> & Hp1).
    { rewrite Hpl. apply Hchoice. }
    destruct (py_choice_total parents (Random.choice rnd 0 (2 * 0 + 1))) as (p2 & -> & Hp2).
    { rewrite Hpl. apply Hchoice. }
    cbn [bind].
    assert (Hc1 : candidate (MetaheuristicSolver.instance self)
                            (MetaheuristicSolver.ind_perm p1) (MetaheuristicSolver.ind_bits p1)).
    { rewrite Forall_forall in Hg. apply Hg. unfold parents in Hp1. eapply in_firstn; eauto. }
    unfold MetaheuristicSolver._ox_crossover.
    rewrite Hsample; [reflexivity|]. apply (candidate_length _ _ _ Hc1).
  - (* SA *)
    assert (E : MetaheuristicSolver._run_sa self rnd = Raise ValueError);
      [|now rewrite E].
    unfold MetaheuristicSolver._run_sa.
    destruct (random_solution_total self (Random.shuffle rnd 0) (Random.randint rnd 0)
                                    (Hfair 0%nat)) as (pb & -> & Hc). cbn [bind].
    destruct (decode_total self _ _ Hnd Hfit Hc) as (cur & ->). cbn [bind].
    destruct (MetaheuristicSolver.sa_rounds self rnd) as [|k] eqn:Ek; [lia|].
    cbn [seq]. rewrite (for_each_first_raises _ _ _ _ ValueError); [reflexivity|].
    unfold MetaheuristicSolver.sa_step.
    rewrite Hsample; [reflexivity|]. apply (candidate_length _ _ _ Hc).
  - (* Tabu *)
    unfold MetaheuristicSolver._run_tabu.
    destruct (random_solution_total self (Random.shuffle rnd 0) (Random.randint rnd 0)
                                    (Hfair 0%nat)) as (pb & -> & Hc). cbn [bind].
    destruct (decode_total self _ _ Hnd Hfit Hc) as (cur & ->). cbn [bind].
    destruct (MetaheuristicSolver.tabu_rounds self rnd fuel) as [|k]; [lia|].
    cbn [seq]. rewrite tabu_loop_round.
    change (seq 0 30) with (0%nat :: seq 1 29).
    rewrite (for_each_first_raises _ _ _ _ ValueError); [reflexivity|].
    unfold MetaheuristicSolver.tabu_move.
    rewrite Hsample; [reflexivity|]. apply (candidate_length _ _ _ Hc).
Qed.

Lemma strategies_raise_below_two_witness :
  MetaheuristicSolver.solve (MetaheuristicSolver.mk flat_instance true Tabu None 40 4)
                            (steady_source [1] 0) 1 = Raise ValueError.
Proof.
  apply strategies_raise_below_two_rectangles.
  - simpl. repeat constructor. intros [].
  - simpl. repeat constructor; vm_compute; discriminate.
  - simpl. lia.
  - intros k. simpl. apply Permutation_refl.
  - vm_compute. lia.
  - discriminate.
Defined.

Lemma maxh_lb_nonempty (inst : Instance.t) (ar : bool) :
  Instance.rectangles inst <> [] -> exists m, Instance.maxh_lb inst ar = Ok m.
Proof.
  intros Hne. unfold Instance.maxh_lb.
  destruct ar; apply py_max_nonempty;
    destruct (Instance.rectangles inst); simpl; congruence.
Qed.

Lemma ordered_weaken {A : Type} (R R' : A -> A -> Prop) (l : list A) :
  (forall a b, R a b -> R' a b) -> ForallOrdPairs R l -> ForallOrdPairs R' l.
Proof.
  intros H. induction 1 as [|a l Ha Hl IH]; constructor; [|exact IH].
  eapply Forall_impl; [|exact Ha]. auto.
Qed.

(** ** Feasibility of what the level model returns *)

Lemma sumZ_member_le {A : Type} (f : A -> Z) (l : list A) (a : A) :
  (forall x, In x l -> 0 <= f x) -> In a l -> f a <= LevelMilpSolver.sumZ f l.
Proof.
  induction l as [|b l IH]; intros Hf Ha; [contradiction|].
  rewrite sumZ_cons.
  assert (0 <= LevelMilpSolver.sumZ f l) by (apply sumZ_nonneg; intros; apply Hf; now right).
  pose proof (Hf b (or_introl eq_refl)).
  destruct Ha as [->|Ha]; [lia|].
  assert (f a <= LevelMilpSolver.sumZ f l) by (apply IH; auto; intros; apply Hf; now right).
  lia.
Qed.

Lemma sumZ_filter_eq {A : Type} (f g : A -> Z) (p : A -> bool) (l : list A) :
  (forall x, In x l -> p x = false -> g x = 0) ->
  (forall x, In x l -> p x = true -> f x = g x) ->
  LevelMilpSolver.sumZ f (filter p l) = LevelMilpSolver.sumZ g l.
Proof.
  induction l as [|a l IH]; intros H0 H1; simpl; [reflexivity|].
  rewrite sumZ_cons.
  assert (IH' : LevelMilpSolver.sumZ f (filter p l) = LevelMilpSolver.sumZ g l)
    by (apply IH; intros; [apply H0|apply H1]; auto; now right).
  destruct (p a) eqn:Ea.
  - rewrite sumZ_cons, IH', (H1 a (or_introl eq_refl) Ea). reflexivity.
  - rewrite IH', (H0 a (or_introl eq_refl) Ea). lia.
Qed.

Lemma sumZ_ones {A : Type} (l : list A) :
  LevelMilpSolver.sumZ (fun _ => 1) l = Z.of_nat (List.length l).
Proof.
  induction l as [|a l IH]; [reflexivity|].
  rewrite sumZ_cons, IH. simpl List.length. lia.
Qed.

Lemma ordered_app {A : Type} (R : A -> A -> Prop) (l1 l2 : list A) :
  ForallOrdPairs R l1 -> ForallOrdPairs R l2 ->
  (forall a b, In a l1 -> In b l2 -> R a b) ->
  ForallOrdPairs R (l1 ++ l2).
Proof.
  induction 1 as [|a l1 Ha Hl1 IH]; intros H2 Hc; simpl; [exact H2|].
  constructor.
  - apply Forall_app. split; [exact Ha|].
    rewrite Forall_forall. intros b Hb. apply Hc; [now left|exact Hb].
  - apply IH; [exact H2|]. intros x y Hx Hy. apply Hc; [now right|exact Hy].
Qed.

Section LevelFeasible.
Variable self : LevelMilpSolver.t.
Variable v : LevelValues.t.

Let inst : Instance.t := LevelMilpSolver.instance self.
Let rects : list Rectangle.t := Instance.rectangles inst.
Let ids : list Z := map Rectangle.id rects.
Let L : list nat := LevelMilpSolver.range (LevelMilpSolver.levels self).
Let ar : bool := LevelMilpSolver.allow_rotation self.
Let d : Z := Instance.kerf_delta inst.

Hypothesis Hwf : well_formed inst.
Hypothesis Hmodel : LevelMilpSolver.model self v.

Lemma level_share (rid : Z) (ell : nat) :
  In rid ids -> In ell L ->
  LevelValues.zH v rid ell + LevelMilpSolver.zV_term self v rid ell <= 1.
Proof.
  intros Hrid Hell.
  pose proof (LevelMilpSolver.assignment _ _ Hmodel _ Hrid) as Ha. fold L in Ha.
  rewrite <- Ha.
  apply (sumZ_member_le
           (fun e => LevelValues.zH v rid e + LevelMilpSolver.zV_term self v rid e) L ell);
    [|exact Hell].
  intros e He. destruct (level_binary self v Hmodel rid e Hrid He) as (? & ? & _). lia.
Qed.

Lemma level_term (rid : Z) (ell : nat) :
  In rid ids -> In ell L ->
  let cnt := LevelValues.zH v rid ell + LevelMilpSolver.zV_term self v rid ell in
  let term := LevelMilpSolver.rect_w self rid * LevelValues.zH v rid ell
              + LevelMilpSolver.rect_h self rid * LevelMilpSolver.zV_term self v rid ell in
  if LevelMilpSolver.on_level self v ell rid
  then cnt = 1 /\ term = level_eff_w self v ell rid
  else cnt = 0 /\ term = 0.
Proof.
  intros Hrid Hell cnt term. unfold cnt, term.
  destruct (level_binary self v Hmodel rid ell Hrid Hell) as (BH & BVt & BV).
  pose proof (level_share rid ell Hrid Hell) as Hs.
  unfold level_eff_w, LevelMilpSolver.on_level, LevelMilpSolver.is_rotated,
    LevelMilpSolver.zV_term in *.
  fold ar in BVt, Hs, BV |- *.
  destruct ar; simpl.
  - specialize (BV eq_refl).
    destruct (0 <? LevelValues.zV v rid ell) eqn:EV;
      destruct (0 <? LevelValues.zH v rid ell) eqn:EH; simpl;
      rewrite ?Z.ltb_lt, ?Z.ltb_ge in *.
    + lia.
    + assert (LevelValues.zV v rid ell = 1) by lia.
      assert (LevelValues.zH v rid ell = 0) by lia. split; nia.
    + assert (LevelValues.zH v rid ell = 1) by lia.
      assert (LevelValues.zV v rid ell = 0) by lia. split; nia.
    + assert (LevelValues.zH v rid ell = 0) by lia.
      assert (LevelValues.zV v rid ell = 0) by lia. split; nia.
  - rewrite orb_false_r.
    destruct (0 <? LevelValues.zH v rid ell) eqn:EH; rewrite ?Z.ltb_lt, ?Z.ltb_ge in *.
    + assert (LevelValues.zH v rid ell = 1) by lia. split; nia.
    + assert (LevelValues.zH v rid ell = 0) by lia. split; nia.
Qed.

Lemma level_width_kerf (ell : nat) :
  In ell L ->
  filter (LevelMilpSolver.on_level self v ell) ids <> [] ->
  LevelMilpSolver.sumZ (level_eff_w self v ell)
                       (filter (LevelMilpSolver.on_level self v ell) ids)
  + d * (Z.of_nat (List.length (filter (LevelMilpSolver.on_level self v ell) ids)) - 1)
  <= Instance.W inst.
Proof.
  intros Hell Hne.
  pose proof (LevelMilpSolver.width_per_level _ _ Hmodel ell Hell) as Hw.
  cbv zeta in Hw. fold inst rects ids d in Hw.
  rewrite <- (sumZ_filter_eq (level_eff_w self v ell) _
                (LevelMilpSolver.on_level self v ell) ids) in Hw.
  2:{ intros rid Hrid Hoff. pose proof (level_term rid ell Hrid Hell) as Ht.
      cbv zeta in Ht. rewrite Hoff in Ht. apply Ht. }
  2:{ intros rid Hrid Hon. pose proof (level_term rid ell Hrid Hell) as Ht.
      cbv zeta in Ht. rewrite Hon in Ht. symmetry. apply Ht. }
  rewrite <- (sumZ_filter_eq (fun _ => 1) _ (LevelMilpSolver.on_level self v ell) ids) in Hw.
  2:{ intros rid Hrid Hoff. pose proof (level_term rid ell Hrid Hell) as Ht.
      cbv zeta in Ht. rewrite Hoff in Ht. apply Ht. }
  2:{ intros rid Hrid Hon. pose proof (level_term rid ell Hrid Hell) as Ht.
      cbv zeta in Ht. rewrite Hon in Ht. symmetry. apply Ht. }
  rewrite sumZ_ones in Hw.
  assert (Hu : LevelValues.u v ell <= 1).
  { destruct (LevelMilpSolver.bounds_u _ _ Hmodel ell Hell); lia. }
  pose proof (wf_W _ Hwf) as HW. fold inst in HW. nia.
Qed.

Lemma row_geometry (ell : nat) (y : Z) :
  In ell L ->
  forall l st,
    (forall rid, In rid l -> In rid ids /\ LevelMilpSolver.on_level self v ell rid = true) ->
    exists r qs,
      for_each (LevelMilpSolver.place_step self v ell y) l st = Ok r
      /\ LevelMilpSolver.placed r = LevelMilpSolver.placed st ++ qs
      /\ Forall2 (level_slot self v ell y) l qs
      /\ LevelMilpSolver.x r
         = LevelMilpSolver.x st + LevelMilpSolver.sumZ (level_eff_w self v ell) l
           + d * (Z.of_nat (List.length l)
                  - (if LevelMilpSolver.first st
                     then (match l with [] => 0 | _ => 1 end) else 0))
      /\ LevelMilpSolver.x st <= LevelMilpSolver.x r
      /\ Forall (fun q => LevelMilpSolver.x st <= Placement.x q
                          /\ Placement.x q + Placement.w_eff q <= LevelMilpSolver.x r) qs
      /\ (LevelMilpSolver.first st = false ->
          Forall (fun q => LevelMilpSolver.x st + d <= Placement.x q) qs)
      /\ kerf_apart d qs.
Proof.
  intros Hell. pose proof (wf_kerf _ Hwf) as Hd. fold inst d in Hd.
  induction l as [|rid l IH]; intros st Hin.
  - exists st, []. simpl. rewrite app_nil_r, sumZ_nil.
    repeat split; try constructor; destruct (LevelMilpSolver.first st); lia.
  - destruct (Hin rid (or_introl eq_refl)) as [Hrid Hon].
    destruct (level_rect self Hwf rid Hrid) as (rc & _ & _ & El & Ew & Eh & _).
    destruct (level_on self v Hwf Hmodel rid ell Hrid Hell Hon) as (Hwpos & _).
    cbn [for_each]. unfold LevelMilpSolver.place_step at 1.
    rewrite El. cbn [bind]. fold inst.
    set (x1 := if LevelMilpSolver.first st then LevelMilpSolver.x st
               else LevelMilpSolver.x st + Instance.kerf_delta inst).
    set (wv := if LevelMilpSolver.is_rotated self v ell rid
               then Rectangle.h rc else Rectangle.w rc).
    set (q := Placement.mk rid x1 y wv _ _).
    assert (Ewv : wv = level_eff_w self v ell rid).
    { unfold wv, level_eff_w. now rewrite Ew, Eh. }
    destruct (IH (LevelMilpSolver.mk_row (x1 + wv) false (LevelMilpSolver.placed st ++ [q])))
      as (r & qs & Er & Epl & Hslots & Ex & Hle & Hqs & Hgap & Hap).
    { intros rid' Hr'. apply Hin. now right. }
    simpl in Epl, Ex, Hle, Hqs, Hgap. specialize (Hgap eq_refl).
    assert (Hx1 : LevelMilpSolver.x st <= x1)
      by (unfold x1; fold d; destruct (LevelMilpSolver.first st); lia).
    exists r, (q :: qs).
    split; [exact Er|]. split; [|split; [|split; [|split; [|split; [|split]]]]].
    + rewrite Epl, <- app_assoc. reflexivity.
    + constructor; [|exact Hslots].
      unfold level_slot, LevelMilpSolver.eff_h. simpl. rewrite Ewv, Ew, Eh. auto.
    + rewrite Ex, sumZ_cons, <- Ewv. unfold x1. fold d.
      change (List.length (rid :: l)) with (S (List.length l)). rewrite Nat2Z.inj_succ.
      destruct (LevelMilpSolver.first st); lia.
    + lia.
    + constructor; [simpl; lia|].
      eapply Forall_impl; [|exact Hqs]. simpl. intros q' [? ?]. lia.
    + intros Ef. constructor.
      * simpl. unfold x1. rewrite Ef. fold d. lia.
      * eapply Forall_impl; [|exact Hgap]. simpl. intros q' Hq'. lia.
    + constructor; [|exact Hap].
      eapply Forall_impl; [|exact Hgap]. simpl. intros q' Hq'. lia.
Qed.

Lemma level_step_stacked (st : Z * list Placement.t) (ell : nat) :
  In ell L -> stacked (Instance.W inst) d ids st ->
  exists st', LevelMilpSolver.level_step self v st ell = Ok st'
              /\ stacked (Instance.W inst) d ids st'
              /\ fst st' <= fst st + LevelValues.s v ell + d
              /\ (forall q, In q (snd st') ->
                            In q (snd st)
                            \/ HeuristicSolver.top q <= fst st + LevelValues.s v ell).
Proof.
  intros Hell I. destruct st as [y pl]. unfold LevelMilpSolver.level_step.
  pose proof (wf_W _ Hwf) as HW. pose proof (wf_kerf _ Hwf) as Hd. fold inst d in HW, Hd.
  pose proof (LevelMilpSolver.bounds_s _ _ Hmodel ell Hell) as Hs0.
  destruct (LevelValues.s v ell <=? 0) eqn:Es.
  { exists (y, pl). simpl. split; [reflexivity|]. split; [exact I|]. split; [lia|auto]. }
  apply Z.leb_gt in Es.
  replace (0 <? LevelValues.s v ell) with true by (symmetry; apply Z.ltb_lt; lia).
  fold inst rects ids d.
  set (on := filter (LevelMilpSolver.on_level self v ell) ids).
  set (ids_on := sort_by_reverse (LevelMilpSolver.eff_h self v ell) on).
  assert (Hperm : Permutation ids_on on) by apply sort_by_reverse_perm.
  assert (Hon : forall rid, In rid ids_on ->
                            In rid ids /\ LevelMilpSolver.on_level self v ell rid = true).
  { intros rid Hr. apply (Permutation_in _ Hperm) in Hr.
    unfold on in Hr. apply filter_In in Hr. exact Hr. }
  destruct (row_geometry ell y Hell ids_on (LevelMilpSolver.mk_row 0 true pl) Hon)
    as (r & qs & -> & Epl & Hslots & Ex & _ & Hqs & _ & Hap).
  cbn [bind]. eexists; split; [reflexivity|].
  simpl in Epl, Ex, Hqs.
  destruct (slots_in self v _ _ _ _ Hslots) as [Hq_of _].
  destruct I as [Iy Iin Iap]. simpl in Iy, Iin, Iap.
  assert (HxW : qs <> [] -> LevelMilpSolver.x r <= Instance.W inst).
  { intros Hne.
    assert (Hidn : ids_on <> []).
    { intros E. rewrite E in Hslots. inversion Hslots. congruence. }
    assert (Honn : on <> []).
    { intros E. rewrite E in Hperm. apply Permutation_sym, Permutation_nil in Hperm.
      congruence. }
    pose proof (level_width_kerf ell Hell Honn) as Hw. fold on in Hw.
    rewrite Ex, (sumZ_perm _ _ _ Hperm), (Permutation_length Hperm).
    destruct ids_on; [congruence|]. lia. }
  assert (Hq : forall q, In q qs ->
                         0 <= Placement.x q /\ Placement.y q = y
                         /\ Placement.x q + Placement.w_eff q <= Instance.W inst
                         /\ Placement.h_eff q <= LevelValues.s v ell
                         /\ In (Placement.rect_id q) ids).
  { intros q Hin. rewrite Forall_forall in Hqs. destruct (Hqs q Hin) as [Hx0 Hx1].
    destruct (Hq_of q Hin) as (rid & Hr & (Eid & Ey & _ & Eh)).
    destruct (Hon rid Hr) as [Hrid Ho].
    destruct (level_on self v Hwf Hmodel rid ell Hrid Hell Ho) as (_ & _ & Hs & _).
    assert (qs <> []) by (intros E; rewrite E in Hin; contradiction).
    specialize (HxW H). rewrite Eid, Eh. repeat split; auto; lia. }
  split; [|split; [simpl; lia|]].
  - constructor; simpl; rewrite ?Epl.
    + lia.
    + apply Forall_app. split.
      * eapply Forall_impl; [|exact Iin]. simpl. intros q (? & ? & ? & ? & ?).
        repeat split; auto; lia.
      * rewrite Forall_forall. intros q Hin.
        destruct (Hq q Hin) as (? & Ey & ? & ? & ?).
        unfold HeuristicSolver.top. rewrite Ey. repeat split; auto; lia.
    + apply ordered_app; [exact Iap|exact Hap|].
      intros a b Ha Hb. rewrite Forall_forall in Iin.
      destruct (Iin a Ha) as (_ & _ & _ & Hta & _). destruct (Hq b Hb) as (_ & Ey & _).
      unfold HeuristicSolver.top in *. lia.
  - simpl. rewrite Epl. intros q Hin. apply in_app_or in Hin as [Hin|Hin]; [now left|].
    right. destruct (Hq q Hin) as (_ & Ey & _ & Hh & _).
    unfold HeuristicSolver.top. lia.
Qed.

Lemma levels_stacked_from : forall ells st,
    (forall ell, In ell ells -> In ell L) -> stacked (Instance.W inst) d ids st ->
    exists st', for_each (LevelMilpSolver.level_step self v) ells st = Ok st'
                /\ stacked (Instance.W inst) d ids st'
                /\ fst st' <= fst st + LevelMilpSolver.sumZ (LevelValues.s v) ells
                              + d * Z.of_nat (List.length ells)
                /\ (forall q, In q (snd st') ->
                              In q (snd st)
                              \/ HeuristicSolver.top q
                                 <= fst st + LevelMilpSolver.sumZ (LevelValues.s v) ells
                                    + d * (Z.of_nat (List.length ells) - 1)).
Proof.
  pose proof (wf_kerf _ Hwf) as Hd. fold inst d in Hd.
  induction ells as [|ell ells IH]; intros st Hin I.
  - exists st. simpl. rewrite sumZ_nil. split; [reflexivity|]. split; [exact I|].
    split; [lia|auto].
  - destruct (level_step_stacked st ell (Hin ell (or_introl eq_refl)) I)
      as (st1 & E1 & I1 & Hy1 & Hq1).
    destruct (IH st1 (fun e He => Hin e (or_intror He)) I1) as (st' & E & I' & Hy & Hq).
    exists st'. cbn [for_each]. rewrite E1. cbn [bind].
    split; [exact E|]. split; [exact I'|].
    pose proof (LevelMilpSolver.bounds_s _ _ Hmodel ell (Hin ell (or_introl eq_refl))) as Hs0.
    assert (Hrest : 0 <= LevelMilpSolver.sumZ (LevelValues.s v) ells).
    { apply sumZ_nonneg. intros e He.
      apply (LevelMilpSolver.bounds_s _ _ Hmodel). apply Hin. now right. }
    assert (Hy0 : fst st <= fst st1).
    { destruct I as [_ Iin _]. clear -E1 Hs0 Hd.
      unfold LevelMilpSolver.level_step in E1. destruct st as [y pl].
      destruct (LevelValues.s v ell <=? 0); [inversion E1; simpl; lia|].
      apply bind_ok in E1 as (r & _ & E1). inversion E1; subst st1. simpl.
      fold inst d. destruct (0 <? LevelValues.s v ell); lia. }
    rewrite sumZ_cons. change (List.length (ell :: ells)) with (S (List.length ells)).
    rewrite Nat2Z.inj_succ. split; [lia|].
    intros q Hin'. destruct (Hq q Hin') as [Hold|Hnew].
    + destruct (Hq1 q Hold) as [Hold'|Hnew']; [now left|right]. nia.
    + right. nia.
Qed.

Lemma levels_stacked :
  exists st, for_each (LevelMilpSolver.level_step self v) L (0, []) = Ok st
             /\ stacked (Instance.W inst) d ids st
             /\ (forall q, In q (snd st) ->
                           HeuristicSolver.top q
                           <= LevelValues.H v + d * (Z.of_nat (List.length L) - 1)).
Proof.
  destruct (levels_stacked_from L (0, [])) as (st & E & I & _ & Hq); [auto| |].
  { constructor; simpl; [lia|constructor|constructor]. }
  exists st. split; [exact E|]. split; [exact I|].
  intros q Hin. destruct (Hq q Hin) as [[]|Hle].
  rewrite (LevelMilpSolver.total_height _ _ Hmodel). fold L. simpl in Hle. lia.
Qed.

Lemma level_solution_feasible (status : string) (a : Z) :
  rects <> [] -> Instance.forbidden_zones inst = [] ->
  Instance.area_lb inst = Ok a ->
  exists sol, LevelMilpSolver.solve self v status = Ok sol
              /\ Solution.check_feasibility sol inst = true
              /\ kerf_apart d (Solution.placements sol).
Proof.
  intros Hne Hz Ea. unfold LevelMilpSolver.solve. fold inst.
  pose proof (wf_W _ Hwf) as HW. fold inst in HW.
  rewrite Ea. cbn [bind].
  destruct (maxh_lb_nonempty inst ar Hne) as (m & Em). fold ar. rewrite Em. cbn [bind].
  destruct levels_stacked as (st & El & I & _). fold L. rewrite El. cbn [bind].
  eexists; split; [reflexivity|].
  destruct I as [Iy Iin Iap]. rewrite Forall_forall in Iin.
  split; [|exact Iap].
  pose proof (wf_kerf _ Hwf) as Hd. fold inst d in Hd.
  set (H := match snd st with
            | [] => 0
            | p :: ps => fold_left Z.max (map HeuristicSolver.top ps) (HeuristicSolver.top p)
            end).
  assert (Htop : forall q, In q (snd st) -> HeuristicSolver.top q <= H).
  { unfold H. destruct (snd st) as [|p ps]; [intros q []|].
    destruct (fold_max_le (map HeuristicSolver.top ps) (HeuristicSolver.top p)) as [H1 H2].
    rewrite Forall_forall in H2.
    intros q [<-|Hq]; [exact H1|]. apply H2, in_map, Hq. }
  apply check_feasibility_true; simpl; [| | |exact Hz].
  3:{ eapply ordered_weaken; [|exact Iap]. intros p q Hpq. cbv beta in Hpq.
      unfold apart, Solution.separated. rewrite !orb_true_iff, !Z.leb_le. lia. }
  - intros p Hp. destruct (Iin p Hp) as (? & ? & ? & _).
    specialize (Htop p Hp). unfold HeuristicSolver.top in Htop. repeat split; auto.
  - intros rid. split.
    + intros Hrid. fold rects ids in Hrid.
      apply in_map_iff in Hrid as (rc & <- & Hrc).
      destruct (level_assigned self v Hmodel rc Hrc) as (ell & Hell & Hon).
      assert (I0 : levels_inv (Instance.W inst) (0, [])).
      { constructor; simpl; [lia|constructor|].
        exists 0. repeat split; try lia. change (py_sum []) with 0; lia. congruence. }
      destruct (levels_loop self v Hwf Hmodel L (0, []) st (fun e He => He) I0 El)
        as (_ & _ & Hall).
      destruct (Hall ell (Rectangle.id rc) Hell (in_map _ _ _ Hrc) Hon) as (q & y & Hq & Hs).
      destruct Hs as (Eid & _). rewrite <- Eid. now apply in_map.
    + intros Hrid. apply in_map_iff in Hrid as (q & <- & Hq).
      now destruct (Iin q Hq) as (_ & _ & _ & _ & ?).
Qed.

Lemma level_height_le_objective (status : string) (sol : Solution.t) :
  LevelMilpSolver.solve self v status = Ok sol ->
  Solution.H sol <= LevelValues.H v + d * Z.max 0 (LevelMilpSolver.levels self - 1).
Proof.
  intros E. unfold LevelMilpSolver.solve in E.
  apply bind_ok in E as (a0 & _ & E). apply bind_ok in E as (m0 & _ & E).
  apply bind_ok in E as (st & El & E). inversion E; subst sol; clear E. simpl.
  destruct levels_stacked as (st' & El' & _ & Htops). fold L in El.
  rewrite El in El'. inversion El'; subst st'; clear El'.
  pose proof (wf_kerf _ Hwf) as Hd. fold inst d in Hd.
  pose proof (LevelMilpSolver.bounds_H _ _ Hmodel) as HH.
  assert (HL : Z.of_nat (List.length L) - 1 <= Z.max 0 (LevelMilpSolver.levels self - 1)).
  { unfold L, LevelMilpSolver.range. rewrite length_seq. lia. }
  destruct (snd st) as [|p ps] eqn:Es; [nia|].
  destruct (fold_max_in (map HeuristicSolver.top ps) (HeuristicSolver.top p)) as [->|Hin].
  - specialize (Htops p (or_introl eq_refl)). nia.
  - apply in_map_iff in Hin as (q & <- & Hq).
    specialize (Htops q (or_intror Hq)). nia.
Qed.
End LevelFeasible.

(** X18.  On a well-formed instance with at least one rectangle and no
    forbidden zone, whenever the backend reports values that satisfy the
    constraints of the level model, [solve] returns as soon as [area_lb]
    does (its float division can only overflow: [solve] then raises the same
    error); the solution it rebuilds from the values passes
    [check_feasibility], and any two of its placements keep the kerf between
    them along one axis. *)
Theorem level_model_returns_feasible (self : LevelMilpSolver.t) (v : LevelValues.t)
        (status : string) :
  well_formed (LevelMilpSolver.instance self) ->
  Instance.rectangles (LevelMilpSolver.instance self) <> [] ->
  Instance.forbidden_zones (LevelMilpSolver.instance self) = [] ->
  LevelMilpSolver.model self v ->
  match Instance.area_lb (LevelMilpSolver.instance self) with
  | Raise e => e = OverflowError /\ LevelMilpSolver.solve self v status = Raise e
  | Ok _ =>
      exists sol, LevelMilpSolver.solve self v status = Ok sol
                  /\ Solution.check_feasibility sol (LevelMilpSolver.instance self) = true
                  /\ kerf_apart (Instance.kerf_delta (LevelMilpSolver.instance self))
                                (Solution.placements sol)
  end.
Proof.
  intros Hwf Hne Hz Hmodel.
  destruct (Instance.area_lb (LevelMilpSolver.instance self)) as [a|e] eqn:Ea.
  - exact (level_solution_feasible self v Hwf Hmodel status a Hne Hz Ea).
  - split.
    + pose proof (wf_W _ Hwf) as HW.
      unfold Instance.area_lb, py_truediv in Ea.
      destruct (Z.eqb_spec (Instance.W (LevelMilpSolver.instance self)) 0) as [E0|_]; [lia|].
      destruct (_ =? 0); [discriminate|].
      destruct (_ && _); [|discriminate]. cbn [bind] in Ea. congruence.
    + unfold LevelMilpSolver.solve. rewrite Ea. reflexivity.
Qed.

Lemma level_model_returns_feasible_witness :
  exists sol, LevelMilpSolver.solve lock_solver lock_values "Optimal" = Ok sol
              /\ Solution.check_feasibility sol lock_instance = true
              /\ kerf_apart 0 (Solution.placements sol).
Proof.
  refine (level_model_returns_feasible lock_solver lock_values "Optimal" _ _ _ _).
  - constructor; simpl; [lia|lia| |].
    + repeat constructor.
    + repeat constructor. intros [].
  - simpl. discriminate.
  - reflexivity.
  - exact lock_values_model.
Defined.

(** X19.  The height the level solver returns is the highest placement
    top; under the constraints of the model it exceeds the reported
    objective [H] by at most one kerf per level above the first, so without
    kerf it never exceeds the objective. *)
Theorem level_height_within_objective (self : LevelMilpSolver.t) (v : LevelValues.t)
        (status : string) (sol : Solution.t) :
  well_formed (LevelMilpSolver.instance self) ->
  LevelMilpSolver.model self v ->
  LevelMilpSolver.solve self v status = Ok sol ->
  Solution.H sol
  <= LevelValues.H v
     + Instance.kerf_delta (LevelMilpSolver.instance self)
       * Z.max 0 (LevelMilpSolver.levels self - 1).
Proof.
  intros Hwf Hmodel E. exact (level_height_le_objective self v Hwf Hmodel status sol E).
Qed.

Lemma level_height_within_objective_witness :
  Solution.H (Solution.mk 3 [Placement.mk 1 0 0 6 3 true] "MILP-ShelfLevel" (Some "Optimal"%string))
  <= LevelValues.H lock_values
     + Instance.kerf_delta (LevelMilpSolver.instance lock_solver)
       * Z.max 0 (LevelMilpSolver.levels lock_solver - 1).
Proof.
  apply (level_height_within_objective lock_solver lock_values "Optimal").
  - constructor; simpl; [lia|lia| |].
    + repeat constructor.
    + repeat constructor. intros [].
  - exact lock_values_model.
  - reflexivity.
Defined.

(** ** Feasibility of what the coordinate model returns *)

Lemma first_with_id_unique (rects : list Rectangle.t) (r : Rectangle.t) :
  NoDup (map Rectangle.id rects) -> In r rects ->
  first_with_id rects (Rectangle.id r) = Ok r.
Proof.
  intros Hnd Hr. unfold first_with_id.
  destruct (find _ rects) as [r'|] eqn:E.
  - apply find_some in E as [Hin E]. apply Z.eqb_eq in E. f_equal.
    eapply NoDup_map_eq; eauto.
  - pose proof (find_none _ _ E r Hr) as Hf. simpl in Hf.
    rewrite Z.eqb_refl in Hf. discriminate.
Qed.

Lemma combinations2_split {A : Type} (pre mid post : list A) (a b : A) :
  In (a, b) (combinations2 (pre ++ a :: mid ++ b :: post)).
Proof.
  induction pre as [|c pre IH]; simpl.
  - apply in_or_app. left. apply in_map. apply in_or_app. right. now left.
  - apply in_or_app. right. exact IH.
Qed.

Lemma ordered_map {A B : Type} (f : A -> B) (R : B -> B -> Prop) (l : list A) :
  ForallOrdPairs (fun a b => R (f a) (f b)) l -> ForallOrdPairs R (map f l).
Proof.
  induction 1 as [|a l Ha Hl IH]; simpl; constructor; [|exact IH].
  rewrite Forall_forall in *. intros y Hy.
  apply in_map_iff in Hy as (x & <- & Hx). auto.
Qed.

Section CoordFeasible.
Variable self : MilpSolver.t.
Variable v : CoordValues.t.
Variable b : CoordModel.sides.
Variables Mx My : Z.

Let inst : Instance.t := MilpSolver.instance self.
Let rects : list Rectangle.t := Instance.rectangles inst.
Let d : Z := Instance.kerf_delta inst.

Hypothesis ids_unique : NoDup (map Rectangle.id rects).
Hypothesis kerf_nonneg : 0 <= d.
Hypothesis Hmodel : CoordModel.holds self v b Mx My.

Lemma read_placement_dims (rect : Rectangle.t) :
  In rect rects ->
  let p := MilpSolver.read_placement self v rect in
  Placement.rect_id p = Rectangle.id rect
  /\ Placement.x p = py_or (CoordValues.x v (Rectangle.id rect)) 0
  /\ Placement.y p = py_or (CoordValues.y v (Rectangle.id rect)) 0
  /\ Placement.w_eff p = CoordModel.w_eff self v rect
  /\ Placement.h_eff p = CoordModel.h_eff self v rect.
Proof.
  intros Hr. cbv zeta.
  unfold MilpSolver.read_placement, CoordModel.w_eff, CoordModel.h_eff.
  destruct (MilpSolver.allow_rotation self) eqn:Ea; cbn [negb orb andb]; [|auto 6].
  destruct (Rectangle.rotatable rect); cbn [negb orb andb]; [|auto 6].
  destruct (CoordModel.binary_r _ _ _ _ _ Hmodel (Rectangle.id rect) Ea (in_map _ _ _ Hr))
    as [E|E]; rewrite E.
  - change (0 =? 1) with false. cbn [Placement.rect_id Placement.x Placement.y
                                     Placement.w_eff Placement.h_eff].
    repeat split; lia.
  - change (1 =? 1) with true. cbn [Placement.rect_id Placement.x Placement.y
                                    Placement.w_eff Placement.h_eff].
    repeat split; lia.
Qed.

Lemma coordinate_pairs_apart :
  kerf_apart d (map (MilpSolver.read_placement self v) rects).
Proof.
  unfold kerf_apart. apply ordered_map. apply ordered_pairs_split.
  intros pre ra mid rb post E.
  assert (Ha : In ra rects) by (rewrite E; apply in_or_app; right; now left).
  assert (Hb : In rb rects).
  { rewrite E. apply in_or_app. right. right. apply in_or_app. right. now left. }
  assert (Hpair : In (Rectangle.id ra, Rectangle.id rb) (combinations2 (map Rectangle.id rects))).
  { rewrite E, map_app. simpl. rewrite map_app. simpl. apply combinations2_split. }
  pose proof (CoordModel.non_overlap _ _ _ _ _ Hmodel _ _ ra rb Hpair
                (first_with_id_unique _ _ ids_unique Ha)
                (first_with_id_unique _ _ ids_unique Hb)) as Hc.
  cbv zeta in Hc. fold inst d in Hc.
  destruct Hc as (BL & BR & BU & BD & Hsum & HL & HR & HD & HU).
  destruct (read_placement_dims ra Ha) as (_ & -> & -> & -> & ->).
  destruct (read_placement_dims rb Hb) as (_ & -> & -> & -> & ->).
  unfold LevelMilpSolver.binary in *.
  destruct BL as [EL|EL]; [|rewrite EL in HL; lia].
  destruct BR as [ER|ER]; [|rewrite ER in HR; lia].
  destruct BD as [ED|ED]; [|rewrite ED in HD; lia].
  destruct BU as [EU|EU]; [|rewrite EU in HU; lia].
  lia.
Qed.

Lemma coordinate_solution_feasible (status : string) :
  rects <> [] ->
  exists sol, MilpSolver.build self v status = Ok sol
              /\ Solution.check_feasibility sol inst = true
              /\ kerf_apart d (Solution.placements sol).
Proof.
  intros Hne. unfold MilpSolver.build. fold inst rects.
  set (pl := map (MilpSolver.read_placement self v) rects).
  assert (Hmax : exists m, py_max (map HeuristicSolver.top pl) = Ok m).
  { apply py_max_nonempty. unfold pl. destruct rects; [congruence|discriminate]. }
  destruct Hmax as (m & Em).
  assert (HH : exists H, match CoordValues.H v with
                         | Some a => if a =? 0 then py_max (map HeuristicSolver.top pl) else Ok a
                         | None => py_max (map HeuristicSolver.top pl)
                         end = Ok H
                         /\ (H = py_or (CoordValues.H v) 0 \/ H = m)).
  { unfold py_or. destruct (CoordValues.H v) as [a|]; [|exists m; auto].
    destruct (a =? 0); [exists m; auto|exists a; auto]. }
  destruct HH as (H & -> & HHv). cbn [bind].
  eexists; split; [reflexivity|]. split; [|exact coordinate_pairs_apart].
  apply feasible_iff. simpl. fold pl.
  split; [|split; [|split]].
  - intros p Hp. unfold pl in Hp. apply in_map_iff in Hp as (rect & <- & Hr).
    assert (Htop : HeuristicSolver.top (MilpSolver.read_placement self v rect) <= m).
    { apply py_max_ok in Em as [_ Hall]. rewrite Forall_forall in Hall.
      apply Hall, in_map. unfold pl. now apply in_map. }
    unfold HeuristicSolver.top in Htop.
    destruct (read_placement_dims rect Hr) as (_ & Ex & Ey & Ew & Eh).
    rewrite Ex, Ey, Ew, Eh in *.
    destruct (CoordModel.strip_bounds _ _ _ _ _ Hmodel rect Hr) as [Hx Hy].
    fold inst in Hx.
    pose proof (CoordModel.lower_x _ _ _ _ _ Hmodel _ (in_map Rectangle.id _ _ Hr)).
    pose proof (CoordModel.lower_y _ _ _ _ _ Hmodel _ (in_map Rectangle.id _ _ Hr)).
    repeat split; try assumption.
    destruct HHv as [->| ->]; [exact Hy|exact Htop].
  - intros a. unfold pl. rewrite map_map.
    assert (E : map (fun r => Placement.rect_id (MilpSolver.read_placement self v r)) rects
                = map Rectangle.id rects).
    { apply map_ext_in. intros r Hr. now destruct (read_placement_dims r Hr) as (-> & _). }
    rewrite E. reflexivity.
  - eapply ordered_weaken; [|exact coordinate_pairs_apart].
    intros p q Hpq. cbv beta in Hpq. unfold apart, Solution.separated.
    rewrite !orb_true_iff, !Z.leb_le. pose proof kerf_nonneg. lia.
  - intros p z Hp Hz. unfold pl in Hp. apply in_map_iff in Hp as (rect & <- & Hr).
    destruct z as [[[zx zy] zw] zh].
    apply In_nth_error in Hz as (k & Hk).
    pose proof (CoordModel.zones _ _ _ _ _ Hmodel (Rectangle.id rect) k zx zy zw zh rect
                  (in_map Rectangle.id _ _ Hr) Hk
                  (first_with_id_unique _ _ ids_unique Hr)) as Hc.
    cbv zeta in Hc. fold inst d in Hc.
    destruct Hc as (BL & BR & BU & BD & Hsum & HL & HR & HD & HU).
    unfold Solution.inter.
    destruct (read_placement_dims rect Hr) as (_ & -> & -> & -> & ->).
    apply negb_false_iff. rewrite !orb_true_iff, !Z.leb_le.
    unfold LevelMilpSolver.binary in *.
    destruct BL as [EL|EL]; [|rewrite EL in HL; lia].
    destruct BR as [ER|ER]; [|rewrite ER in HR; lia].
    destruct BD as [ED|ED]; [|rewrite ED in HD; lia].
    destruct BU as [EU|EU]; [|rewrite EU in HU; lia].
    lia.
Qed.
End CoordFeasible.

(** X21.  When the backend reports values that satisfy the bounds, the
    strip bounds and the non-overlap and forbidden-zone disjunctions of the
    coordinate model, the solution [build] reads back from them passes
    [check_feasibility], forbidden zones included, and any two of its
    placements keep the kerf between them along one axis. *)
Theorem coordinate_model_returns_feasible (self : MilpSolver.t) (v : CoordValues.t)
        (b : CoordModel.sides) (Mx My : Z) (status : string) :
  NoDup (map Rectangle.id (Instance.rectangles (MilpSolver.instance self))) ->
  0 <= Instance.kerf_delta (MilpSolver.instance self) ->
  Instance.rectangles (MilpSolver.instance self) <> [] ->
  CoordModel.holds self v b Mx My ->
  exists sol, MilpSolver.build self v status = Ok sol
              /\ Solution.check_feasibility sol (MilpSolver.instance self) = true
              /\ kerf_apart (Instance.kerf_delta (MilpSolver.instance self))
                            (Solution.placements sol).
Proof.
  intros Hnd Hd Hne Hm.
  exact (coordinate_solution_feasible self v b Mx My Hnd Hd Hm status Hne).
Qed.

Lemma fenced_values_hold :
  CoordModel.holds (MilpSolver.mk fenced_instance true true 2)
                   fenced_values fenced_sides 15 10.
Proof.
  constructor; simpl.
  - intros rid [<-|[<-|[]]]; vm_compute; discriminate.
  - intros rid _. vm_compute. discriminate.
  - intros rid _ _. now left.
  - intros rect [<-|[<-|[]]]; vm_compute; split; discriminate.
  - intros i j Ri Rj [E|[]]. inversion E; subst i j.
    intros E1 E2. inversion E1; subst Ri. inversion E2; subst Rj.
    unfold LevelMilpSolver.binary. vm_compute.
    repeat split; auto; discriminate.
  - intros rid k zx zy zw zh Rct Hrid Hk E.
    destruct k as [|k]; [|destruct k; discriminate]. inversion Hk; subst zx zy zw zh.
    unfold LevelMilpSolver.binary.
    destruct Hrid as [<-|[<-|[]]]; inversion E; subst Rct; vm_compute;
      repeat split; auto; discriminate.
Qed.

Lemma coordinate_model_returns_feasible_witness :
  exists sol, MilpSolver.build (MilpSolver.mk fenced_instance true true 2) fenced_values
                               "Optimal" = Ok sol
              /\ Solution.check_feasibility sol fenced_instance = true
              /\ kerf_apart 2 (Solution.placements sol).
Proof.
  apply (coordinate_model_returns_feasible (MilpSolver.mk fenced_instance true true 2)
           fenced_values fenced_sides 15 10 "Optimal").
  - simpl. repeat constructor; simpl; intuition discriminate.
  - simpl. lia.
  - simpl. discriminate.
  - exact fenced_values_hold.
Defined.

(** ** What the coordinate solver prepares *)

(** X22.  On a well-formed instance with at least one rectangle, a total
    area below 2^53 on a width below 2^1075, every oriented width within the
    strip and every id between 1 and the number of rectangles, [solve]
    reaches the backend: the skyline heuristic returns, the lower bound given
    to [H] is the larger of the two bounds and at most the height of that
    packing, and that at most the upper bound.  With warm start every
    rectangle gets one seed, in list order, at the position the heuristic
    gave to its id, with a rotation value exactly when rotation is allowed
    and the rectangle at list position [id - 1] is rotatable; without warm
    start there is no seed. *)
Theorem coordinate_solver_prepares (self : MilpSolver.t) :
  well_formed (MilpSolver.instance self) ->
  double_exact (MilpSolver.instance self) ->
  Instance.rectangles (MilpSolver.instance self) <> [] ->
  Forall (fun r => oriented_width (MilpSolver.allow_rotation self) r
                   <= Instance.W (MilpSolver.instance self))
         (Instance.rectangles (MilpSolver.instance self)) ->
  (forall r, In r (Instance.rectangles (MilpSolver.instance self)) ->
             1 <= Rectangle.id r
             <= Z.of_nat (List.length (Instance.rectangles (MilpSolver.instance self)))) ->
  exists a m seeds hsol,
    MilpSolver.prepare self = Ok (Z.max a m, Z.max (Solution.H hsol) m, seeds)
    /\ Instance.area_lb (MilpSolver.instance self) = Ok a
    /\ Instance.maxh_lb (MilpSolver.instance self) (MilpSolver.allow_rotation self) = Ok m
    /\ HeuristicSolver.solve
         (HeuristicSolver.mk (MilpSolver.instance self) (MilpSolver.allow_rotation self)
                             Skyline false) = Ok hsol
    /\ Z.max a m <= Solution.H hsol <= Z.max (Solution.H hsol) m
    /\ (MilpSolver.warm_start self = false -> seeds = [])
    /\ (MilpSolver.warm_start self = true ->
        Forall2 (seeded_from self hsol)
                (Instance.rectangles (MilpSolver.instance self)) seeds).
Proof.
  intros Hwf Hde Hne Hfit Hrange.
  set (hs := HeuristicSolver.mk (MilpSolver.instance self) (MilpSolver.allow_rotation self)
                                Skyline false).
  destruct (heuristic_raises hs) as [(_ & hsol & Eh)|(r & Hr & Hgt & _)];
    [discriminate| |].
  2:{ exfalso. simpl in Hr, Hgt. rewrite Forall_forall in Hfit.
      specialize (Hfit r Hr). lia. }
  destruct (maxh_lb_nonempty (MilpSolver.instance self) (MilpSolver.allow_rotation self) Hne)
    as (m & Em).
  pose proof (area_lb_exact (MilpSolver.instance self) (wf_W _ Hwf) Hde
                            (area_nonneg _ (wf_dims _ Hwf))) as Ea.
  set (a := - (- py_sum (map Rectangle.area (Instance.rectangles (MilpSolver.instance self)))
               / Instance.W (MilpSolver.instance self))) in *.
  pose proof (heuristic_bounds hs hsol a m Hwf Hde Eh Ea Em) as Hlb.
  destruct (warm_loop_seeds self hsol (Instance.rectangles (MilpSolver.instance self)) [])
    as (new & Eseeds & Hseeds).
  { intros r Hr. specialize (Hrange r Hr). lia. }
  { intros r Hr. apply (heuristic_ids hs hsol Eh). now apply in_map. }
  unfold MilpSolver.prepare. fold hs. rewrite Eh. cbn [bind]. rewrite Em. cbn [bind].
  rewrite Ea. cbn [bind].
  destruct (MilpSolver.warm_start self) eqn:Ew.
  - rewrite Eseeds. cbn [bind app].
    exists a, m, new, hsol.
    split; [reflexivity|]. split; [reflexivity|]. split; [reflexivity|].
    split; [reflexivity|]. split; [lia|].
    split; [discriminate|intros _; exact Hseeds].
  - cbn [bind].
    exists a, m, [], hsol.
    split; [reflexivity|]. split; [reflexivity|]. split; [reflexivity|].
    split; [reflexivity|]. split; [lia|].
    split; [reflexivity|discriminate].
Qed.

Lemma coordinate_solver_prepares_witness :
  exists a m seeds hsol,
    MilpSolver.prepare (MilpSolver.mk kerf_instance true true 2)
    = Ok (Z.max a m, Z.max (Solution.H hsol) m, seeds)
    /\ Instance.area_lb kerf_instance = Ok a
    /\ Instance.maxh_lb kerf_instance true = Ok m
    /\ HeuristicSolver.solve (HeuristicSolver.mk kerf_instance true Skyline false) = Ok hsol
    /\ Z.max a m <= Solution.H hsol <= Z.max (Solution.H hsol) m
    /\ (true = false -> seeds = [])
    /\ (true = true ->
        Forall2 (seeded_from (MilpSolver.mk kerf_instance true true 2) hsol)
                (Instance.rectangles kerf_instance) seeds).
Proof.
  apply (coordinate_solver_prepares (MilpSolver.mk kerf_instance true true 2)).
  - exact kerf_instance_well_formed.
  - split; vm_compute; reflexivity.
  - simpl. discriminate.
  - simpl. repeat constructor; vm_compute; discriminate.
  - simpl. intros r [<-|[<-|[]]]; simpl; lia.
Defined.

(** ** Instances without rectangles *)

(** X20.  On an instance without rectangles both model-based solvers
    raise before the backend is called, whatever it would report: the
    coordinate solver and, on a strip of non-zero width, the level solver
    raise the error of [max()] on an empty sequence in [maxh_lb]; on width 0
    the level solver raises the division error of [area_lb] first. *)
Theorem model_solvers_raise_without_rectangles (inst : Instance.t) :
  Instance.rectangles inst = [] ->
  (forall ar warm radius v status,
      MilpSolver.solve (MilpSolver.mk inst ar warm radius) v status = Raise EmptySequence)
  /\ (forall ar max_levels time_limit v status,
         LevelMilpSolver.solve (LevelMilpSolver.mk inst ar max_levels time_limit) v status
         = if Instance.W inst =? 0 then Raise ZeroDivisionError else Raise EmptySequence).
Proof.
  intros Hempty. split.
  - intros ar warm radius v status.
    unfold MilpSolver.solve, MilpSolver.prepare, HeuristicSolver.solve,
      HeuristicSolver._skyline, Instance.maxh_lb. simpl. rewrite Hempty. simpl.
    destruct ar; reflexivity.
  - intros ar max_levels time_limit v status.
    unfold LevelMilpSolver.solve, Instance.area_lb, Instance.maxh_lb, py_truediv.
    cbn [LevelMilpSolver.instance LevelMilpSolver.allow_rotation].
    rewrite Hempty. change (py_sum (map Rectangle.area [])) with 0.
    destruct (Instance.W inst =? 0); [reflexivity|].
    destruct ar; reflexivity.
Qed.

Lemma model_solvers_raise_without_rectangles_witness :
  MilpSolver.solve (MilpSolver.mk (Instance.mk 10 [] 0 []) true true 2)
                   fenced_values "Optimal" = Raise EmptySequence.
Proof.
  apply (model_solvers_raise_without_rectangles (Instance.mk 10 [] 0 [])). reflexivity.
Defined.

(** ** Instances read from the form *)

Lemma NoDup_snoc {A : Type} (l : list A) (a : A) :
  NoDup l -> ~ In a l -> NoDup (l ++ [a]).
Proof.
  intros Hl Ha. apply (Permutation_NoDup (l := a :: l)).
  - apply Permutation_cons_append.
  - now constructor.
Qed.

Lemma collect_rects_spec (rows : list (option (Z * Z * Z * bool))) :
  forall rects seen out,
    seen = map Rectangle.id rects ->
    SPPApp.collect_rects rows rects seen = SPPApp.Accepted out ->
    exists new,
      out = rects ++ new
      /\ rows = map (fun r => Some (Rectangle.id r, Rectangle.w r, Rectangle.h r,
                                    Rectangle.rotatable r)) new
      /\ Forall positive_sides new
      /\ (NoDup (map Rectangle.id rects) -> NoDup (map Rectangle.id out)).
Proof.
  induction rows as [|row rows IH]; intros rects seen out Hseen E; simpl in E.
  - inversion E; subst out. exists []. rewrite app_nil_r.
    split; [reflexivity|]. split; [reflexivity|]. split; [constructor|auto].
  - destruct row as [[[[rid w] h] rot]|]; simpl in E; [|discriminate].
    destruct (mem rid seen) eqn:Em; [discriminate|].
    destruct ((w <=? 0) || (h <=? 0)) eqn:Ep; [discriminate|].
    apply orb_false_iff in Ep as [Ew Eh]. apply Z.leb_gt in Ew, Eh.
    assert (Hseen' : seen ++ [rid]
                     = map Rectangle.id (rects ++ [Rectangle.mk rid w h rot]))
      by (rewrite map_app, Hseen; reflexivity).
    destruct (IH _ _ _ Hseen' E) as (new & Eout & Erows & Hpos & Hnd).
    exists (Rectangle.mk rid w h rot :: new).
    split; [rewrite Eout, <- app_assoc; reflexivity|].
    split; [simpl; now rewrite Erows|].
    split; [constructor; [split; simpl; lia|exact Hpos]|].
    intros Hnd0. apply Hnd. rewrite map_app. simpl.
    apply NoDup_snoc; [exact Hnd0|].
    intros Hin. rewrite <- Hseen in Hin. apply mem_in in Hin. congruence.
Qed.

Lemma collect_rects_complete (new : list Rectangle.t) :
  forall rects seen,
    seen = map Rectangle.id rects ->
    NoDup (map Rectangle.id (rects ++ new)) -> Forall positive_sides new ->
    SPPApp.collect_rects
      (map (fun r => Some (Rectangle.id r, Rectangle.w r, Rectangle.h r,
                           Rectangle.rotatable r)) new) rects seen
    = SPPApp.Accepted (rects ++ new).
Proof.
  induction new as [|r new IH]; intros rects seen Hseen Hnd Hpos; simpl.
  - now rewrite app_nil_r.
  - inversion Hpos as [|? ? [Hw Hh] Hpos']; subst.
    assert (Em : mem (Rectangle.id r) (map Rectangle.id rects) = false).
    { destruct (mem _ _) eqn:Em; [|reflexivity]. apply mem_in in Em.
      rewrite map_app in Hnd. simpl in Hnd. apply NoDup_remove_2 in Hnd.
      exfalso. apply Hnd. apply in_or_app. now left. }
    rewrite Em.
    replace ((Rectangle.w r <=? 0) || (Rectangle.h r <=? 0)) with false.
    2:{ symmetry. apply orb_false_iff. split; apply Z.leb_gt; assumption. }
    replace (Rectangle.mk (Rectangle.id r) (Rectangle.w r) (Rectangle.h r)
                          (Rectangle.rotatable r)) with r by (now destruct r).
    rewrite (IH (rects ++ [r]) (map Rectangle.id rects ++ [Rectangle.id r])).
    + now rewrite <- app_assoc.
    + now rewrite map_app.
    + now rewrite <- app_assoc.
    + exact Hpos'.
Qed.

Lemma collect_zones_spec (rows : list (option (Z * Z * Z * Z))) :
  forall fz out,
    SPPApp.collect_zones rows fz = SPPApp.Accepted out ->
    exists new, out = fz ++ new /\ rows = map Some new
                /\ Forall (fun z => 0 < snd (fst z) /\ 0 < snd z) new.
Proof.
  induction rows as [|row rows IH]; intros fz out E; simpl in E.
  - inversion E; subst out. exists []. rewrite app_nil_r. repeat split; constructor.
  - destruct row as [[[[x y] w] h]|]; simpl in E; [|discriminate].
    destruct ((w <=? 0) || (h <=? 0)) eqn:Ep; [discriminate|].
    apply orb_false_iff in Ep as [Ew Eh]. apply Z.leb_gt in Ew, Eh.
    destruct (IH _ _ E) as (new & Eout & Erows & Hpos).
    exists ((x, y, w, h) :: new).
    split; [rewrite Eout, <- app_assoc; reflexivity|].
    split; [simpl; now rewrite Erows|]. constructor; [simpl; lia|exact Hpos].
Qed.

Lemma collect_zones_complete (new : list ForbiddenZone) :
  forall fz,
    Forall (fun z => 0 < snd (fst z) /\ 0 < snd z) new ->
    SPPApp.collect_zones (map Some new) fz = SPPApp.Accepted (fz ++ new).
Proof.
  induction new as [|[[[x y] w] h] new IH]; intros fz Hpos; simpl.
  - now rewrite app_nil_r.
  - inversion Hpos as [|? ? [Hw Hh] Hpos']; subst. simpl in Hw, Hh.
    replace ((w <=? 0) || (h <=? 0)) with false.
    2:{ symmetry. apply orb_false_iff. split; apply Z.leb_gt; assumption. }
    rewrite IH by exact Hpos'. now rewrite <- app_assoc.
Qed.

Lemma form_accepts_entries_aux (inst : Instance.t) (W kerf : option Z)
      (rect_rows : list (option (Z * Z * Z * bool)))
      (fz_rows : list (option (Z * Z * Z * Z))) :
  SPPApp._collect_instance W kerf rect_rows fz_rows = SPPApp.Accepted inst ->
  NoDup (map Rectangle.id (Instance.rectangles inst))
  /\ Forall positive_sides (Instance.rectangles inst).
Proof.
  unfold SPPApp._collect_instance.
  destruct W as [W'|]; simpl; [|discriminate].
  destruct kerf as [kerf'|]; simpl; [|discriminate].
  destruct (SPPApp.collect_rects rect_rows [] []) as [rects|] eqn:Er; [|discriminate].
  destruct (SPPApp.collect_zones fz_rows []) as [fz|] eqn:Ez; [|discriminate].
  intros E. inversion E; subst inst; clear E. simpl.
  destruct (collect_rects_spec _ _ _ _ eq_refl Er) as (new & -> & Erows & Hpos & Hnd).
  simpl in *. split; [apply Hnd; constructor|exact Hpos].
Qed.

(** X23.  The form accepts exactly the entries that parse, whose
    rectangle ids are pairwise different, and whose rectangles and forbidden
    zones have positive sides; the instance it builds lists them in the order
    of the rows.  Strip width and kerf are taken as entered: no sign is
    checked on them. *)
Theorem form_accepts_distinct_positive_entries (inst : Instance.t)
        (W kerf : option Z) (rect_rows : list (option (Z * Z * Z * bool)))
        (fz_rows : list (option (Z * Z * Z * Z))) :
  SPPApp._collect_instance W kerf rect_rows fz_rows = SPPApp.Accepted inst
  <-> (W = Some (Instance.W inst) /\ kerf = Some (Instance.kerf_delta inst)
       /\ rect_rows = map (fun r => Some (Rectangle.id r, Rectangle.w r, Rectangle.h r,
                                          Rectangle.rotatable r))
                          (Instance.rectangles inst)
       /\ fz_rows = map Some (Instance.forbidden_zones inst)
       /\ NoDup (map Rectangle.id (Instance.rectangles inst))
       /\ Forall positive_sides (Instance.rectangles inst)
       /\ Forall (fun z => 0 < snd (fst z) /\ 0 < snd z) (Instance.forbidden_zones inst)).
Proof.
  unfold SPPApp._collect_instance. split.
  - destruct W as [W'|]; simpl; [|discriminate].
    destruct kerf as [kerf'|]; simpl; [|discriminate].
    destruct (SPPApp.collect_rects rect_rows [] []) as [rects|] eqn:Er; [|discriminate].
    destruct (SPPApp.collect_zones fz_rows []) as [fz|] eqn:Ez; [|discriminate].
    intros E. inversion E; subst inst; clear E. simpl.
    destruct (collect_rects_spec _ _ _ _ eq_refl Er) as (new & -> & Erows & Hpos & Hnd).
    destruct (collect_zones_spec _ _ _ Ez) as (newz & -> & Ezrows & Hzpos).
    simpl in *. repeat split; auto. apply Hnd. constructor.
  - intros (-> & -> & -> & -> & Hnd & Hpos & Hz). simpl.
    rewrite (collect_rects_complete _ [] [] eq_refl Hnd Hpos).
    rewrite (collect_zones_complete _ [] Hz). simpl. now destruct inst.
Qed.

Lemma accepted_instance_well_formed (inst : Instance.t) (W kerf : option Z)
      (rect_rows : list (option (Z * Z * Z * bool)))
      (fz_rows : list (option (Z * Z * Z * Z))) :
  SPPApp._collect_instance W kerf rect_rows fz_rows = SPPApp.Accepted inst ->
  0 < Instance.W inst -> 0 <= Instance.kerf_delta inst -> well_formed inst.
Proof.
  intros E HW Hd. apply form_accepts_entries_aux in E as (Hnd & Hpos).
  constructor; assumption.
Qed.

(** ** Heights and the two lower bounds *)

(** X25.  On a well-formed instance whose total area is below 2^53 (on a
    width below 2^1075), every solution the heuristic engine returns, under
    either policy, and every solution GA, SA or Tabu returns, whatever the
    random draws, is at least as high as both lower bounds. *)
Theorem heights_reach_lower_bounds (inst : Instance.t) (ar : bool) (a m : Z) :
  well_formed inst ->
  double_exact inst ->
  Instance.area_lb inst = Ok a ->
  Instance.maxh_lb inst ar = Ok m ->
  (forall pol g sol,
      HeuristicSolver.solve (HeuristicSolver.mk inst ar pol g) = Ok sol ->
      Z.max a m <= Solution.H sol)
  /\ (forall strat time_limit population elite rnd fuel sol,
         shuffles rnd inst ->
         MetaheuristicSolver.solve
           (MetaheuristicSolver.mk inst ar strat time_limit population elite) rnd fuel
         = Ok (Some sol) ->
         Z.max a m <= Solution.H sol).
Proof.
  intros Hwf Hde Ea Em. split.
  - intros pol g sol E.
    exact (heuristic_bounds (HeuristicSolver.mk inst ar pol g) sol a m Hwf Hde E Ea Em).
  - intros strat time_limit population elite rnd fuel sol Hfair E.
    set (self := MetaheuristicSolver.mk inst ar strat time_limit population elite) in *.
    apply (solve_keeps self rnd (fun s => Z.max a m <= Solution.H s)
                       (wf_ids _ Hwf) Hfair) with (fuel := fuel); [|exact E].
    intros perm bits s Hc Ed.
    exact (decode_bounds self perm bits s a m Hwf Hde Hc Ed Ea Em).
Qed.

Lemma heights_reach_lower_bounds_witness :
  Z.max 3 3 <= Solution.H
                 (Solution.mk 3 [Placement.mk 1 0 0 4 3 false; Placement.mk 2 6 0 4 3 false]
                              "Heuristic-NFDH" (Some "feasible"%string)).
Proof.
  refine (proj1 (heights_reach_lower_bounds kerf_instance true 3 3
                   kerf_instance_well_formed _ eq_refl eq_refl) NFDH false _ _).
  - split; vm_compute; reflexivity.
  - reflexivity.
Defined.

(** X26.  On a well-formed instance whose total area is below 2^53 (on a
    width below 2^1075), whenever the backend reports values that satisfy
    the constraints of the level model, the height of the solution the level
    solver rebuilds is at least both lower bounds. *)
Theorem level_height_reaches_lower_bounds (self : LevelMilpSolver.t) (v : LevelValues.t)
        (status : string) (sol : Solution.t) (a m : Z) :
  well_formed (LevelMilpSolver.instance self) ->
  double_exact (LevelMilpSolver.instance self) ->
  LevelMilpSolver.model self v ->
  LevelMilpSolver.solve self v status = Ok sol ->
  Instance.area_lb (LevelMilpSolver.instance self) = Ok a ->
  Instance.maxh_lb (LevelMilpSolver.instance self) (LevelMilpSolver.allow_rotation self)
  = Ok m ->
  Z.max a m <= Solution.H sol.
Proof.
  intros Hwf Hde Hmodel E Ea Em.
  exact (level_bounds self v Hwf Hmodel status sol a m Hde E Ea Em).
Qed.

Lemma level_height_reaches_lower_bounds_witness :
  Z.max 2 3 <= Solution.H (Solution.mk 3 [Placement.mk 1 0 0 6 3 true] "MILP-ShelfLevel"
                                       (Some "Optimal"%string)).
Proof.
  apply (level_height_reaches_lower_bounds lock_solver lock_values "Optimal" _ 2 3).
  - constructor; simpl; [lia|lia| |].
    + repeat constructor.
    + repeat constructor. intros [].
  - split; vm_compute; reflexivity.
  - exact lock_values_model.
  - reflexivity.
  - reflexivity.
  - reflexivity.
Defined.
